(** * Scriptorium lambda: batching, double buffering and checkpoint arithmetic

    A shallow embedding of [Batch], [OffsetBatch], [BatchManager],
    [WorkManager] and [ScriptoriumLambda] (the TypeScript source embedded in
    server/gateway/charts/templates/deployment.yaml, lines 53-405), and the
    properties of the checkpointed batching stream processor proved about it.

    JavaScript runs the lambda on one thread: [handler], [add], the
    continuations of the sender's promise and the event listeners are each
    run to completion.  The embedding therefore is a labelled transition
    system: one transition per call of a public method and one per settlement
    of a promise returned by a sender. *)

From Stdlib Require Import ZArith String List Bool Lia.
From stdpp Require Import base list.
Import ListNotations.

Set Default Proof Using "Type".

(** ** Offsets

    Log offsets are JavaScript numbers.  The code only ever stores integers
    (the offsets of the log and [offset - 1]) and [Number.NEGATIVE_INFINITY];
    the embedding has exactly those values. *)
Module Offset.

Inductive t : Type :=
| NegInf            (* Number.NEGATIVE_INFINITY *)
| Fin (z : Z).

(** [a <= b] on numbers *)
Definition leb (a b : t) : bool :=
  match a, b with
  | NegInf, _ => true
  | Fin _, NegInf => false
  | Fin x, Fin y => (x <=? y)%Z
  end.

(** [a === b] *)
Definition eqb (a b : t) : bool :=
  match a, b with
  | NegInf, NegInf => true
  | Fin x, Fin y => (x =? y)%Z
  | _, _ => false
  end.

(** [Math.max(a, b)] and [Math.min(a, b)] *)
Definition max (a b : t) : t := if leb a b then b else a.
Definition min (a b : t) : t := if leb a b then a else b.

Definition le (a b : t) : Prop :=
  match a, b with
  | NegInf, _ => True
  | Fin _, NegInf => False
  | Fin x, Fin y => (x <= y)%Z
  end.

Definition lt (a b : t) : Prop :=
  match a, b with
  | _, NegInf => False
  | NegInf, Fin _ => True
  | Fin x, Fin y => (x < y)%Z
  end.

End Offset.

Abbreviation NegInf := Offset.NegInf.
Abbreviation Fin := Offset.Fin.

(** ** Range *)
Module Range.

(** Modelled from the spec: the class [Range] of the client API
    ([coreUtils.Range]) is imported by the source but its file is not part
    of it.  Section 3 and 4.1 of the specification give it as an interval
    with the fields [head] and [tail], both the sentinel (negative infinity)
    when nothing was stored, [empty] true when [head] is the sentinel, and
    [union] returning the empty range for two empty operands, the other
    operand when one is empty, and [min] of the tails and [max] of the heads
    otherwise. *)
Record t : Type := mk { tail : Offset.t; head : Offset.t }.

(** Modelled from the spec: [new Range()], the empty range of step 2 of
    [recompute]; [new Range(MinRangeValue, MinRangeValue)] is the same. *)
Definition new : t := mk NegInf NegInf.

(** Modelled from the spec: the getter [empty] of the absent class [Range]:
    true when [head] is the sentinel. *)
Definition empty (r : t) : bool := Offset.eqb (head r) NegInf.

(** Modelled from the spec: the static method [union] of the absent class
    [Range]. *)
Definition union (a b : t) : t :=
  if empty a && empty b then new
  else if empty a then b
  else if empty b then a
  else mk (Offset.min (tail a) (tail b)) (Offset.max (head a) (head b)).

Definition set_head (o : Offset.t) (r : t) : t := mk (tail r) o.
Definition set_tail (o : Offset.t) (r : t) : t := mk o (head r).

End Range.

(** ** Promises

    What the code observes of a promise is whether it fulfils or rejects and,
    for [Promise.all], which rejection comes first.  A settled promise is its
    result and the logical time at which it settled. *)
Module Promise.

Inductive result (E : Type) : Type :=
| Fulfilled
| Rejected (e : E).
Arguments Fulfilled {E}.
Arguments Rejected {E} e.

Record t (E : Type) : Type := mk { settledAt : nat; outcome : result E }.
Arguments mk {E} _ _.
Arguments settledAt {E} _.
Arguments outcome {E} _.

Section Ops.
Context {E : Type}.

(** [Promise.resolve()] *)
Definition resolve : t E := mk 0 Fulfilled.

(** [p.catch(handler)]: a fulfilled promise passes through; for a
    rejected one the handler decides ([Promise.reject(error)] or a plain
    return). *)
Definition catch (p : t E) (handler : E -> result E) : t E :=
  match outcome p with
  | Fulfilled => p
  | Rejected e => mk (settledAt p) (handler e)
  end.

(** The earliest rejection among [ps], the first in array order among
    those of equal time. *)
Fixpoint firstRejection (ps : list (t E)) : option (nat * E) :=
  match ps with
  | [] => None
  | p :: ps' =>
      match outcome p, firstRejection ps' with
      | Fulfilled, r => r
      | Rejected e, None => Some (settledAt p, e)
      | Rejected e, Some (n', e') =>
          if (settledAt p <=? n')%nat then Some (settledAt p, e) else Some (n', e')
      end
  end.

(** [Promise.all(ps)]: rejects with the first rejection, otherwise
    fulfils once every promise has. *)
Definition all (ps : list (t E)) : t E :=
  match firstRejection ps with
  | Some (n, e) => mk n (Rejected e)
  | None => mk (fold_right Nat.max 0%nat (List.map settledAt ps)) Fulfilled
  end.

End Ops.

End Promise.

Abbreviation Fulfilled := Promise.Fulfilled.
Abbreviation Rejected := Promise.Rejected.

(** ** Batch *)
Module Batch.

Section Batch.
Context {K T : Type}.
(** [JSON.stringify] and [JSON.parse] at the key type, built into the
    language. *)
Variable JSON_stringify : K -> string.
Variable JSON_parse : string -> K.

(** [pendingWork : Map<string, T[]>]; a JavaScript [Map] iterates in the
    order of insertion, so the map is a list of groups. *)
Definition t : Type := list (string * list T).

Definition new : t := [].

(** [has]/[set]/[get(encoded).push(work)] on the map *)
Fixpoint push (encoded : string) (work : T) (pendingWork : t) : t :=
  match pendingWork with
  | [] => [(encoded, [work])]
  | (key, value) :: rest =>
      if String.eqb key encoded
      then (key, value ++ [work]) :: rest
      else (key, value) :: push encoded work rest
  end.

Definition add (id : K) (work : T) (pendingWork : t) : t :=
  let encoded := JSON_stringify id in
  push encoded work pendingWork.

Definition clear (pendingWork : t) : t := [].

(** [pendingWork.get(encoded)] *)
Fixpoint get (encoded : string) (pendingWork : t) : option (list T) :=
  match pendingWork with
  | [] => None
  | (key, value) :: rest =>
      if String.eqb key encoded then Some value else get encoded rest
  end.

(** [map(fn)]: [fn] is called on every group, in the order of the map;
    the result is [Promise.all] of the promises it returned. *)
Definition map {E : Type} (fn : K -> list T -> Promise.t E) (pendingWork : t)
  : Promise.t E :=
  let processedP :=
    List.map (fun kv => fn (JSON_parse (fst kv)) (snd kv)) pendingWork in
  Promise.all processedP.

(** All values of the batch, group by group. *)
Definition values (pendingWork : t) : list T :=
  List.concat (List.map snd pendingWork).

End Batch.

Arguments t : clear implicits.

End Batch.

(** ** OffsetBatch *)
Module OffsetBatch.

Section OffsetBatch.
Context {T : Type}.

Record t : Type := mk {
  offset : option Z;          (* [undefined] is [None] *)
  batch : Batch.t T
}.

Definition new : t := mk None Batch.new.

Definition clear (b : t) : t := mk None (Batch.clear (batch b)).

Definition isEmpty (b : t) : bool :=
  match offset b with None => true | Some _ => false end.

End OffsetBatch.

Arguments t : clear implicits.

End OffsetBatch.

(** ** BatchManager *)
Module BatchManager.

Definition MinRangeValue : Offset.t := NegInf.

Section BatchManager.
Context {K T : Type}.
Variable JSON_stringify : K -> string.

(** The type of the keys only matters to [add]: the batches hold them
    encoded. *)
Record t : Type := mk {
  range : Range.t;
  pending : OffsetBatch.t T;
  current : OffsetBatch.t T;
  closed : bool
}.

Definition new : t :=
  mk (Range.mk MinRangeValue MinRangeValue) OffsetBatch.new OffsetBatch.new false.

Definition close (m : t) : t :=
  mk (range m) (pending m) (current m) true.

(** [sendPending] up to and including the call of [sendFn]: the manager
    afterwards and the batch [sendFn] was called with, if it was.  The
    continuation of the promise is [processed] and [next] below. *)
Definition sendPending (m : t) : t * option (Batch.t T) :=
  if closed m then (m, None)
  else if OffsetBatch.isEmpty (pending m) then (m, None)
  else
    let temp := current m in
    let m' := mk (range m) temp (pending m) (closed m) in
    (m', Some (OffsetBatch.batch (current m'))).

Definition requestSend (m : t) : t * option (Batch.t T) :=
  if negb (OffsetBatch.isEmpty (current m)) then (m, None)
  else sendPending m.

Definition add (id : K) (value : T) (offset : Z) (m : t)
  : t * option (Batch.t T) :=
  let wasEmpty := Range.empty (range m) in
  let r := Range.set_head (Fin offset) (range m) in
  let r := if wasEmpty then Range.set_tail (Fin (offset - 1)) r else r in
  let p := OffsetBatch.mk (Some offset)
             (Batch.add JSON_stringify id value (OffsetBatch.batch (pending m))) in
  requestSend (mk r p (current m) (closed m)).

(** The continuation of a fulfilled send, first statement:
    [this.range.tail = this.current.offset]; the result carries the
    offset that [workComplete] is emitted with.  [None] stands for a
    [current.offset] that is [undefined], for which the embedding has no
    range; no send is outstanding in such a state
    ([Run.outstanding_current]). *)
Definition processed (m : t) : option (t * Z) :=
  match OffsetBatch.offset (current m) with
  | Some o =>
      Some (mk (Range.set_tail (Fin o) (range m)) (pending m) (current m) (closed m), o)
  | None => None
  end.

(** The same continuation after the event was emitted:
    [this.current.clear(); this.sendPending()]. *)
Definition next (m : t) : t * option (Batch.t T) :=
  sendPending (mk (range m) (pending m) (OffsetBatch.clear (current m)) (closed m)).

End BatchManager.

Arguments t : clear implicits.

End BatchManager.

(** ** WorkManager *)
Module WorkManager.

Section WorkManager.
Context {T : Type}.

Record t : Type := mk {
  work : list (BatchManager.t T);
  lastOffset : Offset.t
}.

Definition new : t := mk [] BatchManager.MinRangeValue.

(** [createBatchedWork]: the listeners it installs are the calls of
    [updateOffset] and the re-emission of errors in [Run.step]. *)
Definition createBatchedWork (w : t) : t :=
  mk (work w ++ [BatchManager.new]) (lastOffset w).

Definition close (w : t) : t :=
  mk (List.map BatchManager.close (work w)) (lastOffset w).

(** The loop of [updateOffset] over [this.work]. *)
Definition scan (acc : Offset.t * Range.t) (ws : list (BatchManager.t T))
  : Offset.t * Range.t :=
  fold_left
    (fun acc wk =>
       (Offset.max (fst acc) (Range.head (BatchManager.range wk)),
        Range.union (snd acc) (BatchManager.range wk)))
    ws acc.

(** The offset [updateOffset] derives from the ranges. *)
Definition derived (w : t) : Offset.t :=
  let '(maxHead, range) := scan (lastOffset w, Range.new) (work w) in
  if Range.empty range then maxHead else Range.tail range.

(** [updateOffset]: [None] when [assert.ok] throws; otherwise the manager
    and the offset [offsetChanged] was emitted with, if it was. *)
Definition updateOffset (w : t) : option (t * option Offset.t) :=
  let offset := derived w in
  if Offset.leb (lastOffset w) offset then
    if negb (Offset.eqb offset (lastOffset w))
    then Some (mk (work w) offset, Some offset)
    else Some (w, None)
  else None.

End WorkManager.

Arguments t : clear implicits.

End WorkManager.

(** ** Executions

    A state of the system is the [WorkManager] with its managers and, for
    each manager, a ledger: the promises of its sender that have not settled
    (the environment's part of the state) and the history the properties
    speak about, namely which offsets were added and which batch each of
    them went into. *)
Module Run.

Section Run.
Context {K T E : Type}.
Variable JSON_stringify : K -> string.

Record Ledger : Type := mkLedger {
  outstanding : nat;     (* promises returned by [sendFn], not yet settled *)
  added : list Z;        (* every offset passed to [add], oldest first *)
  queued : list Z;       (* the offsets of the values held by [pending] *)
  flying : list Z;       (* the offsets of the values held by [current] *)
  durable : list Z;      (* the offsets of the values of fulfilled sends *)
  failed : bool          (* the manager has emitted [error] *)
}.

Definition ledger0 : Ledger := mkLedger 0 [] [] [] [] false.

Record t : Type := mk {
  manager : WorkManager.t T;
  ledgers : list Ledger
}.

(** What a manager's [error] event carries: the reason its sender
    rejected with, or the [AssertionError] thrown by [updateOffset] inside
    the continuation. *)
Inductive Failure : Type :=
| SendRejected (e : E)
| AssertionError.

Inductive Event : Type :=
| Add (i : nat) (id : K) (value : T) (offset : Z)  (* work[i].add(id, value, offset) *)
| Fulfil (i : nat)           (* the promise of work[i]'s sender fulfils *)
| Reject (i : nat) (e : E)   (* the promise of work[i]'s sender rejects *)
| Close                      (* WorkManager.close() *)
| CloseOne (i : nat).        (* work[i].close() *)

Inductive Effect : Type :=
| Sent (i : nat) (b : Batch.t T)       (* work[i] called its sender on b *)
| WorkComplete (i : nat) (offset : Z)  (* work[i] emitted workComplete *)
| OffsetChanged (offset : Offset.t)    (* the WorkManager emitted offsetChanged *)
| Error (err : Failure).               (* the WorkManager emitted error *)

(** [createBatchedWork], [n] times, on a new [WorkManager]. *)
Definition init (n : nat) : t :=
  mk (Nat.iter n WorkManager.createBatchedWork WorkManager.new)
     (replicate n ledger0).

(** The ledger follows the code: a value was added to [pending]; *)
Definition noted (offset : Z) (lg : Ledger) : Ledger :=
  mkLedger (outstanding lg) (added lg ++ [offset]) (queued lg ++ [offset])
    (flying lg) (durable lg) (failed lg).

(** the sender was called, [pending] has become [current]; *)
Definition launch (sent : option (Batch.t T)) (lg : Ledger) : Ledger :=
  match sent with
  | Some _ =>
      mkLedger (S (outstanding lg)) (added lg) [] (queued lg) (durable lg) (failed lg)
  | None => lg
  end.

(** a promise of the sender has settled; *)
Definition settled (lg : Ledger) : Ledger :=
  mkLedger (Nat.pred (outstanding lg)) (added lg) (queued lg) (flying lg)
    (durable lg) (failed lg).

(** the send has fulfilled, the values of [current] are stored; *)
Definition stored (lg : Ledger) : Ledger :=
  mkLedger (outstanding lg) (added lg) (queued lg) (flying lg)
    (durable lg ++ flying lg) (failed lg).

(** [current.clear()]; *)
Definition cleared (lg : Ledger) : Ledger :=
  mkLedger (outstanding lg) (added lg) (queued lg) [] (durable lg) (failed lg).

(** the manager emitted [error]. *)
Definition broken (lg : Ledger) : Ledger :=
  mkLedger (outstanding lg) (added lg) (queued lg) (flying lg) (durable lg) true.

Definition sends (i : nat) (sent : option (Batch.t T)) : list Effect :=
  match sent with Some b => [Sent i b] | None => [] end.

Definition changes (changed : option Offset.t) : list Effect :=
  match changed with Some o => [OffsetChanged o] | None => [] end.

Definition set_work (i : nat) (m : BatchManager.t T) (w : WorkManager.t T)
  : WorkManager.t T :=
  WorkManager.mk (<[i := m]> (WorkManager.work w)) (WorkManager.lastOffset w).

Definition step (s : t) (ev : Event) : option (t * list Effect) :=
  match ev with
  | Add i id value offset =>
      m ← WorkManager.work (manager s) !! i;
      lg ← ledgers s !! i;
      let '(m', sent) := BatchManager.add JSON_stringify id value offset m in
      Some (mk (set_work i m' (manager s))
               (<[i := launch sent (noted offset lg)]> (ledgers s)),
            sends i sent)
  | Fulfil i =>
      m ← WorkManager.work (manager s) !! i;
      lg ← ledgers s !! i;
      match outstanding lg with
      | O => None
      | S _ =>
          '(m1, o) ← BatchManager.processed m;
          let lg1 := stored (settled lg) in
          let w1 := set_work i m1 (manager s) in
          (* emit("workComplete"): the listener calls updateOffset *)
          match WorkManager.updateOffset w1 with
          | None =>
              (* assert.ok threw in the continuation: doneP rejects and
                 its catch emits the error; current is not cleared *)
              Some (mk w1 (<[i := broken lg1]> (ledgers s)),
                    [WorkComplete i o; Error AssertionError])
          | Some (w2, changed) =>
              let '(m3, sent) := BatchManager.next m1 in
              Some (mk (set_work i m3 w2)
                       (<[i := launch sent (cleared lg1)]> (ledgers s)),
                    WorkComplete i o :: changes changed ++ sends i sent)
          end
      end
  | Reject i e =>
      m ← WorkManager.work (manager s) !! i;
      lg ← ledgers s !! i;
      match outstanding lg with
      | O => None
      | S _ =>
          Some (mk (manager s) (<[i := broken (settled lg)]> (ledgers s)),
                [Error (SendRejected e)])
      end
  | Close => Some (mk (WorkManager.close (manager s)) (ledgers s), [])
  | CloseOne i =>
      m ← WorkManager.work (manager s) !! i;
      Some (mk (set_work i (BatchManager.close m) (manager s)) (ledgers s), [])
  end.

Fixpoint run (s : t) (evs : list Event) : option (t * list Effect) :=
  match evs with
  | [] => Some (s, [])
  | ev :: evs' =>
      '(s1, out1) ← step s ev;
      '(s2, out2) ← run s1 evs';
      Some (s2, out1 ++ out2)
  end.

(** The offsets passed to [add], in the order of the calls. *)
Fixpoint offsetsOf (evs : list Event) : list Z :=
  match evs with
  | [] => []
  | Add _ _ _ offset :: evs' => offset :: offsetsOf evs'
  | _ :: evs' => offsetsOf evs'
  end.

End Run.

Arguments t : clear implicits.
Arguments Event : clear implicits.
Arguments Effect : clear implicits.
Arguments Failure : clear implicits.

End Run.

(** ** ScriptoriumLambda *)

(** JSON values, as [JSON.parse] returns them (numbers restricted to the
    integers). *)
#[local] Set Warnings "-register-all".
Inductive JSON : Type :=
| JNull
| JBool (b : bool)
| JNumber (z : Z)
| JString (s : string)
| JArray (items : list JSON)
| JObject (fields : list (string * JSON)).

Module Js.

(** Truthiness, as [!x] and [x && y] test it. *)
Definition truthy (j : JSON) : bool :=
  match j with
  | JNull => false
  | JBool b => b
  | JNumber z => negb (z =? 0)%Z
  | JString s => negb (String.eqb s EmptyString)
  | JArray _ => true
  | JObject _ => true
  end.

(** An optional property: [undefined] is falsy. *)
Definition truthy_opt (j : option JSON) : bool :=
  match j with Some v => truthy v | None => false end.

Fixpoint get (name : string) (fields : list (string * JSON)) : option JSON :=
  match fields with
  | [] => None
  | (k, v) :: rest => if String.eqb k name then Some v else get name rest
  end.

(** Whether [j.split] is truthy, for a truthy [j]: an own property of an
    object, the method [String.prototype.split] of a string, [undefined]
    otherwise. *)
Definition split_truthy (j : JSON) : bool :=
  match j with
  | JObject fields => truthy_opt (get "split" fields)
  | JString _ => true
  | _ => false
  end.

(** A JavaScript error as far as the code inspects it. *)
Record Error : Type := mkError { name : string; code : option Z }.

End Js.

(** Modelled from the spec: the interfaces [core.IMessage] and
    [core.ISequencedOperationMessage] and the operation they carry are
    declared outside the source; section 6 of the specification gives the
    shape of the parsed payload. *)
Module Operation.
Record t : Type := mk {
  traces : option (list JSON);
  metadata : option JSON;
  contents : JSON;
  clientId : string;
  clientSequenceNumber : Z;
  sequenceNumber : Z
}.
End Operation.

Module Payload.
Record t : Type := mk {
  type : string;
  tenantId : string;
  documentId : string;
  operation : Operation.t
}.
End Payload.

(** [utils.IMessage], the envelope the log delivers; [value] is the text
    [message.value.toString()] returns. *)
Module Inbound.
Record t : Type := mk { offset : Z; value : string }.
End Inbound.

Module IMongoTarget.
Record t : Type := mk { documentId : string; tenantId : string }.
End IMongoTarget.

(** The arguments of [contentCollection.update]: the filter and the fields to
    set. *)
Module Filter.
Record t : Type := mk {
  clientId : string;
  documentId : string;
  op_clientSequenceNumber : Z;
  tenantId : string
}.
End Filter.

(** [core.ICollection], as far as the lambda calls it.  A call is answered
    by the promise it returns. *)
Record ICollection : Type := {
  insertMany : list Payload.t -> bool -> Promise.t Js.Error;
  update : Filter.t -> Z -> Promise.t Js.Error
}.

Module ScriptoriumLambda.

(** Modelled from the spec: the constant [core.SequencedOperationType] is
    declared outside the source; section 6 gives its value. *)
Definition SequencedOperationType : string := "SequencedOperation".

(** The WorkManager holds [BatchManager<any, any>]: a key is an
    [IMongoTarget] or [null], a value a sequenced message or [null]. *)
Definition Key : Type := option IMongoTarget.t.
Definition Work : Type := option Payload.t.

Definition mongoManager : nat := 0.
Definition idleManager : nat := 1.

Section Lambda.
(** [JSON.stringify] at keys and at contents, and [utils.safelyParseJSON]
    ([None] for [undefined]). *)
Variable JSON_stringify : Key -> string.
Variable JSON_parse : string -> IMongoTarget.t.
Variable stringify : JSON -> string.
Variable safelyParseJSON : string -> option Payload.t.
(** The constructor's arguments; [contentCollection] may be [undefined]. *)
Variable opCollection : ICollection.
Variable contentCollection : option ICollection.

Definition State : Type := Run.t Work.

Inductive Output : Type :=
| SendFn (i : nat) (b : Batch.t Work)   (* the sender of manager i was called *)
| Checkpoint (offset : Offset.t)        (* context.checkpoint(offset) *)
| ContextError (err : Run.Failure Js.Error) (restart : bool)  (* context.error *)
| WinstonError (text : string).         (* winston.error *)

(** The listeners installed by the constructor. *)
Definition listen (e : Run.Effect Work Js.Error) : list Output :=
  match e with
  | Run.Sent i b => [SendFn i b]
  | Run.WorkComplete _ _ => []
  | Run.OffsetChanged offset => [Checkpoint offset]
  | Run.Error err => [ContextError err true]     (* batchError *)
  end.

Definition observe (r : option (State * list (Run.Effect Work Js.Error)))
  : option (State * list Output) :=
  '(s, out) ← r; Some (s, List.concat (List.map listen out)).

(** The constructor: a WorkManager with the two managers. *)
Definition new : State := Run.init 2.

(** The normalisation [handler] applies to a sequenced message. *)
Definition normalise (value : Payload.t) : Payload.t :=
  let op := Payload.operation value in
  let op :=
    Operation.mk (Some []) (Operation.metadata op) (Operation.contents op)
      (Operation.clientId op) (Operation.clientSequenceNumber op)
      (Operation.sequenceNumber op) in
  let op :=
    if negb (Js.truthy_opt (Operation.metadata op))
    then Operation.mk (Operation.traces op) (Operation.metadata op)
           (JString (stringify (Operation.contents op)))
           (Operation.clientId op) (Operation.clientSequenceNumber op)
           (Operation.sequenceNumber op)
    else op in
  Payload.mk (Payload.type value) (Payload.tenantId value)
    (Payload.documentId value) op.

Definition handler (message : Inbound.t) (s : State) : option (State * list Output) :=
  let messageContent := Inbound.value message in
  match safelyParseJSON messageContent with
  | None =>
      Some (s, [WinstonError (String.append "Invalid JSON input: " messageContent)])
  | Some baseMessage =>
      if String.eqb (Payload.type baseMessage) SequencedOperationType then
        let value := normalise baseMessage in
        observe
          (Run.step JSON_stringify s
             (Run.Add mongoManager
                (Some (IMongoTarget.mk (Payload.documentId value) (Payload.tenantId value)))
                (Some value) (Inbound.offset message)))
      else
        observe
          (Run.step JSON_stringify s
             (Run.Add idleManager None None (Inbound.offset message)))
  end.

Definition close (s : State) : option (State * list Output) :=
  observe (Run.step JSON_stringify s Run.Close).

(** The catch handler of [insertOp] and of every update. *)
Definition ignoreDuplicate (error : Js.Error) : Promise.result Js.Error :=
  if negb (String.eqb (Js.name error) "MongoError")
     || negb (match Js.code error with Some c => (c =? 11000)%Z | None => false end)
  then Rejected error
  else Fulfilled.

Definition insertOp (messages : list Payload.t) : Promise.t Js.Error :=
  Promise.catch (insertMany opCollection messages false) ignoreDuplicate.

Definition splits (message : Payload.t) : bool :=
  match Operation.metadata (Payload.operation message) with
  | Some metadata => Js.truthy metadata && Js.split_truthy metadata
  | None => false
  end.

Definition updateSequenceNumber (messages : list Payload.t) : Promise.t Js.Error :=
  match contentCollection with
  | None => Promise.resolve
  | Some collection =>
      let updateP :=
        List.map
          (fun message =>
             Promise.catch
               (update collection
                  (Filter.mk
                     (Operation.clientId (Payload.operation message))
                     (Payload.documentId message)
                     (Operation.clientSequenceNumber (Payload.operation message))
                     (Payload.tenantId message))
                  (Operation.sequenceNumber (Payload.operation message)))
               ignoreDuplicate)
          (List.filter splits messages) in
      if (0 <? length updateP)%nat then Promise.all updateP else Promise.resolve
  end.

Definition processMongoCore (messages : list Payload.t) : Promise.t Js.Error :=
  let insertP := insertOp messages in
  let updateP := updateSequenceNumber messages in
  Promise.all [insertP; updateP].

Definition processMongoBatch (batch : Batch.t Payload.t) : Promise.t Js.Error :=
  Batch.map JSON_parse (fun id work => processMongoCore work) batch.

(** The batch of the mongo manager at its static type
    [Batch<IMongoTarget, ISequencedOperationMessage>]. *)
Definition typed (b : Batch.t Work) : Batch.t Payload.t :=
  List.map (fun kv => (fst kv, omap id (snd kv))) b.

(** The promise of the outstanding send of the mongo manager settles, as
    [processMongoBatch] on the batch it was called with decides. *)
Definition mongoSettles (s : State) : option (State * list Output) :=
  m ← WorkManager.work (Run.manager s) !! mongoManager;
  match Promise.outcome
          (processMongoBatch (typed (OffsetBatch.batch (BatchManager.current m)))) with
  | Fulfilled => observe (Run.step JSON_stringify s (Run.Fulfil mongoManager))
  | Rejected e => observe (Run.step JSON_stringify s (Run.Reject mongoManager e))
  end.

(** The idle sender is [async (batch) => { return; }]: it fulfils. *)
Definition idleSettles (s : State) : option (State * list Output) :=
  observe (Run.step JSON_stringify s (Run.Fulfil idleManager)).

Inductive Input : Type :=
| Handle (message : Inbound.t)
| MongoSettles
| IdleSettles
| CloseLambda.

Definition react (s : State) (i : Input) : option (State * list Output) :=
  match i with
  | Handle message => handler message s
  | MongoSettles => mongoSettles s
  | IdleSettles => idleSettles s
  | CloseLambda => close s
  end.

Fixpoint exec (s : State) (inputs : list Input) : option (State * list Output) :=
  match inputs with
  | [] => Some (s, [])
  | i :: rest =>
      '(s1, out1) ← react s i;
      '(s2, out2) ← exec s1 rest;
      Some (s2, out1 ++ out2)
  end.

End Lambda.

End ScriptoriumLambda.

(** ** Traces and invariants *)
Module Trace.

(** Strictly increasing, above [lo]. *)
Fixpoint ascending_from (lo : Offset.t) (l : list Z) : bool :=
  match l with
  | [] => true
  | a :: rest => negb (Offset.leb (Fin a) lo) && ascending_from (Fin a) rest
  end.

Definition ascending (l : list Z) : bool := ascending_from NegInf l.

(** Monotonically non-decreasing, not below [lo]. *)
Fixpoint nondescending_from (lo : Offset.t) (l : list Z) : bool :=
  match l with
  | [] => true
  | a :: rest => Offset.leb lo (Fin a) && nondescending_from (Fin a) rest
  end.

Definition nondescending (l : list Z) : bool := nondescending_from NegInf l.

(** Strictly increasing numbers, above [lo]. *)
Fixpoint rising_from (lo : Offset.t) (l : list Offset.t) : bool :=
  match l with
  | [] => true
  | a :: rest => negb (Offset.leb a lo) && rising_from a rest
  end.

Section Trace.
Context {K T E : Type}.

(** The offsets passed to [work[i].add]. *)
Fixpoint offsetsTo (i : nat) (evs : list (Run.Event K T E)) : list Z :=
  match evs with
  | [] => []
  | Run.Add j _ _ offset :: evs' =>
      if Nat.eqb i j then offset :: offsetsTo i evs' else offsetsTo i evs'
  | _ :: evs' => offsetsTo i evs'
  end.

(** The offsets [offsetChanged] was emitted with. *)
Fixpoint offsetChanges (out : list (Run.Effect T E)) : list Offset.t :=
  match out with
  | [] => []
  | Run.OffsetChanged o :: out' => o :: offsetChanges out'
  | _ :: out' => offsetChanges out'
  end.

(** The batches the sender of [work[i]] was called with. *)
Fixpoint sentBy (i : nat) (out : list (Run.Effect T E)) : list (Batch.t T) :=
  match out with
  | [] => []
  | Run.Sent j b :: out' => if Nat.eqb i j then b :: sentBy i out' else sentBy i out'
  | _ :: out' => sentBy i out'
  end.

End Trace.

End Trace.

Module Inv.

Section Inv.
Context {K T : Type}.
Variable JSON_stringify : K -> string.

(** The range of a manager after [add]. *)
Definition grown (offset : Z) (r : Range.t) : Range.t :=
  Range.mk (if Range.empty r then Fin (offset - 1) else Range.tail r) (Fin offset).

(** The pending batch of a manager after [add]. *)
Definition filled (id : K) (value : T) (offset : Z) (p : OffsetBatch.t T)
  : OffsetBatch.t T :=
  OffsetBatch.mk (Some offset)
    (Batch.add JSON_stringify id value (OffsetBatch.batch p)).

Definition headOf (added : list Z) : Offset.t :=
  match last added with Some o => Fin o | None => NegInf end.

(** What holds of a manager and its ledger in every execution. *)
Record Sane (m : BatchManager.t T) (lg : Run.Ledger) : Prop := {
  sane_once : (Run.outstanding lg <= 1)%nat;
  sane_flight :
    Run.outstanding lg = 1%nat ->
    Run.failed lg = false /\ OffsetBatch.isEmpty (BatchManager.current m) = false;
  sane_current :
    OffsetBatch.isEmpty (BatchManager.current m) = false ->
    Run.outstanding lg = 1%nat \/ Run.failed lg = true;
  sane_failed :
    Run.failed lg = true -> OffsetBatch.isEmpty (BatchManager.current m) = false;
  sane_head : Range.head (BatchManager.range m) = headOf (Run.added lg);
  sane_pending :
    OffsetBatch.isEmpty (BatchManager.pending m) = false ->
    Range.empty (BatchManager.range m) = false;
  sane_range :
    OffsetBatch.isEmpty (BatchManager.current m) = false ->
    Range.empty (BatchManager.range m) = false
}.

Definition AllSane (s : Run.t T) : Prop :=
  Forall2 Sane (WorkManager.work (Run.manager s)) (Run.ledgers s).

(** What holds in addition when the offsets of the log are strictly
    increasing; [hi] bounds the offsets delivered so far. *)
Record Tidy (hi : Offset.t) (m : BatchManager.t T) (lg : Run.Ledger) : Prop := {
  tidy_account :
    Run.added lg = Run.durable lg ++ Run.flying lg ++ Run.queued lg;
  tidy_pending_none :
    OffsetBatch.offset (BatchManager.pending m) = None -> Run.queued lg = [];
  tidy_pending_some :
    forall p, OffsetBatch.offset (BatchManager.pending m) = Some p ->
              In p (Run.queued lg) /\ forall a, In a (Run.queued lg) -> (a <= p)%Z;
  tidy_current_none :
    OffsetBatch.offset (BatchManager.current m) = None -> Run.flying lg = [];
  tidy_current_some :
    forall c, OffsetBatch.offset (BatchManager.current m) = Some c ->
              In c (Run.flying lg) /\ forall a, In a (Run.flying lg) -> (a <= c)%Z;
  tidy_order :
    forall a b, In a (Run.flying lg) -> In b (Run.queued lg) -> (a < b)%Z;
  tidy_head :
    forall a, In a (Run.added lg) -> Offset.le (Fin a) (Range.head (BatchManager.range m));
  tidy_hi : Offset.le (Range.head (BatchManager.range m)) hi;
  tidy_durable :
    forall a, In a (Run.durable lg) -> Offset.le (Fin a) (Range.tail (BatchManager.range m));
  tidy_unsent :
    forall a, In a (Run.flying lg ++ Run.queued lg) ->
              Offset.lt (Range.tail (BatchManager.range m)) (Fin a);
  tidy_tail :
    Offset.le (Range.tail (BatchManager.range m)) (Range.head (BatchManager.range m));
  tidy_empty :
    Range.empty (BatchManager.range m) = true -> Run.added lg = []
}.

(** No value is waiting or in flight. *)
Definition drained (lg : Run.Ledger) : Prop :=
  Run.flying lg = [] /\ Run.queued lg = [].

(** The state invariant under strictly increasing offsets. *)
Record Orderly (hi : Offset.t) (s : Run.t T) : Prop := {
  orderly_sane : AllSane s;
  orderly_tidy : Forall2 (Tidy hi) (WorkManager.work (Run.manager s)) (Run.ledgers s);
  orderly_last : Offset.le (WorkManager.lastOffset (Run.manager s)) hi;
  orderly_lo :
    forall j m, WorkManager.work (Run.manager s) !! j = Some m ->
                Range.empty (BatchManager.range m) = false ->
                Offset.le (WorkManager.lastOffset (Run.manager s))
                          (Range.tail (BatchManager.range m));
  orderly_quiet :
    Forall drained (Run.ledgers s) ->
    WorkManager.lastOffset (Run.manager s) = WorkManager.derived (Run.manager s)
}.

(** A manager whose sender has failed: it holds on to [current], keeps its
    tail and has no send outstanding; [m0] is the manager at the failure. *)
Record Halted (m0 m : BatchManager.t T) (lg : Run.Ledger) : Prop := {
  halted_failed : Run.failed lg = true;
  halted_idle : Run.outstanding lg = 0%nat;
  halted_busy : OffsetBatch.isEmpty (BatchManager.current m0) = false;
  halted_current : BatchManager.current m = BatchManager.current m0;
  halted_tail : Range.tail (BatchManager.range m) = Range.tail (BatchManager.range m0)
}.

(** What holds of the range of a manager whose offsets never decrease. *)
Record Steady (m : BatchManager.t T) : Prop := {
  steady_tail :
    Offset.le (Range.tail (BatchManager.range m)) (Range.head (BatchManager.range m));
  steady_void :
    Range.empty (BatchManager.range m) = true ->
    Range.tail (BatchManager.range m) = NegInf;
  steady_current :
    forall c, OffsetBatch.offset (BatchManager.current m) = Some c ->
              Offset.le (Range.tail (BatchManager.range m)) (Fin c) /\
              Offset.le (Fin c) (Range.head (BatchManager.range m));
  steady_pending :
    forall p, OffsetBatch.offset (BatchManager.pending m) = Some p ->
              Offset.le (Range.tail (BatchManager.range m)) (Fin p) /\
              Offset.le (Fin p) (Range.head (BatchManager.range m)) /\
              forall c, OffsetBatch.offset (BatchManager.current m) = Some c -> (c <= p)%Z
}.

(** An event is admissible above [hi] when the offset it delivers, if
    any, is greater; [mark] is the bound afterwards. *)
Definition admissible {E : Type} (hi : Offset.t) (ev : Run.Event K T E) : Prop :=
  match ev with
  | Run.Add _ _ _ offset => Offset.lt hi (Fin offset)
  | _ => True
  end.

Definition mark {E : Type} (hi : Offset.t) (ev : Run.Event K T E) : Offset.t :=
  match ev with
  | Run.Add _ _ _ offset => Fin offset
  | _ => hi
  end.

End Inv.

End Inv.

(** ** One manager in a step of the system *)
Module View.

Section View.
Context {K T E : Type}.
Variable JSON_stringify : K -> string.
Implicit Types (m : BatchManager.t T) (lg : Run.Ledger).

(** How a step changes manager [i]. *)
Inductive Change (i : nat) m lg (ev : Run.Event K T E)
  : BatchManager.t T -> Run.Ledger -> list (Run.Effect T E) -> Prop :=
| Untouched out :
    Trace.offsetsTo i [ev] = [] -> Trace.sentBy i out = [] -> Change i m lg ev m lg out
| Added id value o m' sent :
    ev = Run.Add i id value o ->
    BatchManager.add JSON_stringify id value o m = (m', sent) ->
    Change i m lg ev m' (Run.launch sent (Run.noted o lg)) (Run.sends i sent)
| Thrown n m1 o :
    ev = Run.Fulfil i -> Run.outstanding lg = S n ->
    BatchManager.processed m = Some (m1, o) ->
    Change i m lg ev m1 (Run.broken (Run.stored (Run.settled lg)))
      [Run.WorkComplete i o; Run.Error Run.AssertionError]
| Fulfilled n m1 o m3 sent changed :
    ev = Run.Fulfil i -> Run.outstanding lg = S n ->
    BatchManager.processed m = Some (m1, o) ->
    BatchManager.next m1 = (m3, sent) ->
    Change i m lg ev m3 (Run.launch sent (Run.cleared (Run.stored (Run.settled lg))))
      (Run.WorkComplete i o :: Run.changes changed ++ Run.sends i sent)
| Rejected n e :
    ev = Run.Reject i e -> Run.outstanding lg = S n ->
    Change i m lg ev m (Run.broken (Run.settled lg)) [Run.Error (Run.SendRejected e)]
| Closed :
    (ev = Run.Close \/ ev = Run.CloseOne i) ->
    Change i m lg ev (BatchManager.close m) lg [].

End View.

End View.

(** ** The storage calls of a group *)
Module Storage.

(** A duplicate-key error of the store. *)
Definition duplicateKey (e : Js.Error) : Prop :=
  Js.name e = "MongoError"%string /\ Js.code e = Some 11000%Z.

(** A call whose error, if any, is a duplicate key. *)
Definition absorbed (p : Promise.t Js.Error) : Prop :=
  match Promise.outcome p with
  | Fulfilled => True
  | Rejected e => duplicateKey e
  end.

Section Storage.
Variable opCollection : ICollection.
Variable contentCollection : option ICollection.

(** The update [updateSequenceNumber] issues for a message. *)
Definition updateFor (collection : ICollection) (message : Payload.t) : Promise.t Js.Error :=
  update collection
    (Filter.mk
       (Operation.clientId (Payload.operation message))
       (Payload.documentId message)
       (Operation.clientSequenceNumber (Payload.operation message))
       (Payload.tenantId message))
    (Operation.sequenceNumber (Payload.operation message)).

(** The calls made for a group: the bulk insert, and one update for every
    message with split metadata when there is a content collection. *)
Definition calls (messages : list Payload.t) : list (Promise.t Js.Error) :=
  insertMany opCollection messages false ::
  match contentCollection with
  | Some collection =>
      List.map (updateFor collection) (List.filter ScriptoriumLambda.splits messages)
  | None => []
  end.

(** The promises [processMongoCore] waits for, one per call: the call with
    the catch handler of the source. *)
Definition guarded (messages : list Payload.t) : list (Promise.t Js.Error) :=
  List.map (fun p => Promise.catch p ScriptoriumLambda.ignoreDuplicate) (calls messages).

End Storage.

End Storage.

(** ** Concrete executions

    Two managers whose keys are their own encoding, whose values are
    integers and whose senders reject with a number. *)
Module Demo.

Definition encode (k : string) : string := k.

Definition Event : Type := Run.Event string Z nat.
Definition Effect : Type := Run.Effect Z nat.

Definition step : Run.t Z -> Event -> option (Run.t Z * list Effect) :=
  Run.step (E:=nat) encode.
Definition run : Run.t Z -> list Event -> option (Run.t Z * list Effect) :=
  Run.run (E:=nat) encode.

(** The state and the effects of an execution from [s], and of one of two
    new managers. *)
Definition state_from (s : Run.t Z) (evs : list Event) : Run.t Z :=
  match run s evs with Some (s', _) => s' | None => s end.
Definition effects_from (s : Run.t Z) (evs : list Event) : list Effect :=
  match run s evs with Some (_, out) => out | None => [] end.
Definition after (evs : list Event) : Run.t Z := state_from (Run.init 2) evs.
Definition emitted (evs : list Event) : list Effect := effects_from (Run.init 2) evs.

(** The same offset delivered twice to one manager, the first send
    fulfilling after the second delivery. *)
Definition twice : list Event := [Run.Add 0 "D"%string 50%Z 5%Z; Run.Add 0 "D"%string 51%Z 5%Z].

(** Offsets 1 to 3 over two managers. *)
Definition mixed : list Event :=
  [Run.Add 0 "D"%string 10%Z 1%Z; Run.Add 1 "I"%string 20%Z 2%Z; Run.Fulfil 1;
   Run.Add 0 "D"%string 30%Z 3%Z].

(** The ledger of manager 0 after [mixed] and the fulfilment of its first
    send. *)
Definition mixed_ledger : Run.Ledger :=
  Run.mkLedger 1 [1; 3]%Z [] [3]%Z [1]%Z false.

(** A manager closed while its send is in flight. *)
Definition closing : list Event :=
  [Run.Add 0 "D"%string 10%Z 1%Z; Run.Close; Run.Fulfil 0].

(** What is delivered after the failure of manager 0. *)
Definition resumed : list Event :=
  [Run.Add 0 "D"%string 20%Z 2%Z; Run.Add 1 "I"%string 30%Z 3%Z; Run.Fulfil 1].

(** A send that rejects. *)
Definition rejected : list Event := [Run.Add 0 "D"%string 10%Z 1%Z; Run.Reject 0 7%nat].

End Demo.

(** ** What the host sees *)
Module Host.

(** The offsets [context.checkpoint] was called with. *)
Fixpoint checkpoints (out : list ScriptoriumLambda.Output) : list Offset.t :=
  match out with
  | [] => []
  | ScriptoriumLambda.Checkpoint o :: out' => o :: checkpoints out'
  | _ :: out' => checkpoints out'
  end.

(** The event of the system a sequenced message, or any other message, is
    handled as. *)
Definition sequencedAdd (stringify : JSON -> string) (message : Inbound.t)
    (payload : Payload.t) : Run.Event ScriptoriumLambda.Key ScriptoriumLambda.Work Js.Error :=
  Run.Add ScriptoriumLambda.mongoManager
    (Some (IMongoTarget.mk (Payload.documentId payload) (Payload.tenantId payload)))
    (Some (ScriptoriumLambda.normalise stringify payload))
    (Inbound.offset message).

Definition idleAdd (message : Inbound.t)
  : Run.Event ScriptoriumLambda.Key ScriptoriumLambda.Work Js.Error :=
  Run.Add ScriptoriumLambda.idleManager None None (Inbound.offset message).

(** An input that the lambda treats as the event [ev] of the system. *)
Definition treated
    (JSON_stringify : ScriptoriumLambda.Key -> string) (JSON_parse : string -> IMongoTarget.t)
    (stringify : JSON -> string) (safelyParseJSON : string -> option Payload.t)
    (opCollection : ICollection) (contentCollection : option ICollection)
    (i : ScriptoriumLambda.Input)
    (ev : Run.Event ScriptoriumLambda.Key ScriptoriumLambda.Work Js.Error) : Prop :=
  forall s,
    ScriptoriumLambda.react JSON_stringify JSON_parse stringify safelyParseJSON
      opCollection contentCollection s i =
    ScriptoriumLambda.observe (Run.step JSON_stringify s ev).

End Host.

(** ** A burst

    The states of two managers while values with one key arrive at manager 0
    and its first send, of [value1] at [offset1], is in flight. *)
Module Burst.

Section Burst.
Context {K T : Type}.
Variable JSON_stringify : K -> string.
Variable id : K.
Variable value1 : T.
Variable offset1 : Z.

(** The offset of the last of [items], [offset1] if there is none. *)
Definition lastOffset (items : list (T * Z)) : Z :=
  List.last (List.map snd items) offset1.

Definition pending (items : list (T * Z)) : OffsetBatch.t T :=
  match items with
  | [] => OffsetBatch.new
  | _ => OffsetBatch.mk (Some (lastOffset items)) [(JSON_stringify id, List.map fst items)]
  end.

Definition state (items : list (T * Z)) : Run.t T :=
  Run.mk
    (WorkManager.mk
       [BatchManager.mk (Range.mk (Fin (offset1 - 1)) (Fin (lastOffset items)))
          (pending items)
          (OffsetBatch.mk (Some offset1) [(JSON_stringify id, [value1])])
          false;
        BatchManager.new]
       NegInf)
    [Run.mkLedger 1 (offset1 :: List.map snd items) (List.map snd items) [offset1] [] false;
     Run.ledger0].

(** The state after both sends have fulfilled. *)
Definition final (items : list (T * Z)) : Run.t T :=
  Run.mk
    (WorkManager.mk
       [BatchManager.mk (Range.mk (Fin (lastOffset items)) (Fin (lastOffset items)))
          (OffsetBatch.mk None [])
          (OffsetBatch.mk None [])
          false;
        BatchManager.new]
       (Fin (lastOffset items)))
    [Run.mkLedger 0 (offset1 :: List.map snd items) [] []
       (offset1 :: List.map snd items) false;
     Run.ledger0].

Definition adds {E : Type} (items : list (T * Z)) : list (Run.Event K T E) :=
  List.map (fun item => Run.Add 0 id (fst item) (snd item)) items.

End Burst.

End Burst.

(** ** Mixed traffic

    The states of two managers in Scenario C: values at the offsets 1 and 3
    for manager 0, whose sends are slow, and at 2 and 4 for manager 1, whose
    sends fulfil at once. *)
Module Mixed.

Section Mixed.
Context {K T E : Type}.
Variable JSON_stringify : K -> string.
Variables (id1 id2 id3 id4 : K) (value1 value2 value3 value4 : T).

(** The four deliveries, each idle send fulfilling at once. *)
Definition deliveries : list (Run.Event K T E) :=
  [Run.Add 0 id1 value1 1; Run.Add 1 id2 value2 2; Run.Fulfil 1;
   Run.Add 0 id3 value3 3; Run.Add 1 id4 value4 4; Run.Fulfil 1].

(** The state after the deliveries, the first send of manager 0 in flight. *)
Definition middle : Run.t T :=
  Run.mk
    (WorkManager.mk
       [BatchManager.mk (Range.mk (Fin 0) (Fin 3))
          (OffsetBatch.mk (Some 3%Z) [(JSON_stringify id3, [value3])])
          (OffsetBatch.mk (Some 1%Z) [(JSON_stringify id1, [value1])])
          false;
        BatchManager.mk (Range.mk (Fin 4) (Fin 4))
          (OffsetBatch.mk None []) (OffsetBatch.mk None []) false]
       (Fin 0))
    [Run.mkLedger 1 [1; 3]%Z [3]%Z [1]%Z [] false;
     Run.mkLedger 0 [2; 4]%Z [] [] [2; 4]%Z false].

Definition early : list (Run.Effect T E) :=
  [Run.Sent 0 [(JSON_stringify id1, [value1])];
   Run.Sent 1 [(JSON_stringify id2, [value2])];
   Run.WorkComplete 1 2; Run.OffsetChanged (Fin 0);
   Run.Sent 1 [(JSON_stringify id4, [value4])]; Run.WorkComplete 1 4].

(** The state after both sends of manager 0 have fulfilled, every range
    with its tail at its head: the checkpoint is the greatest head. *)
Definition final : Run.t T :=
  Run.mk
    (WorkManager.mk
       [BatchManager.mk (Range.mk (Fin 3) (Fin 3))
          (OffsetBatch.mk None []) (OffsetBatch.mk None []) false;
        BatchManager.mk (Range.mk (Fin 4) (Fin 4))
          (OffsetBatch.mk None []) (OffsetBatch.mk None []) false]
       (Fin 4))
    [Run.mkLedger 0 [1; 3]%Z [] [] [1; 3]%Z false;
     Run.mkLedger 0 [2; 4]%Z [] [] [2; 4]%Z false].

Definition late : list (Run.Effect T E) :=
  [Run.WorkComplete 0 1; Run.OffsetChanged (Fin 1);
   Run.Sent 0 [(JSON_stringify id3, [value3])];
   Run.WorkComplete 0 3; Run.OffsetChanged (Fin 4)].

End Mixed.

End Mixed.

(** ** A concrete lambda

    Keys are printed without quotes, every inbound text other than the three
    below fails to parse, and the store accepts every write; there is no
    content collection. *)
Module LambdaDemo.

Definition JSON_stringify (k : ScriptoriumLambda.Key) : string :=
  match k with
  | None => "null"
  | Some target =>
      String.append "{documentId:"
        (String.append (IMongoTarget.documentId target)
           (String.append ",tenantId:"
              (String.append (IMongoTarget.tenantId target) "}")))
  end.

Definition JSON_parse (text : string) : IMongoTarget.t :=
  IMongoTarget.mk text EmptyString.

Definition stringify (j : JSON) : string :=
  match j with
  | JNumber z => if (z =? 1)%Z then "1" else "0"
  | JString text => text
  | _ => "{x:1}"
  end.

Definition operation (sequenceNumber : Z) : Operation.t :=
  Operation.mk None None (JObject [("x"%string, JNumber 1)]) "c" 1 sequenceNumber.

Definition sequenced (sequenceNumber : Z) : Payload.t :=
  Payload.mk ScriptoriumLambda.SequencedOperationType "T" "D" (operation sequenceNumber).

Definition heartbeat : Payload.t :=
  Payload.mk "NoOp" "T" "D" (operation 0).

Definition safelyParseJSON (text : string) : option Payload.t :=
  if String.eqb text "op" then Some (sequenced 5)
  else if String.eqb text "heartbeat" then Some heartbeat
  else None.

Definition opCollection : ICollection :=
  {| insertMany := fun _ _ => Promise.resolve; update := fun _ _ => Promise.resolve |}.

Definition contentCollection : option ICollection := None.

Definition handler :=
  ScriptoriumLambda.handler JSON_stringify stringify safelyParseJSON.

Definition exec :=
  ScriptoriumLambda.exec JSON_stringify JSON_parse stringify safelyParseJSON
    opCollection contentCollection.

(** The state and the outputs of the lambda after [inputs]. *)
Definition after (inputs : list ScriptoriumLambda.Input) : ScriptoriumLambda.State :=
  match exec ScriptoriumLambda.new inputs with
  | Some (s, _) => s
  | None => ScriptoriumLambda.new
  end.
Definition outputs (inputs : list ScriptoriumLambda.Input) : list ScriptoriumLambda.Output :=
  match exec ScriptoriumLambda.new inputs with
  | Some (_, out) => out
  | None => []
  end.

(** Scenario C: sequenced messages at the offsets 1 and 3, heartbeats at 2
    and 4; the idle sends settle at once, the mongo sends at the end. *)
Definition message (offset : Z) (text : string) : ScriptoriumLambda.Input :=
  ScriptoriumLambda.Handle (Inbound.mk offset text).

Definition scenarioC : list ScriptoriumLambda.Input :=
  [message 1 "op"; message 2 "heartbeat"; ScriptoriumLambda.IdleSettles;
   message 3 "op"; message 4 "heartbeat"; ScriptoriumLambda.IdleSettles;
   ScriptoriumLambda.MongoSettles; ScriptoriumLambda.MongoSettles].

(** Scenario C as events of the system. *)
Definition eventsC : list (Run.Event ScriptoriumLambda.Key ScriptoriumLambda.Work Js.Error) :=
  [Host.sequencedAdd stringify (Inbound.mk 1 "op") (sequenced 5);
   Host.idleAdd (Inbound.mk 2 "heartbeat");
   Run.Fulfil 1;
   Host.sequencedAdd stringify (Inbound.mk 3 "op") (sequenced 5);
   Host.idleAdd (Inbound.mk 4 "heartbeat");
   Run.Fulfil 1; Run.Fulfil 0; Run.Fulfil 0].

Definition stateC : Run.t ScriptoriumLambda.Work :=
  match Run.run JSON_stringify (Run.init 2) eventsC with
  | Some (s, _) => s
  | None => Run.init 2
  end.
Definition effectsC : list (Run.Effect ScriptoriumLambda.Work Js.Error) :=
  match Run.run JSON_stringify (Run.init 2) eventsC with
  | Some (_, out) => out
  | None => []
  end.

(** Scenario B: the messages of the offsets 2 to 100 with their payloads. *)
Definition burst : list (Inbound.t * Payload.t) :=
  List.map (fun k => (Inbound.mk (Z.of_nat k) "op", sequenced 5)) (seq 2 99).

End LambdaDemo.
(** ** The groups of a batch *)
Module Grouping.

Section Grouping.
Context {K T : Type}.
Variable JSON_stringify : K -> string.

(** The batch after [add(id, work)] for each pair of [calls], in order. *)
Definition adds (calls : list (K * T)) (b : Batch.t T) : Batch.t T :=
  fold_left (fun b c => Batch.add JSON_stringify (fst c) (snd c) b) calls b.

(** The values of the calls whose key encodes to [key], in order. *)
Definition under (key : string) (calls : list (K * T)) : list T :=
  List.map snd
    (List.filter (fun c => String.eqb (JSON_stringify (fst c)) key) calls).

(** The encoded keys of the calls, each at its first occurrence. *)
Fixpoint firsts (seen : list string) (calls : list (K * T)) : list string :=
  match calls with
  | [] => []
  | c :: rest =>
      let key := JSON_stringify (fst c) in
      if existsb (String.eqb key) seen then firsts seen rest
      else key :: firsts (seen ++ [key]) rest
  end.

End Grouping.

(** The group of [key], empty when the map does not have the key. *)
Definition group {T : Type} (key : string) (b : Batch.t T) : list T :=
  match Batch.get key b with Some ws => ws | None => [] end.

(** The keys of the map, in the order it iterates. *)
Definition keys {T : Type} (b : Batch.t T) : list string := List.map fst b.

End Grouping.

(** ** One manager along an execution *)
Module Course.

Section Course.
Context {K T E : Type}.
Variable JSON_stringify : K -> string.

(** The changes of manager [i] along the events of an execution, with the
    effects of the whole system. *)
Inductive Changes (i : nat)
  : BatchManager.t T -> Run.Ledger -> list (Run.Event K T E) ->
    BatchManager.t T -> Run.Ledger -> list (Run.Effect T E) -> Prop :=
| Stay m lg : Changes i m lg [] m lg []
| Move m lg ev m1 lg1 out1 evs m2 lg2 out2 :
    View.Change JSON_stringify i m lg ev m1 lg1 out1 ->
    Changes i m1 lg1 evs m2 lg2 out2 ->
    Changes i m lg (ev :: evs) m2 lg2 (out1 ++ out2).

(** The values passed to [work[i].add] under a key that encodes to [key]. *)
Fixpoint valuesTo (i : nat) (key : string) (evs : list (Run.Event K T E)) : list T :=
  match evs with
  | [] => []
  | Run.Add j id value _ :: evs' =>
      if Nat.eqb i j && String.eqb (JSON_stringify id) key
      then value :: valuesTo i key evs'
      else valuesTo i key evs'
  | _ :: evs' => valuesTo i key evs'
  end.

(** The values of [key] in the batches [bs], batch after batch. *)
Definition handed (key : string) (bs : list (Batch.t T)) : list T :=
  List.concat (List.map (Grouping.group key) bs).

(** The offsets [work[i]] emitted [workComplete] with. *)
Fixpoint completions (i : nat) (out : list (Run.Effect T E)) : list Z :=
  match out with
  | [] => []
  | Run.WorkComplete j o :: out' =>
      if Nat.eqb i j then o :: completions i out' else completions i out'
  | _ :: out' => completions i out'
  end.

(** What the [error] events of the WorkManager carried. *)
Fixpoint errors (out : list (Run.Effect T E)) : list (Run.Failure E) :=
  match out with
  | [] => []
  | Run.Error err :: out' => err :: errors out'
  | _ :: out' => errors out'
  end.

(** The reasons the senders rejected with. *)
Fixpoint rejections (evs : list (Run.Event K T E)) : list (Run.Failure E) :=
  match evs with
  | [] => []
  | Run.Reject _ e :: evs' => Run.SendRejected e :: rejections evs'
  | _ :: evs' => rejections evs'
  end.

End Course.

Section Packed.
Context {T : Type}.

(** An [OffsetBatch] whose offset and batch agree: no offset and no group,
    or an offset and groups, none of them empty, under distinct keys. *)
Record Packed (b : OffsetBatch.t T) : Prop := {
  packed_none : OffsetBatch.offset b = None -> OffsetBatch.batch b = [];
  packed_some : OffsetBatch.isEmpty b = false -> OffsetBatch.batch b <> [];
  packed_groups : Forall (fun kv => snd kv <> []) (OffsetBatch.batch b);
  packed_keys : List.NoDup (Grouping.keys (OffsetBatch.batch b))
}.

(** A batch with at least one group, no empty group and distinct keys. *)
Definition Full (b : Batch.t T) : Prop :=
  b <> [] /\ Forall (fun kv => snd kv <> []) b /\ List.NoDup (Grouping.keys b).

Definition Stocked (m : BatchManager.t T) : Prop :=
  Packed (BatchManager.pending m) /\ Packed (BatchManager.current m).

(** An open manager holds nothing back: while [pending] is not empty a
    send is under way. *)
Definition Keen (m : BatchManager.t T) : Prop :=
  BatchManager.closed m = false ->
  OffsetBatch.isEmpty (BatchManager.current m) = true ->
  OffsetBatch.isEmpty (BatchManager.pending m) = true.

(** An optional offset as a list. *)
Definition held (b : OffsetBatch.t T) : list Z :=
  match OffsetBatch.offset b with Some o => [o] | None => [] end.

(** The offsets reported and held by a manager are among the offsets [l]
    added to it, in the order [done], [current], [pending]; [current] counts
    while its send is outstanding. *)
Definition Reported (m : BatchManager.t T) (lg : Run.Ledger) (done l : list Z) : Prop :=
  sublist (done ++ held (BatchManager.pending m)) l /\
  (Run.outstanding lg <> 0%nat ->
   sublist (done ++ held (BatchManager.current m) ++ held (BatchManager.pending m)) l).

(** The number of managers that have emitted [error]. *)
Definition failures (lgs : list Run.Ledger) : nat :=
  length (List.filter Run.failed lgs).

End Packed.

(** A settlement that fulfils. *)
Definition fulfils {K T E : Type} (ev : Run.Event K T E) : Prop :=
  match ev with Run.Fulfil _ => True | _ => False end.

(** An offset delivered again, to the other manager and to the same one,
    after it was checkpointed. *)
Definition replayed : list Demo.Event :=
  [Run.Add 0 "D"%string 10%Z 5%Z; Run.Fulfil 0; Run.Add 1 "I"%string 20%Z 5%Z;
   Run.Add 0 "D"%string 11%Z 5%Z; Run.Fulfil 0].

End Course.

(** ** The lambda as an execution of the system *)
Module Hosted.

(** What the listeners installed by the constructor passed on: the outputs
    other than the lines of [winston.error]. *)
Definition heard (out : list ScriptoriumLambda.Output) : list ScriptoriumLambda.Output :=
  List.filter
    (fun o => match o with ScriptoriumLambda.WinstonError _ => false | _ => true end)
    out.

(** The target [handler] adds a sequenced message under. *)
Definition target (value : Payload.t) : ScriptoriumLambda.Key :=
  Some (IMongoTarget.mk (Payload.documentId value) (Payload.tenantId value)).

(** An event as [handler] causes it: a sequenced message goes to the mongo
    manager under its own target, a null value to the idle manager under the
    null key. *)
Definition keyed (ev : Run.Event ScriptoriumLambda.Key ScriptoriumLambda.Work Js.Error)
  : Prop :=
  match ev with
  | Run.Add i id value _ =>
      (i = ScriptoriumLambda.mongoManager /\
       exists message, value = Some message /\ id = target message) \/
      (i = ScriptoriumLambda.idleManager /\ id = None /\ value = None)
  | _ => True
  end.

(** The offsets of the messages that parse, in the order [handler]
    receives them: the offsets it passes to [add]. *)
Fixpoint delivered (safelyParseJSON : string -> option Payload.t)
    (inputs : list ScriptoriumLambda.Input) : list Z :=
  match inputs with
  | [] => []
  | ScriptoriumLambda.Handle message :: rest =>
      match safelyParseJSON (Inbound.value message) with
      | Some _ => Inbound.offset message :: delivered safelyParseJSON rest
      | None => delivered safelyParseJSON rest
      end
  | _ :: rest => delivered safelyParseJSON rest
  end.

(** What [context.error] was called with: the [AssertionError] of
    [updateOffset], or the reason [processMongoBatch] rejected with on one of
    the batches [sent] that the mongo sender was called with. *)
Definition accounted (JSON_parse : string -> IMongoTarget.t)
    (opCollection : ICollection) (contentCollection : option ICollection)
    (sent : list (Batch.t ScriptoriumLambda.Work))
    (err : Run.Failure Js.Error) : Prop :=
  err = Run.AssertionError \/
  exists e batch,
    err = Run.SendRejected e /\ In batch sent /\
    Promise.outcome
      (ScriptoriumLambda.processMongoBatch JSON_parse opCollection contentCollection
         (ScriptoriumLambda.typed batch)) = Rejected e.

(** A store that refuses every insert with an error that is no duplicate
    key. *)
Definition refused : Js.Error := Js.mkError "MongoError" (Some 1%Z).

Definition refusing : ICollection :=
  {| insertMany := fun _ _ => Promise.mk 1 (Rejected refused);
     update := fun _ _ => Promise.resolve |}.

(** The manager 0 of [Demo.mixed] at its end: the value of offset 1 in
    flight, the value of offset 3 pending. *)
Definition busy : BatchManager.t Z :=
  BatchManager.mk (Range.mk (Fin 0) (Fin 3))
    (OffsetBatch.mk (Some 3%Z) [("D"%string, [30%Z])])
    (OffsetBatch.mk (Some 1%Z) [("D"%string, [10%Z])]) false.

(** The lambda after the write of its first message was refused. *)
Definition halted : ScriptoriumLambda.State :=
  Run.mk
    (WorkManager.mk
       [BatchManager.mk (Range.mk (Fin 0) (Fin 1)) OffsetBatch.new
          (OffsetBatch.mk (Some 1%Z)
             [(LambdaDemo.JSON_stringify (target (LambdaDemo.sequenced 5)),
               [Some (ScriptoriumLambda.normalise LambdaDemo.stringify
                        (LambdaDemo.sequenced 5))])])
          false;
        BatchManager.new]
       NegInf)
    [Run.mkLedger 0 [1%Z] [] [1%Z] [] true; Run.ledger0].

(** A WorkManager whose one manager has stored the offset 1 and whose
    [lastOffset] does not know it yet. *)
Definition stale : WorkManager.t Z :=
  WorkManager.mk
    [BatchManager.mk (Range.mk (Fin 1) (Fin 1)) OffsetBatch.new OffsetBatch.new false]
    NegInf.

End Hosted.

(** ** The system over a reading of [Range.empty]

    The class [Range] is not part of the source, and the specification
    describes its getter [empty] in two ways.  The definitions of this module
    are those of [BatchManager.add], [WorkManager.updateOffset], the steps of
    the system and the lambda, with the getter as a parameter; with
    [Range.empty] for it they are the definitions above. *)
Module Reading.

(** Modelled from the spec: the getter [empty] of the class [Range], which
    the source imports and does not contain, in its second reading.  Sections
    3 and 4.1 of the specification have it true when [head] is the sentinel
    (that is [Range.empty]).  Section 3 also has the tail set at the first
    [add] since the last fully-drained state, section 4.4 has the range of an
    idle pipeline empty and section 4.5 the union empty when all pipelines are
    idle; the comments of [add] and of [updateOffset] in the source speak of a
    manager going from empty to not empty at an [add] and of empty ranges
    whose heads are the largest offsets seen.  In that reading a range is
    empty when its tail has caught up with its head. *)
Definition caughtUp (r : Range.t) : bool := Offset.eqb (Range.tail r) (Range.head r).

Section Getter.
Variable empty : Range.t -> bool.

(** Modelled from the spec: the static method [union] of the absent class
    [Range] (section 4.1), over the getter. *)
Definition union (a b : Range.t) : Range.t :=
  if empty a && empty b then Range.new
  else if empty a then b
  else if empty b then a
  else Range.mk (Offset.min (Range.tail a) (Range.tail b))
                (Offset.max (Range.head a) (Range.head b)).

Section Manager.
Context {K T : Type}.
Variable JSON_stringify : K -> string.

(** [BatchManager.add] *)
Definition add (id : K) (value : T) (offset : Z) (m : BatchManager.t T)
  : BatchManager.t T * option (Batch.t T) :=
  let wasEmpty := empty (BatchManager.range m) in
  let r := Range.set_head (Fin offset) (BatchManager.range m) in
  let r := if wasEmpty then Range.set_tail (Fin (offset - 1)) r else r in
  let p := OffsetBatch.mk (Some offset)
             (Batch.add JSON_stringify id value
                (OffsetBatch.batch (BatchManager.pending m))) in
  BatchManager.requestSend
    (BatchManager.mk r p (BatchManager.current m) (BatchManager.closed m)).

End Manager.

Section Work.
Context {T : Type}.

(** The loop of [updateOffset] over [this.work]. *)
Definition scan (acc : Offset.t * Range.t) (ws : list (BatchManager.t T))
  : Offset.t * Range.t :=
  fold_left
    (fun acc wk =>
       (Offset.max (fst acc) (Range.head (BatchManager.range wk)),
        union (snd acc) (BatchManager.range wk)))
    ws acc.

Definition derived (w : WorkManager.t T) : Offset.t :=
  let '(maxHead, range) :=
    scan (WorkManager.lastOffset w, Range.new) (WorkManager.work w) in
  if empty range then maxHead else Range.tail range.

(** [WorkManager.updateOffset]: [None] when [assert.ok] throws. *)
Definition updateOffset (w : WorkManager.t T)
  : option (WorkManager.t T * option Offset.t) :=
  let offset := derived w in
  if Offset.leb (WorkManager.lastOffset w) offset then
    if negb (Offset.eqb offset (WorkManager.lastOffset w))
    then Some (WorkManager.mk (WorkManager.work w) offset, Some offset)
    else Some (w, None)
  else None.

End Work.

Section Run.
Context {K T E : Type}.
Variable JSON_stringify : K -> string.

Definition step (s : Run.t T) (ev : Run.Event K T E)
  : option (Run.t T * list (Run.Effect T E)) :=
  match ev with
  | Run.Add i id value offset =>
      m ← WorkManager.work (Run.manager s) !! i;
      lg ← Run.ledgers s !! i;
      let '(m', sent) := add JSON_stringify id value offset m in
      Some (Run.mk (Run.set_work i m' (Run.manager s))
              (<[i := Run.launch sent (Run.noted offset lg)]> (Run.ledgers s)),
            Run.sends i sent)
  | Run.Fulfil i =>
      m ← WorkManager.work (Run.manager s) !! i;
      lg ← Run.ledgers s !! i;
      match Run.outstanding lg with
      | O => None
      | S _ =>
          '(m1, o) ← BatchManager.processed m;
          let lg1 := Run.stored (Run.settled lg) in
          let w1 := Run.set_work i m1 (Run.manager s) in
          match updateOffset w1 with
          | None =>
              Some (Run.mk w1 (<[i := Run.broken lg1]> (Run.ledgers s)),
                    [Run.WorkComplete i o; Run.Error Run.AssertionError])
          | Some (w2, changed) =>
              let '(m3, sent) := BatchManager.next m1 in
              Some (Run.mk (Run.set_work i m3 w2)
                      (<[i := Run.launch sent (Run.cleared lg1)]> (Run.ledgers s)),
                    Run.WorkComplete i o :: Run.changes changed ++ Run.sends i sent)
          end
      end
  | Run.Reject i e =>
      m ← WorkManager.work (Run.manager s) !! i;
      lg ← Run.ledgers s !! i;
      match Run.outstanding lg with
      | O => None
      | S _ =>
          Some (Run.mk (Run.manager s)
                  (<[i := Run.broken (Run.settled lg)]> (Run.ledgers s)),
                [Run.Error (Run.SendRejected e)])
      end
  | Run.Close => Some (Run.mk (WorkManager.close (Run.manager s)) (Run.ledgers s), [])
  | Run.CloseOne i =>
      m ← WorkManager.work (Run.manager s) !! i;
      Some (Run.mk (Run.set_work i (BatchManager.close m) (Run.manager s))
              (Run.ledgers s), [])
  end.

Fixpoint run (s : Run.t T) (evs : list (Run.Event K T E))
  : option (Run.t T * list (Run.Effect T E)) :=
  match evs with
  | [] => Some (s, [])
  | ev :: evs' =>
      '(s1, out1) ← step s ev;
      '(s2, out2) ← run s1 evs';
      Some (s2, out1 ++ out2)
  end.

End Run.

Section Lambda.
Variable JSON_stringify : ScriptoriumLambda.Key -> string.
Variable JSON_parse : string -> IMongoTarget.t.
Variable stringify : JSON -> string.
Variable safelyParseJSON : string -> option Payload.t.
Variable opCollection : ICollection.
Variable contentCollection : option ICollection.

(** [ScriptoriumLambda.handler] *)
Definition handler (message : Inbound.t) (s : ScriptoriumLambda.State)
  : option (ScriptoriumLambda.State * list ScriptoriumLambda.Output) :=
  let messageContent := Inbound.value message in
  match safelyParseJSON messageContent with
  | None =>
      Some (s, [ScriptoriumLambda.WinstonError
                  (String.append "Invalid JSON input: " messageContent)])
  | Some baseMessage =>
      if String.eqb (Payload.type baseMessage) ScriptoriumLambda.SequencedOperationType then
        let value := ScriptoriumLambda.normalise stringify baseMessage in
        ScriptoriumLambda.observe
          (step JSON_stringify s
             (Run.Add ScriptoriumLambda.mongoManager
                (Some (IMongoTarget.mk (Payload.documentId value) (Payload.tenantId value)))
                (Some value) (Inbound.offset message)))
      else
        ScriptoriumLambda.observe
          (step JSON_stringify s
             (Run.Add ScriptoriumLambda.idleManager None None (Inbound.offset message)))
  end.

Definition close (s : ScriptoriumLambda.State)
  : option (ScriptoriumLambda.State * list ScriptoriumLambda.Output) :=
  ScriptoriumLambda.observe (step JSON_stringify s Run.Close).

Definition mongoSettles (s : ScriptoriumLambda.State)
  : option (ScriptoriumLambda.State * list ScriptoriumLambda.Output) :=
  m ← WorkManager.work (Run.manager s) !! ScriptoriumLambda.mongoManager;
  match Promise.outcome
          (ScriptoriumLambda.processMongoBatch JSON_parse opCollection contentCollection
             (ScriptoriumLambda.typed (OffsetBatch.batch (BatchManager.current m)))) with
  | Fulfilled =>
      ScriptoriumLambda.observe
        (step JSON_stringify s (Run.Fulfil ScriptoriumLambda.mongoManager))
  | Rejected e =>
      ScriptoriumLambda.observe
        (step JSON_stringify s (Run.Reject ScriptoriumLambda.mongoManager e))
  end.

Definition idleSettles (s : ScriptoriumLambda.State)
  : option (ScriptoriumLambda.State * list ScriptoriumLambda.Output) :=
  ScriptoriumLambda.observe
    (step JSON_stringify s (Run.Fulfil ScriptoriumLambda.idleManager)).

Definition react (s : ScriptoriumLambda.State) (i : ScriptoriumLambda.Input)
  : option (ScriptoriumLambda.State * list ScriptoriumLambda.Output) :=
  match i with
  | ScriptoriumLambda.Handle message => handler message s
  | ScriptoriumLambda.MongoSettles => mongoSettles s
  | ScriptoriumLambda.IdleSettles => idleSettles s
  | ScriptoriumLambda.CloseLambda => close s
  end.

Fixpoint exec (s : ScriptoriumLambda.State) (inputs : list ScriptoriumLambda.Input)
  : option (ScriptoriumLambda.State * list ScriptoriumLambda.Output) :=
  match inputs with
  | [] => Some (s, [])
  | i :: rest =>
      '(s1, out1) ← react s i;
      '(s2, out2) ← exec s1 rest;
      Some (s2, out1 ++ out2)
  end.

End Lambda.

End Getter.

(** The range of a manager after [add], in the second reading. *)
Definition grown (offset : Z) (r : Range.t) : Range.t :=
  Range.mk (if caughtUp r then Fin (offset - 1) else Range.tail r) (Fin offset).

(** A range whose tail is not above its head. *)
Definition proper (r : Range.t) : Prop := Offset.le (Range.tail r) (Range.head r).

Section Invariants.
Context {T : Type}.

(** The greatest [range.head] of the managers. *)
Definition maxHead (ws : list (BatchManager.t T)) : Offset.t :=
  fold_right Offset.max NegInf
    (List.map (fun m => Range.head (BatchManager.range m)) ws).

(** A manager at rest: nothing pending, nothing in flight. *)
Definition atRest (m : BatchManager.t T) : Prop :=
  OffsetBatch.isEmpty (BatchManager.pending m) = true /\
  OffsetBatch.isEmpty (BatchManager.current m) = true.

(** What holds of a manager when the offsets of the log increase strictly
    and no assertion has failed; [hi] bounds the offsets delivered so far.
    At rest the tail has caught up with the head; otherwise the head is the
    offset of the newest batch and the tail is below the offsets of both
    batches. *)
Record Poised (hi : Offset.t) (m : BatchManager.t T) : Prop := {
  poised_hi : Offset.le (Range.head (BatchManager.range m)) hi;
  poised_rest :
    OffsetBatch.offset (BatchManager.pending m) = None ->
    OffsetBatch.offset (BatchManager.current m) = None ->
    Range.tail (BatchManager.range m) = Range.head (BatchManager.range m);
  poised_pending :
    forall p, OffsetBatch.offset (BatchManager.pending m) = Some p ->
              Range.head (BatchManager.range m) = Fin p /\
              Offset.lt (Range.tail (BatchManager.range m)) (Fin p);
  poised_current :
    forall c, OffsetBatch.offset (BatchManager.current m) = Some c ->
              Offset.lt (Range.tail (BatchManager.range m)) (Fin c) /\
              (OffsetBatch.offset (BatchManager.pending m) = None ->
               Range.head (BatchManager.range m) = Fin c) /\
              (forall p, OffsetBatch.offset (BatchManager.pending m) = Some p -> (c < p)%Z)
}.

(** The state invariant under strictly increasing offsets, in the second
    reading. *)
Record Settled (hi : Offset.t) (s : Run.t T) : Prop := {
  settled_sane : Inv.AllSane s;
  settled_poised : Forall (Poised hi) (WorkManager.work (Run.manager s));
  settled_lo :
    forall j m, WorkManager.work (Run.manager s) !! j = Some m ->
                caughtUp (BatchManager.range m) = false ->
                Offset.le (WorkManager.lastOffset (Run.manager s))
                          (Range.tail (BatchManager.range m));
  settled_below :
    Offset.le (WorkManager.lastOffset (Run.manager s))
              (maxHead (WorkManager.work (Run.manager s)));
  settled_rest :
    Forall atRest (WorkManager.work (Run.manager s)) ->
    WorkManager.lastOffset (Run.manager s) = maxHead (WorkManager.work (Run.manager s))
}.

End Invariants.

(** An input that the lambda treats as the event [ev] of the system. *)
Definition treated
    (JSON_stringify : ScriptoriumLambda.Key -> string) (JSON_parse : string -> IMongoTarget.t)
    (stringify : JSON -> string) (safelyParseJSON : string -> option Payload.t)
    (opCollection : ICollection) (contentCollection : option ICollection)
    (i : ScriptoriumLambda.Input)
    (ev : Run.Event ScriptoriumLambda.Key ScriptoriumLambda.Work Js.Error) : Prop :=
  forall s,
    react caughtUp JSON_stringify JSON_parse stringify safelyParseJSON
      opCollection contentCollection s i =
    ScriptoriumLambda.observe (step caughtUp JSON_stringify s ev).

(** The managers are closed while the first send of manager 0 is in flight;
    a second value is delivered to it afterwards. *)
Definition stalled : list Demo.Event :=
  [Run.Add 0 "D"%string 10%Z 1%Z; Run.Close; Run.Fulfil 0;
   Run.Add 0 "D"%string 20%Z 2%Z].

(** The state after [stalled]: the second value waits in [pending], nothing
    is in flight. *)
Definition stalledState : Run.t Z :=
  Run.mk
    (WorkManager.mk
       [BatchManager.mk (Range.mk (Fin 1) (Fin 2))
          (OffsetBatch.mk (Some 2%Z) [("D"%string, [20%Z])])
          (OffsetBatch.mk None []) true;
        BatchManager.mk (Range.mk NegInf NegInf)
          (OffsetBatch.mk None []) (OffsetBatch.mk None []) true]
       (Fin 1))
    [Run.mkLedger 0 [1; 2]%Z [2]%Z [] [1]%Z false; Run.ledger0].

(** What the system emits along [stalled]. *)
Definition stalledEffects : list Demo.Effect :=
  [Run.Sent 0 [("D"%string, [10%Z])]; Run.WorkComplete 0 1; Run.OffsetChanged (Fin 1)].

(** The state and the effects of the system after Scenario C
    ([LambdaDemo.eventsC]). *)
Definition stateC : Run.t ScriptoriumLambda.Work :=
  match run caughtUp LambdaDemo.JSON_stringify (Run.init 2) LambdaDemo.eventsC with
  | Some (s, _) => s
  | None => Run.init 2
  end.
Definition effectsC : list (Run.Effect ScriptoriumLambda.Work Js.Error) :=
  match run caughtUp LambdaDemo.JSON_stringify (Run.init 2) LambdaDemo.eventsC with
  | Some (_, out) => out
  | None => []
  end.

End Reading.


(** * Properties *)

(** ** Numbers *)
Module OffsetFacts.

Lemma leb_le a b : Offset.leb a b = true <-> Offset.le a b.
Proof. destruct a, b; simpl; try tauto; try easy. apply Z.leb_le. Qed.

Lemma leb_gt a b : Offset.leb a b = false <-> Offset.lt b a.
Proof.
  destruct a, b; simpl; try tauto; try easy. apply Z.leb_gt.
Qed.

Lemma eqb_eq a b : Offset.eqb a b = true <-> a = b.
Proof.
  destruct a, b; simpl; try easy.
  rewrite Z.eqb_eq. split; congruence.
Qed.

Lemma eqb_neq a b : Offset.eqb a b = false <-> a <> b.
Proof.
  rewrite <- eqb_eq. destruct (Offset.eqb a b); split; congruence.
Qed.

Lemma le_refl a : Offset.le a a.
Proof. destruct a; simpl; lia. Qed.

Lemma le_trans a b c : Offset.le a b -> Offset.le b c -> Offset.le a c.
Proof. destruct a, b, c; simpl; try tauto; lia. Qed.

Lemma lt_le a b : Offset.lt a b -> Offset.le a b.
Proof. destruct a, b; simpl; try tauto; lia. Qed.

Lemma le_lt_trans a b c : Offset.le a b -> Offset.lt b c -> Offset.lt a c.
Proof. destruct a, b, c; simpl; try tauto; lia. Qed.

Lemma lt_le_trans a b c : Offset.lt a b -> Offset.le b c -> Offset.lt a c.
Proof. destruct a, b, c; simpl; try tauto; lia. Qed.

Lemma lt_irrefl a : ~ Offset.lt a a.
Proof. destruct a; simpl; lia. Qed.

Lemma le_antisym a b : Offset.le a b -> Offset.le b a -> a = b.
Proof. destruct a, b; simpl; try tauto. intros. f_equal. lia. Qed.

Lemma le_not_lt a b : Offset.le a b -> ~ Offset.lt b a.
Proof. destruct a, b; simpl; try tauto; lia. Qed.

Lemma le_neq_lt a b : Offset.le a b -> a <> b -> Offset.lt a b.
Proof.
  destruct a, b; simpl; try tauto; try congruence.
  intros H N. assert (z <> z0) by congruence. lia.
Qed.

Lemma le_total a b : Offset.le a b \/ Offset.le b a.
Proof. destruct a, b; simpl; try tauto; lia. Qed.

Lemma neginf_le a : Offset.le NegInf a.
Proof. exact I. Qed.

Lemma le_neginf a : Offset.le a NegInf -> a = NegInf.
Proof. destruct a; simpl; tauto. Qed.

Lemma max_l a b : Offset.le a (Offset.max a b).
Proof.
  unfold Offset.max. destruct (Offset.leb a b) eqn:H.
  - now apply leb_le.
  - apply le_refl.
Qed.

Lemma max_r a b : Offset.le b (Offset.max a b).
Proof.
  unfold Offset.max. destruct (Offset.leb a b) eqn:H.
  - apply le_refl.
  - apply lt_le. now apply leb_gt.
Qed.

Lemma max_neginf a : Offset.max a NegInf = a.
Proof. destruct a; reflexivity. Qed.

Lemma min_l a b : Offset.le (Offset.min a b) a.
Proof.
  unfold Offset.min. destruct (Offset.leb a b) eqn:H.
  - apply le_refl.
  - apply lt_le. now apply leb_gt.
Qed.

Lemma min_r a b : Offset.le (Offset.min a b) b.
Proof.
  unfold Offset.min. destruct (Offset.leb a b) eqn:H.
  - now apply leb_le.
  - apply le_refl.
Qed.

Lemma min_cases a b : Offset.min a b = a \/ Offset.min a b = b.
Proof. unfold Offset.min. destruct (Offset.leb a b); auto. Qed.

Lemma min_glb c a b : Offset.le c a -> Offset.le c b -> Offset.le c (Offset.min a b).
Proof. destruct (min_cases a b) as [-> | ->]; auto. Qed.

Lemma max_fin a b : a <> NegInf -> Offset.max a b <> NegInf.
Proof.
  destruct a as [|x]; [congruence|]. intros _.
  destruct b as [|y]; unfold Offset.max; simpl; [congruence|].
  destruct (x <=? y)%Z; congruence.
Qed.

End OffsetFacts.

Create HintDb offs.
#[local] Hint Resolve OffsetFacts.le_refl OffsetFacts.neginf_le OffsetFacts.lt_le
  OffsetFacts.max_l OffsetFacts.max_r OffsetFacts.min_l OffsetFacts.min_r : offs.

(** ** Ranges and the scan of [updateOffset] *)
Module RangeFacts.

Lemma empty_head r : Range.empty r = true <-> Range.head r = NegInf.
Proof. unfold Range.empty. apply OffsetFacts.eqb_eq. Qed.

Lemma nonempty_head r : Range.empty r = false <-> Range.head r <> NegInf.
Proof. unfold Range.empty. apply OffsetFacts.eqb_neq. Qed.

Lemma union_empty a b :
  Range.empty (Range.union a b) = Range.empty a && Range.empty b.
Proof.
  unfold Range.union.
  destruct (Range.empty a) eqn:Ha, (Range.empty b) eqn:Hb; simpl; auto.
  apply nonempty_head. simpl. apply OffsetFacts.max_fin. now apply nonempty_head.
Qed.

Lemma union_tail_cases a b :
  Range.empty (Range.union a b) = false ->
  (Range.empty a = false /\ Range.tail (Range.union a b) = Range.tail a) \/
  (Range.empty b = false /\ Range.tail (Range.union a b) = Range.tail b).
Proof.
  unfold Range.union.
  destruct (Range.empty a) eqn:Ha, (Range.empty b) eqn:Hb; simpl;
    intros H; try discriminate; auto.
  destruct (OffsetFacts.min_cases (Range.tail a) (Range.tail b)) as [-> | ->]; auto.
Qed.

Lemma union_tail_l a b :
  Range.empty a = false -> Offset.le (Range.tail (Range.union a b)) (Range.tail a).
Proof.
  unfold Range.union. intros ->. simpl.
  destruct (Range.empty b); simpl; auto with offs.
Qed.

Lemma union_tail_r a b :
  Range.empty b = false -> Offset.le (Range.tail (Range.union a b)) (Range.tail b).
Proof.
  unfold Range.union. intros ->. rewrite andb_false_r.
  destruct (Range.empty a); simpl; auto with offs.
Qed.

End RangeFacts.

Module ScanFacts.

Section Scan.
Context {T : Type}.
Implicit Types (m : BatchManager.t T) (ws : list (BatchManager.t T)).
Implicit Types (acc : Offset.t * Range.t).

Lemma scan_cons acc m ws :
  WorkManager.scan acc (m :: ws) =
  WorkManager.scan
    (Offset.max (fst acc) (Range.head (BatchManager.range m)),
     Range.union (snd acc) (BatchManager.range m)) ws.
Proof. reflexivity. Qed.

Lemma scan_empty acc ws :
  Range.empty (snd (WorkManager.scan acc ws)) =
  Range.empty (snd acc) && forallb (fun m => Range.empty (BatchManager.range m)) ws.
Proof.
  revert acc. induction ws as [|m ws IH]; intros acc.
  - simpl. now rewrite andb_true_r.
  - rewrite scan_cons, IH. simpl. rewrite RangeFacts.union_empty.
    now rewrite andb_assoc.
Qed.

Lemma scan_tail_acc acc ws :
  Range.empty (snd acc) = false ->
  Offset.le (Range.tail (snd (WorkManager.scan acc ws))) (Range.tail (snd acc)).
Proof.
  revert acc. induction ws as [|m ws IH]; intros acc Hacc.
  - apply OffsetFacts.le_refl.
  - rewrite scan_cons.
    eapply OffsetFacts.le_trans.
    + apply IH. simpl. rewrite RangeFacts.union_empty, Hacc. reflexivity.
    + simpl. now apply RangeFacts.union_tail_l.
Qed.

Lemma scan_tail_le acc ws m :
  In m ws -> Range.empty (BatchManager.range m) = false ->
  Offset.le (Range.tail (snd (WorkManager.scan acc ws)))
            (Range.tail (BatchManager.range m)).
Proof.
  revert acc. induction ws as [|m' ws IH]; intros acc Hin Hm.
  - destruct Hin.
  - rewrite scan_cons. destruct Hin as [-> | Hin].
    + eapply OffsetFacts.le_trans.
      * apply scan_tail_acc. simpl.
        rewrite RangeFacts.union_empty, Hm. apply andb_false_r.
      * simpl. now apply RangeFacts.union_tail_r.
    + now apply IH.
Qed.

Lemma scan_tail_cases acc ws :
  Range.empty (snd (WorkManager.scan acc ws)) = false ->
  (Range.empty (snd acc) = false /\
   Range.tail (snd (WorkManager.scan acc ws)) = Range.tail (snd acc)) \/
  (exists m, In m ws /\ Range.empty (BatchManager.range m) = false /\
             Range.tail (snd (WorkManager.scan acc ws)) =
             Range.tail (BatchManager.range m)).
Proof.
  revert acc. induction ws as [|m ws IH]; intros acc H.
  - left. auto.
  - rewrite scan_cons in *. destruct (IH _ H) as [[He Ht] | (m' & Hin & Hm' & Ht)].
    + simpl in He, Ht. rewrite Ht.
      destruct (RangeFacts.union_tail_cases _ _ He) as [[Ha ->] | [Hb ->]].
      * left. auto.
      * right. exists m. simpl. auto.
    + right. exists m'. simpl. auto.
Qed.

Lemma scan_fst_empty acc ws :
  (forall m, In m ws -> Range.empty (BatchManager.range m) = true) ->
  fst (WorkManager.scan acc ws) = fst acc.
Proof.
  revert acc. induction ws as [|m ws IH]; intros acc H.
  - reflexivity.
  - rewrite scan_cons, IH by (intros; apply H; now right). simpl.
    assert (Hm : Range.head (BatchManager.range m) = NegInf).
    { apply RangeFacts.empty_head, H. now left. }
    rewrite Hm. apply OffsetFacts.max_neginf.
Qed.

Lemma derived_unfold (w : WorkManager.t T) :
  WorkManager.derived w =
  let sc := WorkManager.scan (WorkManager.lastOffset w, Range.new) (WorkManager.work w) in
  if Range.empty (snd sc) then fst sc else Range.tail (snd sc).
Proof. unfold WorkManager.derived. now destruct (WorkManager.scan _ _). Qed.

Lemma forallb_empty_all ws :
  forallb (fun m => Range.empty (BatchManager.range m)) ws = true ->
  forall m, In m ws -> Range.empty (BatchManager.range m) = true.
Proof. intros H m Hin. rewrite forallb_forall in H. now apply H. Qed.

(** The derived offset is [lastOffset] when every range is empty, and the
    least tail of the ranges that are not, otherwise. *)
Lemma derived_cases (w : WorkManager.t T) :
  (WorkManager.derived w = WorkManager.lastOffset w /\
   forall m, In m (WorkManager.work w) -> Range.empty (BatchManager.range m) = true) \/
  (exists m, In m (WorkManager.work w) /\
             Range.empty (BatchManager.range m) = false /\
             WorkManager.derived w = Range.tail (BatchManager.range m)).
Proof.
  rewrite derived_unfold. cbv zeta.
  destruct (Range.empty (snd (WorkManager.scan _ _))) eqn:He.
  - left. rewrite scan_empty in He. simpl in He.
    pose proof (forallb_empty_all _ He) as Hall.
    split; [|exact Hall]. now rewrite scan_fst_empty.
  - right. destruct (scan_tail_cases _ _ He) as [[Hacc _] | (m & Hin & Hm & Ht)].
    + simpl in Hacc. discriminate.
    + exists m. auto.
Qed.

Lemma derived_le_tail (w : WorkManager.t T) m :
  In m (WorkManager.work w) -> Range.empty (BatchManager.range m) = false ->
  Offset.le (WorkManager.derived w) (Range.tail (BatchManager.range m)).
Proof.
  intros Hin Hm. rewrite derived_unfold. cbv zeta.
  destruct (Range.empty (snd (WorkManager.scan _ _))) eqn:He.
  - rewrite scan_empty in He. simpl in He.
    rewrite (forallb_empty_all _ He m Hin) in Hm. discriminate.
  - now apply scan_tail_le.
Qed.

Lemma derived_ge (w : WorkManager.t T) lo :
  Offset.le lo (WorkManager.lastOffset w) ->
  (forall m, In m (WorkManager.work w) -> Range.empty (BatchManager.range m) = false ->
             Offset.le lo (Range.tail (BatchManager.range m))) ->
  Offset.le lo (WorkManager.derived w).
Proof.
  intros Hlo H. destruct (derived_cases w) as [[-> _] | (m & Hin & Hm & ->)]; auto.
Qed.

(** [updateOffset] in terms of the derived offset. *)
Lemma updateOffset_Some (w w' : WorkManager.t T) changed :
  WorkManager.updateOffset w = Some (w', changed) ->
  WorkManager.work w' = WorkManager.work w /\
  WorkManager.lastOffset w' = WorkManager.derived w /\
  Offset.le (WorkManager.lastOffset w) (WorkManager.lastOffset w') /\
  (changed = None /\ WorkManager.lastOffset w' = WorkManager.lastOffset w \/
   changed = Some (WorkManager.lastOffset w') /\
   Offset.lt (WorkManager.lastOffset w) (WorkManager.lastOffset w')).
Proof.
  unfold WorkManager.updateOffset.
  destruct (Offset.leb _ _) eqn:Hle; [|discriminate].
  apply OffsetFacts.leb_le in Hle.
  destruct (Offset.eqb _ _) eqn:Heq; simpl; intros [= <- <-]; simpl.
  - apply OffsetFacts.eqb_eq in Heq. rewrite Heq. auto 6 with offs.
  - apply OffsetFacts.eqb_neq in Heq. repeat split; auto.
    right. split; auto. apply OffsetFacts.le_neq_lt; auto.
Qed.

Lemma updateOffset_None (w : WorkManager.t T) :
  WorkManager.updateOffset w = None ->
  Offset.lt (WorkManager.derived w) (WorkManager.lastOffset w).
Proof.
  unfold WorkManager.updateOffset.
  destruct (Offset.leb _ _) eqn:Hle.
  - destruct (negb _); discriminate.
  - intros _. now apply OffsetFacts.leb_gt.
Qed.

End Scan.

End ScanFacts.

(** ** One manager *)
Module ManagerFacts.

Section Manager.
Context {K T : Type}.
Variable JSON_stringify : K -> string.
Implicit Types (m : BatchManager.t T).

Lemma add_cases id value offset m :
  let r := Inv.grown offset (BatchManager.range m) in
  let p := Inv.filled JSON_stringify id value offset (BatchManager.pending m) in
  ((OffsetBatch.isEmpty (BatchManager.current m) = false \/ BatchManager.closed m = true) /\
   BatchManager.add JSON_stringify id value offset m =
   (BatchManager.mk r p (BatchManager.current m) (BatchManager.closed m), None)) \/
  (OffsetBatch.isEmpty (BatchManager.current m) = true /\
   BatchManager.closed m = false /\
   BatchManager.add JSON_stringify id value offset m =
   (BatchManager.mk r (BatchManager.current m) p false, Some (OffsetBatch.batch p))).
Proof.
  destruct m as [r p c cl]. unfold BatchManager.add, BatchManager.requestSend,
    BatchManager.sendPending, Inv.grown, Inv.filled, Range.set_head, Range.set_tail. simpl.
  destruct (OffsetBatch.isEmpty c) eqn:Hc; simpl.
  - destruct cl; simpl.
    + left. split; auto. destruct (Range.empty r); reflexivity.
    + right. repeat split. destruct (Range.empty r); reflexivity.
  - left. split; auto. destruct (Range.empty r); reflexivity.
Qed.

Lemma grown_nonempty offset r : Range.empty (Inv.grown offset r) = false.
Proof. reflexivity. Qed.

Lemma next_cases m :
  let c := OffsetBatch.clear (BatchManager.current m) in
  ((BatchManager.closed m = true \/ OffsetBatch.isEmpty (BatchManager.pending m) = true) /\
   BatchManager.next m =
   (BatchManager.mk (BatchManager.range m) (BatchManager.pending m) c (BatchManager.closed m),
    None)) \/
  (BatchManager.closed m = false /\
   OffsetBatch.isEmpty (BatchManager.pending m) = false /\
   BatchManager.next m =
   (BatchManager.mk (BatchManager.range m) c (BatchManager.pending m) false,
    Some (OffsetBatch.batch (BatchManager.pending m)))).
Proof.
  destruct m as [r p c cl]. unfold BatchManager.next, BatchManager.sendPending. simpl.
  destruct cl; simpl; auto.
  destruct (OffsetBatch.isEmpty p) eqn:Hp; simpl; auto.
Qed.

Lemma processed_Some m m1 o :
  BatchManager.processed m = Some (m1, o) ->
  OffsetBatch.offset (BatchManager.current m) = Some o /\
  m1 = BatchManager.mk (Range.mk (Fin o) (Range.head (BatchManager.range m)))
         (BatchManager.pending m) (BatchManager.current m) (BatchManager.closed m).
Proof.
  unfold BatchManager.processed.
  destruct (OffsetBatch.offset (BatchManager.current m)); [|discriminate].
  intros [= <- <-]. auto.
Qed.

Lemma isEmpty_false (b : OffsetBatch.t T) :
  OffsetBatch.isEmpty b = false <-> exists o, OffsetBatch.offset b = Some o.
Proof.
  unfold OffsetBatch.isEmpty.
  destruct (OffsetBatch.offset b); split; intros H; eauto; try discriminate.
  destruct H; discriminate.
Qed.

Lemma isEmpty_true (b : OffsetBatch.t T) :
  OffsetBatch.isEmpty b = true <-> OffsetBatch.offset b = None.
Proof.
  unfold OffsetBatch.isEmpty. destruct (OffsetBatch.offset b); split; auto; discriminate.
Qed.

End Manager.

End ManagerFacts.

(** ** Steps *)
Module StepFacts.

Section Step.
Context {K T E : Type}.
Variable JSON_stringify : K -> string.
Implicit Types (s : Run.t T) (m : BatchManager.t T) (lg : Run.Ledger).
Implicit Types (out : list (Run.Effect T E)) (evs : list (Run.Event K T E)).

Local Abbreviation step := (Run.step (E:=E) JSON_stringify).
Local Abbreviation run := (Run.run (E:=E) JSON_stringify).

Lemma step_Add s i id value offset s' out :
  step s (Run.Add i id value offset) = Some (s', out) ->
  exists m lg m' sent,
    WorkManager.work (Run.manager s) !! i = Some m /\
    Run.ledgers s !! i = Some lg /\
    BatchManager.add JSON_stringify id value offset m = (m', sent) /\
    s' = Run.mk (Run.set_work i m' (Run.manager s))
           (<[i := Run.launch sent (Run.noted offset lg)]> (Run.ledgers s)) /\
    out = Run.sends i sent.
Proof.
  simpl. intros H.
  destruct (WorkManager.work (Run.manager s) !! i) as [m|] eqn:Hm; [|discriminate].
  destruct (Run.ledgers s !! i) as [lg|] eqn:Hlg; [|discriminate].
  simpl in H. destruct (BatchManager.add _ _ _ _ _) as [m' sent] eqn:Hadd.
  injection H as <- <-. exists m, lg, m', sent. auto.
Qed.

Lemma step_Fulfil s i s' out :
  step s (Run.Fulfil i) = Some (s', out) ->
  exists m lg n m1 o,
    WorkManager.work (Run.manager s) !! i = Some m /\
    Run.ledgers s !! i = Some lg /\
    Run.outstanding lg = S n /\
    BatchManager.processed m = Some (m1, o) /\
    let lg1 := Run.stored (Run.settled lg) in
    let w1 := Run.set_work i m1 (Run.manager s) in
    ((WorkManager.updateOffset w1 = None /\
      s' = Run.mk w1 (<[i := Run.broken lg1]> (Run.ledgers s)) /\
      out = [Run.WorkComplete i o; Run.Error Run.AssertionError]) \/
     (exists w2 changed m3 sent,
        WorkManager.updateOffset w1 = Some (w2, changed) /\
        BatchManager.next m1 = (m3, sent) /\
        s' = Run.mk (Run.set_work i m3 w2)
               (<[i := Run.launch sent (Run.cleared lg1)]> (Run.ledgers s)) /\
        out = Run.WorkComplete i o :: Run.changes changed ++ Run.sends i sent)).
Proof.
  simpl. intros H.
  destruct (WorkManager.work (Run.manager s) !! i) as [m|] eqn:Hm; [|discriminate].
  destruct (Run.ledgers s !! i) as [lg|] eqn:Hlg; [|discriminate].
  simpl in H. destruct (Run.outstanding lg) as [|n] eqn:Hn; [discriminate|].
  destruct (BatchManager.processed m) as [[m1 o]|] eqn:Hp; [|discriminate].
  simpl in H. exists m, lg, n, m1, o. repeat (split; [reflexivity || assumption|]).
  cbv zeta.
  destruct (WorkManager.updateOffset _) as [[w2 changed]|] eqn:Hu.
  - destruct (BatchManager.next m1) as [m3 sent] eqn:Hnext.
    injection H as <- <-. right. exists w2, changed, m3, sent. auto.
  - injection H as <- <-. left. auto.
Qed.

Lemma step_Reject s i e s' out :
  step s (Run.Reject i e) = Some (s', out) ->
  exists m lg n,
    WorkManager.work (Run.manager s) !! i = Some m /\
    Run.ledgers s !! i = Some lg /\
    Run.outstanding lg = S n /\
    s' = Run.mk (Run.manager s) (<[i := Run.broken (Run.settled lg)]> (Run.ledgers s)) /\
    out = [Run.Error (Run.SendRejected e)].
Proof.
  simpl. intros H.
  destruct (WorkManager.work (Run.manager s) !! i) as [m|] eqn:Hm; [|discriminate].
  destruct (Run.ledgers s !! i) as [lg|] eqn:Hlg; [|discriminate].
  simpl in H. destruct (Run.outstanding lg) as [|n] eqn:Hn; [discriminate|].
  injection H as <- <-. exists m, lg, n. auto.
Qed.

Lemma step_Close s s' out :
  step s Run.Close = Some (s', out) ->
  s' = Run.mk (WorkManager.close (Run.manager s)) (Run.ledgers s) /\ out = [].
Proof. simpl. intros [= <- <-]. auto. Qed.

Lemma step_CloseOne s i s' out :
  step s (Run.CloseOne i) = Some (s', out) ->
  exists m,
    WorkManager.work (Run.manager s) !! i = Some m /\
    s' = Run.mk (Run.set_work i (BatchManager.close m) (Run.manager s)) (Run.ledgers s) /\
    out = [].
Proof.
  simpl. intros H.
  destruct (WorkManager.work (Run.manager s) !! i) as [m|] eqn:Hm; [|discriminate].
  simpl in H. injection H as <- <-. exists m. auto.
Qed.

Lemma run_cons s ev evs s' out :
  run s (ev :: evs) = Some (s', out) ->
  exists s1 out1 out2,
    step s ev = Some (s1, out1) /\ run s1 evs = Some (s', out2) /\ out = out1 ++ out2.
Proof.
  simpl. intros H.
  destruct (step s ev) as [[s1 out1]|] eqn:Hs; [|discriminate]. simpl in H.
  destruct (run s1 evs) as [[s2 out2]|] eqn:Hr; [|discriminate]. simpl in H.
  injection H as <- <-. exists s1, out1, out2. auto.
Qed.

Lemma run_app s evs1 evs2 s' out :
  run s (evs1 ++ evs2) = Some (s', out) ->
  exists s1 out1 out2,
    run s evs1 = Some (s1, out1) /\ run s1 evs2 = Some (s', out2) /\ out = out1 ++ out2.
Proof.
  revert s s' out. induction evs1 as [|ev evs1 IH]; intros s s' out H.
  - exists s, [], out. auto.
  - rewrite <- app_comm_cons in H.
    apply run_cons in H as (s1 & out1 & out2 & Hs & Hr & ->).
    apply IH in Hr as (s2 & out3 & out4 & Hr1 & Hr2 & ->).
    exists s2, (out1 ++ out3), out4. simpl. rewrite Hs. simpl. rewrite Hr1. simpl.
    rewrite app_assoc. auto.
Qed.

Lemma run_step_last s evs ev s1 out1 s' out' :
  run s evs = Some (s1, out1) -> step s1 ev = Some (s', out') ->
  run s (evs ++ [ev]) = Some (s', out1 ++ out').
Proof.
  revert s out1. induction evs as [|e0 evs IH]; intros s out1 Hrun Hstep; simpl in *.
  - injection Hrun as <- <-. rewrite Hstep. simpl. now rewrite app_nil_r.
  - destruct (step s e0) as [[s2 o2]|]; [|discriminate]. simpl in *.
    destruct (run s2 evs) as [[s3 o3]|] eqn:Hr; [|discriminate].
    simpl in Hrun. injection Hrun as <- <-.
    rewrite (IH _ _ Hr Hstep). simpl. now rewrite app_assoc.
Qed.

Lemma run_app_eq s evs1 evs2 :
  run s (evs1 ++ evs2) =
  match run s evs1 with
  | Some (s1, out1) =>
      match run s1 evs2 with
      | Some (s2, out2) => Some (s2, out1 ++ out2)
      | None => None
      end
  | None => None
  end.
Proof.
  revert s. induction evs1 as [|ev evs1 IH]; intros s; simpl.
  - destruct (run s evs2) as [[s2 out2]|]; reflexivity.
  - destruct (step s ev) as [[s1 out1]|]; simpl; [|reflexivity].
    rewrite IH. destruct (run s1 evs1) as [[s2 out2]|]; simpl; [|reflexivity].
    destruct (run s2 evs2) as [[s3 out3]|]; simpl; [|reflexivity].
    now rewrite app_assoc.
Qed.

Lemma run_snoc s evs ev s' out :
  run s (evs ++ [ev]) = Some (s', out) ->
  exists s1 out1 out2,
    run s evs = Some (s1, out1) /\ step s1 ev = Some (s', out2) /\ out = out1 ++ out2.
Proof.
  intros H. apply run_app in H as (s1 & out1 & out2 & H1 & H2 & ->).
  apply run_cons in H2 as (s2 & out3 & out4 & Hs & Hr & ->).
  simpl in Hr. injection Hr as <- <-. rewrite app_nil_r. eauto 6.
Qed.

End Step.

End StepFacts.

(** ** The invariant of every execution *)
Module SaneFacts.

Section Sane.
Context {K T E : Type}.
Variable JSON_stringify : K -> string.
Implicit Types (s : Run.t T) (m : BatchManager.t T) (lg : Run.Ledger).

Local Abbreviation step := (Run.step (E:=E) JSON_stringify).
Local Abbreviation run := (Run.run (E:=E) JSON_stringify).

Lemma headOf_snoc l o : Inv.headOf (l ++ [o]) = Fin o.
Proof. unfold Inv.headOf. now rewrite last_snoc. Qed.

Lemma Sane_new : Inv.Sane (T:=T) BatchManager.new Run.ledger0.
Proof. split; simpl; try discriminate; auto. Qed.

(** No send is outstanding while [current] is empty. *)
Lemma Sane_idle m lg :
  Inv.Sane m lg -> OffsetBatch.isEmpty (BatchManager.current m) = true ->
  Run.outstanding lg = 0%nat /\ Run.failed lg = false.
Proof.
  intros [H1 H2 H3 H4 H5 H6 H7] Hc. split.
  - destruct (Run.outstanding lg) as [|[|n]]; auto; [|lia].
    destruct H2 as [_ H2]; auto. congruence.
  - destruct (Run.failed lg); auto. rewrite H4 in Hc; auto.
Qed.

(** Exactly one send is outstanding when one is. *)
Lemma Sane_busy m lg n :
  Inv.Sane m lg -> Run.outstanding lg = S n ->
  n = 0%nat /\ Run.failed lg = false /\
  OffsetBatch.isEmpty (BatchManager.current m) = false.
Proof.
  intros [H1 H2 H3 H4 H5 H6 H7] Hn.
  assert (n = 0%nat) as -> by lia. destruct (H2 Hn). auto.
Qed.

Lemma isEmpty_clear (b : OffsetBatch.t T) :
  OffsetBatch.isEmpty (OffsetBatch.clear b) = true.
Proof. reflexivity. Qed.

Local Ltac finish :=
  simpl in *; rewrite ?isEmpty_clear in *;
  try match goal with
      | H : Run.outstanding ?l = _ |- context [Run.outstanding ?l] => rewrite H
      end;
  simpl; auto; try lia; try congruence; try (now rewrite headOf_snoc);
  try tauto.

Lemma Sane_add m lg id value offset m' sent :
  Inv.Sane m lg ->
  BatchManager.add JSON_stringify id value offset m = (m', sent) ->
  Inv.Sane m' (Run.launch sent (Run.noted offset lg)).
Proof.
  intros HS Hadd.
  destruct (ManagerFacts.add_cases JSON_stringify id value offset m)
    as [[Hc Heq] | (Hc & Hcl & Heq)];
    rewrite Heq in Hadd; injection Hadd as <- <-.
  - destruct HS as [H1 H2 H3 H4 H5 H6 H7]. split; finish.
  - destruct (Sane_idle _ _ HS Hc) as [Ho Hf].
    destruct HS as [H1 H2 H3 H4 H5 H6 H7]. split; finish.
Qed.

Lemma Sane_fulfil m lg n m1 o m3 sent :
  Inv.Sane m lg -> Run.outstanding lg = S n ->
  BatchManager.processed m = Some (m1, o) ->
  BatchManager.next m1 = (m3, sent) ->
  Inv.Sane m3 (Run.launch sent (Run.cleared (Run.stored (Run.settled lg)))).
Proof.
  intros HS Hn Hp Hnext.
  destruct (Sane_busy _ _ _ HS Hn) as (-> & Hf & Hc).
  apply ManagerFacts.processed_Some in Hp as [Ho ->].
  destruct (ManagerFacts.next_cases
              (BatchManager.mk (Range.mk (Fin o) (Range.head (BatchManager.range m)))
                 (BatchManager.pending m) (BatchManager.current m)
                 (BatchManager.closed m)))
    as [[Hcl Heq] | (Hcl & Hpe & Heq)];
    rewrite Heq in Hnext; injection Hnext as <- <-;
    destruct HS as [H1 H2 H3 H4 H5 H6 H7]; split; finish.
Qed.

Lemma Sane_thrown m lg n m1 o :
  Inv.Sane m lg -> Run.outstanding lg = S n ->
  BatchManager.processed m = Some (m1, o) ->
  Inv.Sane m1 (Run.broken (Run.stored (Run.settled lg))).
Proof.
  intros HS Hn Hp.
  destruct (Sane_busy _ _ _ HS Hn) as (-> & Hf & Hc).
  apply ManagerFacts.processed_Some in Hp as [Ho ->].
  destruct HS as [H1 H2 H3 H4 H5 H6 H7]; split; finish.
Qed.

Lemma Sane_reject m lg n :
  Inv.Sane m lg -> Run.outstanding lg = S n ->
  Inv.Sane m (Run.broken (Run.settled lg)).
Proof.
  intros HS Hn.
  destruct (Sane_busy _ _ _ HS Hn) as (-> & Hf & Hc).
  destruct HS as [H1 H2 H3 H4 H5 H6 H7]; split; finish.
Qed.

Lemma Sane_close m lg : Inv.Sane m lg -> Inv.Sane (BatchManager.close m) lg.
Proof. intros [H1 H2 H3 H4 H5 H6 H7]; split; finish. Qed.

Local Abbreviation AllSane := (@Inv.AllSane T).

Lemma updateOffset_work (w w2 : WorkManager.t T) changed :
  WorkManager.updateOffset w = Some (w2, changed) ->
  WorkManager.work w2 = WorkManager.work w.
Proof. intros H. now apply ScanFacts.updateOffset_Some in H. Qed.

Lemma Forall2_close (P : BatchManager.t T -> Run.Ledger -> Prop) ws lgs :
  (forall m lg, P m lg -> P (BatchManager.close m) lg) ->
  Forall2 P ws lgs -> Forall2 P (List.map BatchManager.close ws) lgs.
Proof. intros HP H. induction H; simpl; constructor; auto. Qed.

Lemma AllSane_step s ev s' out :
  AllSane s -> step s ev = Some (s', out) -> AllSane s'.
Proof.
  unfold Inv.AllSane. intros HS Hstep. destruct ev as [i id value offset|i|i e| |i].
  - apply StepFacts.step_Add in Hstep
      as (m & lg & m' & sent & Hm & Hlg & Hadd & -> & ->). simpl.
    apply Forall2_insert; auto.
    eapply Sane_add; eauto. eapply Forall2_lookup_lr; eauto.
  - apply StepFacts.step_Fulfil in Hstep
      as (m & lg & n & m1 & o & Hm & Hlg & Hn & Hp & Hcases). cbv zeta in Hcases.
    pose proof (Forall2_lookup_lr _ _ _ _ _ _ HS Hm Hlg) as HSm.
    destruct Hcases as [(Hu & -> & ->) | (w2 & changed & m3 & sent & Hu & Hnext & -> & ->)];
      simpl.
    + apply Forall2_insert; auto. eapply Sane_thrown; eauto.
    + rewrite (updateOffset_work _ _ _ Hu). simpl.
      rewrite list_insert_insert_eq.
      apply Forall2_insert; auto. eapply Sane_fulfil; eauto.
  - apply StepFacts.step_Reject in Hstep as (m & lg & n & Hm & Hlg & Hn & -> & ->). simpl.
    pose proof (Forall2_lookup_lr _ _ _ _ _ _ HS Hm Hlg) as HSm.
    rewrite <- (list_insert_id _ _ _ Hm) at 1.
    apply Forall2_insert; auto. eapply Sane_reject; eauto.
  - apply StepFacts.step_Close in Hstep as [-> ->]. simpl.
    apply Forall2_close; auto. apply Sane_close.
  - apply StepFacts.step_CloseOne in Hstep as (m & Hm & -> & ->). simpl.
    destruct (Forall2_lookup_l _ _ _ _ _ HS Hm) as (lg & Hlg & HSm).
    rewrite <- (list_insert_id _ _ _ Hlg).
    apply Forall2_insert; auto. now apply Sane_close.
Qed.

Lemma init_work n :
  WorkManager.work (Run.manager (Run.init (T:=T) n)) = replicate n BatchManager.new.
Proof.
  unfold Run.init. cbn [Run.manager]. induction n as [|n IH]; [reflexivity|].
  rewrite replicate_S_end, <- IH. reflexivity.
Qed.

Lemma init_last n :
  WorkManager.lastOffset (Run.manager (Run.init (T:=T) n)) = NegInf.
Proof. unfold Run.init. cbn [Run.manager]. induction n; auto. Qed.

Lemma AllSane_init n : AllSane (Run.init n).
Proof.
  unfold Inv.AllSane. rewrite init_work. simpl.
  induction n; simpl; constructor; auto. apply Sane_new.
Qed.

Lemma AllSane_run s evs s' out :
  AllSane s -> run s evs = Some (s', out) -> AllSane s'.
Proof.
  revert s out. induction evs as [|ev evs IH]; intros s out HS H.
  - simpl in H. now injection H as <- <-.
  - apply StepFacts.run_cons in H as (s1 & out1 & out2 & Hs & Hr & ->).
    eapply IH; [|eassumption]. eapply AllSane_step; eauto.
Qed.

End Sane.

End SaneFacts.

(** ** The invariant under strictly increasing offsets *)
Module TidyFacts.

Section Tidy.
Context {K T E : Type}.
Variable JSON_stringify : K -> string.
Implicit Types (s : Run.t T) (m : BatchManager.t T) (lg : Run.Ledger).

Local Abbreviation step := (Run.step (E:=E) JSON_stringify).
Local Abbreviation run := (Run.run (E:=E) JSON_stringify).

Local Ltac members :=
  repeat match goal with
    | H : In _ (_ ++ _) |- _ => apply in_app_iff in H
    | H : In _ (_ :: _) |- _ => destruct H as [<- | H]
    | H : In _ [] |- _ => destruct H
    | H : In _ _ \/ _ |- _ => destruct H as [H | H]
    end.

Lemma Tidy_new hi : Inv.Tidy (T:=T) hi BatchManager.new Run.ledger0.
Proof.
  split; simpl; auto; try discriminate; try tauto.
Qed.

Lemma Tidy_weaken hi hi' m lg :
  Offset.le hi hi' -> Inv.Tidy hi m lg -> Inv.Tidy hi' m lg.
Proof.
  intros Hle [H1 H2 H3 H4 H5 H6 H7 H8 H9 H10 H11 H12]. split; auto.
  eapply OffsetFacts.le_trans; eauto.
Qed.

(** Every offset added so far is below a fresh one. *)
Lemma Tidy_below hi m lg o a :
  Inv.Tidy hi m lg -> Offset.lt hi (Fin o) -> In a (Run.added lg) -> (a < o)%Z.
Proof.
  intros HT Hlt Hin.
  pose proof (Inv.tidy_head _ _ _ HT a Hin) as H1.
  pose proof (Inv.tidy_hi _ _ _ HT) as H2.
  pose proof (OffsetFacts.le_lt_trans _ _ _ (OffsetFacts.le_trans _ _ _ H1 H2) Hlt) as H3.
  exact H3.
Qed.

Lemma Tidy_tail_below hi m lg o :
  Inv.Tidy hi m lg -> Offset.lt hi (Fin o) ->
  Offset.lt (Range.tail (BatchManager.range m)) (Fin o).
Proof.
  intros HT Hlt.
  eapply OffsetFacts.le_lt_trans; [|exact Hlt].
  eapply OffsetFacts.le_trans; [apply (Inv.tidy_tail _ _ _ HT) | apply (Inv.tidy_hi _ _ _ HT)].
Qed.

Lemma Tidy_parts hi m lg a :
  Inv.Tidy hi m lg ->
  (In a (Run.durable lg) \/ In a (Run.flying lg) \/ In a (Run.queued lg)) ->
  In a (Run.added lg).
Proof.
  intros HT H. rewrite (Inv.tidy_account _ _ _ HT), !in_app_iff. exact H.
Qed.

Lemma Tidy_add hi m lg id value o m' sent :
  Inv.Tidy hi m lg -> Offset.lt hi (Fin o) ->
  BatchManager.add JSON_stringify id value o m = (m', sent) ->
  Inv.Tidy (Fin o) m' (Run.launch sent (Run.noted o lg)).
Proof.
  intros HT Hlt Hadd.
  pose proof (fun a => Tidy_below _ _ _ _ a HT Hlt) as Hbelow.
  pose proof (Tidy_tail_below _ _ _ _ HT Hlt) as Htail.
  pose proof (fun a => Tidy_parts _ _ _ a HT) as Hparts.
  assert (Hgrown_tail :
            Offset.lt (Range.tail (Inv.grown o (BatchManager.range m))) (Fin o)).
  { unfold Inv.grown. simpl. destruct (Range.empty _); simpl; auto. lia. }
  assert (Hgrown_dur : forall a, In a (Run.durable lg) ->
            Offset.le (Fin a) (Range.tail (Inv.grown o (BatchManager.range m)))).
  { intros a Ha. unfold Inv.grown. simpl.
    destruct (Range.empty _) eqn:He.
    - pose proof (Inv.tidy_empty _ _ _ HT He) as Hnil.
      specialize (Hparts a (or_introl Ha)). rewrite Hnil in Hparts. destruct Hparts.
    - now apply (Inv.tidy_durable _ _ _ HT). }
  assert (Hgrown_un : forall a, In a (Run.flying lg ++ Run.queued lg) ->
            Offset.lt (Range.tail (Inv.grown o (BatchManager.range m))) (Fin a)).
  { intros a Ha. unfold Inv.grown. simpl.
    destruct (Range.empty _) eqn:He.
    - pose proof (Inv.tidy_empty _ _ _ HT He) as Hnil.
      apply in_app_iff in Ha.
      assert (Hin : In a (Run.added lg)) by (apply Hparts; tauto).
      rewrite Hnil in Hin. destruct Hin.
    - now apply (Inv.tidy_unsent _ _ _ HT). }
  destruct (ManagerFacts.add_cases JSON_stringify id value o m)
    as [[Hc Heq] | (Hc & Hcl & Heq)];
    rewrite Heq in Hadd; injection Hadd as <- <-;
    destruct HT as [H1 H2 H3 H4 H5 H6 H7 H8 H9 H10 H11 H12].
  - split; simpl; try discriminate; auto.
    + rewrite H1, <- !app_assoc. reflexivity.
    + intros p [= <-]. split; [apply in_app_iff; simpl; auto|].
      intros a Ha. members.
      * assert (a < o)%Z by (apply Hbelow, Hparts; auto). lia.
      * lia.
    + intros a b Ha Hb. members; auto; apply Hbelow, Hparts; auto.
    + intros a Ha. members; [|lia].
      assert (a < o)%Z by (apply Hbelow; auto). lia.
    + lia.
    + intros a Ha. rewrite app_assoc in Ha.
      apply in_app_iff in Ha as [Ha | [<- | []]];
        [apply Hgrown_un; exact Ha | exact Hgrown_tail].
    + apply OffsetFacts.lt_le in Hgrown_tail. exact Hgrown_tail.
  - apply ManagerFacts.isEmpty_true in Hc.
    pose proof (H4 Hc) as Hfly.
    split; simpl; try discriminate; auto.
    + rewrite H1, Hfly. simpl. rewrite app_nil_r, <- app_assoc. reflexivity.
    + rewrite Hc. discriminate.
    + intros p [= <-]. split; [apply in_app_iff; simpl; auto|].
      intros a Ha. members.
      * assert (a < o)%Z by (apply Hbelow, Hparts; auto). lia.
      * lia.
    + intros a b _ [].
    + intros a Ha. members; [|lia].
      assert (a < o)%Z by (apply Hbelow; auto). lia.
    + lia.
    + intros a Ha. rewrite app_nil_r in Ha.
      apply in_app_iff in Ha as [Ha | [<- | []]]; [|exact Hgrown_tail].
      apply Hgrown_un. rewrite Hfly. exact Ha.
    + apply OffsetFacts.lt_le in Hgrown_tail. exact Hgrown_tail.
Qed.

Lemma Tidy_fulfil hi m lg m1 o m3 sent :
  Inv.Tidy hi m lg ->
  BatchManager.processed m = Some (m1, o) ->
  BatchManager.next m1 = (m3, sent) ->
  Inv.Tidy hi m3 (Run.launch sent (Run.cleared (Run.stored (Run.settled lg)))).
Proof.
  intros HT Hp Hnext.
  pose proof (fun a => Tidy_parts _ _ _ a HT) as Hparts.
  apply ManagerFacts.processed_Some in Hp as [Ho ->].
  destruct (Inv.tidy_current_some _ _ _ HT o Ho) as [Hin Hmax].
  assert (Hold : Offset.lt (Range.tail (BatchManager.range m)) (Fin o)).
  { apply (Inv.tidy_unsent _ _ _ HT). apply in_app_iff. auto. }
  assert (Hdur : forall a, In a (Run.durable lg ++ Run.flying lg) ->
                           Offset.le (Fin a) (Fin o)).
  { intros a Ha. apply in_app_iff in Ha as [Ha | Ha].
    - apply OffsetFacts.lt_le. eapply OffsetFacts.le_lt_trans; [|exact Hold].
      now apply (Inv.tidy_durable _ _ _ HT).
    - simpl. now apply Hmax. }
  assert (Hun : forall a, In a (Run.queued lg) -> Offset.lt (Fin o) (Fin a)).
  { intros a Ha. simpl. now apply (Inv.tidy_order _ _ _ HT). }
  assert (Hhead : Offset.le (Fin o) (Range.head (BatchManager.range m))).
  { apply (Inv.tidy_head _ _ _ HT). apply Hparts. auto. }
  destruct (ManagerFacts.next_cases
              (BatchManager.mk (Range.mk (Fin o) (Range.head (BatchManager.range m)))
                 (BatchManager.pending m) (BatchManager.current m)
                 (BatchManager.closed m)))
    as [[Hcl Heq] | (Hcl & Hpe & Heq)];
    rewrite Heq in Hnext; injection Hnext as <- <-;
    destruct HT as [H1 H2 H3 H4 H5 H6 H7 H8 H9 H10 H11 H12];
    split; simpl; try discriminate; auto.
  - rewrite H1, <- !app_assoc. reflexivity.
  - intros a b [].
  - rewrite H1, <- !app_assoc, app_nil_r. reflexivity.
  - intros a b _ [].
  - intros a Ha. rewrite app_nil_r in Ha. auto.
Qed.

(** [Tidy] only reads the lists of the ledger. *)
Lemma Tidy_lists hi m lg lg' :
  Inv.Tidy hi m lg ->
  Run.added lg' = Run.added lg -> Run.queued lg' = Run.queued lg ->
  Run.flying lg' = Run.flying lg -> Run.durable lg' = Run.durable lg ->
  Inv.Tidy hi m lg'.
Proof.
  intros [H1 H2 H3 H4 H5 H6 H7 H8 H9 H10 H11 H12] Ha Hq Hf Hd.
  split; rewrite ?Ha, ?Hq, ?Hf, ?Hd; auto.
Qed.

Lemma Tidy_close hi m lg : Inv.Tidy hi m lg -> Inv.Tidy hi (BatchManager.close m) lg.
Proof. intros [H1 H2 H3 H4 H5 H6 H7 H8 H9 H10 H11 H12]. split; auto. Qed.

Lemma lookup_In {A} (l : list A) j x : l !! j = Some x -> In x l.
Proof. intros H. apply list_elem_of_In. eapply list_elem_of_lookup_2; eauto. Qed.

Lemma lookup_insert_cases {A} (l : list A) i j x y :
  <[i := x]> l !! j = Some y -> (j = i /\ y = x) \/ (j <> i /\ l !! j = Some y).
Proof.
  intros H. destruct (decide (i = j)) as [<- | Hne].
  - left. split; auto.
    assert (Hlen : (i < length l)%nat).
    { rewrite <- (length_insert l i x). eapply lookup_lt_Some; eauto. }
    rewrite list_lookup_insert_eq in H by exact Hlen. congruence.
  - right. rewrite list_lookup_insert_ne in H by exact Hne. auto.
Qed.

Lemma lookup_close ws j m0 :
  List.map BatchManager.close ws !! j = Some m0 ->
  exists m : BatchManager.t T, ws !! j = Some m /\ m0 = BatchManager.close m.
Proof.
  revert j. induction ws as [|w ws IH]; intros [|j] H; simpl in *; try discriminate.
  - injection H as <-. eauto.
  - apply IH. exact H.
Qed.

Lemma add_range id value o m m' sent :
  BatchManager.add JSON_stringify id value o m = (m', sent) ->
  BatchManager.range m' = Inv.grown o (BatchManager.range m).
Proof.
  intros Hadd.
  destruct (ManagerFacts.add_cases JSON_stringify id value o m)
    as [[Hc Heq] | (Hc & Hcl & Heq)];
    rewrite Heq in Hadd; injection Hadd as <- <-; reflexivity.
Qed.

Lemma next_range m m3 sent :
  BatchManager.next m = (m3, sent) -> BatchManager.range m3 = BatchManager.range m.
Proof.
  intros Hn.
  destruct (ManagerFacts.next_cases m) as [[Hc Heq] | (Hc & Hcl & Heq)];
    rewrite Heq in Hn; injection Hn as <- <-; reflexivity.
Qed.

(** The scan only reads the ranges. *)
Lemma scan_ext acc (ws ws' : list (BatchManager.t T)) :
  Forall2 (fun a b => BatchManager.range a = BatchManager.range b) ws ws' ->
  WorkManager.scan acc ws = WorkManager.scan acc ws'.
Proof.
  intros H. revert acc. induction H as [|a b ws ws' Hab _ IH]; intros acc.
  - reflexivity.
  - rewrite !ScanFacts.scan_cons, Hab. apply IH.
Qed.

Lemma derived_ext (w w' : WorkManager.t T) :
  Forall2 (fun a b => BatchManager.range a = BatchManager.range b)
    (WorkManager.work w) (WorkManager.work w') ->
  WorkManager.lastOffset w = WorkManager.lastOffset w' ->
  WorkManager.derived w = WorkManager.derived w'.
Proof.
  intros H Hlo. unfold WorkManager.derived. now rewrite Hlo, (scan_ext _ _ _ H).
Qed.

Lemma derived_idem (w : WorkManager.t T) :
  WorkManager.derived (WorkManager.mk (WorkManager.work w) (WorkManager.derived w)) =
  WorkManager.derived w.
Proof.
  set (w' := WorkManager.mk (WorkManager.work w) (WorkManager.derived w)).
  destruct (ScanFacts.derived_cases w') as [[Hd _] | (m' & Hin' & Hm' & Hd')]; [exact Hd|].
  destruct (ScanFacts.derived_cases w) as [[_ Hall] | (m & Hin & Hm & Hd)].
  - simpl in Hin'. rewrite (Hall m' Hin') in Hm'. discriminate.
  - apply OffsetFacts.le_antisym.
    + rewrite Hd. apply (ScanFacts.derived_le_tail w' m); auto.
    + rewrite Hd'. apply (ScanFacts.derived_le_tail w m'); auto.
Qed.

Lemma Forall2_same_range (ws : list (BatchManager.t T)) i m m' :
  ws !! i = Some m -> BatchManager.range m' = BatchManager.range m ->
  Forall2 (fun a b => BatchManager.range a = BatchManager.range b) (<[i := m']> ws) ws.
Proof.
  intros Hm Hr. rewrite <- (list_insert_id ws i m Hm) at 2.
  apply Forall2_insert; auto. clear. induction ws; constructor; auto.
Qed.

Lemma derived_insert (ws : list (BatchManager.t T)) i m m' lo :
  ws !! i = Some m -> BatchManager.range m' = BatchManager.range m ->
  WorkManager.derived (WorkManager.mk (<[i := m']> ws) lo) =
  WorkManager.derived (WorkManager.mk ws lo).
Proof.
  intros Hm Hr. apply derived_ext; simpl; auto. eapply Forall2_same_range; eauto.
Qed.

Lemma Forall2_same_range_close (ws : list (BatchManager.t T)) :
  Forall2 (fun a b => BatchManager.range a = BatchManager.range b)
    (List.map BatchManager.close ws) ws.
Proof. induction ws; simpl; constructor; auto. Qed.

Lemma launch_not_drained (sent : option (Batch.t T)) o lg :
  ~ Inv.drained (Run.launch sent (Run.noted o lg)).
Proof.
  unfold Inv.drained. destruct sent; simpl; intros [H1 H2].
  - now destruct (Run.queued lg).
  - now destruct (Run.queued lg).
Qed.

Lemma Orderly_Add hi s i id value o s' out :
  Inv.Orderly hi s -> Offset.lt hi (Fin o) ->
  step s (Run.Add i id value o) = Some (s', out) ->
  Inv.Orderly (Fin o) s'.
Proof.
  intros HO Hlt Hstep.
  pose proof (SaneFacts.AllSane_step _ _ _ _ _ (Inv.orderly_sane _ _ HO) Hstep) as HS'.
  apply StepFacts.step_Add in Hstep
    as (m & lg & m' & sent & Hm & Hlg & Hadd & -> & ->).
  destruct HO as [HS HT Hlast Hlo Hq].
  pose proof (Forall2_lookup_lr _ _ _ _ _ _ HT Hm Hlg) as HTm.
  split; simpl; auto.
  - apply Forall2_insert.
    + eapply Forall2_impl; [exact HT|]. intros ? ? ?.
      eapply Tidy_weaken; [|eassumption].
      apply OffsetFacts.lt_le. exact Hlt.
    + eapply Tidy_add; eauto.
  - apply OffsetFacts.lt_le. eapply OffsetFacts.le_lt_trans; eauto.
  - intros j m0 Hj Hne.
    apply lookup_insert_cases in Hj as [[-> ->] | [Hji Hj]]; [|eauto].
    rewrite (add_range _ _ _ _ _ _ Hadd) in *. unfold Inv.grown. simpl.
    destruct (Range.empty (BatchManager.range m)) eqn:He; [|eauto].
    pose proof (OffsetFacts.le_lt_trans _ _ _ Hlast Hlt) as Hlt'.
    destruct (WorkManager.lastOffset (Run.manager s)); simpl in *; auto. lia.
  - intros Hall. exfalso.
    assert (Hi : (i < length (Run.ledgers s))%nat) by (eapply lookup_lt_Some; eauto).
    eapply launch_not_drained.
    eapply Forall_lookup_1; [exact Hall|].
    apply list_lookup_insert_eq. exact Hi.
Qed.

Lemma Orderly_Fulfil hi s i s' out :
  Inv.Orderly hi s ->
  step s (Run.Fulfil i) = Some (s', out) ->
  Inv.Orderly hi s' /\ ~ In (Run.Error Run.AssertionError) out.
Proof.
  intros HO Hstep.
  pose proof (SaneFacts.AllSane_step _ _ _ _ _ (Inv.orderly_sane _ _ HO) Hstep) as HS'.
  apply StepFacts.step_Fulfil in Hstep
    as (m & lg & n & m1 & o & Hm & Hlg & Hn & Hp & Hcases). cbv zeta in Hcases.
  destruct HO as [HS HT Hlast Hlo Hq].
  pose proof (Forall2_lookup_lr _ _ _ _ _ _ HT Hm Hlg) as HTm.
  pose proof (Forall2_lookup_lr _ _ _ _ _ _ HS Hm Hlg) as HSm.
  destruct (SaneFacts.Sane_busy _ _ _ HSm Hn) as (-> & Hf & Hc).
  pose proof (Inv.sane_range _ _ HSm Hc) as Hne.
  pose proof Hp as Hp'.
  apply ManagerFacts.processed_Some in Hp' as [Ho Hm1].
  destruct (Inv.tidy_current_some _ _ _ HTm o Ho) as [Hin Hmax].
  assert (Hold : Offset.lt (Range.tail (BatchManager.range m)) (Fin o)).
  { apply (Inv.tidy_unsent _ _ _ HTm). apply in_app_iff. auto. }
  assert (Hhead : Offset.le (Fin o) (Range.head (BatchManager.range m))).
  { apply (Inv.tidy_head _ _ _ HTm). eapply Tidy_parts; eauto. }
  assert (Hne1 : Range.empty (BatchManager.range m1) = false).
  { rewrite Hm1. exact Hne. }
  assert (Hi : (i < length (WorkManager.work (Run.manager s)))%nat)
    by (eapply lookup_lt_Some; eauto).
  set (w1 := Run.set_work i m1 (Run.manager s)) in *.
  assert (Hm1in : WorkManager.work w1 !! i = Some m1).
  { unfold w1. simpl. apply list_lookup_insert_eq. exact Hi. }
  assert (Hge : Offset.le (WorkManager.lastOffset w1) (WorkManager.derived w1)).
  { apply ScanFacts.derived_ge; [apply OffsetFacts.le_refl|].
    intros m0 Hin0 Hne0. apply list_elem_of_In, list_elem_of_lookup in Hin0 as [j Hj].
    unfold w1 in Hj. simpl in Hj.
    apply lookup_insert_cases in Hj as [[-> ->] | [Hji Hj]].
    - rewrite Hm1. simpl. eapply OffsetFacts.le_trans; [eapply Hlo; eauto|].
      apply OffsetFacts.lt_le. exact Hold.
    - simpl. eapply Hlo; eauto. }
  destruct Hcases as [(Hu & -> & ->) | (w2 & changed & m3 & sent & Hu & Hnext & -> & ->)].
  - exfalso. apply ScanFacts.updateOffset_None in Hu.
    eapply OffsetFacts.le_not_lt; eauto.
  - apply ScanFacts.updateOffset_Some in Hu as (Hw & Hl2 & Hmono & Hch).
    pose proof (next_range _ _ _ Hnext) as Hr3.
    split.
    + split; simpl; auto.
      * rewrite Hw. unfold w1. simpl. rewrite list_insert_insert_eq.
        apply Forall2_insert; auto. eapply Tidy_fulfil; eauto.
      * rewrite Hl2. eapply OffsetFacts.le_trans.
        -- apply (ScanFacts.derived_le_tail w1 m1); auto. eapply lookup_In; eauto.
        -- rewrite Hm1. cbn [BatchManager.range Range.tail].
           eapply (OffsetFacts.le_trans _ (Range.head (BatchManager.range m)));
             [exact Hhead|].
           apply (Inv.tidy_hi _ _ _ HTm).
      * intros j m0 Hj Hne0. rewrite Hl2. rewrite Hw in Hj.
        apply lookup_insert_cases in Hj as [[-> ->] | [Hji Hj]].
        -- rewrite Hr3 in *. apply (ScanFacts.derived_le_tail w1 m1); auto.
           eapply lookup_In; eauto.
        -- apply (ScanFacts.derived_le_tail w1 m0); auto. eapply lookup_In; eauto.
      * intros _. rewrite Hl2.
        transitivity (WorkManager.derived
                        (WorkManager.mk (WorkManager.work w1) (WorkManager.derived w1))).
        { symmetry. apply derived_idem. }
        unfold Run.set_work. rewrite Hw, Hl2. symmetry.
        eapply derived_insert; eauto.
    + destruct Hch as [[-> _] | [-> _]]; simpl; destruct sent; simpl;
        intros H; repeat (destruct H as [H | H]; try discriminate); auto.
Qed.

Lemma Orderly_Reject hi s i e s' out :
  Inv.Orderly hi s ->
  step s (Run.Reject i e) = Some (s', out) ->
  Inv.Orderly hi s'.
Proof.
  intros HO Hstep.
  pose proof (SaneFacts.AllSane_step _ _ _ _ _ (Inv.orderly_sane _ _ HO) Hstep) as HS'.
  apply StepFacts.step_Reject in Hstep as (m & lg & n & Hm & Hlg & Hn & -> & ->).
  destruct HO as [HS HT Hlast Hlo Hq].
  pose proof (Forall2_lookup_lr _ _ _ _ _ _ HT Hm Hlg) as HTm.
  pose proof (Forall2_lookup_lr _ _ _ _ _ _ HS Hm Hlg) as HSm.
  destruct (SaneFacts.Sane_busy _ _ _ HSm Hn) as (-> & Hf & Hc).
  split; simpl; auto.
  - rewrite <- (list_insert_id _ _ _ Hm) at 1.
    apply Forall2_insert; auto. eapply Tidy_lists; eauto.
  - intros Hall. exfalso.
    assert (Hi : (i < length (Run.ledgers s))%nat) by (eapply lookup_lt_Some; eauto).
    pose proof (Forall_lookup_1 _ _ _ _ Hall (list_lookup_insert_eq _ _ _ Hi)) as [Hfl _].
    simpl in Hfl.
    apply ManagerFacts.isEmpty_false in Hc as [c Hc].
    destruct (Inv.tidy_current_some _ _ _ HTm c Hc) as [Hin _].
    rewrite Hfl in Hin. destruct Hin.
Qed.

Lemma Orderly_Close hi s s' out :
  Inv.Orderly hi s ->
  step s Run.Close = Some (s', out) ->
  Inv.Orderly hi s'.
Proof.
  intros HO Hstep.
  pose proof (SaneFacts.AllSane_step _ _ _ _ _ (Inv.orderly_sane _ _ HO) Hstep) as HS'.
  apply StepFacts.step_Close in Hstep as [-> ->].
  destruct HO as [HS HT Hlast Hlo Hq].
  split; simpl; auto.
  - apply SaneFacts.Forall2_close; auto. apply Tidy_close.
  - intros j m0 Hj Hne. apply lookup_close in Hj as (m & Hj & ->).
    simpl in *. eapply Hlo; eauto.
  - intros Hall. rewrite (Hq Hall). symmetry.
    apply derived_ext; simpl; auto. apply Forall2_same_range_close.
Qed.

Lemma Orderly_CloseOne hi s i s' out :
  Inv.Orderly hi s ->
  step s (Run.CloseOne i) = Some (s', out) ->
  Inv.Orderly hi s'.
Proof.
  intros HO Hstep.
  pose proof (SaneFacts.AllSane_step _ _ _ _ _ (Inv.orderly_sane _ _ HO) Hstep) as HS'.
  apply StepFacts.step_CloseOne in Hstep as (m & Hm & -> & ->).
  destruct HO as [HS HT Hlast Hlo Hq].
  destruct (Forall2_lookup_l _ _ _ _ _ HT Hm) as (lg & Hlg & HTm).
  split; simpl; auto.
  - rewrite <- (list_insert_id _ _ _ Hlg).
    apply Forall2_insert; auto. now apply Tidy_close.
  - intros j m0 Hj Hne.
    apply lookup_insert_cases in Hj as [[-> ->] | [Hji Hj]]; simpl in *;
      eapply Hlo; eauto.
  - intros Hall. rewrite (Hq Hall). symmetry.
    destruct (Run.manager s) as [ws lo]. simpl in *.
    eapply derived_insert; eauto.
Qed.

Lemma Orderly_step hi s ev s' out :
  Inv.Orderly hi s -> Inv.admissible hi ev ->
  step s ev = Some (s', out) ->
  Inv.Orderly (Inv.mark hi ev) s' /\ ~ In (Run.Error Run.AssertionError) out.
Proof.
  intros HO Had Hstep.
  destruct ev as [i id value offset|i|i e| |i]; cbn [Inv.admissible Inv.mark] in *.
  - split; [eapply Orderly_Add; eauto|].
    apply StepFacts.step_Add in Hstep as (m & lg & m' & sent & _ & _ & _ & _ & ->).
    destruct sent; simpl; intros H; repeat (destruct H as [H | H]; try discriminate); auto.
  - eapply Orderly_Fulfil; eauto.
  - split; [eapply Orderly_Reject; eauto|].
    apply StepFacts.step_Reject in Hstep as (m & lg & n & _ & _ & _ & _ & ->).
    simpl; intros H; repeat (destruct H as [H | H]; try discriminate); auto.
  - split; [eapply Orderly_Close; eauto|].
    apply StepFacts.step_Close in Hstep as [_ ->]. auto.
  - split; [eapply Orderly_CloseOne; eauto|].
    apply StepFacts.step_CloseOne in Hstep as (m & _ & _ & ->). auto.
Qed.

Lemma Forall2_replicate_same {A B} (P : A -> B -> Prop) n x y :
  P x y -> Forall2 P (replicate n x) (replicate n y).
Proof. intros H. induction n; simpl; constructor; auto. Qed.

Lemma Orderly_init n : Inv.Orderly NegInf (Run.init (T:=T) n).
Proof.
  pose proof (SaneFacts.init_work (T:=T) n) as Hwork.
  pose proof (SaneFacts.init_last (T:=T) n) as Hlast.
  assert (Hnew : forall j m,
             WorkManager.work (Run.manager (Run.init (T:=T) n)) !! j = Some m ->
             m = BatchManager.new).
  { intros j m Hj. rewrite Hwork in Hj. apply lookup_replicate in Hj. tauto. }
  split.
  - apply SaneFacts.AllSane_init.
  - rewrite Hwork. apply Forall2_replicate_same, Tidy_new.
  - rewrite Hlast. exact I.
  - intros j m Hj Hne. rewrite (Hnew j m Hj) in Hne. discriminate.
  - intros _. rewrite Hlast.
    destruct (ScanFacts.derived_cases (Run.manager (Run.init (T:=T) n)))
      as [[Hd _] | (m & Hin & Hm & _)].
    + rewrite Hd, Hlast. reflexivity.
    + apply list_elem_of_In, list_elem_of_lookup in Hin as [j Hj].
      rewrite (Hnew j m Hj) in Hm. discriminate.
Qed.

(** Along an execution whose offsets increase strictly the invariant
    holds and [assert.ok] never throws. *)
Lemma Orderly_run hi s evs rest s' out :
  Inv.Orderly hi s ->
  Trace.ascending_from hi (Run.offsetsOf (evs ++ rest)) = true ->
  run s evs = Some (s', out) ->
  exists hi', Inv.Orderly hi' s' /\
              Trace.ascending_from hi' (Run.offsetsOf rest) = true /\
              ~ In (Run.Error Run.AssertionError) out.
Proof.
  revert hi s out. induction evs as [|ev evs IH]; intros hi s out HO Hasc Hrun.
  - simpl in Hrun. injection Hrun as <- <-. exists hi. auto.
  - apply StepFacts.run_cons in Hrun as (s1 & out1 & out2 & Hs & Hr & ->).
    assert (Had : Inv.admissible hi ev /\
                  Trace.ascending_from (Inv.mark hi ev) (Run.offsetsOf (evs ++ rest)) = true).
    { destruct ev; simpl in *; auto.
      apply andb_true_iff in Hasc as [H1 H2]. split; auto.
      apply OffsetFacts.leb_gt. now apply negb_true_iff. }
    destruct Had as [Had Hasc'].
    destruct (Orderly_step _ _ _ _ _ HO Had Hs) as [HO1 Hno1].
    destruct (IH _ _ _ HO1 Hasc' Hr) as (hi' & HO' & Hasc'' & Hno2).
    exists hi'. split; [exact HO'|]. split; [exact Hasc''|].
    intros Hin. apply in_app_iff in Hin. tauto.
Qed.

End Tidy.

End TidyFacts.

(** ** One manager in a step of the system *)
Module LocalFacts.

Section Local.
Context {K T E : Type}.
Variable JSON_stringify : K -> string.
Implicit Types (s : Run.t T) (m : BatchManager.t T) (lg : Run.Ledger).

Local Abbreviation step := (Run.step (E:=E) JSON_stringify).
Local Abbreviation run := (Run.run (E:=E) JSON_stringify).

Local Abbreviation Change := (View.Change JSON_stringify).

Lemma sentBy_app i (a b : list (Run.Effect T E)) :
  Trace.sentBy i (a ++ b) = Trace.sentBy i a ++ Trace.sentBy i b.
Proof.
  induction a as [|e a IH]; simpl; auto. destruct e; simpl; auto.
  destruct (Nat.eqb i i0); simpl; now rewrite IH.
Qed.

Lemma sentBy_changes i changed :
  Trace.sentBy (T:=T) (E:=E) i (Run.changes changed) = [].
Proof. now destruct changed. Qed.

Lemma sentBy_other i j (sent : option (Batch.t T)) :
  i <> j -> Trace.sentBy (E:=E) i (Run.sends j sent) = [].
Proof.
  intros Hne. destruct sent; simpl; auto.
  apply Nat.eqb_neq in Hne. now rewrite Hne.
Qed.

Lemma lookup_close_Some (ws : list (BatchManager.t T)) j m :
  ws !! j = Some m -> List.map BatchManager.close ws !! j = Some (BatchManager.close m).
Proof.
  revert j. induction ws as [|w ws IH]; intros [|j] H; simpl in *; try discriminate.
  - now injection H as ->.
  - now apply IH.
Qed.

Lemma step_change s ev s' out i m lg :
  step s ev = Some (s', out) ->
  WorkManager.work (Run.manager s) !! i = Some m ->
  Run.ledgers s !! i = Some lg ->
  exists m' lg',
    WorkManager.work (Run.manager s') !! i = Some m' /\
    Run.ledgers s' !! i = Some lg' /\
    Change i m lg ev m' lg' out.
Proof.
  intros Hstep Hm Hlg.
  assert (Hi : (i < length (WorkManager.work (Run.manager s)))%nat)
    by (eapply lookup_lt_Some; eauto).
  assert (Hi' : (i < length (Run.ledgers s))%nat) by (eapply lookup_lt_Some; eauto).
  destruct ev as [j id value offset|j|j e| |j].
  - apply StepFacts.step_Add in Hstep as (mj & lgj & m' & sent & Hmj & Hlgj & Hadd & -> & ->).
    simpl. destruct (decide (j = i)) as [-> | Hne].
    + rewrite Hm in Hmj. rewrite Hlg in Hlgj. injection Hmj as <-. injection Hlgj as <-.
      exists m', (Run.launch sent (Run.noted offset lg)).
      rewrite !list_lookup_insert_eq by assumption.
      split; auto. split; auto. eapply View.Added; eauto.
    + exists m, lg. rewrite !list_lookup_insert_ne by assumption.
      split; auto. split; auto. apply View.Untouched; [|apply sentBy_other; congruence].
      simpl. assert (Hij : Nat.eqb i j = false) by (apply Nat.eqb_neq; congruence).
      now rewrite Hij.
  - apply StepFacts.step_Fulfil in Hstep
      as (mj & lgj & n & m1 & o & Hmj & Hlgj & Hn & Hp & Hcases). cbv zeta in Hcases.
    destruct (decide (j = i)) as [-> | Hne].
    + rewrite Hm in Hmj. rewrite Hlg in Hlgj. injection Hmj as <-. injection Hlgj as <-.
      destruct Hcases as [(Hu & -> & ->) | (w2 & changed & m3 & sent & Hu & Hnext & -> & ->)];
        simpl.
      * exists m1, (Run.broken (Run.stored (Run.settled lg))).
        rewrite !list_lookup_insert_eq by assumption.
        split; auto. split; auto. eapply View.Thrown; eauto.
      * exists m3, (Run.launch sent (Run.cleared (Run.stored (Run.settled lg)))).
        rewrite (SaneFacts.updateOffset_work _ _ _ Hu). simpl.
        rewrite list_insert_insert_eq.
        rewrite !list_lookup_insert_eq by assumption.
        split; auto. split; auto. eapply View.Fulfilled; eauto.
    + exists m, lg.
      destruct Hcases as [(Hu & -> & ->) | (w2 & changed & m3 & sent & Hu & Hnext & -> & ->)];
        simpl.
      * rewrite !list_lookup_insert_ne by assumption.
        split; auto. split; auto. apply View.Untouched; reflexivity.
      * rewrite (SaneFacts.updateOffset_work _ _ _ Hu). simpl.
        rewrite list_insert_insert_eq.
        rewrite !list_lookup_insert_ne by assumption.
        split; auto. split; auto. apply View.Untouched; [reflexivity|]. simpl.
        rewrite sentBy_app, sentBy_changes. simpl. apply sentBy_other. congruence.
  - apply StepFacts.step_Reject in Hstep as (mj & lgj & n & Hmj & Hlgj & Hn & -> & ->).
    simpl. destruct (decide (j = i)) as [-> | Hne].
    + rewrite Hlg in Hlgj. injection Hlgj as <-.
      exists m, (Run.broken (Run.settled lg)).
      rewrite !list_lookup_insert_eq by assumption.
      split; auto. split; auto. eapply View.Rejected; eauto.
    + exists m, lg. rewrite !list_lookup_insert_ne by assumption.
      split; auto. split; auto. apply View.Untouched; reflexivity.
  - apply StepFacts.step_Close in Hstep as [-> ->]. simpl.
    exists (BatchManager.close m), lg. split; [now apply lookup_close_Some|].
    split; auto. apply View.Closed. auto.
  - apply StepFacts.step_CloseOne in Hstep as (mj & Hmj & -> & ->). simpl.
    destruct (decide (j = i)) as [-> | Hne].
    + rewrite Hm in Hmj. injection Hmj as <-.
      exists (BatchManager.close m), lg.
      rewrite !list_lookup_insert_eq by assumption.
      split; auto. split; auto. apply View.Closed. auto.
    + exists m, lg. rewrite !list_lookup_insert_ne by assumption.
      split; auto. split; auto. apply View.Untouched; reflexivity.
Qed.

(** An offset emitted with [offsetChanged] is at most the tail of every
    range that is not empty. *)
Lemma emitted_below s ev s' out o j m' :
  step s ev = Some (s', out) -> In o (Trace.offsetChanges out) ->
  WorkManager.work (Run.manager s') !! j = Some m' ->
  Range.empty (BatchManager.range m') = false ->
  Offset.le o (Range.tail (BatchManager.range m')).
Proof.
  intros Hstep Hin Hj Hne. destruct ev as [i id value offset|i|i e| |i].
  - apply StepFacts.step_Add in Hstep as (m & lg & m1 & sent & _ & _ & _ & -> & ->).
    destruct sent; destruct Hin.
  - apply StepFacts.step_Fulfil in Hstep
      as (m & lg & n & m1 & c & Hm & Hlg & Hn & Hp & Hcases). cbv zeta in Hcases.
    destruct Hcases as [(Hu & -> & ->) | (w2 & changed & m3 & sent & Hu & Hnext & -> & ->)].
    + destruct Hin.
    + apply ScanFacts.updateOffset_Some in Hu as (Hw & Hl2 & Hmono & Hch).
      assert (Ho : o = WorkManager.derived (Run.set_work i m1 (Run.manager s))).
      { simpl in Hin. destruct Hch as [[-> _] | [-> _]]; simpl in Hin.
        - destruct sent; destruct Hin.
        - destruct Hin as [<- | Hin]; [congruence|]. destruct sent; destruct Hin. }
      subst o. simpl in Hj. rewrite Hw in Hj. simpl in Hj.
      rewrite list_insert_insert_eq in Hj.
      assert (Hi : (i < length (WorkManager.work (Run.manager s)))%nat)
        by (eapply lookup_lt_Some; eauto).
      apply TidyFacts.lookup_insert_cases in Hj as [[-> ->] | [Hji Hj]].
      * rewrite (TidyFacts.next_range _ _ _ Hnext) in *.
        apply ScanFacts.derived_le_tail; auto. simpl.
        eapply TidyFacts.lookup_In. apply list_lookup_insert_eq. exact Hi.
      * apply ScanFacts.derived_le_tail; auto. simpl.
        eapply TidyFacts.lookup_In. rewrite list_lookup_insert_ne; eauto.
  - apply StepFacts.step_Reject in Hstep as (m & lg & n & _ & _ & _ & -> & ->). destruct Hin.
  - apply StepFacts.step_Close in Hstep as [-> ->]. destruct Hin.
  - apply StepFacts.step_CloseOne in Hstep as (m & _ & -> & ->). destruct Hin.
Qed.

End Local.

End LocalFacts.

(** ** Promises *)
Module PromiseFacts.

Section Promises.
Context {E : Type}.
Implicit Types (p : Promise.t E) (ps : list (Promise.t E)).

Lemma catch_outcome p (handler : E -> Promise.result E) :
  Promise.outcome (Promise.catch p handler) =
  match Promise.outcome p with
  | Fulfilled => Fulfilled
  | Rejected e => handler e
  end.
Proof. unfold Promise.catch. destruct (Promise.outcome p) eqn:H; simpl; auto. Qed.

Lemma firstRejection_None ps :
  Promise.firstRejection ps = None <->
  forall p, In p ps -> Promise.outcome p = Fulfilled.
Proof.
  induction ps as [|p ps IH]; simpl.
  - split; auto. intros _ p [].
  - destruct (Promise.outcome p) eqn:Hp.
    + rewrite IH. split.
      * intros H q [<- | Hq]; auto.
      * intros H q Hq. apply H. auto.
    + split.
      * destruct (Promise.firstRejection ps) as [[n' e']|]; [|discriminate].
        destruct (_ <=? _)%nat; discriminate.
      * intros H. specialize (H p (or_introl eq_refl)). congruence.
Qed.

Lemma firstRejection_Some ps n e :
  Promise.firstRejection ps = Some (n, e) ->
  exists p, In p ps /\ Promise.outcome p = Rejected e.
Proof.
  revert n e. induction ps as [|p ps IH]; simpl; intros n e H; [discriminate|].
  destruct (Promise.outcome p) eqn:Hp.
  - destruct (IH _ _ H) as (q & Hq & Ho). eauto.
  - destruct (Promise.firstRejection ps) as [[n' e']|] eqn:Hf.
    + destruct (_ <=? _)%nat; injection H as <- <-.
      * eauto.
      * destruct (IH _ _ eq_refl) as (q & Hq & Ho). eauto.
    + injection H as <- <-. eauto.
Qed.

Lemma all_fulfilled ps :
  Promise.outcome (Promise.all ps) = Fulfilled <->
  forall p, In p ps -> Promise.outcome p = Fulfilled.
Proof.
  unfold Promise.all. rewrite <- firstRejection_None.
  destruct (Promise.firstRejection ps) as [[n e]|]; simpl; split; auto; discriminate.
Qed.

Lemma all_rejected ps e :
  Promise.outcome (Promise.all ps) = Rejected e ->
  exists p, In p ps /\ Promise.outcome p = Rejected e.
Proof.
  unfold Promise.all.
  destruct (Promise.firstRejection ps) as [[n e']|] eqn:Hf; simpl; [|discriminate].
  intros [= <-]. eapply firstRejection_Some; eauto.
Qed.

End Promises.

End PromiseFacts.

(** ** The mongo sender *)
Module SenderFacts.

Section Sender.
Variable JSON_parse : string -> IMongoTarget.t.
Variable opCollection : ICollection.
Variable contentCollection : option ICollection.

Local Abbreviation insertOp := (ScriptoriumLambda.insertOp opCollection).
Local Abbreviation updateSequenceNumber :=
  (ScriptoriumLambda.updateSequenceNumber contentCollection).
Local Abbreviation processMongoCore :=
  (ScriptoriumLambda.processMongoCore opCollection contentCollection).
Local Abbreviation processMongoBatch :=
  (ScriptoriumLambda.processMongoBatch JSON_parse opCollection contentCollection).
Local Abbreviation calls := (Storage.calls opCollection contentCollection).

Lemma ignoreDuplicate_spec e :
  (Storage.duplicateKey e /\ ScriptoriumLambda.ignoreDuplicate e = Fulfilled) \/
  (~ Storage.duplicateKey e /\ ScriptoriumLambda.ignoreDuplicate e = Rejected e).
Proof.
  unfold ScriptoriumLambda.ignoreDuplicate, Storage.duplicateKey.
  destruct (String.eqb_spec (Js.name e) "MongoError") as [Hn | Hn]; simpl.
  - destruct (Js.code e) as [c|]; simpl.
    + destruct (Z.eqb_spec c 11000) as [-> | Hc]; simpl; [left; auto|].
      right. split; auto. intros [_ H]. congruence.
    + right. split; auto. intros [_ H]. discriminate.
  - right. split; auto. intros [H _]. contradiction.
Qed.

(** A guarded call fulfils exactly when the call is absorbed, and otherwise
    rejects with the error of the call. *)
Lemma guarded_outcome (p : Promise.t Js.Error) :
  (Storage.absorbed p /\
   Promise.outcome (Promise.catch p ScriptoriumLambda.ignoreDuplicate) = Fulfilled) \/
  (exists e, Promise.outcome p = Rejected e /\ ~ Storage.duplicateKey e /\
             Promise.outcome (Promise.catch p ScriptoriumLambda.ignoreDuplicate) = Rejected e).
Proof.
  rewrite PromiseFacts.catch_outcome. unfold Storage.absorbed.
  destruct (Promise.outcome p) as [|e]; [left; auto|].
  destruct (ignoreDuplicate_spec e) as [[Hd ->] | [Hd ->]]; [left; auto|].
  right. eauto.
Qed.

Local Abbreviation guarded := (Storage.guarded opCollection contentCollection).

Lemma updateSequenceNumber_outcome messages :
  Promise.outcome (updateSequenceNumber messages) =
  Promise.outcome (Promise.all (tl (guarded messages))).
Proof.
  unfold ScriptoriumLambda.updateSequenceNumber, Storage.guarded, Storage.calls. simpl.
  destruct contentCollection as [collection|]; simpl; [|reflexivity].
  rewrite List.map_map.
  destruct (List.filter ScriptoriumLambda.splits messages) as [|m ms]; reflexivity.
Qed.

Lemma processMongoCore_fulfilled messages :
  Promise.outcome (processMongoCore messages) = Fulfilled <->
  forall p, In p (guarded messages) -> Promise.outcome p = Fulfilled.
Proof.
  unfold ScriptoriumLambda.processMongoCore. rewrite PromiseFacts.all_fulfilled.
  split.
  - intros H p Hp. unfold Storage.guarded, Storage.calls in Hp. simpl in Hp.
    destruct Hp as [<- | Hp]; [apply H; simpl; auto|].
    assert (Hu : Promise.outcome (updateSequenceNumber messages) = Fulfilled)
      by (apply H; simpl; auto).
    rewrite updateSequenceNumber_outcome in Hu.
    rewrite PromiseFacts.all_fulfilled in Hu. apply Hu. exact Hp.
  - intros H p [<- | [<- | []]].
    + apply H. unfold Storage.guarded, Storage.calls. simpl. auto.
    + rewrite updateSequenceNumber_outcome. apply PromiseFacts.all_fulfilled.
      intros q Hq. apply H. unfold Storage.guarded, Storage.calls in *. simpl in *. auto.
Qed.

Lemma processMongoCore_rejected messages e :
  Promise.outcome (processMongoCore messages) = Rejected e ->
  exists p, In p (guarded messages) /\ Promise.outcome p = Rejected e.
Proof.
  unfold ScriptoriumLambda.processMongoCore. intros H.
  apply PromiseFacts.all_rejected in H as (p & [<- | [<- | []]] & Hp).
  - exists (insertOp messages). split; auto. unfold Storage.guarded, Storage.calls. simpl. auto.
  - rewrite updateSequenceNumber_outcome in Hp.
    apply PromiseFacts.all_rejected in Hp as (q & Hq & Ho).
    exists q. split; auto. unfold Storage.guarded, Storage.calls in *. simpl in *. auto.
Qed.

End Sender.

End SenderFacts.

(** ** Batches *)
Module BatchFacts.

Section Batches.
Context {T : Type}.
Implicit Types (b : Batch.t T).

Lemma get_push_same encoded work b :
  Batch.get encoded (Batch.push encoded work b) =
  Some (match Batch.get encoded b with Some ws => ws | None => [] end ++ [work]).
Proof.
  induction b as [|[key value] rest IH]; simpl.
  - now rewrite String.eqb_refl.
  - destruct (String.eqb key encoded) eqn:Hk; simpl; rewrite Hk; auto.
Qed.

End Batches.

End BatchFacts.

(** * The claims *)

Section MonotonicCheckpoint.
Context {K T E : Type}.
Variable JSON_stringify : K -> string.
Implicit Types (s : Run.t T).

Local Abbreviation step := (Run.step (E:=E) JSON_stringify).
Local Abbreviation run := (Run.run (E:=E) JSON_stringify).

Lemma offsetChanges_app (a b : list (Run.Effect T E)) :
  Trace.offsetChanges (a ++ b) = Trace.offsetChanges a ++ Trace.offsetChanges b.
Proof.
  induction a as [|e a IH]; simpl; auto. destruct e; simpl; auto. now rewrite IH.
Qed.

Lemma offsetChanges_sends i (sent : option (Batch.t T)) :
  Trace.offsetChanges (Run.sends (E:=E) i sent) = [].
Proof. now destruct sent. Qed.

Lemma rising_from_weaken lo lo' l :
  Offset.le lo lo' -> Trace.rising_from lo' l = true -> Trace.rising_from lo l = true.
Proof.
  destruct l as [|a l]; simpl; auto. intros Hle H.
  apply andb_true_iff in H as [H1 H2]. apply andb_true_iff. split; auto.
  apply negb_true_iff, OffsetFacts.leb_gt. apply negb_true_iff, OffsetFacts.leb_gt in H1.
  eapply OffsetFacts.le_lt_trans; eauto.
Qed.

(** One step emits [offsetChanged] at most once, with the new [lastOffset],
    which is then greater than the old one. *)
Lemma step_offsetChanges s ev s' out :
  step s ev = Some (s', out) ->
  (Trace.offsetChanges out = [] /\
   WorkManager.lastOffset (Run.manager s') = WorkManager.lastOffset (Run.manager s)) \/
  (Trace.offsetChanges out = [WorkManager.lastOffset (Run.manager s')] /\
   Offset.lt (WorkManager.lastOffset (Run.manager s)) (WorkManager.lastOffset (Run.manager s'))).
Proof.
  intros Hstep. destruct ev as [i id value offset|i|i e| |i].
  - apply StepFacts.step_Add in Hstep as (m & lg & m' & sent & _ & _ & _ & -> & ->).
    left. rewrite offsetChanges_sends. simpl. auto.
  - apply StepFacts.step_Fulfil in Hstep
      as (m & lg & n & m1 & o & Hm & Hlg & Hn & Hp & Hcases). cbv zeta in Hcases.
    destruct Hcases as [(Hu & -> & ->) | (w2 & changed & m3 & sent & Hu & Hnext & -> & ->)].
    + left. simpl. auto.
    + apply ScanFacts.updateOffset_Some in Hu as (Hw & Hl2 & Hmono & Hch). simpl in *.
      rewrite offsetChanges_app, offsetChanges_sends, app_nil_r.
      destruct Hch as [[-> Heq] | [-> Hlt]]; simpl; auto.
  - apply StepFacts.step_Reject in Hstep as (m & lg & n & _ & _ & _ & -> & ->).
    left. simpl. auto.
  - apply StepFacts.step_Close in Hstep as [-> ->]. left. simpl. auto.
  - apply StepFacts.step_CloseOne in Hstep as (m & _ & -> & ->). left. simpl. auto.
Qed.

Lemma run_offsetChanges s evs s' out :
  run s evs = Some (s', out) ->
  Trace.rising_from (WorkManager.lastOffset (Run.manager s)) (Trace.offsetChanges out) = true /\
  Offset.le (WorkManager.lastOffset (Run.manager s)) (WorkManager.lastOffset (Run.manager s')) /\
  WorkManager.lastOffset (Run.manager s') =
    match last (Trace.offsetChanges out) with
    | Some o => o
    | None => WorkManager.lastOffset (Run.manager s)
    end.
Proof.
  revert s out. induction evs as [|ev evs IH]; intros s out Hrun.
  - simpl in Hrun. injection Hrun as <- <-. simpl. auto with offs.
  - apply StepFacts.run_cons in Hrun as (s1 & out1 & out2 & Hs & Hr & ->).
    destruct (IH _ _ Hr) as (Hrise & Hle & Hlast).
    rewrite offsetChanges_app.
    destruct (step_offsetChanges _ _ _ _ Hs) as [[-> Heq1] | [-> Hlt1]]; simpl.
    + rewrite <- Heq1. auto.
    + split; [|split].
      * apply andb_true_iff. split; auto.
        apply negb_true_iff, OffsetFacts.leb_gt. exact Hlt1.
      * eapply OffsetFacts.le_trans; [apply OffsetFacts.lt_le|]; eauto.
      * rewrite Hlast. rewrite last_cons. destruct (last _); auto.
Qed.

End MonotonicCheckpoint.

Section History.
Context {K T E : Type}.
Variable JSON_stringify : K -> string.
Implicit Types (s : Run.t T) (lg : Run.Ledger).

Local Abbreviation step := (Run.step (E:=E) JSON_stringify).
Local Abbreviation run := (Run.run (E:=E) JSON_stringify).

Lemma added_launch (sent : option (Batch.t T)) lg :
  Run.added (Run.launch sent lg) = Run.added lg.
Proof. now destruct sent. Qed.

(** The ledger records the offsets passed to [add]. *)
Lemma step_added s ev s' out i lg' :
  step s ev = Some (s', out) -> Run.ledgers s' !! i = Some lg' ->
  exists lg, Run.ledgers s !! i = Some lg /\
             Run.added lg' = Run.added lg ++ Trace.offsetsTo i [ev].
Proof.
  intros Hstep Hlg'. destruct ev as [j id value offset|j|j e| |j].
  - apply StepFacts.step_Add in Hstep as (m & lg & m' & sent & _ & Hlg & _ & -> & ->).
    simpl in *. apply TidyFacts.lookup_insert_cases in Hlg' as [[-> ->] | [Hne Hlg']].
    + exists lg. rewrite Nat.eqb_refl, added_launch. auto.
    + exists lg'. apply Nat.eqb_neq in Hne. rewrite Hne, app_nil_r. auto.
  - apply StepFacts.step_Fulfil in Hstep
      as (m & lg & n & m1 & o & Hm & Hlg & Hn & Hp & Hcases). cbv zeta in Hcases.
    destruct Hcases as [(Hu & -> & ->) | (w2 & changed & m3 & sent & Hu & Hnext & -> & ->)];
      simpl in *; apply TidyFacts.lookup_insert_cases in Hlg' as [[-> ->] | [Hne Hlg']];
      eexists; (split; [eassumption|]); rewrite ?added_launch, ?app_nil_r; reflexivity.
  - apply StepFacts.step_Reject in Hstep as (m & lg & n & _ & Hlg & _ & -> & ->).
    simpl in *. apply TidyFacts.lookup_insert_cases in Hlg' as [[-> ->] | [Hne Hlg']];
      eexists; (split; [eassumption|]); rewrite ?app_nil_r; reflexivity.
  - apply StepFacts.step_Close in Hstep as [-> ->]. simpl in *.
    eexists; (split; [eassumption|]); rewrite ?app_nil_r; reflexivity.
  - apply StepFacts.step_CloseOne in Hstep as (m & _ & -> & ->).
    simpl in *. eexists; (split; [eassumption|]); rewrite ?app_nil_r; reflexivity.
Qed.

Lemma offsetsTo_app i (a b : list (Run.Event K T E)) :
  Trace.offsetsTo i (a ++ b) = Trace.offsetsTo i a ++ Trace.offsetsTo i b.
Proof.
  induction a as [|ev a IH]; simpl; auto.
  destruct ev; auto. destruct (Nat.eqb i i0); simpl; now rewrite IH.
Qed.

Lemma run_added s evs s' out i lg' :
  run s evs = Some (s', out) -> Run.ledgers s' !! i = Some lg' ->
  exists lg, Run.ledgers s !! i = Some lg /\
             Run.added lg' = Run.added lg ++ Trace.offsetsTo i evs.
Proof.
  revert s out. induction evs as [|ev evs IH]; intros s out Hrun Hlg'.
  - simpl in Hrun. injection Hrun as <- <-. exists lg'. simpl. now rewrite app_nil_r.
  - apply StepFacts.run_cons in Hrun as (s1 & out1 & out2 & Hs & Hr & ->).
    destruct (IH _ _ Hr Hlg') as (lg1 & Hlg1 & Heq1).
    destruct (step_added _ _ _ _ _ _ Hs Hlg1) as (lg & Hlg & Heq).
    exists lg. split; auto.
    change (ev :: evs) with ([ev] ++ evs).
    rewrite offsetsTo_app, Heq1, Heq, app_assoc. reflexivity.
Qed.

Lemma init_added n evs s out i lg :
  run (Run.init n) evs = Some (s, out) -> Run.ledgers s !! i = Some lg ->
  Run.added lg = Trace.offsetsTo i evs.
Proof.
  intros Hrun Hlg. destruct (run_added _ _ _ _ _ _ Hrun Hlg) as (lg0 & Hlg0 & ->).
  simpl in Hlg0. apply lookup_replicate in Hlg0 as [-> _]. reflexivity.
Qed.

(** Under the invariant, what was added at or below [lastOffset] is
    stored. *)
Lemma Orderly_safe hi s i lg a :
  Inv.Orderly hi s -> Run.ledgers s !! i = Some lg ->
  In a (Run.added lg) -> Offset.le (Fin a) (WorkManager.lastOffset (Run.manager s)) ->
  In a (Run.durable lg) /\ ~ In a (Run.flying lg ++ Run.queued lg).
Proof.
  intros [HS HT Hlast Hlo Hq] Hlg Hin Hle.
  destruct (Forall2_lookup_r _ _ _ _ _ HT Hlg) as (m & Hm & HTm).
  assert (Hun : ~ In a (Run.flying lg ++ Run.queued lg)).
  { intros Hun.
    pose proof (Inv.tidy_unsent _ _ _ HTm a Hun) as Hlt.
    assert (Hne : Range.empty (BatchManager.range m) = false).
    { destruct (Range.empty (BatchManager.range m)) eqn:He; auto.
      rewrite (Inv.tidy_empty _ _ _ HTm He) in Hin. destruct Hin. }
    pose proof (Hlo i m Hm Hne) as Hlo'.
    eapply OffsetFacts.lt_irrefl.
    eapply OffsetFacts.le_lt_trans; [|exact Hlt].
    eapply OffsetFacts.le_trans; eauto. }
  split; auto.
  rewrite (Inv.tidy_account _ _ _ HTm) in Hin.
  apply in_app_iff in Hin as [Hin | Hin]; tauto.
Qed.

Lemma ascending_from_weaken lo lo' l :
  Offset.le lo lo' -> Trace.ascending_from lo' l = true -> Trace.ascending_from lo l = true.
Proof.
  destruct l as [|a l]; cbn [Trace.ascending_from]; auto. intros Hle H.
  apply andb_true_iff in H as [H1 H2]. apply andb_true_iff. split; auto.
  apply negb_true_iff, OffsetFacts.leb_gt. apply negb_true_iff, OffsetFacts.leb_gt in H1.
  eapply OffsetFacts.le_lt_trans; eauto.
Qed.

End History.

(** C1, as amended.  Checkpoint safety: when the offsets passed to [add]
    increase strictly and a step emits [offsetChanged(o)], then for every
    manager every offset at most [o] that was ever passed to its [add] belongs
    to a batch whose send has fulfilled, and to no batch that is still pending
    or in flight. *)
Theorem checkpoint_safety {K T E : Type} (JSON_stringify : K -> string)
    (n : nat) (evs : list (Run.Event K T E)) (ev : Run.Event K T E)
    (s s' : Run.t T) (out out' : list (Run.Effect T E)) (o : Offset.t)
    (i : nat) (lg : Run.Ledger) (a : Z) :
  Trace.ascending (Run.offsetsOf (evs ++ [ev])) = true ->
  Run.run JSON_stringify (Run.init n) evs = Some (s, out) ->
  Run.step JSON_stringify s ev = Some (s', out') ->
  In (Run.OffsetChanged o) out' ->
  Run.ledgers s' !! i = Some lg ->
  In a (Trace.offsetsTo i (evs ++ [ev])) ->
  Offset.le (Fin a) o ->
  In a (Run.durable lg) /\ ~ In a (Run.flying lg ++ Run.queued lg).
Proof.
  intros Hasc Hrun Hstep Hout Hlg Hin Hle.
  pose proof (StepFacts.run_step_last _ _ _ _ _ _ _ _ Hrun Hstep) as Hrun'.
  pose proof (TidyFacts.Orderly_run JSON_stringify NegInf (Run.init n) (evs ++ [ev]) []
                s' (out ++ out') (TidyFacts.Orderly_init n)) as HO.
  rewrite app_nil_r in HO. destruct (HO Hasc Hrun') as (hi' & HO' & _ & _). clear HO.
  assert (Ho : o = WorkManager.lastOffset (Run.manager s')).
  { destruct (step_offsetChanges _ _ _ _ _ Hstep) as [[Hnil _] | [Hone _]].
    - exfalso. clear - Hout Hnil. induction out' as [|e l IH]; [destruct Hout|].
      destruct Hout as [-> | Hin]; [discriminate|].
      destruct e; simpl in Hnil; try discriminate; auto.
    - clear - Hout Hone. induction out' as [|e l IH]; [destruct Hout|].
      destruct Hout as [-> | Hin].
      + simpl in Hone. congruence.
      + destruct e; simpl in Hone; auto.
        injection Hone as _ Hl. exfalso. clear - Hin Hl.
        induction l as [|e l IH]; [destruct Hin|].
        destruct Hin as [-> | Hin]; [discriminate|].
        destruct e; simpl in Hl; try discriminate; auto. }
  subst o.
  eapply Orderly_safe; eauto.
  rewrite (init_added _ _ _ _ _ _ _ Hrun' Hlg). exact Hin.
Qed.


Lemma checkpoint_safety_witness :
  Trace.ascending (Run.offsetsOf (Demo.mixed ++ [Run.Fulfil 0])) = true /\
  (In 1%Z (Run.durable Demo.mixed_ledger) /\
   ~ In 1%Z (Run.flying Demo.mixed_ledger ++ Run.queued Demo.mixed_ledger)).
Proof.
  split; [reflexivity|].
  eapply (checkpoint_safety Demo.encode 2 Demo.mixed (Run.Fulfil 0) _ _ _ _ (Fin 1) 0).
  - reflexivity.
  - reflexivity.
  - reflexivity.
  - simpl. right. left. reflexivity.
  - reflexivity.
  - simpl. left. reflexivity.
  - simpl. lia.
Defined.

(** C1, as stated, fails: non-decreasing offsets allow the same offset twice.
    Offset 5 is added twice to one manager; when the first send fulfils,
    [offsetChanged(5)] is emitted although the second value of offset 5 is
    in a batch that has not been stored. *)
Lemma checkpoint_safety_needs_strictness :
  exists s out s' out' lg,
    Trace.nondescending (Run.offsetsOf (Demo.twice ++ [Run.Fulfil 0])) = true /\
    Demo.run (Run.init 2) Demo.twice = Some (s, out) /\
    Demo.step s (Run.Fulfil 0) = Some (s', out') /\
    In (Run.OffsetChanged (Fin 5)) out' /\
    Run.ledgers s' !! 0%nat = Some lg /\
    In 5%Z (Trace.offsetsTo 0 (Demo.twice ++ [Run.Fulfil 0])) /\
    Offset.le (Fin 5) (Fin 5) /\
    ~ (In 5%Z (Run.durable lg) /\ ~ In 5%Z (Run.flying lg ++ Run.queued lg)).
Proof.
  do 5 eexists. split; [reflexivity|]. split; [reflexivity|]. split; [reflexivity|].
  split; [simpl; auto|]. split; [reflexivity|]. split; [simpl; auto|].
  split; [simpl; lia|]. simpl. intros [_ H]. apply H. auto.
Qed.

(** C2.  Monotonic checkpoint: in every execution, from any state, the
    offsets emitted with [offsetChanged] (the arguments of
    [context.checkpoint]) are strictly increasing and above the [lastOffset]
    of the start, and [lastOffset] never decreases. *)
Theorem monotonic_checkpoint {K T E : Type} (JSON_stringify : K -> string)
    (s s' : Run.t T) (evs : list (Run.Event K T E)) (out : list (Run.Effect T E)) :
  Run.run JSON_stringify s evs = Some (s', out) ->
  Trace.rising_from (WorkManager.lastOffset (Run.manager s)) (Trace.offsetChanges out) = true /\
  Offset.le (WorkManager.lastOffset (Run.manager s)) (WorkManager.lastOffset (Run.manager s')).
Proof.
  intros Hrun. destruct (run_offsetChanges _ _ _ _ _ Hrun) as (H1 & H2 & _). auto.
Qed.

Lemma monotonic_checkpoint_witness :
  Demo.run (Run.init 2) (Demo.mixed ++ [Run.Fulfil 0]) =
    Some (Demo.after (Demo.mixed ++ [Run.Fulfil 0]),
          Demo.emitted (Demo.mixed ++ [Run.Fulfil 0])) /\
  (Trace.rising_from NegInf
     (Trace.offsetChanges (Demo.emitted (Demo.mixed ++ [Run.Fulfil 0]))) = true /\
   Offset.le NegInf
     (WorkManager.lastOffset (Run.manager (Demo.after (Demo.mixed ++ [Run.Fulfil 0]))))).
Proof.
  split; [reflexivity|].
  apply (monotonic_checkpoint Demo.encode (Run.init 2)
           (Demo.after (Demo.mixed ++ [Run.Fulfil 0])) (Demo.mixed ++ [Run.Fulfil 0])
           (Demo.emitted (Demo.mixed ++ [Run.Fulfil 0]))).
  reflexivity.
Defined.

Section Closing.
Context {K T E : Type}.
Variable JSON_stringify : K -> string.
Implicit Types (s : Run.t T) (m : BatchManager.t T) (lg : Run.Ledger).

Local Abbreviation step := (Run.step (E:=E) JSON_stringify).
Local Abbreviation run := (Run.run (E:=E) JSON_stringify).

Lemma closed_change i m lg ev m' lg' out :
  View.Change (E:=E) JSON_stringify i m lg ev m' lg' out ->
  BatchManager.closed m = true ->
  BatchManager.closed m' = true /\ Trace.sentBy i out = [].
Proof.
  intros Hch Hcl. destruct Hch as [out _ Hout|id value o m' sent _ Hadd|n m1 o _ _ Hp
                                  |n m1 o m3 sent changed _ _ Hp Hnext|n e _ _|_].
  - auto.
  - destruct (ManagerFacts.add_cases JSON_stringify id value o m)
      as [[_ Heq] | (_ & Hcl' & _)]; [|congruence].
    rewrite Heq in Hadd. injection Hadd as <- <-. auto.
  - apply ManagerFacts.processed_Some in Hp as [_ ->]. auto.
  - apply ManagerFacts.processed_Some in Hp as [_ ->].
    destruct (ManagerFacts.next_cases
                (BatchManager.mk (Range.mk (Fin o) (Range.head (BatchManager.range m)))
                   (BatchManager.pending m) (BatchManager.current m)
                   (BatchManager.closed m)))
      as [[_ Heq] | (Hcl' & _ & _)]; [|simpl in Hcl'; congruence].
    rewrite Heq in Hnext. injection Hnext as <- <-. simpl.
    rewrite LocalFacts.sentBy_app, LocalFacts.sentBy_changes. auto.
  - auto.
  - auto.
Qed.

Lemma closed_run s evs s' out i m :
  run s evs = Some (s', out) ->
  WorkManager.work (Run.manager s) !! i = Some m ->
  (i < length (Run.ledgers s))%nat ->
  BatchManager.closed m = true ->
  Trace.sentBy i out = [] /\
  exists m', WorkManager.work (Run.manager s') !! i = Some m' /\
             BatchManager.closed m' = true.
Proof.
  revert s out m. induction evs as [|ev evs IH]; intros s out m Hrun Hm Hi Hcl.
  - simpl in Hrun. injection Hrun as <- <-. split; eauto.
  - apply StepFacts.run_cons in Hrun as (s1 & out1 & out2 & Hs & Hr & ->).
    destruct (lookup_lt_is_Some_2 _ _ Hi) as [lg Hlg].
    destruct (LocalFacts.step_change _ _ _ _ _ _ _ _ Hs Hm Hlg) as (m1 & lg1 & Hm1 & Hlg1 & Hch).
    destruct (closed_change _ _ _ _ _ _ _ Hch Hcl) as [Hcl1 Hsent1].
    assert (Hi1 : (i < length (Run.ledgers s1))%nat) by (eapply lookup_lt_Some; eauto).
    destruct (IH _ _ _ Hr Hm1 Hi1 Hcl1) as [Hsent2 Hm'].
    split; auto. rewrite LocalFacts.sentBy_app, Hsent1, Hsent2. reflexivity.
Qed.

End Closing.

Section Halting.
Context {K T E : Type}.
Variable JSON_stringify : K -> string.
Implicit Types (s : Run.t T) (m : BatchManager.t T) (lg : Run.Ledger).

Local Abbreviation step := (Run.step (E:=E) JSON_stringify).
Local Abbreviation run := (Run.run (E:=E) JSON_stringify).

Lemma Halted_change i m0 m lg ev m' lg' out :
  Inv.Sane m lg -> Inv.Halted m0 m lg ->
  View.Change (E:=E) JSON_stringify i m lg ev m' lg' out ->
  Inv.Halted m0 m' lg' /\ Trace.sentBy i out = [].
Proof.
  intros HS [Hf Ho Hb Hc Ht] Hch.
  destruct Hch as [out _ Hout|id value o m' sent _ Hadd|n m1 o _ Hn _
                  |n m1 o m3 sent changed _ Hn _ _|n e _ Hn|_]; try congruence.
  - split; auto. split; auto.
  - assert (Hbusy : OffsetBatch.isEmpty (BatchManager.current m) = false) by congruence.
    pose proof (Inv.sane_range _ _ HS Hbusy) as Hne.
    destruct (ManagerFacts.add_cases JSON_stringify id value o m)
      as [[_ Heq] | (Hc' & _ & _)]; [|congruence].
    rewrite Heq in Hadd. injection Hadd as <- <-.
    split; auto. split; simpl; auto. unfold Inv.grown. now rewrite Hne.
  - split; auto. split; auto.
Qed.

Lemma Halted_run s evs s' out i m0 m lg :
  Inv.AllSane s -> run s evs = Some (s', out) ->
  WorkManager.work (Run.manager s) !! i = Some m ->
  Run.ledgers s !! i = Some lg ->
  Inv.Halted m0 m lg ->
  exists m' lg',
    WorkManager.work (Run.manager s') !! i = Some m' /\
    Run.ledgers s' !! i = Some lg' /\
    Inv.Halted m0 m' lg' /\
    Trace.sentBy i out = [] /\
    forall o, In o (Trace.offsetChanges out) ->
              Offset.le o (Range.tail (BatchManager.range m0)).
Proof.
  revert s out m lg. induction evs as [|ev evs IH]; intros s out m lg HS Hrun Hm Hlg HH.
  - simpl in Hrun. injection Hrun as <- <-. exists m, lg.
    repeat split; auto; try apply HH. intros o [].
  - apply StepFacts.run_cons in Hrun as (s1 & out1 & out2 & Hs & Hr & ->).
    pose proof (Forall2_lookup_lr _ _ _ _ _ _ HS Hm Hlg) as HSm.
    destruct (LocalFacts.step_change _ _ _ _ _ _ _ _ Hs Hm Hlg) as (m1 & lg1 & Hm1 & Hlg1 & Hch).
    destruct (Halted_change _ _ _ _ _ _ _ _ HSm HH Hch) as [HH1 Hsent1].
    pose proof (SaneFacts.AllSane_step _ _ _ _ _ HS Hs) as HS1.
    destruct (IH _ _ _ _ HS1 Hr Hm1 Hlg1 HH1) as (m' & lg' & Hm' & Hlg' & HH' & Hsent2 & Hbelow).
    exists m', lg'. repeat split; auto; try apply HH'.
    + rewrite LocalFacts.sentBy_app, Hsent1, Hsent2. reflexivity.
    + intros o Hin. rewrite offsetChanges_app in Hin.
      apply in_app_iff in Hin as [Hin | Hin]; [|auto].
      rewrite <- (Inv.halted_tail _ _ _ HH1).
      eapply LocalFacts.emitted_below; eauto.
      pose proof (Forall2_lookup_lr _ _ _ _ _ _ HS1 Hm1 Hlg1) as HSm1.
      apply (Inv.sane_range _ _ HSm1).
      rewrite (Inv.halted_current _ _ _ HH1). apply HH1.
Qed.

End Halting.

(** C9.  Failure permanently halts a manager: once its sender has rejected,
    [current] is never cleared, [requestSend] returns early, the sender is
    not called again on that manager whatever is added afterwards, its
    [range.tail] stays where it was, and no offset emitted with
    [offsetChanged] afterwards exceeds that tail. *)
Theorem failure_halts {K T E : Type} (JSON_stringify : K -> string)
    (n : nat) (evs0 : list (Run.Event K T E)) (s0 : Run.t T) (out0 : list (Run.Effect T E))
    (i : nat) (e : E) (s1 : Run.t T) (out1 : list (Run.Effect T E)) (m1 : BatchManager.t T)
    (evs : list (Run.Event K T E)) (s2 : Run.t T) (out2 : list (Run.Effect T E)) :
  Run.run JSON_stringify (Run.init n) evs0 = Some (s0, out0) ->
  Run.step JSON_stringify s0 (Run.Reject i e) = Some (s1, out1) ->
  WorkManager.work (Run.manager s1) !! i = Some m1 ->
  Run.run JSON_stringify s1 evs = Some (s2, out2) ->
  OffsetBatch.isEmpty (BatchManager.current m1) = false /\
  exists m2 lg2,
    WorkManager.work (Run.manager s2) !! i = Some m2 /\
    Run.ledgers s2 !! i = Some lg2 /\
    Run.outstanding lg2 = 0%nat /\
    BatchManager.current m2 = BatchManager.current m1 /\
    BatchManager.requestSend m2 = (m2, None) /\
    Trace.sentBy i out2 = [] /\
    Range.tail (BatchManager.range m2) = Range.tail (BatchManager.range m1) /\
    forall o, In o (Trace.offsetChanges out2) ->
              Offset.le o (Range.tail (BatchManager.range m1)).
Proof.
  intros Hrun0 Hstep Hm1 Hrun.
  pose proof (SaneFacts.AllSane_run _ _ _ _ _ (SaneFacts.AllSane_init n) Hrun0) as HS0.
  pose proof (SaneFacts.AllSane_step _ _ _ _ _ HS0 Hstep) as HS1.
  apply StepFacts.step_Reject in Hstep as (m & lg & k & Hm & Hlg & Hk & -> & ->).
  simpl in *. rewrite Hm in Hm1. injection Hm1 as <-.
  pose proof (Forall2_lookup_lr _ _ _ _ _ _ HS0 Hm Hlg) as HSm.
  destruct (SaneFacts.Sane_busy _ _ _ HSm Hk) as (-> & Hf & Hc).
  assert (Hi : (i < length (Run.ledgers s0))%nat) by (eapply lookup_lt_Some; eauto).
  assert (HH : Inv.Halted m m (Run.broken (Run.settled lg))).
  { split; simpl; auto. now rewrite Hk. }
  destruct (Halted_run JSON_stringify _ _ _ _ i m m _ HS1 Hrun Hm
              (list_lookup_insert_eq _ _ _ Hi) HH)
    as (m2 & lg2 & Hm2 & Hlg2 & [Hf2 Ho2 Hb2 Hc2 Ht2] & Hsent & Hbelow).
  split; [exact Hc|]. exists m2, lg2. repeat split; auto.
  unfold BatchManager.requestSend. rewrite Hc2, Hc. reflexivity.
Qed.

Lemma failure_halts_witness :
  Demo.run (Run.init 2) [Run.Add 0 "D"%string 10%Z 1%Z] =
    Some (Demo.after [Run.Add 0 "D"%string 10%Z 1%Z],
          Demo.emitted [Run.Add 0 "D"%string 10%Z 1%Z]) /\
  OffsetBatch.isEmpty
    (BatchManager.current
       (BatchManager.mk (Range.mk (Fin 0) (Fin 1)) OffsetBatch.new
          (OffsetBatch.mk (Some 1%Z) [("D"%string, [10%Z])]) false)) = false.
Proof.
  split; [reflexivity|].
  apply (failure_halts Demo.encode 2 [Run.Add 0 "D"%string 10%Z 1%Z]
           (Demo.after [Run.Add 0 "D"%string 10%Z 1%Z])
           (Demo.emitted [Run.Add 0 "D"%string 10%Z 1%Z]) 0 7%nat
           (Demo.after Demo.rejected) [Run.Error (Run.SendRejected 7%nat)]
           (BatchManager.mk (Range.mk (Fin 0) (Fin 1)) OffsetBatch.new
              (OffsetBatch.mk (Some 1%Z) [("D"%string, [10%Z])]) false)
           Demo.resumed
           (Demo.state_from (Demo.after Demo.rejected) Demo.resumed)
           (Demo.effects_from (Demo.after Demo.rejected) Demo.resumed)
           eq_refl eq_refl eq_refl eq_refl).
Defined.

Section Monotone.
Context {K T E : Type}.
Variable JSON_stringify : K -> string.
Implicit Types (s : Run.t T) (m : BatchManager.t T) (lg : Run.Ledger).

Local Abbreviation step := (Run.step (E:=E) JSON_stringify).
Local Abbreviation run := (Run.run (E:=E) JSON_stringify).

Local Ltac offs :=
  repeat match goal with |- _ /\ _ => split end;
  first [assumption | exact I | apply OffsetFacts.le_refl | (simpl; lia) | auto with offs].

Lemma Steady_new : Inv.Steady (T:=T) BatchManager.new.
Proof. split; simpl; auto; discriminate. Qed.

Lemma nondescending_from_app lo a b :
  Trace.nondescending_from lo (a ++ b) = true ->
  Trace.nondescending_from lo a = true /\
  Trace.nondescending_from (match last a with Some x => Fin x | None => lo end) b = true.
Proof.
  revert lo. induction a as [|x a IH]; intros lo H.
  - simpl in *. auto.
  - cbn [app Trace.nondescending_from] in *.
    apply andb_true_iff in H as [H1 H2]. destruct (IH _ H2) as [H3 H4].
    rewrite H1, H3. split; auto.
    rewrite last_cons. destruct (last a); auto.
Qed.

(** What a step does to the range of a manager whose new offset, if any, is
    not below its head. *)
Lemma Steady_change i m lg ev m' lg' out :
  Inv.Sane m lg -> Inv.Steady m ->
  View.Change (E:=E) JSON_stringify i m lg ev m' lg' out ->
  (forall id value o, ev = Run.Add i id value o ->
                      Offset.le (Range.head (BatchManager.range m)) (Fin o)) ->
  Inv.Steady m' /\
  Offset.le (Range.head (BatchManager.range m)) (Range.head (BatchManager.range m')) /\
  Offset.le (Range.tail (BatchManager.range m)) (Range.tail (BatchManager.range m')) /\
  (Range.empty (BatchManager.range m) = false ->
   Range.empty (BatchManager.range m') = false) /\
  Range.head (BatchManager.range m') =
    match Trace.offsetsTo i [ev] with
    | o :: _ => Fin o
    | [] => Range.head (BatchManager.range m)
    end.
Proof.
  intros HS HSt Hch Hev.
  destruct Hch as [out Hnone Hout|id value o m' sent -> Hadd|n m1 o -> Hn Hpr
                  |n m1 o m3 sent changed -> Hn Hpr Hnext|n e -> Hn|[-> | ->]].
  - rewrite Hnone. auto with offs.
  - specialize (Hev id value o eq_refl).
    assert (Hvoid : Range.empty (BatchManager.range m) = true ->
                    OffsetBatch.offset (BatchManager.current m) = None /\
                    OffsetBatch.offset (BatchManager.pending m) = None).
    { intros He. split; apply ManagerFacts.isEmpty_true.
      - destruct (OffsetBatch.isEmpty (BatchManager.current m)) eqn:Hc; auto.
        rewrite (Inv.sane_range _ _ HS Hc) in He. discriminate.
      - destruct (OffsetBatch.isEmpty (BatchManager.pending m)) eqn:Hc; auto.
        rewrite (Inv.sane_pending _ _ HS Hc) in He. discriminate. }
    destruct HSt as [Ht Hv Hc Hp].
    assert (Hgt : Offset.le (Range.tail (Inv.grown o (BatchManager.range m))) (Fin o)).
    { unfold Inv.grown. simpl. destruct (Range.empty _); simpl; [lia|].
      eapply OffsetFacts.le_trans; eauto. }
    assert (Hgm : Offset.le (Range.tail (BatchManager.range m))
                            (Range.tail (Inv.grown o (BatchManager.range m)))).
    { unfold Inv.grown. simpl. destruct (Range.empty _) eqn:He; simpl; auto with offs.
      rewrite (Hv eq_refl). exact I. }
    assert (Hgc : forall c, OffsetBatch.offset (BatchManager.current m) = Some c ->
                  Offset.le (Range.tail (Inv.grown o (BatchManager.range m))) (Fin c) /\
                  Offset.le (Fin c) (Fin o)).
    { intros c Hcc. destruct (Hc c Hcc) as [H1 H2]. split.
      - unfold Inv.grown. simpl. destruct (Range.empty _) eqn:He; auto.
        destruct (Hvoid eq_refl) as [Hn _]. congruence.
      - eapply OffsetFacts.le_trans; eauto. }
    simpl. rewrite Nat.eqb_refl.
    destruct (ManagerFacts.add_cases JSON_stringify id value o m)
      as [[_ Heq] | (Hce & _ & Heq)];
      rewrite Heq in Hadd; injection Hadd as <- <-; simpl.
    + split; [|auto]. split; simpl; auto; try discriminate.
      intros p [= <-]. split; [exact Hgt|]. split; [lia|].
      intros c Hcc. destruct (Hgc c Hcc) as [_ H2]. exact H2.
    + apply ManagerFacts.isEmpty_true in Hce.
      split; [|auto]. split; simpl; auto; try discriminate.
      * intros c [= <-]. split; [exact Hgt|lia].
      * intros p Hpp. congruence.
  - apply ManagerFacts.processed_Some in Hpr as [Ho ->].
    destruct HSt as [Ht Hv Hc Hp]. destruct (Hc o Ho) as [H1 H2].
    simpl. split; [|auto with offs]. split; simpl; auto.
    + intros He. pose proof (proj1 (RangeFacts.empty_head _) He) as Hh. simpl in Hh.
      rewrite Hh in H2. destruct H2.
    + intros c Hcc. rewrite Ho in Hcc. injection Hcc as <-. offs.
    + intros p Hpp. destruct (Hp p Hpp) as (H3 & H4 & H5).
      split; [exact (H5 o Ho)|]. auto.
  - apply ManagerFacts.processed_Some in Hpr as [Ho ->].
    destruct HSt as [Ht Hv Hc Hp]. destruct (Hc o Ho) as [H1 H2].
    assert (Hvoid : Range.empty (Range.mk (Fin o) (Range.head (BatchManager.range m))) = true ->
                    False).
    { intros He. pose proof (proj1 (RangeFacts.empty_head _) He) as Hh. simpl in Hh.
      rewrite Hh in H2. destruct H2. }
    destruct (ManagerFacts.next_cases
                (BatchManager.mk (Range.mk (Fin o) (Range.head (BatchManager.range m)))
                   (BatchManager.pending m) (BatchManager.current m)
                   (BatchManager.closed m)))
      as [[_ Heq] | (_ & Hpe & Heq)];
      rewrite Heq in Hnext; injection Hnext as <- <-; simpl.
    + split; [|auto with offs]. split; simpl; auto; try discriminate.
      * intros He. destruct (Hvoid He).
      * intros p Hpp. destruct (Hp p Hpp) as (H3 & H4 & H5).
        split; [exact (H5 o Ho)|]. split; auto. discriminate.
    + split; [|auto with offs]. split; simpl; auto; try discriminate.
      * intros He. destruct (Hvoid He).
      * intros p Hpp. destruct (Hp p Hpp) as (H3 & H4 & H5).
        split; [exact (H5 o Ho)|]. auto.
  - simpl. auto with offs.
  - destruct HSt as [Ht Hv Hc Hp]. simpl. split; [|auto with offs]. split; auto.
  - destruct HSt as [Ht Hv Hc Hp]. simpl. split; [|auto with offs]. split; auto.
Qed.

Lemma offsetsTo_one i (ev : Run.Event K T E) :
  Trace.offsetsTo i [ev] = [] \/
  exists id value o, ev = Run.Add i id value o /\ Trace.offsetsTo i [ev] = [o].
Proof.
  destruct ev as [j id value o| | | |]; simpl; auto.
  destruct (Nat.eqb i j) eqn:Hij; auto.
  apply Nat.eqb_eq in Hij as <-. right. eauto.
Qed.

Lemma Steady_step s ev s' out i m lg :
  Inv.AllSane s -> step s ev = Some (s', out) ->
  WorkManager.work (Run.manager s) !! i = Some m ->
  Run.ledgers s !! i = Some lg ->
  Inv.Steady m ->
  Trace.nondescending_from (Range.head (BatchManager.range m)) (Trace.offsetsTo i [ev]) = true ->
  exists m' lg',
    WorkManager.work (Run.manager s') !! i = Some m' /\
    Run.ledgers s' !! i = Some lg' /\
    Inv.Steady m' /\
    Offset.le (Range.head (BatchManager.range m)) (Range.head (BatchManager.range m')) /\
    Offset.le (Range.tail (BatchManager.range m)) (Range.tail (BatchManager.range m')) /\
    (Range.empty (BatchManager.range m) = false ->
     Range.empty (BatchManager.range m') = false) /\
    Range.head (BatchManager.range m') =
      match Trace.offsetsTo i [ev] with
      | o :: _ => Fin o
      | [] => Range.head (BatchManager.range m)
      end.
Proof.
  intros HS Hstep Hm Hlg HSt Hnd.
  pose proof (Forall2_lookup_lr _ _ _ _ _ _ HS Hm Hlg) as HSm.
  destruct (LocalFacts.step_change _ _ _ _ _ _ _ _ Hstep Hm Hlg) as (m1 & lg1 & Hm1 & Hlg1 & Hch).
  exists m1, lg1. split; auto. split; auto.
  eapply Steady_change; eauto.
  intros id value o ->. simpl in Hnd. rewrite Nat.eqb_refl in Hnd.
  cbn [Trace.nondescending_from] in Hnd. apply andb_true_iff in Hnd as [Hnd _].
  now apply OffsetFacts.leb_le.
Qed.

Lemma Steady_run s evs s' out i m lg :
  Inv.AllSane s -> run s evs = Some (s', out) ->
  WorkManager.work (Run.manager s) !! i = Some m ->
  Run.ledgers s !! i = Some lg ->
  Inv.Steady m ->
  Trace.nondescending_from (Range.head (BatchManager.range m)) (Trace.offsetsTo i evs) = true ->
  exists m' lg',
    WorkManager.work (Run.manager s') !! i = Some m' /\
    Run.ledgers s' !! i = Some lg' /\
    Inv.Steady m'.
Proof.
  revert s out m lg. induction evs as [|ev evs IH]; intros s out m lg HS Hrun Hm Hlg HSt Hnd.
  - simpl in Hrun. injection Hrun as <- <-. eauto.
  - apply StepFacts.run_cons in Hrun as (s1 & out1 & out2 & Hs & Hr & ->).
    change (ev :: evs) with ([ev] ++ evs) in Hnd. rewrite offsetsTo_app in Hnd.
    apply nondescending_from_app in Hnd as [Hnd1 Hnd2].
    destruct (Steady_step _ _ _ _ _ _ _ HS Hs Hm Hlg HSt Hnd1)
      as (m1 & lg1 & Hm1 & Hlg1 & HSt1 & _ & _ & _ & Hhead).
    pose proof (SaneFacts.AllSane_step _ _ _ _ _ HS Hs) as HS1.
    eapply (IH _ _ _ _ HS1 Hr Hm1 Hlg1 HSt1).
    rewrite Hhead.
    destruct (offsetsTo_one i ev) as [Hnil | (id & value & o & _ & Hone)].
    + rewrite Hnil in *. exact Hnd2.
    + rewrite Hone in *. exact Hnd2.
Qed.

End Monotone.

(** C10.  Range monotonicity and permanence.  When the offsets passed to the
    [add] of a manager never decrease, every step leaves [range.head] and
    [range.tail] of that manager where they were or moves them up, [tail] is
    at most [head] afterwards if the range is not empty, a range that is not
    empty stays so, and the range is not empty once an offset has been
    added. *)
Theorem range_monotone {K T E : Type} (JSON_stringify : K -> string)
    (n : nat) (evs : list (Run.Event K T E)) (ev : Run.Event K T E)
    (s s' : Run.t T) (out out' : list (Run.Effect T E))
    (i : nat) (m m' : BatchManager.t T) :
  Trace.nondescending (Trace.offsetsTo i (evs ++ [ev])) = true ->
  Run.run JSON_stringify (Run.init n) evs = Some (s, out) ->
  Run.step JSON_stringify s ev = Some (s', out') ->
  WorkManager.work (Run.manager s) !! i = Some m ->
  WorkManager.work (Run.manager s') !! i = Some m' ->
  Offset.le (Range.head (BatchManager.range m)) (Range.head (BatchManager.range m')) /\
  Offset.le (Range.tail (BatchManager.range m)) (Range.tail (BatchManager.range m')) /\
  (Range.empty (BatchManager.range m') = false ->
   Offset.le (Range.tail (BatchManager.range m')) (Range.head (BatchManager.range m'))) /\
  (Range.empty (BatchManager.range m) = false ->
   Range.empty (BatchManager.range m') = false) /\
  (Trace.offsetsTo i evs <> [] -> Range.empty (BatchManager.range m) = false).
Proof.
  intros Hnd Hrun Hstep Hm Hm'.
  unfold Trace.nondescending in Hnd. rewrite offsetsTo_app in Hnd.
  apply nondescending_from_app in Hnd as [Hnd1 Hnd2].
  pose proof (SaneFacts.AllSane_init (T:=T) n) as HS0.
  pose proof (SaneFacts.AllSane_run _ _ _ _ _ HS0 Hrun) as HS.
  destruct (Forall2_lookup_l _ _ _ _ _ HS Hm) as (lg & Hlg & HSm).
  destruct (run_added _ _ _ _ _ _ _ Hrun Hlg) as (lg0 & Hlg0 & Hadded).
  assert (Hm0 : WorkManager.work (Run.manager (Run.init (T:=T) n)) !! i =
                Some BatchManager.new).
  { rewrite SaneFacts.init_work. simpl in Hlg0.
    apply lookup_replicate in Hlg0 as [_ Hi]. now apply lookup_replicate_2. }
  destruct (Steady_run JSON_stringify _ _ _ _ i _ _ HS0 Hrun Hm0 Hlg0 Steady_new Hnd1)
    as (m1 & lg1 & Hm1 & Hlg1 & HSt).
  rewrite Hm in Hm1. injection Hm1 as <-.
  assert (Hhead : Range.head (BatchManager.range m) =
                  match last (Trace.offsetsTo i evs) with
                  | Some x => Fin x
                  | None => NegInf
                  end).
  { rewrite (Inv.sane_head _ _ HSm), Hadded.
    simpl in Hlg0. apply lookup_replicate in Hlg0 as [-> _]. reflexivity. }
  rewrite <- Hhead in Hnd2.
  destruct (Steady_step JSON_stringify _ _ _ _ i _ _ HS Hstep Hm Hlg HSt Hnd2)
    as (m2 & lg2 & Hm2 & Hlg2 & HSt2 & H1 & H2 & H3 & _).
  rewrite Hm' in Hm2. injection Hm2 as <-.
  split; [exact H1|]. split; [exact H2|]. split; [intros _; apply HSt2|].
  split; [exact H3|].
  intros Hne. apply RangeFacts.nonempty_head. rewrite Hhead.
  destruct (last (Trace.offsetsTo i evs)) eqn:Hl; [discriminate|].
  apply last_None in Hl. contradiction.
Qed.

Lemma range_monotone_witness :
  Trace.nondescending (Trace.offsetsTo 0 (Demo.twice ++ [Run.Fulfil 0])) = true /\
  Offset.le (Fin 4) (Fin 5).
Proof.
  split; [reflexivity|].
  apply (range_monotone Demo.encode 2 Demo.twice (Run.Fulfil 0)
           (Demo.after Demo.twice) (Demo.after (Demo.twice ++ [Run.Fulfil 0]))
           (Demo.emitted Demo.twice)
           (Demo.effects_from (Demo.after Demo.twice) [Run.Fulfil 0]) 0
           (BatchManager.mk (Range.mk (Fin 4) (Fin 5))
              (OffsetBatch.mk (Some 5%Z) [("D"%string, [51%Z])])
              (OffsetBatch.mk (Some 5%Z) [("D"%string, [50%Z])]) false)
           (BatchManager.mk (Range.mk (Fin 5) (Fin 5))
              (OffsetBatch.mk None [])
              (OffsetBatch.mk (Some 5%Z) [("D"%string, [51%Z])]) false)
           eq_refl eq_refl eq_refl eq_refl eq_refl).
Defined.

Section Swallowing.
Variable JSON_stringify : ScriptoriumLambda.Key -> string.
Variable JSON_parse : string -> IMongoTarget.t.
Variable opCollection : ICollection.
Variable contentCollection : option ICollection.

Local Abbreviation processMongoCore :=
  (ScriptoriumLambda.processMongoCore opCollection contentCollection).
Local Abbreviation processMongoBatch :=
  (ScriptoriumLambda.processMongoBatch JSON_parse opCollection contentCollection).
Local Abbreviation calls := (Storage.calls opCollection contentCollection).
Local Abbreviation guarded := (Storage.guarded opCollection contentCollection).

Lemma group_fulfilled messages :
  (forall p, In p (calls messages) -> Storage.absorbed p) <->
  Promise.outcome (processMongoCore messages) = Fulfilled.
Proof.
  rewrite SenderFacts.processMongoCore_fulfilled. unfold Storage.guarded. split.
  - intros H q Hq. apply in_map_iff in Hq as (p & <- & Hp).
    destruct (SenderFacts.guarded_outcome p) as [[_ Hf] | (e & He & Hd & _)]; auto.
    specialize (H p Hp). unfold Storage.absorbed in H. rewrite He in H. contradiction.
  - intros H p Hp.
    destruct (SenderFacts.guarded_outcome p) as [[Ha _] | (e & He & Hd & Hr)]; auto.
    rewrite H in Hr; [discriminate|]. apply in_map_iff. eauto.
Qed.

Lemma group_rejected messages e :
  Promise.outcome (processMongoCore messages) = Rejected e ->
  ~ Storage.duplicateKey e /\
  exists p, In p (calls messages) /\ Promise.outcome p = Rejected e.
Proof.
  intros H. apply SenderFacts.processMongoCore_rejected in H as (q & Hq & Ho).
  unfold Storage.guarded in Hq. apply in_map_iff in Hq as (p & <- & Hp).
  destruct (SenderFacts.guarded_outcome p) as [[_ Hf] | (e' & He & Hd & Hr)].
  - rewrite Hf in Ho. discriminate.
  - rewrite Hr in Ho. injection Ho as <-. eauto.
Qed.

Lemma batch_fulfilled (batch : Batch.t Payload.t) :
  (forall key work, In (key, work) batch ->
                    Promise.outcome (processMongoCore work) = Fulfilled) <->
  Promise.outcome (processMongoBatch batch) = Fulfilled.
Proof.
  unfold ScriptoriumLambda.processMongoBatch, Batch.map.
  rewrite PromiseFacts.all_fulfilled. split.
  - intros H p Hp. apply in_map_iff in Hp as ([key work] & <- & Hin). simpl. eauto.
  - intros H key work Hin.
    apply (H (processMongoCore work)). apply in_map_iff. exists (key, work). auto.
Qed.

Lemma batch_rejected (batch : Batch.t Payload.t) e :
  Promise.outcome (processMongoBatch batch) = Rejected e ->
  exists key work, In (key, work) batch /\
                   Promise.outcome (processMongoCore work) = Rejected e.
Proof.
  unfold ScriptoriumLambda.processMongoBatch, Batch.map. intros H.
  apply PromiseFacts.all_rejected in H as (p & Hp & Ho).
  apply in_map_iff in Hp as ([key work] & <- & Hin). simpl in Ho. eauto.
Qed.

End Swallowing.

(** C7.  Duplicate-key swallowing.  The catch handler of the insert and of
    every update absorbs exactly the errors named [MongoError] with code
    11000.  A group fulfils exactly when the error of each of its calls, if
    any, is such a duplicate key; otherwise it rejects with an error of one
    of its calls that is not a duplicate key.  The batch fulfils exactly when
    all its groups do and otherwise rejects with the error of a group.  When
    the send of the mongo manager rejects, the lambda calls
    [context.error(err, true)] and nothing else, and the managers are left as
    they were. *)
Theorem duplicate_key_swallowed
    (JSON_stringify : ScriptoriumLambda.Key -> string) (JSON_parse : string -> IMongoTarget.t)
    (opCollection : ICollection) (contentCollection : option ICollection)
    (messages : list Payload.t) (batch : Batch.t Payload.t) (s : ScriptoriumLambda.State) :
  (forall e, (Storage.duplicateKey e -> ScriptoriumLambda.ignoreDuplicate e = Fulfilled) /\
             (~ Storage.duplicateKey e -> ScriptoriumLambda.ignoreDuplicate e = Rejected e)) /\
  ((forall p, In p (Storage.calls opCollection contentCollection messages) ->
              Storage.absorbed p) <->
   Promise.outcome
     (ScriptoriumLambda.processMongoCore opCollection contentCollection messages) =
     Fulfilled) /\
  (forall e,
     Promise.outcome
       (ScriptoriumLambda.processMongoCore opCollection contentCollection messages) =
       Rejected e ->
     ~ Storage.duplicateKey e /\
     exists p, In p (Storage.calls opCollection contentCollection messages) /\
               Promise.outcome p = Rejected e) /\
  ((forall key work,
      In (key, work) batch ->
      Promise.outcome
        (ScriptoriumLambda.processMongoCore opCollection contentCollection work) =
        Fulfilled) <->
   Promise.outcome
     (ScriptoriumLambda.processMongoBatch JSON_parse opCollection contentCollection batch) =
     Fulfilled) /\
  (forall e,
     Promise.outcome
       (ScriptoriumLambda.processMongoBatch JSON_parse opCollection contentCollection batch) =
       Rejected e ->
     ~ Storage.duplicateKey e /\
     exists key work,
       In (key, work) batch /\
       Promise.outcome
         (ScriptoriumLambda.processMongoCore opCollection contentCollection work) =
         Rejected e) /\
  (forall m lg e,
     WorkManager.work (Run.manager s) !! ScriptoriumLambda.mongoManager = Some m ->
     Run.ledgers s !! ScriptoriumLambda.mongoManager = Some lg ->
     Run.outstanding lg = 1%nat ->
     Promise.outcome
       (ScriptoriumLambda.processMongoBatch JSON_parse opCollection contentCollection
          (ScriptoriumLambda.typed (OffsetBatch.batch (BatchManager.current m)))) =
       Rejected e ->
     exists s',
       ScriptoriumLambda.mongoSettles JSON_stringify JSON_parse opCollection
         contentCollection s =
         Some (s', [ScriptoriumLambda.ContextError (Run.SendRejected e) true]) /\
       Run.manager s' = Run.manager s).
Proof.
  split; [|split; [|split; [|split; [|split]]]].
  - intros e. destruct (SenderFacts.ignoreDuplicate_spec e) as [[Hd Hf] | [Hd Hf]];
      split; intros H; auto; contradiction.
  - apply group_fulfilled.
  - apply group_rejected.
  - apply batch_fulfilled.
  - intros e H. destruct (batch_rejected _ _ _ _ _ H) as (key & work & Hin & Hw).
    split; [|eauto]. eapply group_rejected; eauto.
  - intros m lg e Hm Hlg Ho Hr.
    unfold ScriptoriumLambda.mongoSettles. rewrite Hm. simpl. rewrite Hr.
    unfold ScriptoriumLambda.mongoManager in *. simpl. rewrite Hm, Hlg. simpl.
    rewrite Ho. simpl. eexists. split; reflexivity.
Qed.

Section Classification.
Variable JSON_stringify : ScriptoriumLambda.Key -> string.
Variable stringify : JSON -> string.
Variable safelyParseJSON : string -> option Payload.t.

(** Where a value is after [add]: last in its group, in [pending] or, if the
    batch was sent at once, in [current]. *)
Lemma add_received (id : ScriptoriumLambda.Key) (value : ScriptoriumLambda.Work) offset
    (m m' : BatchManager.t ScriptoriumLambda.Work) sent :
  BatchManager.add JSON_stringify id value offset m = (m', sent) ->
  Range.head (BatchManager.range m') = Fin offset /\
  exists ws,
    Batch.get (JSON_stringify id) (OffsetBatch.batch (BatchManager.pending m')) =
      Some (ws ++ [value]) \/
    Batch.get (JSON_stringify id) (OffsetBatch.batch (BatchManager.current m')) =
      Some (ws ++ [value]).
Proof.
  intros Hadd.
  destruct (ManagerFacts.add_cases JSON_stringify id value offset m)
    as [[_ Heq] | (_ & _ & Heq)];
    rewrite Heq in Hadd; injection Hadd as <- <-; simpl; (split; [reflexivity|]);
    unfold Batch.add; rewrite BatchFacts.get_push_same; eauto.
Qed.

Lemma normalise_wellformed (payload : Payload.t) :
  (Operation.metadata (Payload.operation payload) = None \/
   exists fields, Operation.metadata (Payload.operation payload) = Some (JObject fields)) ->
  ScriptoriumLambda.normalise stringify payload =
  Payload.mk (Payload.type payload) (Payload.tenantId payload) (Payload.documentId payload)
    (Operation.mk (Some [])
       (Operation.metadata (Payload.operation payload))
       (match Operation.metadata (Payload.operation payload) with
        | None => JString (stringify (Operation.contents (Payload.operation payload)))
        | Some _ => Operation.contents (Payload.operation payload)
        end)
       (Operation.clientId (Payload.operation payload))
       (Operation.clientSequenceNumber (Payload.operation payload))
       (Operation.sequenceNumber (Payload.operation payload))).
Proof.
  unfold ScriptoriumLambda.normalise. simpl.
  intros [-> | [fields ->]]; reflexivity.
Qed.

End Classification.

(** C8.  Message classification and normalisation.  In a state with the two
    managers: a message that fails to parse is logged and leaves the state as
    it is; a parsed message of type [SequencedOperation] whose metadata is
    absent or an object gets [traces] emptied and, exactly when the metadata
    is absent, [contents] replaced by its stringified form, and is added to
    the mongo manager under the key of its document and tenant at the offset
    of the message, the idle manager being left alone; every other parsed
    message adds [null] under the key [null] to the idle manager at that
    offset, the mongo manager being left alone. *)
Theorem message_classification
    (JSON_stringify : ScriptoriumLambda.Key -> string) (stringify : JSON -> string)
    (safelyParseJSON : string -> option Payload.t)
    (message : Inbound.t) (s : ScriptoriumLambda.State)
    (m0 m1 : BatchManager.t ScriptoriumLambda.Work) (lg0 lg1 : Run.Ledger) :
  WorkManager.work (Run.manager s) !! ScriptoriumLambda.mongoManager = Some m0 ->
  Run.ledgers s !! ScriptoriumLambda.mongoManager = Some lg0 ->
  WorkManager.work (Run.manager s) !! ScriptoriumLambda.idleManager = Some m1 ->
  Run.ledgers s !! ScriptoriumLambda.idleManager = Some lg1 ->
  match safelyParseJSON (Inbound.value message) with
  | None =>
      exists text,
        ScriptoriumLambda.handler JSON_stringify stringify safelyParseJSON message s =
        Some (s, [ScriptoriumLambda.WinstonError text])
  | Some payload =>
      (Operation.metadata (Payload.operation payload) = None \/
       exists fields,
         Operation.metadata (Payload.operation payload) = Some (JObject fields)) ->
      let op := Payload.operation payload in
      let value :=
        Payload.mk (Payload.type payload) (Payload.tenantId payload)
          (Payload.documentId payload)
          (Operation.mk (Some []) (Operation.metadata op)
             (match Operation.metadata op with
              | None => JString (stringify (Operation.contents op))
              | Some _ => Operation.contents op
              end)
             (Operation.clientId op) (Operation.clientSequenceNumber op)
             (Operation.sequenceNumber op)) in
      let key := Some (IMongoTarget.mk (Payload.documentId payload) (Payload.tenantId payload)) in
      if String.eqb (Payload.type payload) ScriptoriumLambda.SequencedOperationType then
        exists s' m0' sent,
          ScriptoriumLambda.handler JSON_stringify stringify safelyParseJSON message s =
            Some (s', match sent with
                      | Some b => [ScriptoriumLambda.SendFn ScriptoriumLambda.mongoManager b]
                      | None => []
                      end) /\
          BatchManager.add JSON_stringify key (Some value) (Inbound.offset message) m0 =
            (m0', sent) /\
          WorkManager.work (Run.manager s') !! ScriptoriumLambda.mongoManager = Some m0' /\
          WorkManager.work (Run.manager s') !! ScriptoriumLambda.idleManager = Some m1 /\
          Range.head (BatchManager.range m0') = Fin (Inbound.offset message) /\
          exists ws,
            Batch.get (JSON_stringify key) (OffsetBatch.batch (BatchManager.pending m0')) =
              Some (ws ++ [Some value]) \/
            Batch.get (JSON_stringify key) (OffsetBatch.batch (BatchManager.current m0')) =
              Some (ws ++ [Some value])
      else
        exists s' m1' sent,
          ScriptoriumLambda.handler JSON_stringify stringify safelyParseJSON message s =
            Some (s', match sent with
                      | Some b => [ScriptoriumLambda.SendFn ScriptoriumLambda.idleManager b]
                      | None => []
                      end) /\
          BatchManager.add JSON_stringify None None (Inbound.offset message) m1 =
            (m1', sent) /\
          WorkManager.work (Run.manager s') !! ScriptoriumLambda.mongoManager = Some m0 /\
          WorkManager.work (Run.manager s') !! ScriptoriumLambda.idleManager = Some m1' /\
          Range.head (BatchManager.range m1') = Fin (Inbound.offset message) /\
          exists ws,
            Batch.get (JSON_stringify None) (OffsetBatch.batch (BatchManager.pending m1')) =
              Some (ws ++ [None]) \/
            Batch.get (JSON_stringify None) (OffsetBatch.batch (BatchManager.current m1')) =
              Some (ws ++ [None])
  end.
Proof.
  intros Hm0 Hlg0 Hm1 Hlg1.
  assert (Hi0 : (0 < length (WorkManager.work (Run.manager s)))%nat)
    by (eapply lookup_lt_Some; eauto).
  assert (Hi1 : (1 < length (WorkManager.work (Run.manager s)))%nat)
    by (eapply lookup_lt_Some; eauto).
  unfold ScriptoriumLambda.handler.
  destruct (safelyParseJSON (Inbound.value message)) as [payload|]; [|eauto].
  intros Hwf. cbv zeta.
  rewrite (normalise_wellformed stringify payload Hwf).
  destruct (String.eqb (Payload.type payload) ScriptoriumLambda.SequencedOperationType).
  - cbn [Payload.documentId Payload.tenantId]. unfold ScriptoriumLambda.observe.
    unfold ScriptoriumLambda.mongoManager, ScriptoriumLambda.idleManager in *.
    cbn [Run.step]. rewrite Hm0, Hlg0. simpl.
    destruct (BatchManager.add _ _ _ _ m0) as [m0' sent] eqn:Hadd. simpl.
    exists (Run.mk (Run.set_work 0 m0' (Run.manager s))
              (<[0%nat := Run.launch sent (Run.noted (Inbound.offset message) lg0)]>
                 (Run.ledgers s))), m0', sent.
    split; [destruct sent; reflexivity|]. split; [exact Hadd|].
    split; [apply list_lookup_insert_eq; exact Hi0|].
    split; [simpl; rewrite list_lookup_insert_ne by lia; exact Hm1|].
    eapply add_received; eauto.
  - unfold ScriptoriumLambda.observe.
    unfold ScriptoriumLambda.mongoManager, ScriptoriumLambda.idleManager in *.
    cbn [Run.step]. rewrite Hm1, Hlg1. simpl.
    destruct (BatchManager.add _ _ _ _ m1) as [m1' sent] eqn:Hadd. simpl.
    exists (Run.mk (Run.set_work 1 m1' (Run.manager s))
              (<[1%nat := Run.launch sent (Run.noted (Inbound.offset message) lg1)]>
                 (Run.ledgers s))), m1', sent.
    split; [destruct sent; reflexivity|]. split; [exact Hadd|].
    split; [simpl; rewrite list_lookup_insert_ne by lia; exact Hm0|].
    split; [apply list_lookup_insert_eq; exact Hi1|].
    eapply add_received; eauto.
Qed.

Section BurstRun.
Context {K T E : Type}.
Variable JSON_stringify : K -> string.
Variable id : K.
Variable value1 : T.
Variable offset1 : Z.

Local Abbreviation step := (Run.step (E:=E) JSON_stringify).
Local Abbreviation run := (Run.run (E:=E) JSON_stringify).
Local Abbreviation state := (Burst.state JSON_stringify id value1 offset1).
Local Abbreviation lastOffset := (Burst.lastOffset (T:=T) offset1).

Lemma lastOffset_snoc items (value : T) offset :
  lastOffset (items ++ [(value, offset)]) = offset.
Proof.
  unfold Burst.lastOffset. rewrite List.map_app. simpl. apply List.last_last.
Qed.

Lemma burst_first :
  step (Run.init 2) (Run.Add 0 id value1 offset1) =
  Some (state [], [Run.Sent 0 [(JSON_stringify id, [value1])]]).
Proof. reflexivity. Qed.

Lemma pending_snoc items (value : T) offset :
  Burst.pending JSON_stringify id offset1 (items ++ [(value, offset)]) =
  OffsetBatch.mk (Some offset) [(JSON_stringify id, List.map fst items ++ [value])].
Proof.
  unfold Burst.pending.
  destruct (items ++ [(value, offset)]) eqn:Happ; [destruct items; discriminate|].
  rewrite <- Happ, lastOffset_snoc, List.map_app. reflexivity.
Qed.

Lemma filled_pending items (value : T) offset :
  Inv.filled JSON_stringify id value offset (Burst.pending JSON_stringify id offset1 items) =
  Burst.pending JSON_stringify id offset1 (items ++ [(value, offset)]).
Proof.
  rewrite pending_snoc. unfold Inv.filled, Batch.add.
  destruct items as [|item items]; simpl; [reflexivity|].
  now rewrite String.eqb_refl.
Qed.

Lemma burst_step items value offset :
  step (state items) (Run.Add 0 id value offset) = Some (state (items ++ [(value, offset)]), []).
Proof.
  unfold Burst.state at 1. cbn [Run.step Run.manager Run.ledgers WorkManager.work].
  cbn [lookup list_lookup mbind option_bind].
  match goal with
  | |- context [BatchManager.add JSON_stringify id value offset ?m] =>
      destruct (ManagerFacts.add_cases JSON_stringify id value offset m)
        as [[_ Heq] | (Hc & _ & _)]; [rewrite Heq|discriminate]
  end.
  cbn [BatchManager.range BatchManager.pending BatchManager.current BatchManager.closed].
  rewrite filled_pending. unfold Burst.state.
  rewrite lastOffset_snoc, !List.map_app. reflexivity.
Qed.

Lemma burst_adds items more :
  run (state items) (Burst.adds id more) = Some (state (items ++ more), []).
Proof.
  revert items. induction more as [|[value offset] more IH]; intros items.
  - simpl. now rewrite app_nil_r.
  - cbn [Burst.adds List.map Run.run fst snd].
    rewrite burst_step. cbn [mbind option_bind].
    change (List.map (fun item => Run.Add 0 id (fst item) (snd item)) more)
      with (Burst.adds (E:=E) id more).
    rewrite IH, <- app_assoc. reflexivity.
Qed.

Lemma burst_drain items :
  items <> [] -> (offset1 < lastOffset items)%Z ->
  run (state items) [Run.Fulfil 0; Run.Fulfil 0] =
  Some (Burst.final offset1 items,
        [Run.WorkComplete 0 offset1; Run.OffsetChanged (Fin offset1);
         Run.Sent 0 [(JSON_stringify id, List.map fst items)];
         Run.WorkComplete 0 (lastOffset items);
         Run.OffsetChanged (Fin (lastOffset items))]).
Proof.
  intros Hne Hlt. destruct items as [|item items]; [contradiction|].
  set (its := item :: items) in *.
  unfold Burst.state, Burst.final, Burst.pending. fold its.
  cbn -[Z.leb Z.eqb Burst.lastOffset its].
  unfold WorkManager.updateOffset, WorkManager.derived. simpl.
  change (Burst.lastOffset offset1 its) with (lastOffset its).
  assert (H1 : (offset1 <=? lastOffset its)%Z = true) by (apply Z.leb_le; lia).
  assert (H2 : (lastOffset its =? offset1)%Z = false) by (apply Z.eqb_neq; lia).
  unfold Offset.max, Offset.min, Offset.leb, Offset.eqb; simpl.
  rewrite ?H1, ?H2. simpl. rewrite ?H1, ?H2. simpl.
  reflexivity.
Qed.

End BurstRun.

Section Hosting.
Variable JSON_stringify : ScriptoriumLambda.Key -> string.
Variable JSON_parse : string -> IMongoTarget.t.
Variable stringify : JSON -> string.
Variable safelyParseJSON : string -> option Payload.t.
Variable opCollection : ICollection.
Variable contentCollection : option ICollection.

Local Abbreviation step := (Run.step (E:=Js.Error) JSON_stringify).
Local Abbreviation run := (Run.run (E:=Js.Error) JSON_stringify).
Local Abbreviation react :=
  (ScriptoriumLambda.react JSON_stringify JSON_parse stringify safelyParseJSON
     opCollection contentCollection).
Local Abbreviation exec :=
  (ScriptoriumLambda.exec JSON_stringify JSON_parse stringify safelyParseJSON
     opCollection contentCollection).
Local Abbreviation processMongoBatch :=
  (ScriptoriumLambda.processMongoBatch JSON_parse opCollection contentCollection).

Local Abbreviation treated :=
  (Host.treated JSON_stringify JSON_parse stringify safelyParseJSON
     opCollection contentCollection).

Lemma exec_observe inputs evs s :
  Forall2 treated inputs evs ->
  exec s inputs = ScriptoriumLambda.observe (run s evs).
Proof.
  intros H. revert s. induction H as [|i ev inputs evs Hi _ IH]; intros s.
  - reflexivity.
  - cbn [ScriptoriumLambda.exec Run.run]. rewrite (Hi s).
    unfold ScriptoriumLambda.observe at 1.
    destruct (step s ev) as [[s1 out1]|]; simpl; [|reflexivity].
    rewrite IH. unfold ScriptoriumLambda.observe.
    destruct (run s1 evs) as [[s2 out2]|]; simpl; [|reflexivity].
    now rewrite List.map_app, List.concat_app.
Qed.

Lemma checkpoints_app a b :
  Host.checkpoints (a ++ b) = Host.checkpoints a ++ Host.checkpoints b.
Proof.
  induction a as [|e a IH]; simpl; auto. destruct e; simpl; auto. now rewrite IH.
Qed.

Lemma checkpoints_listen out :
  Host.checkpoints (List.concat (List.map ScriptoriumLambda.listen out)) =
  Trace.offsetChanges out.
Proof.
  induction out as [|e out IH]; simpl; auto.
  rewrite checkpoints_app, IH. destruct e; reflexivity.
Qed.

Lemma treated_sequenced message payload :
  safelyParseJSON (Inbound.value message) = Some payload ->
  Payload.type payload = ScriptoriumLambda.SequencedOperationType ->
  treated (ScriptoriumLambda.Handle message) (Host.sequencedAdd stringify message payload).
Proof.
  intros Hp Ht s. cbn [ScriptoriumLambda.react]. unfold ScriptoriumLambda.handler.
  rewrite Hp, Ht, String.eqb_refl. reflexivity.
Qed.

Lemma treated_other message payload :
  safelyParseJSON (Inbound.value message) = Some payload ->
  String.eqb (Payload.type payload) ScriptoriumLambda.SequencedOperationType = false ->
  treated (ScriptoriumLambda.Handle message) (Host.idleAdd message).
Proof.
  intros Hp Ht s. cbn [ScriptoriumLambda.react]. unfold ScriptoriumLambda.handler.
  rewrite Hp, Ht. reflexivity.
Qed.

Lemma treated_idle :
  treated ScriptoriumLambda.IdleSettles (Run.Fulfil ScriptoriumLambda.idleManager).
Proof. intros s. reflexivity. Qed.

Lemma treated_mongo :
  (forall batch, Promise.outcome (processMongoBatch batch) = Fulfilled) ->
  treated ScriptoriumLambda.MongoSettles (Run.Fulfil ScriptoriumLambda.mongoManager).
Proof.
  intros H s. cbn [ScriptoriumLambda.react]. unfold ScriptoriumLambda.mongoSettles.
  destruct (WorkManager.work (Run.manager s) !! ScriptoriumLambda.mongoManager) as [m|] eqn:Hm.
  - simpl. now rewrite H.
  - simpl. unfold ScriptoriumLambda.mongoManager in *. now rewrite Hm.
Qed.

End Hosting.

(** C4.  Burst coalescing (Scenario B).  A hundred messages with the offsets 1
    to 100, all sequenced operations of one document of one tenant, are
    handled before the first send of the mongo manager has settled, and the
    store accepts what it is sent.  Then the sender is called exactly twice,
    first with the first message alone and, once that send has fulfilled,
    with the messages of the offsets 2 to 100 in one group, in the order of
    arrival; the host is told to checkpoint at 1 and, after the second send,
    at 100. *)
Theorem burst_coalescing
    (JSON_stringify : ScriptoriumLambda.Key -> string) (JSON_parse : string -> IMongoTarget.t)
    (stringify : JSON -> string) (safelyParseJSON : string -> option Payload.t)
    (opCollection : ICollection) (contentCollection : option ICollection)
    (first : Inbound.t) (payload1 : Payload.t) (rest : list (Inbound.t * Payload.t))
    (tenant document : string) :
  Inbound.offset first = 1%Z ->
  List.map (fun mp => Inbound.offset (fst mp)) rest = List.map Z.of_nat (seq 2 99) ->
  Forall (fun mp =>
            safelyParseJSON (Inbound.value (fst mp)) = Some (snd mp) /\
            Payload.type (snd mp) = ScriptoriumLambda.SequencedOperationType /\
            Payload.tenantId (snd mp) = tenant /\
            Payload.documentId (snd mp) = document)
         ((first, payload1) :: rest) ->
  (forall batch,
     Promise.outcome
       (ScriptoriumLambda.processMongoBatch JSON_parse opCollection contentCollection batch) =
     Fulfilled) ->
  exists s',
    ScriptoriumLambda.exec JSON_stringify JSON_parse stringify safelyParseJSON
      opCollection contentCollection ScriptoriumLambda.new
      (List.map (fun mp => ScriptoriumLambda.Handle (fst mp)) ((first, payload1) :: rest) ++
       [ScriptoriumLambda.MongoSettles; ScriptoriumLambda.MongoSettles]) =
    Some (s',
          [ScriptoriumLambda.SendFn ScriptoriumLambda.mongoManager
             [(JSON_stringify (Some (IMongoTarget.mk document tenant)),
               [Some (ScriptoriumLambda.normalise stringify payload1)])];
           ScriptoriumLambda.Checkpoint (Fin 1);
           ScriptoriumLambda.SendFn ScriptoriumLambda.mongoManager
             [(JSON_stringify (Some (IMongoTarget.mk document tenant)),
               List.map (fun mp => Some (ScriptoriumLambda.normalise stringify (snd mp))) rest)];
           ScriptoriumLambda.Checkpoint (Fin 100)]).
Proof.
  intros Hfirst Hrest Hall Hstore.
  set (key := Some (IMongoTarget.mk document tenant)).
  set (value1 := Some (ScriptoriumLambda.normalise stringify payload1)).
  set (items := List.map (fun mp => (Some (ScriptoriumLambda.normalise stringify (snd mp)),
                                     Inbound.offset (fst mp)) : ScriptoriumLambda.Work * Z)
                  rest).
  assert (Hadds : List.map (fun mp => Host.sequencedAdd stringify (fst mp) (snd mp))
                    ((first, payload1) :: rest) =
                  Run.Add 0 key value1 1 :: Burst.adds key items).
  { cbn [List.map fst snd]. inversion Hall as [|x l (Hp & Ht & Hten & Hdoc) Hl]; subst x l.
    f_equal.
    - unfold Host.sequencedAdd. simpl in *. rewrite Hten, Hdoc, Hfirst. reflexivity.
    - unfold Burst.adds, items. rewrite List.map_map. clear - Hl.
      induction Hl as [|[msg p] l (Hp & Ht & Hten & Hdoc) _ IH]; [reflexivity|].
      cbn [List.map fst snd] in *. rewrite IH. f_equal.
      unfold Host.sequencedAdd. now rewrite Hten, Hdoc. }
  assert (Htreated :
            Forall2 (Host.treated JSON_stringify JSON_parse stringify safelyParseJSON
                       opCollection contentCollection)
              (List.map (fun mp => ScriptoriumLambda.Handle (fst mp)) ((first, payload1) :: rest))
              (List.map (fun mp => Host.sequencedAdd stringify (fst mp) (snd mp))
                 ((first, payload1) :: rest))).
  { clear - Hall. induction Hall as [|[msg p] l (Hp & Ht & _) _ IH]; [constructor|].
    cbn [List.map fst snd] in *. constructor; [|exact IH].
    now apply treated_sequenced. }
  assert (Hitems : List.map snd items = List.map Z.of_nat (seq 2 99)).
  { unfold items. rewrite List.map_map. exact Hrest. }
  assert (Hlast : Burst.lastOffset (T:=ScriptoriumLambda.Work) 1 items = 100%Z).
  { unfold Burst.lastOffset. rewrite Hitems. reflexivity. }
  assert (Hne : items <> []).
  { intros Hnil. rewrite Hnil in Hitems. discriminate. }
  rewrite (exec_observe JSON_stringify JSON_parse stringify safelyParseJSON
             opCollection contentCollection _
             (List.map (fun mp => Host.sequencedAdd stringify (fst mp) (snd mp))
                ((first, payload1) :: rest) ++
              [Run.Fulfil (E:=Js.Error) 0; Run.Fulfil 0])).
  2:{ apply Forall2_app; [exact Htreated|].
      constructor; [now apply treated_mongo|].
      constructor; [now apply treated_mongo|constructor]. }
  rewrite Hadds.
  change ((Run.Add 0 key value1 1 :: Burst.adds key items) ++
          [Run.Fulfil (E:=Js.Error) 0; Run.Fulfil 0])
    with ([Run.Add (E:=Js.Error) 0 key value1 1] ++
          (Burst.adds key items ++ [Run.Fulfil 0; Run.Fulfil 0])).
  rewrite StepFacts.run_app_eq.
  cbn [Run.run]. unfold ScriptoriumLambda.new. rewrite burst_first. cbn [mbind option_bind].
  rewrite StepFacts.run_app_eq, burst_adds. cbn [app].
  rewrite burst_drain; [|exact Hne|rewrite Hlast; lia].
  rewrite Hlast. unfold ScriptoriumLambda.observe. simpl.
  eexists. f_equal. f_equal. unfold items. rewrite List.map_map. reflexivity.
Qed.

Section Quiescence.
Context {K T E : Type}.
Variable JSON_stringify : K -> string.
Implicit Types (s : Run.t T) (m : BatchManager.t T) (lg : Run.Ledger).

(** A drained manager that has received something has stored all of it:
    its tail has reached its head. *)
Lemma drained_tail hi m lg :
  Inv.Sane m lg -> Inv.Tidy hi m lg -> Inv.drained lg ->
  Range.empty (BatchManager.range m) = false ->
  Range.tail (BatchManager.range m) = Range.head (BatchManager.range m).
Proof.
  intros HS HT [Hf Hq] Hne.
  apply OffsetFacts.le_antisym; [apply (Inv.tidy_tail _ _ _ HT)|].
  rewrite (Inv.sane_head _ _ HS). unfold Inv.headOf.
  destruct (last (Run.added lg)) as [x|] eqn:Hl; [|exact I].
  apply (Inv.tidy_durable _ _ _ HT).
  pose proof (Inv.tidy_account _ _ _ HT) as Hacc.
  rewrite Hf, Hq, !app_nil_r in Hacc. rewrite <- Hacc.
  apply last_Some in Hl as [l' ->]. apply in_app_iff. simpl. auto.
Qed.

Lemma quiescent_offset hi s :
  Inv.Orderly hi s -> Forall Inv.drained (Run.ledgers s) ->
  WorkManager.lastOffset (Run.manager s) = WorkManager.derived (Run.manager s) /\
  (forall j m,
     WorkManager.work (Run.manager s) !! j = Some m ->
     Range.empty (BatchManager.range m) = false ->
     Range.tail (BatchManager.range m) = Range.head (BatchManager.range m) /\
     Offset.le (WorkManager.lastOffset (Run.manager s)) (Range.head (BatchManager.range m))) /\
  (forall j m,
     WorkManager.work (Run.manager s) !! j = Some m ->
     Range.empty (BatchManager.range m) = false ->
     exists j' m',
       WorkManager.work (Run.manager s) !! j' = Some m' /\
       Range.empty (BatchManager.range m') = false /\
       WorkManager.lastOffset (Run.manager s) = Range.head (BatchManager.range m')).
Proof.
  intros [HS HT Hlast Hlo Hq] Hall.
  assert (Htail : forall j m,
             WorkManager.work (Run.manager s) !! j = Some m ->
             Range.empty (BatchManager.range m) = false ->
             Range.tail (BatchManager.range m) = Range.head (BatchManager.range m)).
  { intros j m Hm Hne.
    destruct (Forall2_lookup_l _ _ _ _ _ HT Hm) as (lg & Hlg & HTm).
    pose proof (Forall2_lookup_lr _ _ _ _ _ _ HS Hm Hlg) as HSm.
    eapply drained_tail; eauto. eapply Forall_lookup_1; eauto. }
  split; [auto|]. split.
  - intros j m Hm Hne. split; [eauto|]. rewrite <- (Htail j m Hm Hne). eauto.
  - intros j m Hm Hne. rewrite (Hq Hall).
    destruct (ScanFacts.derived_cases (Run.manager s)) as [[_ Hempty] | (m' & Hin & Hm' & ->)].
    + rewrite (Hempty m) in Hne; [discriminate|]. eapply TidyFacts.lookup_In; eauto.
    + apply list_elem_of_In, list_elem_of_lookup in Hin as [j' Hj'].
      exists j', m'. split; auto. split; auto. eapply Htail; eauto.
Qed.

End Quiescence.

Lemma demo_store_accepts batch :
  Promise.outcome
    (ScriptoriumLambda.processMongoBatch LambdaDemo.JSON_parse LambdaDemo.opCollection
       LambdaDemo.contentCollection batch) = Fulfilled.
Proof.
  apply batch_fulfilled. intros key work _. apply group_fulfilled.
  intros p [<- | []]. exact I.
Qed.

Lemma burst_coalescing_witness :
  Inbound.offset (Inbound.mk 1 "op") = 1%Z /\
  exists s',
    LambdaDemo.exec ScriptoriumLambda.new
      (List.map (fun mp => ScriptoriumLambda.Handle (fst mp))
         ((Inbound.mk 1 "op", LambdaDemo.sequenced 5) :: LambdaDemo.burst) ++
       [ScriptoriumLambda.MongoSettles; ScriptoriumLambda.MongoSettles]) =
    Some (s',
          [ScriptoriumLambda.SendFn ScriptoriumLambda.mongoManager
             [(LambdaDemo.JSON_stringify (Some (IMongoTarget.mk "D" "T")),
               [Some (ScriptoriumLambda.normalise LambdaDemo.stringify (LambdaDemo.sequenced 5))])];
           ScriptoriumLambda.Checkpoint (Fin 1);
           ScriptoriumLambda.SendFn ScriptoriumLambda.mongoManager
             [(LambdaDemo.JSON_stringify (Some (IMongoTarget.mk "D" "T")),
               List.map
                 (fun mp => Some (ScriptoriumLambda.normalise LambdaDemo.stringify (snd mp)))
                 LambdaDemo.burst)];
           ScriptoriumLambda.Checkpoint (Fin 100)]).
Proof.
  split; [reflexivity|].
  apply (burst_coalescing LambdaDemo.JSON_stringify LambdaDemo.JSON_parse
           LambdaDemo.stringify LambdaDemo.safelyParseJSON LambdaDemo.opCollection
           LambdaDemo.contentCollection (Inbound.mk 1 "op") (LambdaDemo.sequenced 5)
           LambdaDemo.burst "T" "D").
  - reflexivity.
  - reflexivity.
  - apply List.Forall_forall. intros mp [<- | Hin].
    + repeat split; reflexivity.
    + unfold LambdaDemo.burst in Hin. apply in_map_iff in Hin as (k & <- & _).
      repeat split; reflexivity.
  - exact demo_store_accepts.
Defined.

Lemma message_classification_witness :
  Run.ledgers ScriptoriumLambda.new !! ScriptoriumLambda.mongoManager = Some Run.ledger0 /\
  exists s' (m0' : BatchManager.t ScriptoriumLambda.Work) sent,
    LambdaDemo.handler (Inbound.mk 10 "op") ScriptoriumLambda.new =
      Some (s', match sent with
                | Some b => [ScriptoriumLambda.SendFn ScriptoriumLambda.mongoManager b]
                | None => []
                end) /\
    Range.head (BatchManager.range m0') = Fin 10.
Proof.
  split; [reflexivity|].
  pose proof (message_classification LambdaDemo.JSON_stringify LambdaDemo.stringify
                LambdaDemo.safelyParseJSON (Inbound.mk 10 "op") ScriptoriumLambda.new
                BatchManager.new BatchManager.new Run.ledger0 Run.ledger0
                eq_refl eq_refl eq_refl eq_refl) as H.
  change (LambdaDemo.safelyParseJSON (Inbound.value (Inbound.mk 10 "op")))
    with (Some (LambdaDemo.sequenced 5)) in H.
  cbv beta iota zeta in H.
  change (String.eqb (Payload.type (LambdaDemo.sequenced 5))
            ScriptoriumLambda.SequencedOperationType) with true in H.
  cbv beta iota in H.
  destruct (H (or_introl eq_refl)) as (s' & m0' & sent & H1 & _ & _ & _ & H5 & _).
  exists s', m0', sent. split; [exact H1|exact H5].
Defined.

(** * Claims settled on the lemmas above *)

(** C5, as amended.  At most one send in flight per manager: in every
    reachable state at most one promise of the sender is outstanding; a send
    is outstanding only while [current] is not empty; [current] is not empty
    only while a send is outstanding or after the manager has failed; and
    while [current] is not empty neither [requestSend] nor [add] calls the
    sender.  A manager fails when its sender rejects or when [updateOffset]
    throws in its continuation; after that [current] is not empty, no send is
    outstanding, and whatever happens next [current] is never cleared: it
    stays as it was, the manager stays failed and its sender is not called
    again. *)
Theorem one_send_in_flight {K T E : Type} (JSON_stringify : K -> string)
    (n : nat) (evs : list (Run.Event K T E)) (s : Run.t T) (out : list (Run.Effect T E))
    (i : nat) (m : BatchManager.t T) (lg : Run.Ledger) :
  Run.run JSON_stringify (Run.init n) evs = Some (s, out) ->
  WorkManager.work (Run.manager s) !! i = Some m ->
  Run.ledgers s !! i = Some lg ->
  (Run.outstanding lg <= 1)%nat /\
  (Run.outstanding lg = 1%nat -> OffsetBatch.isEmpty (BatchManager.current m) = false) /\
  (OffsetBatch.isEmpty (BatchManager.current m) = false ->
   Run.outstanding lg = 1%nat \/ Run.failed lg = true) /\
  (OffsetBatch.isEmpty (BatchManager.current m) = false ->
   BatchManager.requestSend m = (m, None) /\
   forall id value offset,
     snd (BatchManager.add JSON_stringify id value offset m) = None) /\
  (forall e s1 out1,
     Run.step (E:=E) JSON_stringify s (Run.Reject i e) = Some (s1, out1) ->
     exists lg1, Run.ledgers s1 !! i = Some lg1 /\ Run.failed lg1 = true) /\
  (forall s1 out1,
     Run.step (E:=E) JSON_stringify s (Run.Fulfil i) = Some (s1, out1) ->
     In (Run.Error Run.AssertionError) out1 ->
     exists lg1, Run.ledgers s1 !! i = Some lg1 /\ Run.failed lg1 = true) /\
  (Run.failed lg = true ->
   OffsetBatch.isEmpty (BatchManager.current m) = false /\
   Run.outstanding lg = 0%nat /\
   forall (evs' : list (Run.Event K T E)) s' out',
     Run.run JSON_stringify s evs' = Some (s', out') ->
     exists m' lg',
       WorkManager.work (Run.manager s') !! i = Some m' /\
       Run.ledgers s' !! i = Some lg' /\
       Run.failed lg' = true /\
       BatchManager.current m' = BatchManager.current m /\
       Trace.sentBy i out' = []).
Proof.
  intros Hrun Hm Hlg.
  pose proof (SaneFacts.AllSane_run _ _ _ _ _ (SaneFacts.AllSane_init n) Hrun) as HS.
  pose proof (Forall2_lookup_lr _ _ _ _ _ _ HS Hm Hlg) as HSm.
  assert (Hi : (i < length (Run.ledgers s))%nat) by (eapply lookup_lt_Some; eauto).
  destruct HSm as [H1 H2 H3 H4 H5 H6 H7].
  split; [exact H1|]. split; [intros Ho; now apply H2|]. split; [exact H3|].
  split; [|split; [|split]].
  - intros Hc. split.
    + unfold BatchManager.requestSend. now rewrite Hc.
    + intros id value offset.
      destruct (ManagerFacts.add_cases JSON_stringify id value offset m)
        as [[_ Heq] | (Hc' & _ & _)].
      * now rewrite Heq.
      * congruence.
  - intros e s1 out1 Hstep.
    apply StepFacts.step_Reject in Hstep as (m0 & lg0 & k & _ & Hlg0 & _ & -> & _).
    eexists. split; [apply list_lookup_insert_eq; exact Hi|]. reflexivity.
  - intros s1 out1 Hstep Hin.
    apply StepFacts.step_Fulfil in Hstep
      as (m0 & lg0 & k & m1 & o & _ & Hlg0 & _ & _ & Hcases). cbv zeta in Hcases.
    destruct Hcases as [(_ & -> & _) | (w2 & changed & m3 & sent & _ & _ & _ & ->)].
    + eexists. split; [apply list_lookup_insert_eq; exact Hi|]. reflexivity.
    + exfalso. destruct Hin as [H | Hin]; [discriminate|].
      apply in_app_iff in Hin as [Hin | Hin].
      * destruct changed; simpl in Hin; [destruct Hin as [H | []]; discriminate|destruct Hin].
      * destruct sent; simpl in Hin; [destruct Hin as [H | []]; discriminate|destruct Hin].
  - intros Hf. pose proof (H4 Hf) as Hc.
    assert (Ho : Run.outstanding lg = 0%nat).
    { destruct (Run.outstanding lg) as [|[|k]] eqn:Hk; [reflexivity| |lia].
      destruct (H2 eq_refl). congruence. }
    split; [exact Hc|]. split; [exact Ho|].
    intros evs' s' out' Hrun'.
    assert (HH : Inv.Halted m m lg) by (split; auto).
    destruct (Halted_run JSON_stringify _ _ _ _ i m m lg HS Hrun' Hm Hlg HH)
      as (m' & lg' & Hm' & Hlg' & [Hf' _ _ Hc' _] & Hsent & _).
    exists m', lg'. auto.
Qed.

Lemma one_send_in_flight_witness :
  Demo.run (Run.init 2) Demo.mixed = Some (Demo.after Demo.mixed, Demo.emitted Demo.mixed) /\
  (Run.outstanding (Run.mkLedger 1 [1; 3]%Z [3]%Z [1]%Z [] false) <= 1)%nat.
Proof.
  split; [reflexivity|].
  pose proof (one_send_in_flight Demo.encode 2 Demo.mixed (Demo.after Demo.mixed)
                (Demo.emitted Demo.mixed) 0
                (BatchManager.mk (Range.mk (Fin 0) (Fin 3))
                   (OffsetBatch.mk (Some 3%Z) [("D"%string, [30%Z])])
                   (OffsetBatch.mk (Some 1%Z) [("D"%string, [10%Z])]) false)
                (Run.mkLedger 1 [1; 3]%Z [3]%Z [1]%Z [] false)
                eq_refl eq_refl eq_refl) as H.
  destruct H as [H _]. exact H.
Defined.

(** C5, as stated, fails: after the sender has rejected no send is
    outstanding, yet [current] is not empty, as the code never clears it. *)
Lemma current_kept_after_rejection :
  exists s out m lg,
    Demo.run (Run.init 2) Demo.rejected = Some (s, out) /\
    WorkManager.work (Run.manager s) !! 0%nat = Some m /\
    Run.ledgers s !! 0%nat = Some lg /\
    ~ (OffsetBatch.isEmpty (BatchManager.current m) = false <->
       Run.outstanding lg = 1%nat).
Proof.
  do 4 eexists. split; [reflexivity|]. split; [reflexivity|]. split; [reflexivity|].
  simpl. intros [H _]. specialize (H eq_refl). discriminate.
Qed.


(** Of a closed manager in a reachable state: its sender is not called
    again and it stays closed; [add] still sets [range] and fills [pending]
    and starts no send; a send in flight can still fulfil, and then sets
    [range.tail] and emits [workComplete]. *)
Lemma closed_manager {K T E : Type} (JSON_stringify : K -> string)
    (n : nat) (evs0 : list (Run.Event K T E)) (s : Run.t T) (out0 : list (Run.Effect T E))
    (i : nat) (m : BatchManager.t T) (lg : Run.Ledger) :
  Run.run JSON_stringify (Run.init n) evs0 = Some (s, out0) ->
  WorkManager.work (Run.manager s) !! i = Some m ->
  Run.ledgers s !! i = Some lg ->
  BatchManager.closed m = true ->
  (forall (evs : list (Run.Event K T E)) s' out,
     Run.run JSON_stringify s evs = Some (s', out) ->
     Trace.sentBy i out = [] /\
     exists m', WorkManager.work (Run.manager s') !! i = Some m' /\
                BatchManager.closed m' = true) /\
  (forall id value offset,
     exists s' m',
       Run.step (E:=E) JSON_stringify s (Run.Add i id value offset) = Some (s', []) /\
       WorkManager.work (Run.manager s') !! i = Some m' /\
       BatchManager.range m' = Inv.grown offset (BatchManager.range m) /\
       Range.head (BatchManager.range m') = Fin offset /\
       BatchManager.pending m' =
         Inv.filled JSON_stringify id value offset (BatchManager.pending m) /\
       BatchManager.current m' = BatchManager.current m) /\
  (Run.outstanding lg = 1%nat ->
   exists c s' out m',
     OffsetBatch.offset (BatchManager.current m) = Some c /\
     Run.step (E:=E) JSON_stringify s (Run.Fulfil i) = Some (s', out) /\
     In (Run.WorkComplete i c) out /\
     WorkManager.work (Run.manager s') !! i = Some m' /\
     Range.tail (BatchManager.range m') = Fin c).
Proof.
  intros Hrun Hm Hlg Hcl.
  pose proof (SaneFacts.AllSane_run _ _ _ _ _ (SaneFacts.AllSane_init n) Hrun) as HS.
  pose proof (Forall2_lookup_lr _ _ _ _ _ _ HS Hm Hlg) as HSm.
  assert (Hi : (i < length (WorkManager.work (Run.manager s)))%nat)
    by (eapply lookup_lt_Some; eauto).
  assert (Hi' : (i < length (Run.ledgers s))%nat) by (eapply lookup_lt_Some; eauto).
  split; [|split].
  - intros evs s' out Hr. eapply closed_run; eauto.
  - intros id value offset.
    destruct (ManagerFacts.add_cases JSON_stringify id value offset m)
      as [[_ Heq] | (_ & Hcl' & _)]; [|congruence].
    eexists. eexists. simpl. rewrite Hm, Hlg. simpl. rewrite Heq. simpl.
    split; [reflexivity|]. simpl. split; [apply list_lookup_insert_eq; exact Hi|].
    simpl. auto.
  - intros Ho.
    destruct (SaneFacts.Sane_busy _ _ _ HSm Ho) as (_ & _ & Hc).
    apply ManagerFacts.isEmpty_false in Hc as [c Hc].
    assert (Hp : BatchManager.processed m =
                 Some (BatchManager.mk (Range.set_tail (Fin c) (BatchManager.range m))
                         (BatchManager.pending m) (BatchManager.current m)
                         (BatchManager.closed m), c)).
    { unfold BatchManager.processed. now rewrite Hc. }
    exists c. simpl. rewrite Hm, Hlg. simpl. rewrite Ho, Hp. simpl.
    destruct (WorkManager.updateOffset _) as [[w2 changed]|] eqn:Hu.
    + destruct (BatchManager.next _) as [m3 sent] eqn:Hnext.
      do 3 eexists. split; [exact Hc|]. split; [reflexivity|].
      split; [simpl; auto|]. simpl.
      rewrite (SaneFacts.updateOffset_work _ _ _ Hu). simpl.
      rewrite list_insert_insert_eq.
      split; [apply list_lookup_insert_eq; exact Hi|].
      rewrite (TidyFacts.next_range _ _ _ Hnext). reflexivity.
    + do 3 eexists. split; [exact Hc|]. split; [reflexivity|].
      split; [simpl; auto|]. simpl.
      split; [apply list_lookup_insert_eq; exact Hi|]. reflexivity.
Qed.


(** C6.  Close semantics.  [BatchManager.close] sets the flag [closed] and
    nothing else, and [WorkManager.close] does so for every manager; both
    emit nothing and leave [lastOffset] alone.  After either call, on the
    manager [i] it closed: whatever happens next, the sender is not called
    again and the manager stays closed; [add] still sets [range] and fills
    [pending] and starts no send; a send in flight at the call can still
    fulfil, and then sets [range.tail] and emits [workComplete].  In the
    execution [Demo.closing] that fulfilment also emits [offsetChanged]. *)
Theorem close_semantics {K T E : Type} (JSON_stringify : K -> string)
    (n : nat) (evs0 : list (Run.Event K T E)) (s : Run.t T) (out0 : list (Run.Effect T E))
    (i : nat) (m : BatchManager.t T) (lg : Run.Ledger) (call : Run.Event K T E) :
  Run.run JSON_stringify (Run.init n) evs0 = Some (s, out0) ->
  WorkManager.work (Run.manager s) !! i = Some m ->
  Run.ledgers s !! i = Some lg ->
  call = Run.Close \/ call = Run.CloseOne i ->
  (BatchManager.closed (BatchManager.close m) = true /\
   BatchManager.range (BatchManager.close m) = BatchManager.range m /\
   BatchManager.pending (BatchManager.close m) = BatchManager.pending m /\
   BatchManager.current (BatchManager.close m) = BatchManager.current m) /\
  (exists s1,
     Run.step JSON_stringify s call = Some (s1, []) /\
     WorkManager.work (Run.manager s1) !! i = Some (BatchManager.close m) /\
     Run.ledgers s1 = Run.ledgers s /\
     WorkManager.lastOffset (Run.manager s1) = WorkManager.lastOffset (Run.manager s) /\
     (call = Run.Close ->
      forall j mj, WorkManager.work (Run.manager s) !! j = Some mj ->
                   WorkManager.work (Run.manager s1) !! j = Some (BatchManager.close mj)) /\
     (call = Run.CloseOne i ->
      forall j, j <> i ->
                WorkManager.work (Run.manager s1) !! j = WorkManager.work (Run.manager s) !! j) /\
     (forall (evs : list (Run.Event K T E)) s' out,
        Run.run JSON_stringify s1 evs = Some (s', out) ->
        Trace.sentBy i out = [] /\
        exists m', WorkManager.work (Run.manager s') !! i = Some m' /\
                   BatchManager.closed m' = true) /\
     (forall id value offset,
        exists s' m',
          Run.step (E:=E) JSON_stringify s1 (Run.Add i id value offset) = Some (s', []) /\
          WorkManager.work (Run.manager s') !! i = Some m' /\
          BatchManager.range m' = Inv.grown offset (BatchManager.range m) /\
          Range.head (BatchManager.range m') = Fin offset /\
          BatchManager.pending m' =
            Inv.filled JSON_stringify id value offset (BatchManager.pending m) /\
          BatchManager.current m' = BatchManager.current m) /\
     (Run.outstanding lg = 1%nat ->
      exists c s' out m',
        OffsetBatch.offset (BatchManager.current m) = Some c /\
        Run.step (E:=E) JSON_stringify s1 (Run.Fulfil i) = Some (s', out) /\
        In (Run.WorkComplete i c) out /\
        WorkManager.work (Run.manager s') !! i = Some m' /\
        Range.tail (BatchManager.range m') = Fin c)) /\
  In (Run.OffsetChanged (Fin 1)) (Demo.emitted Demo.closing).
Proof.
  intros Hrun Hm Hlg Hcall.
  assert (Hi : (i < length (WorkManager.work (Run.manager s)))%nat)
    by (eapply lookup_lt_Some; eauto).
  split; [repeat split|]. split; [|vm_compute; auto].
  assert (Hstep : exists s1,
             Run.step JSON_stringify s call = Some (s1, []) /\
             WorkManager.work (Run.manager s1) !! i = Some (BatchManager.close m) /\
             Run.ledgers s1 = Run.ledgers s /\
             WorkManager.lastOffset (Run.manager s1) =
               WorkManager.lastOffset (Run.manager s) /\
             (call = Run.Close ->
              forall j mj, WorkManager.work (Run.manager s) !! j = Some mj ->
                           WorkManager.work (Run.manager s1) !! j =
                             Some (BatchManager.close mj)) /\
             (call = Run.CloseOne i ->
              forall j, j <> i ->
                        WorkManager.work (Run.manager s1) !! j =
                          WorkManager.work (Run.manager s) !! j)).
  { destruct Hcall as [-> | ->].
    - eexists. split; [reflexivity|]. simpl.
      split; [now apply LocalFacts.lookup_close_Some|].
      split; [reflexivity|]. split; [reflexivity|].
      split; [intros _ j mj Hj; now apply LocalFacts.lookup_close_Some|discriminate].
    - eexists. simpl. rewrite Hm. simpl. split; [reflexivity|]. simpl.
      split; [now apply list_lookup_insert_eq|].
      split; [reflexivity|]. split; [reflexivity|].
      split; [discriminate|]. intros _ j Hj. now apply list_lookup_insert_ne. }
  destruct Hstep as (s1 & Hs1 & Hm1 & Hlg1 & Hlast & Hall & Hone).
  exists s1. repeat (split; [assumption|]).
  pose proof (StepFacts.run_step_last _ _ _ _ _ _ _ _ Hrun Hs1) as Hrun1.
  assert (Hlg' : Run.ledgers s1 !! i = Some lg) by (now rewrite Hlg1).
  exact (closed_manager JSON_stringify n (evs0 ++ [call]) s1 (out0 ++ []) i
           (BatchManager.close m) lg Hrun1 Hm1 Hlg' eq_refl).
Qed.

Lemma close_semantics_witness :
  Demo.run (Run.init 2) [Run.Add 0 "D"%string 10%Z 1%Z] =
    Some (Demo.after [Run.Add 0 "D"%string 10%Z 1%Z],
          Demo.emitted [Run.Add 0 "D"%string 10%Z 1%Z]) /\
  BatchManager.closed
    (BatchManager.close
       (BatchManager.mk (Range.mk (Fin 0) (Fin 1)) OffsetBatch.new
          (OffsetBatch.mk (Some 1%Z) [("D"%string, [10%Z])]) false)) = true.
Proof.
  split; [reflexivity|].
  pose proof (close_semantics Demo.encode 2 [Run.Add 0 "D"%string 10%Z 1%Z]
                (Demo.after [Run.Add 0 "D"%string 10%Z 1%Z])
                (Demo.emitted [Run.Add 0 "D"%string 10%Z 1%Z]) 0
                (BatchManager.mk (Range.mk (Fin 0) (Fin 1)) OffsetBatch.new
                   (OffsetBatch.mk (Some 1%Z) [("D"%string, [10%Z])]) false)
                (Run.mkLedger 1 [1%Z] [] [1%Z] [] false) Run.Close
                eq_refl eq_refl eq_refl (or_introl eq_refl)) as H.
  destruct H as [[H _] _]. exact H.
Defined.

(** * Further properties of the code *)

(** ** Batch *)
Module GroupingFacts.

Section Grouping.
Context {K T : Type}.
Variable JSON_stringify : K -> string.
Implicit Types (b : Batch.t T).

Lemma get_push_other encoded key work b :
  key <> encoded -> Batch.get key (Batch.push encoded work b) = Batch.get key b.
Proof.
  intros Hne. induction b as [|[k value] rest IH]; simpl.
  - destruct (String.eqb_spec encoded key); congruence.
  - destruct (String.eqb k encoded) eqn:Hk; simpl.
    + apply String.eqb_eq in Hk. subst k.
      destruct (String.eqb_spec encoded key); congruence.
    + destruct (String.eqb k key); auto.
Qed.

Lemma get_None key b : Batch.get key b = None <-> ~ In key (Grouping.keys b).
Proof.
  induction b as [|[k value] rest IH]; simpl.
  - tauto.
  - destruct (String.eqb_spec k key).
    + split; [discriminate|]. intros H. exfalso. auto.
    + rewrite IH. tauto.
Qed.

Lemma keys_push encoded work b :
  Grouping.keys (Batch.push encoded work b) =
  if existsb (String.eqb encoded) (Grouping.keys b)
  then Grouping.keys b else Grouping.keys b ++ [encoded].
Proof.
  unfold Grouping.keys.
  induction b as [|[k value] rest IH]; simpl; [reflexivity|].
  rewrite (String.eqb_sym encoded k).
  destruct (String.eqb k encoded) eqn:Hk; simpl; [reflexivity|].
  rewrite IH. destruct (existsb _ _); reflexivity.
Qed.

Lemma existsb_In key (l : list string) :
  existsb (String.eqb key) l = true <-> In key l.
Proof.
  rewrite existsb_exists. split.
  - intros (x & Hin & Heq). apply String.eqb_eq in Heq. now subst.
  - intros Hin. exists key. split; auto. apply String.eqb_refl.
Qed.

Lemma NoDup_push encoded work b :
  List.NoDup (Grouping.keys b) -> List.NoDup (Grouping.keys (Batch.push encoded work b)).
Proof.
  intros Hnd. rewrite keys_push.
  destruct (existsb _ _) eqn:Hex; [exact Hnd|].
  apply List.NoDup_app; repeat split; auto.
  - constructor; [intros []|constructor].
  - intros x Hx [<- | []].
    apply existsb_In in Hx. congruence.
Qed.

Lemma values_push encoded work b :
  Permutation (Batch.values (Batch.push encoded work b)) (work :: Batch.values b).
Proof.
  unfold Batch.values. induction b as [|[k value] rest IH]; simpl; [reflexivity|].
  destruct (String.eqb k encoded); simpl.
  - rewrite <- app_assoc. simpl.
    symmetry. apply Permutation_middle.
  - rewrite IH. symmetry. apply Permutation_middle.
Qed.

Lemma groups_push encoded work b :
  Forall (fun kv => snd kv <> []) b ->
  Forall (fun kv => snd kv <> []) (Batch.push encoded work b).
Proof.
  induction 1 as [|[k value] rest Hk Hrest IH]; simpl.
  - constructor; [discriminate|constructor].
  - destruct (String.eqb k encoded); constructor; auto.
    simpl. intros H. now apply app_eq_nil in H as [_ H].
Qed.

Lemma push_nonempty encoded work b : Batch.push encoded work b <> [].
Proof. destruct b as [|[k value] rest]; simpl; [|destruct (String.eqb _ _)]; discriminate. Qed.

Lemma group_push key encoded work b :
  Grouping.group key (Batch.push encoded work b) =
  Grouping.group key b ++ (if String.eqb encoded key then [work] else []).
Proof.
  unfold Grouping.group. destruct (String.eqb_spec encoded key) as [<- | Hne].
  - now rewrite BatchFacts.get_push_same.
  - rewrite get_push_other by congruence. now rewrite app_nil_r.
Qed.

End Grouping.

End GroupingFacts.

(** X1.  [Batch.add] appends the value to the group of the encoded key,
    which it creates when the map does not have it, and leaves every other
    group as it was. *)
Theorem batch_add_lookup {K T : Type} (JSON_stringify : K -> string)
    (id : K) (work : T) (b : Batch.t T) :
  Batch.get (JSON_stringify id) (Batch.add JSON_stringify id work b) =
    Some (Grouping.group (JSON_stringify id) b ++ [work]) /\
  (forall id', JSON_stringify id' = JSON_stringify id ->
     Batch.get (JSON_stringify id') (Batch.add JSON_stringify id work b) =
     Some (Grouping.group (JSON_stringify id) b ++ [work])) /\
  (forall key, key <> JSON_stringify id ->
     Batch.get key (Batch.add JSON_stringify id work b) = Batch.get key b).
Proof.
  unfold Batch.add. split; [apply BatchFacts.get_push_same|]. split.
  - intros id' ->. apply BatchFacts.get_push_same.
  - intros key Hne. now apply GroupingFacts.get_push_other.
Qed.

(** X2.  A batch filled by calls of [add] groups the values by the encoded
    key: the group of a key holds the values added under it, in the order of
    the calls; a key that was never added has no group; the keys of the map
    are distinct and iterate in the order in which they were first added; no
    group is empty and the groups together hold every value once. *)
Theorem batch_grouping {K T : Type} (JSON_stringify : K -> string)
    (calls : list (K * T)) :
  let b := Grouping.adds JSON_stringify calls Batch.new in
  (forall key,
     Batch.get key b =
     match Grouping.under JSON_stringify key calls with
     | [] => None
     | ws => Some ws
     end) /\
  Grouping.keys b = Grouping.firsts JSON_stringify [] calls /\
  List.NoDup (Grouping.keys b) /\
  Forall (fun kv => snd kv <> []) b /\
  Permutation (Batch.values b) (List.map snd calls).
Proof.
  enough (Hgen : forall b0 : Batch.t T,
             List.NoDup (Grouping.keys b0) ->
             Forall (fun kv => snd kv <> []) b0 ->
             let b := Grouping.adds JSON_stringify calls b0 in
             (forall key,
                Grouping.group key b =
                Grouping.group key b0 ++ Grouping.under JSON_stringify key calls) /\
             (forall key, In key (Grouping.keys b) <->
                          In key (Grouping.keys b0) \/
                          Grouping.under JSON_stringify key calls <> []) /\
             Grouping.keys b =
               Grouping.keys b0 ++ Grouping.firsts JSON_stringify (Grouping.keys b0) calls /\
             List.NoDup (Grouping.keys b) /\
             Forall (fun kv => snd kv <> []) b /\
             Permutation (Batch.values b) (Batch.values b0 ++ List.map snd calls)).
  { destruct (Hgen Batch.new) as (Hg & Hk & Hf & Hnd & Hne & Hp);
      [constructor|constructor|].
    cbv zeta. repeat split; auto.
    intros key. specialize (Hg key). specialize (Hk key).
    unfold Grouping.group in Hg. simpl in Hg, Hk.
    destruct (Grouping.under JSON_stringify key calls) as [|w ws] eqn:Hu.
    - apply GroupingFacts.get_None. rewrite Hk. intros [[] | H]; congruence.
    - destruct (Batch.get key _) eqn:Hget; [congruence|].
      apply GroupingFacts.get_None in Hget. exfalso. apply Hget, Hk.
      right. discriminate. }
  induction calls as [|[id work] rest IH]; intros b0 Hnd Hne; cbv zeta.
  - simpl. split; [intros key; now rewrite app_nil_r|].
    split; [intros key; split; [tauto|intros [H | H]; [exact H|now exfalso; apply H]]|].
    split; [now rewrite app_nil_r|]. split; [exact Hnd|]. split; [exact Hne|].
    now rewrite app_nil_r.
  - simpl.
    destruct (IH (Batch.add JSON_stringify id work b0)) as (Hg & Hk & Hf & Hnd' & Hne' & Hp).
    { now apply GroupingFacts.NoDup_push. }
    { now apply GroupingFacts.groups_push. }
    cbv zeta in *. unfold Grouping.adds in *. simpl.
    split; [|split; [|split; [|split; [|split]]]]; auto.
    + intros key. rewrite Hg. unfold Batch.add.
      rewrite GroupingFacts.group_push, <- app_assoc. f_equal.
      unfold Grouping.under. simpl.
      destruct (String.eqb (JSON_stringify id) key); reflexivity.
    + intros key. rewrite Hk. unfold Batch.add.
      rewrite GroupingFacts.keys_push. unfold Grouping.under. simpl.
      destruct (String.eqb_spec (JSON_stringify id) key) as [<- | Hneq].
      * split; [intros _; right; discriminate|]. intros _. left.
        destruct (existsb _ _) eqn:Hex; [now apply GroupingFacts.existsb_In|].
        apply in_app_iff. right. now left.
      * destruct (existsb _ _) eqn:Hex; [tauto|].
        rewrite in_app_iff. simpl. tauto.
    + rewrite Hf. unfold Batch.add. rewrite GroupingFacts.keys_push.
      destruct (existsb _ (Grouping.keys b0)) eqn:Hex; [reflexivity|].
      now rewrite <- app_assoc.
    + rewrite Hp. unfold Batch.add. rewrite GroupingFacts.values_push.
      simpl. apply Permutation_middle.
Qed.

(** ** One manager along an execution *)
Module CourseFacts.

Section Course.
Context {K T E : Type}.
Variable JSON_stringify : K -> string.
Implicit Types (s : Run.t T) (m : BatchManager.t T) (lg : Run.Ledger).
Implicit Types (out : list (Run.Effect T E)) (evs : list (Run.Event K T E)).

Local Abbreviation step := (Run.step (E:=E) JSON_stringify).
Local Abbreviation run := (Run.run (E:=E) JSON_stringify).
Local Abbreviation Change := (View.Change (E:=E) JSON_stringify).
Local Abbreviation Changes := (Course.Changes (E:=E) JSON_stringify).

Lemma run_changes s evs s' out i m lg :
  run s evs = Some (s', out) ->
  WorkManager.work (Run.manager s) !! i = Some m ->
  Run.ledgers s !! i = Some lg ->
  exists m' lg',
    WorkManager.work (Run.manager s') !! i = Some m' /\
    Run.ledgers s' !! i = Some lg' /\
    Changes i m lg evs m' lg' out.
Proof.
  revert s out m lg. induction evs as [|ev evs IH]; intros s out m lg Hrun Hm Hlg.
  - simpl in Hrun. injection Hrun as <- <-. exists m, lg. repeat split; auto. constructor.
  - apply StepFacts.run_cons in Hrun as (s1 & out1 & out2 & Hs & Hr & ->).
    destruct (LocalFacts.step_change _ _ _ _ _ _ _ _ Hs Hm Hlg) as (m1 & lg1 & Hm1 & Hlg1 & Hch).
    destruct (IH _ _ _ _ Hr Hm1 Hlg1) as (m' & lg' & Hm' & Hlg' & Hchs).
    exists m', lg'. repeat split; auto. econstructor; eauto.
Qed.

Lemma step_length s ev s' out :
  step s ev = Some (s', out) ->
  length (WorkManager.work (Run.manager s')) = length (WorkManager.work (Run.manager s)) /\
  length (Run.ledgers s') = length (Run.ledgers s).
Proof.
  intros Hstep. destruct ev as [i id value offset|i|i e| |i].
  - apply StepFacts.step_Add in Hstep as (m & lg & m' & sent & _ & _ & _ & -> & _).
    simpl. now rewrite !length_insert.
  - apply StepFacts.step_Fulfil in Hstep
      as (m & lg & n & m1 & o & _ & _ & _ & _ & Hcases). cbv zeta in Hcases.
    destruct Hcases as [(_ & -> & _) | (w2 & changed & m3 & sent & Hu & _ & -> & _)]; simpl.
    + now rewrite !length_insert.
    + rewrite (SaneFacts.updateOffset_work _ _ _ Hu). simpl. now rewrite !length_insert.
  - apply StepFacts.step_Reject in Hstep as (m & lg & n & _ & _ & _ & -> & _).
    simpl. now rewrite !length_insert.
  - apply StepFacts.step_Close in Hstep as [-> _]. simpl. now rewrite length_map.
  - apply StepFacts.step_CloseOne in Hstep as (m & _ & -> & _).
    simpl. now rewrite !length_insert.
Qed.

Lemma run_length s evs s' out :
  run s evs = Some (s', out) ->
  length (WorkManager.work (Run.manager s')) = length (WorkManager.work (Run.manager s)) /\
  length (Run.ledgers s') = length (Run.ledgers s).
Proof.
  revert s out. induction evs as [|ev evs IH]; intros s out Hrun.
  - simpl in Hrun. now injection Hrun as <- <-.
  - apply StepFacts.run_cons in Hrun as (s1 & out1 & out2 & Hs & Hr & ->).
    destruct (step_length _ _ _ _ Hs) as [H1 H2].
    destruct (IH _ _ Hr) as [H3 H4]. split; congruence.
Qed.

Lemma init_length n :
  length (WorkManager.work (Run.manager (Run.init (T:=T) n))) = n /\
  length (Run.ledgers (Run.init (T:=T) n)) = n.
Proof. rewrite SaneFacts.init_work. simpl. now rewrite !length_replicate. Qed.

Lemma init_lookup n i :
  (i < n)%nat ->
  WorkManager.work (Run.manager (Run.init (T:=T) n)) !! i = Some BatchManager.new /\
  Run.ledgers (Run.init (T:=T) n) !! i = Some Run.ledger0.
Proof.
  intros Hi. rewrite SaneFacts.init_work. simpl.
  split; apply lookup_replicate; auto.
Qed.

Lemma init_changes n evs s' out i m' :
  run (Run.init n) evs = Some (s', out) ->
  WorkManager.work (Run.manager s') !! i = Some m' ->
  exists lg', Run.ledgers s' !! i = Some lg' /\
              Changes i BatchManager.new Run.ledger0 evs m' lg' out.
Proof.
  intros Hrun Hm'.
  assert (Hi : (i < n)%nat).
  { apply lookup_lt_Some in Hm'.
    destruct (run_length _ _ _ _ Hrun) as [Hl _].
    destruct (init_length n) as [Hn _]. lia. }
  destruct (init_lookup n i Hi) as [Hm Hlg].
  destruct (run_changes _ _ _ _ _ _ _ Hrun Hm Hlg) as (m2 & lg' & Hm2 & Hlg' & Hch).
  exists lg'. split; auto. congruence.
Qed.

Lemma Packed_new : Course.Packed (T:=T) OffsetBatch.new.
Proof. split; simpl; auto; try discriminate; constructor. Qed.

Lemma Packed_clear (b : OffsetBatch.t T) : Course.Packed (OffsetBatch.clear b).
Proof. split; simpl; auto; try discriminate; constructor. Qed.

Lemma Packed_filled id value offset (p : OffsetBatch.t T) :
  Course.Packed p -> Course.Packed (Inv.filled JSON_stringify id value offset p).
Proof.
  intros [H1 H2 H3 H4]. split; simpl; try discriminate.
  - intros _. apply GroupingFacts.push_nonempty.
  - now apply GroupingFacts.groups_push.
  - now apply GroupingFacts.NoDup_push.
Qed.

Lemma Packed_Full (b : OffsetBatch.t T) :
  Course.Packed b -> OffsetBatch.isEmpty b = false -> Course.Full (OffsetBatch.batch b).
Proof. intros [H1 H2 H3 H4] He. repeat split; auto. Qed.

Lemma Stocked_new : Course.Stocked (T:=T) BatchManager.new.
Proof. split; apply Packed_new. Qed.

Lemma sentBy_sends i (sent : option (Batch.t T)) :
  Trace.sentBy (E:=E) i (Run.sends i sent) =
  match sent with Some b => [b] | None => [] end.
Proof. destruct sent; simpl; [|reflexivity]. now rewrite Nat.eqb_refl. Qed.

(** A step keeps the batches of a manager packed, and calls its sender
    only with a full batch. *)
Lemma Stocked_change i m lg ev m' lg' out :
  Change i m lg ev m' lg' out -> Course.Stocked m ->
  Course.Stocked m' /\ Forall Course.Full (Trace.sentBy i out).
Proof.
  intros Hch [Hp Hc].
  destruct Hch as [out _ Hout|id value o m' sent _ Hadd|n m1 o _ _ Hpr
                  |n m1 o m3 sent changed _ _ Hpr Hnext|n e _ _|_].
  - rewrite Hout. split; [split; auto|constructor].
  - pose proof (Packed_filled id value o _ Hp) as Hf.
    destruct (ManagerFacts.add_cases JSON_stringify id value o m)
      as [[_ Heq] | (_ & _ & Heq)]; rewrite Heq in Hadd; injection Hadd as <- <-.
    + split; [split; auto|constructor].
    + split; [split; auto|]. simpl. rewrite Nat.eqb_refl.
      constructor; [|constructor]. now apply (Packed_Full _ Hf).
  - apply ManagerFacts.processed_Some in Hpr as [_ ->].
    split; [split; auto|constructor].
  - apply ManagerFacts.processed_Some in Hpr as [_ ->].
    destruct (ManagerFacts.next_cases
                (BatchManager.mk (Range.mk (Fin o) (Range.head (BatchManager.range m)))
                   (BatchManager.pending m) (BatchManager.current m) (BatchManager.closed m)))
      as [[_ Heq] | (_ & He & Heq)]; rewrite Heq in Hnext; injection Hnext as <- <-;
      simpl in *.
    + split; [split; simpl; auto using Packed_clear|].
      cbn [Trace.sentBy]. rewrite LocalFacts.sentBy_app, LocalFacts.sentBy_changes.
      constructor.
    + split; [split; simpl; auto using Packed_clear|].
      cbn [Trace.sentBy].
      rewrite LocalFacts.sentBy_app, LocalFacts.sentBy_changes. simpl.
      rewrite Nat.eqb_refl. constructor; [|constructor]. now apply Packed_Full.
  - split; [split; auto|constructor].
  - split; [split; auto|constructor].
Qed.

Lemma Stocked_changes i m lg evs m' lg' out :
  Changes i m lg evs m' lg' out -> Course.Stocked m ->
  Course.Stocked m' /\ Forall Course.Full (Trace.sentBy i out).
Proof.
  induction 1 as [m lg|m lg ev m1 lg1 out1 evs m2 lg2 out2 Hch _ IH]; intros HS.
  - split; [exact HS|constructor].
  - destruct (Stocked_change _ _ _ _ _ _ _ Hch HS) as [HS1 HF1].
    destruct (IH HS1) as [HS2 HF2]. split; [exact HS2|].
    rewrite LocalFacts.sentBy_app. apply Forall_app. auto.
Qed.

Lemma In_sentBy i (b : Batch.t T) out :
  In (Run.Sent i b) out <-> In b (Trace.sentBy i out).
Proof.
  induction out as [|e out IH]; simpl; [tauto|].
  destruct e as [j b'|j o|o|err]; try (rewrite <- IH; split; [intros [H|H]|]; auto; discriminate).
  destruct (Nat.eqb_spec i j) as [<- | Hne]; simpl; rewrite <- IH.
  - split; intros [H | H]; auto; left; congruence.
  - split; [intros [H | H]; auto; congruence|auto].
Qed.

Lemma In_sends i j (b : Batch.t T) sent :
  In (Run.Sent (E:=E) i b) (Run.sends j sent) -> i = j.
Proof. destruct sent; simpl; [|tauto]. intros [H | []]. congruence. Qed.

Lemma In_changes i (b : Batch.t T) changed :
  ~ In (Run.Sent (E:=E) i b) (Run.changes changed).
Proof. destruct changed; simpl; [|tauto]. intros [H | []]. discriminate. Qed.

Lemma step_sent_index s ev s' out i b :
  step s ev = Some (s', out) -> In (Run.Sent i b) out ->
  (i < length (WorkManager.work (Run.manager s)))%nat.
Proof.
  intros Hstep Hin. destruct ev as [j id value offset|j|j e| |j].
  - apply StepFacts.step_Add in Hstep as (m & lg & m' & sent & Hm & _ & _ & _ & ->).
    apply In_sends in Hin as ->. eapply lookup_lt_Some; eauto.
  - apply StepFacts.step_Fulfil in Hstep
      as (m & lg & n & m1 & o & Hm & _ & _ & _ & Hcases). cbv zeta in Hcases.
    destruct Hcases as [(_ & _ & ->) | (w2 & changed & m3 & sent & _ & _ & _ & ->)].
    + exfalso. simpl in Hin. destruct Hin as [H | [H | []]]; discriminate.
    + destruct Hin as [H | Hin]; [discriminate|].
      apply in_app_iff in Hin as [Hin | Hin]; [now apply In_changes in Hin|].
      apply In_sends in Hin as ->. eapply lookup_lt_Some; eauto.
  - apply StepFacts.step_Reject in Hstep as (m & lg & n & _ & _ & _ & _ & ->).
    exfalso. destruct Hin as [H | []]. discriminate.
  - apply StepFacts.step_Close in Hstep as [_ ->]. destruct Hin.
  - apply StepFacts.step_CloseOne in Hstep as (m & _ & _ & ->). destruct Hin.
Qed.

Lemma run_sent_index s evs s' out i b :
  run s evs = Some (s', out) -> In (Run.Sent i b) out ->
  (i < length (WorkManager.work (Run.manager s)))%nat.
Proof.
  revert s out. induction evs as [|ev evs IH]; intros s out Hrun Hin.
  - simpl in Hrun. injection Hrun as <- <-. destruct Hin.
  - apply StepFacts.run_cons in Hrun as (s1 & out1 & out2 & Hs & Hr & ->).
    apply in_app_iff in Hin as [Hin | Hin].
    + eapply step_sent_index; eauto.
    + destruct (step_length _ _ _ _ Hs) as [<- _]. eapply IH; eauto.
Qed.

Lemma valuesTo_cons i key ev evs :
  Course.valuesTo JSON_stringify i key (ev :: evs) =
  Course.valuesTo JSON_stringify i key [ev] ++ Course.valuesTo JSON_stringify i key evs.
Proof.
  destruct ev; simpl; auto.
  destruct (_ && _); reflexivity.
Qed.

Lemma valuesTo_quiet i key (ev : Run.Event K T E) :
  Trace.offsetsTo i [ev] = [] -> Course.valuesTo JSON_stringify i key [ev] = [].
Proof.
  destruct ev; simpl; auto.
  destruct (Nat.eqb i i0); simpl; [discriminate|reflexivity].
Qed.

Lemma handed_app key (a b : list (Batch.t T)) :
  Course.handed key (a ++ b) = Course.handed key a ++ Course.handed key b.
Proof. unfold Course.handed. now rewrite List.map_app, List.concat_app. Qed.

(** A step hands to the sender what [pending] held, and nothing else. *)
Lemma flow_change i m lg ev m' lg' out key :
  Change i m lg ev m' lg' out -> Course.Stocked m ->
  Course.handed key (Trace.sentBy i out) ++
    Grouping.group key (OffsetBatch.batch (BatchManager.pending m')) =
  Grouping.group key (OffsetBatch.batch (BatchManager.pending m)) ++
    Course.valuesTo JSON_stringify i key [ev].
Proof.
  intros Hch [Hp Hc].
  destruct Hch as [out Hoff Hout|id value o m' sent -> Hadd|n m1 o -> _ Hpr
                  |n m1 o m3 sent changed -> _ Hpr Hnext|n e -> _|[-> | ->]].
  - rewrite Hout, (valuesTo_quiet _ _ _ Hoff). simpl. now rewrite app_nil_r.
  - cbn [Course.valuesTo]. rewrite Nat.eqb_refl. cbn [andb].
    destruct (ManagerFacts.add_cases JSON_stringify id value o m)
      as [[_ Heq] | (He & _ & Heq)]; rewrite Heq in Hadd; injection Hadd as <- <-.
    + simpl. unfold Batch.add. rewrite GroupingFacts.group_push.
      destruct (String.eqb _ _); reflexivity.
    + simpl. rewrite Nat.eqb_refl. unfold Course.handed. simpl.
      apply ManagerFacts.isEmpty_true in He.
      rewrite (Course.packed_none _ Hc He). unfold Batch.add.
      rewrite GroupingFacts.group_push. cbn [Grouping.group Batch.get].
      rewrite !app_nil_r. destruct (String.eqb _ _); reflexivity.
  - apply ManagerFacts.processed_Some in Hpr as [_ ->]. simpl. now rewrite app_nil_r.
  - apply ManagerFacts.processed_Some in Hpr as [_ ->].
    destruct (ManagerFacts.next_cases
                (BatchManager.mk (Range.mk (Fin o) (Range.head (BatchManager.range m)))
                   (BatchManager.pending m) (BatchManager.current m) (BatchManager.closed m)))
      as [[_ Heq] | (_ & He & Heq)]; rewrite Heq in Hnext; injection Hnext as <- <-;
      cbn [Trace.sentBy]; rewrite LocalFacts.sentBy_app, LocalFacts.sentBy_changes.
    + simpl. now rewrite app_nil_r.
    + simpl. rewrite Nat.eqb_refl. unfold Course.handed. simpl. now rewrite !app_nil_r.
  - simpl. now rewrite app_nil_r.
  - simpl. now rewrite app_nil_r.
  - simpl. now rewrite app_nil_r.
Qed.

Lemma flow_changes i m lg evs m' lg' out key :
  Changes i m lg evs m' lg' out -> Course.Stocked m ->
  Course.handed key (Trace.sentBy i out) ++
    Grouping.group key (OffsetBatch.batch (BatchManager.pending m')) =
  Grouping.group key (OffsetBatch.batch (BatchManager.pending m)) ++
    Course.valuesTo JSON_stringify i key evs.
Proof.
  induction 1 as [m lg|m lg ev m1 lg1 out1 evs m2 lg2 out2 Hch _ IH]; intros HS.
  - simpl. now rewrite app_nil_r.
  - destruct (Stocked_change _ _ _ _ _ _ _ Hch HS) as [HS1 _].
    rewrite LocalFacts.sentBy_app, handed_app, <- app_assoc, (IH HS1), app_assoc.
    rewrite (flow_change _ _ _ _ _ _ _ key Hch HS), <- app_assoc.
    now rewrite <- valuesTo_cons.
Qed.

Lemma completions_app i (a b : list (Run.Effect T E)) :
  Course.completions i (a ++ b) = Course.completions i a ++ Course.completions i b.
Proof.
  induction a as [|e a IH]; simpl; [reflexivity|].
  destruct e; auto. destruct (Nat.eqb i i0); simpl; now rewrite IH.
Qed.

Lemma completions_sends i j (sent : option (Batch.t T)) :
  Course.completions (E:=E) i (Run.sends j sent) = [].
Proof. destruct sent; reflexivity. Qed.

Lemma completions_changes i changed :
  Course.completions (T:=T) (E:=E) i (Run.changes changed) = [].
Proof. destruct changed; reflexivity. Qed.

Lemma held_Some (b : OffsetBatch.t T) o :
  OffsetBatch.offset b = Some o -> Course.held b = [o].
Proof. unfold Course.held. now intros ->. Qed.

Lemma held_None (b : OffsetBatch.t T) :
  OffsetBatch.isEmpty b = true -> Course.held b = [].
Proof. intros H. apply ManagerFacts.isEmpty_true in H. unfold Course.held. now rewrite H. Qed.

Lemma held_filled id value offset (p : OffsetBatch.t T) :
  Course.held (Inv.filled JSON_stringify id value offset p) = [offset].
Proof. reflexivity. Qed.

Lemma held_clear (b : OffsetBatch.t T) : Course.held (OffsetBatch.clear b) = [].
Proof. reflexivity. Qed.

Lemma sublist_snoc (a l : list Z) (x : Z) : sublist a l -> sublist (a ++ [x]) (l ++ [x]).
Proof. intros H. apply sublist_app; [exact H|reflexivity]. Qed.

Lemma sublist_drop (a b l : list Z) : sublist (a ++ b) l -> sublist a l.
Proof. intros H. etransitivity; [|exact H]. apply sublist_inserts_r. reflexivity. Qed.

Lemma sublist_grow (a l : list Z) (x : Z) : sublist a l -> sublist a (l ++ [x]).
Proof. intros H. now apply sublist_inserts_r. Qed.

(** A step keeps what a manager has reported and holds in the order of
    the calls of [add]. *)
Lemma Reported_step s ev s' out i m lg done l :
  step s ev = Some (s', out) ->
  Inv.AllSane s ->
  WorkManager.work (Run.manager s) !! i = Some m ->
  Run.ledgers s !! i = Some lg ->
  Course.Reported m lg done l ->
  exists m' lg',
    WorkManager.work (Run.manager s') !! i = Some m' /\
    Run.ledgers s' !! i = Some lg' /\
    Course.Reported m' lg' (done ++ Course.completions i out) (l ++ Trace.offsetsTo i [ev]).
Proof.
  intros Hstep HS Hm Hlg [H1 H2].
  pose proof (Forall2_lookup_lr _ _ _ _ _ _ HS Hm Hlg) as HSm.
  assert (Hi : (i < length (WorkManager.work (Run.manager s)))%nat)
    by (eapply lookup_lt_Some; eauto).
  assert (Hi' : (i < length (Run.ledgers s))%nat) by (eapply lookup_lt_Some; eauto).
  destruct (LocalFacts.step_change JSON_stringify _ _ _ _ _ _ _ Hstep Hm Hlg)
    as (m' & lg' & Hm' & Hlg' & Hch).
  exists m', lg'. split; [exact Hm'|]. split; [exact Hlg'|].
  destruct ev as [j id value offset|j|j e| |j].
  - apply StepFacts.step_Add in Hstep as (mj & lgj & mj' & sent & Hmj & Hlgj & Hadd & -> & ->).
    rewrite completions_sends, app_nil_r. simpl in Hm', Hlg'. simpl.
    destruct (Nat.eqb_spec i j) as [<- | Hne].
    + rewrite Hm in Hmj. rewrite Hlg in Hlgj. injection Hmj as <-. injection Hlgj as <-.
      rewrite list_lookup_insert_eq in Hm' by assumption. rewrite list_lookup_insert_eq in Hlg' by assumption.
      injection Hm' as <-. injection Hlg' as <-.
      destruct (ManagerFacts.add_cases JSON_stringify id value offset m)
        as [[_ Heq] | (He & _ & Heq)]; rewrite Heq in Hadd; injection Hadd as <- <-;
        unfold Course.Reported; simpl; rewrite ?held_filled.
      * split; [apply sublist_snoc; eapply sublist_drop; eauto|].
        intros Ho. rewrite app_assoc. apply sublist_snoc.
        specialize (H2 Ho). rewrite app_assoc in H2. eapply sublist_drop; eauto.
      * rewrite (held_None _ He), !app_nil_r.
        split; [apply sublist_grow; eapply sublist_drop; eauto|].
        intros _. apply sublist_snoc. eapply sublist_drop; eauto.
    + rewrite list_lookup_insert_ne in Hm' by congruence. rewrite list_lookup_insert_ne in Hlg' by congruence.
      rewrite Hm in Hm'. rewrite Hlg in Hlg'. injection Hm' as <-. injection Hlg' as <-.
      rewrite app_nil_r. split; assumption.
  - apply StepFacts.step_Fulfil in Hstep
      as (mj & lgj & n & m1 & o & Hmj & Hlgj & Hn & Hp & Hcases). cbv zeta in Hcases.
    rewrite app_nil_r.
    apply ManagerFacts.processed_Some in Hp as [Hc ->].
    destruct (decide (j = i)) as [-> | Hne].
    + rewrite Hm in Hmj. rewrite Hlg in Hlgj. injection Hmj as <-. injection Hlgj as <-.
      assert (Ho : Run.outstanding lg <> 0%nat) by lia.
      specialize (H2 Ho). rewrite (held_Some _ _ Hc) in H2.
      pose proof (Inv.sane_once _ _ HSm) as Honce.
      destruct Hcases as [(Hu & -> & ->) | (w2 & changed & m3 & sent & Hu & Hnext & -> & ->)];
        simpl in Hm', Hlg'.
      * rewrite list_lookup_insert_eq in Hm' by assumption. rewrite list_lookup_insert_eq in Hlg' by assumption.
        injection Hm' as <-. injection Hlg' as <-.
        simpl. rewrite Nat.eqb_refl. simpl. unfold Course.Reported. simpl.
        rewrite <- app_assoc. split; [exact H2|]. intros Ho'. exfalso. lia.
      * rewrite (SaneFacts.updateOffset_work _ _ _ Hu) in Hm'. simpl in Hm'.
        rewrite list_insert_insert_eq in Hm'.
        rewrite list_lookup_insert_eq in Hm' by assumption. rewrite list_lookup_insert_eq in Hlg' by assumption.
        injection Hm' as <-. injection Hlg' as <-.
        cbn [Course.completions]. rewrite Nat.eqb_refl.
        rewrite completions_app, completions_changes, completions_sends. simpl.
        destruct (ManagerFacts.next_cases
                    (BatchManager.mk (Range.mk (Fin o) (Range.head (BatchManager.range m)))
                       (BatchManager.pending m) (BatchManager.current m)
                       (BatchManager.closed m)))
          as [[_ Heq] | (_ & He & Heq)]; rewrite Heq in Hnext; injection Hnext as <- <-;
          unfold Course.Reported; simpl; rewrite ?held_clear;
          rewrite <- ?app_assoc; simpl.
        -- split; [exact H2|]. intros _. exact H2.
        -- rewrite !app_nil_r. split; [eapply sublist_drop; rewrite <- app_assoc; exact H2|].
           intros _. exact H2.
    + assert (Hq : Course.completions i out = []).
      { destruct Hcases as [(_ & _ & ->) | (w2 & changed & m3 & sent & _ & _ & _ & ->)]; simpl;
          (destruct (Nat.eqb_spec i j) as [-> | _]; [congruence|]); auto.
        now rewrite completions_app, completions_changes, completions_sends. }
      rewrite Hq, app_nil_r.
      destruct Hcases as [(Hu & -> & ->) | (w2 & changed & m3 & sent & Hu & Hnext & -> & ->)];
        simpl in Hm', Hlg'.
      * rewrite list_lookup_insert_ne in Hm' by assumption. rewrite list_lookup_insert_ne in Hlg' by assumption.
        rewrite Hm in Hm'. rewrite Hlg in Hlg'. injection Hm' as <-. injection Hlg' as <-.
        split; assumption.
      * rewrite (SaneFacts.updateOffset_work _ _ _ Hu) in Hm'. simpl in Hm'.
        rewrite list_insert_insert_eq in Hm'.
        rewrite list_lookup_insert_ne in Hm' by assumption. rewrite list_lookup_insert_ne in Hlg' by assumption.
        rewrite Hm in Hm'. rewrite Hlg in Hlg'. injection Hm' as <-. injection Hlg' as <-.
        split; assumption.
  - apply StepFacts.step_Reject in Hstep as (mj & lgj & n & Hmj & Hlgj & Hn & -> & ->).
    simpl in Hm', Hlg'. simpl. rewrite !app_nil_r.
    rewrite Hm in Hm'. injection Hm' as <-.
    destruct (decide (j = i)) as [-> | Hne].
    + rewrite Hlg in Hlgj. injection Hlgj as <-.
      rewrite list_lookup_insert_eq in Hlg' by assumption. injection Hlg' as <-.
      split; [exact H1|]. intros _. apply H2. lia.
    + rewrite list_lookup_insert_ne in Hlg' by assumption.
      rewrite Hlg in Hlg'. injection Hlg' as <-. split; assumption.
  - apply StepFacts.step_Close in Hstep as [-> ->]. simpl in Hm', Hlg'. simpl.
    rewrite !app_nil_r. rewrite Hlg in Hlg'. injection Hlg' as <-.
    rewrite (LocalFacts.lookup_close_Some _ _ _ Hm) in Hm'. injection Hm' as <-.
    split; assumption.
  - apply StepFacts.step_CloseOne in Hstep as (mj & Hmj & -> & ->). simpl in Hm', Hlg'. simpl.
    rewrite !app_nil_r. rewrite Hlg in Hlg'. injection Hlg' as <-.
    destruct (decide (j = i)) as [-> | Hne].
    + rewrite Hm in Hmj. injection Hmj as <-.
      rewrite list_lookup_insert_eq in Hm' by assumption. injection Hm' as <-.
      split; assumption.
    + rewrite list_lookup_insert_ne in Hm' by assumption.
      rewrite Hm in Hm'. injection Hm' as <-. split; assumption.
Qed.

Lemma offsetsTo_cons i (ev : Run.Event K T E) evs :
  Trace.offsetsTo i (ev :: evs) = Trace.offsetsTo i [ev] ++ Trace.offsetsTo i evs.
Proof. destruct ev; simpl; auto. destruct (Nat.eqb i i0); reflexivity. Qed.

Lemma Reported_run s evs s' out i m lg done l :
  run s evs = Some (s', out) ->
  Inv.AllSane s ->
  WorkManager.work (Run.manager s) !! i = Some m ->
  Run.ledgers s !! i = Some lg ->
  Course.Reported m lg done l ->
  exists m' lg',
    WorkManager.work (Run.manager s') !! i = Some m' /\
    Run.ledgers s' !! i = Some lg' /\
    Course.Reported m' lg' (done ++ Course.completions i out) (l ++ Trace.offsetsTo i evs).
Proof.
  revert s out m lg done l.
  induction evs as [|ev evs IH]; intros s out m lg done l Hrun HS Hm Hlg HR.
  - simpl in Hrun. injection Hrun as <- <-. exists m, lg. simpl. now rewrite !app_nil_r.
  - apply StepFacts.run_cons in Hrun as (s1 & out1 & out2 & Hs & Hr & ->).
    destruct (Reported_step _ _ _ _ _ _ _ _ _ Hs HS Hm Hlg HR) as (m1 & lg1 & Hm1 & Hlg1 & HR1).
    pose proof (SaneFacts.AllSane_step _ _ _ _ _ HS Hs) as HS1.
    destruct (IH _ _ _ _ _ _ Hr HS1 Hm1 Hlg1 HR1) as (m' & lg' & Hm' & Hlg' & HR').
    exists m', lg'. split; [exact Hm'|]. split; [exact Hlg'|].
    rewrite completions_app, offsetsTo_cons, !app_assoc. exact HR'.
Qed.

Lemma errors_app (a b : list (Run.Effect T E)) :
  Course.errors (a ++ b) = Course.errors a ++ Course.errors b.
Proof.
  induction a as [|e a IH]; simpl; [reflexivity|].
  destruct e; auto. simpl. now rewrite IH.
Qed.

Lemma errors_sends j (sent : option (Batch.t T)) :
  Course.errors (E:=E) (Run.sends j sent) = [].
Proof. destruct sent; reflexivity. Qed.

Lemma errors_changes changed : Course.errors (T:=T) (E:=E) (Run.changes changed) = [].
Proof. destruct changed; reflexivity. Qed.

Lemma failures_insert (lgs : list Run.Ledger) i lg lg' :
  lgs !! i = Some lg ->
  (Course.failures (<[i := lg']> lgs) + (if Run.failed lg then 1 else 0) =
   Course.failures lgs + (if Run.failed lg' then 1 else 0))%nat.
Proof.
  unfold Course.failures. revert i.
  induction lgs as [|x lgs IH]; intros [|i] H; simpl in *; try discriminate.
  - injection H as ->. destruct (Run.failed lg), (Run.failed lg'); simpl; lia.
  - specialize (IH i H). destruct (Run.failed x); simpl; lia.
Qed.

Lemma failures_le (lgs : list Run.Ledger) : (Course.failures lgs <= length lgs)%nat.
Proof. unfold Course.failures. apply List.filter_length_le. Qed.

Lemma failed_launch (sent : option (Batch.t T)) lg :
  Run.failed (Run.launch sent lg) = Run.failed lg.
Proof. destruct sent; reflexivity. Qed.

(** Every [error] is the first of its manager. *)
Lemma failures_step s ev s' out :
  step s ev = Some (s', out) -> Inv.AllSane s ->
  Course.failures (Run.ledgers s') =
  (Course.failures (Run.ledgers s) + length (Course.errors out))%nat.
Proof.
  intros Hstep HS. destruct ev as [j id value offset|j|j e| |j].
  - apply StepFacts.step_Add in Hstep as (m & lg & m' & sent & Hm & Hlg & _ & -> & ->).
    rewrite errors_sends. simpl.
    pose proof (failures_insert _ _ _ (Run.launch sent (Run.noted offset lg)) Hlg) as H.
    rewrite failed_launch in H. simpl in H. destruct (Run.failed lg); lia.
  - apply StepFacts.step_Fulfil in Hstep
      as (m & lg & n & m1 & o & Hm & Hlg & Hn & _ & Hcases). cbv zeta in Hcases.
    pose proof (Forall2_lookup_lr _ _ _ _ _ _ HS Hm Hlg) as HSm.
    pose proof (Inv.sane_once _ _ HSm) as Honce.
    assert (Hf : Run.failed lg = false) by (apply (Inv.sane_flight _ _ HSm); lia).
    destruct Hcases as [(_ & -> & ->) | (w2 & changed & m3 & sent & _ & _ & -> & ->)]; simpl.
    + pose proof (failures_insert _ _ _ (Run.broken (Run.stored (Run.settled lg))) Hlg) as H.
      rewrite Hf in H. simpl in H. lia.
    + rewrite errors_app, errors_changes, errors_sends. simpl.
      pose proof (failures_insert _ _ _
                    (Run.launch sent (Run.cleared (Run.stored (Run.settled lg)))) Hlg) as H.
      rewrite failed_launch, Hf in H. simpl in H. rewrite Hf in H. lia.
  - apply StepFacts.step_Reject in Hstep as (m & lg & n & Hm & Hlg & Hn & -> & ->). simpl.
    pose proof (Forall2_lookup_lr _ _ _ _ _ _ HS Hm Hlg) as HSm.
    pose proof (Inv.sane_once _ _ HSm) as Honce.
    assert (Hf : Run.failed lg = false) by (apply (Inv.sane_flight _ _ HSm); lia).
    pose proof (failures_insert _ _ _ (Run.broken (Run.settled lg)) Hlg) as H.
    rewrite Hf in H. simpl in H. lia.
  - apply StepFacts.step_Close in Hstep as [-> ->]. simpl. lia.
  - apply StepFacts.step_CloseOne in Hstep as (m & _ & -> & ->). simpl. lia.
Qed.

Lemma failures_run s evs s' out :
  run s evs = Some (s', out) -> Inv.AllSane s ->
  Course.failures (Run.ledgers s') =
  (Course.failures (Run.ledgers s) + length (Course.errors out))%nat.
Proof.
  revert s out. induction evs as [|ev evs IH]; intros s out Hrun HS.
  - simpl in Hrun. injection Hrun as <- <-. simpl. lia.
  - apply StepFacts.run_cons in Hrun as (s1 & out1 & out2 & Hs & Hr & ->).
    rewrite errors_app, length_app.
    rewrite (IH _ _ Hr (SaneFacts.AllSane_step _ _ _ _ _ HS Hs)).
    rewrite (failures_step _ _ _ _ Hs HS). lia.
Qed.

Lemma In_errors err out : In (Run.Error err) out <-> In err (Course.errors (T:=T) out).
Proof.
  induction out as [|e out IH]; simpl; [tauto|].
  destruct e; simpl; rewrite <- IH; try (split; [intros [H | H]|]; auto; discriminate).
  split; intros [H | H]; auto; left; congruence.
Qed.

Lemma rejections_cons (ev : Run.Event K T E) evs :
  Course.rejections (ev :: evs) = Course.rejections [ev] ++ Course.rejections evs.
Proof. destruct ev; reflexivity. Qed.

(** The [error] of a step is the rejection of the sender or the
    [AssertionError] of [updateOffset]. *)
Lemma errors_step s ev s' out :
  step s ev = Some (s', out) ->
  Course.errors out = Course.rejections [ev] \/
  Course.errors out = [Run.AssertionError].
Proof.
  intros Hstep. destruct ev as [j id value offset|j|j e| |j].
  - apply StepFacts.step_Add in Hstep as (m & lg & m' & sent & _ & _ & _ & _ & ->).
    left. apply errors_sends.
  - apply StepFacts.step_Fulfil in Hstep
      as (m & lg & n & m1 & o & _ & _ & _ & _ & Hcases). cbv zeta in Hcases.
    destruct Hcases as [(_ & _ & ->) | (w2 & changed & m3 & sent & _ & _ & _ & ->)]; simpl.
    + now right.
    + left. now rewrite errors_app, errors_changes, errors_sends.
  - apply StepFacts.step_Reject in Hstep as (m & lg & n & _ & _ & _ & _ & ->). now left.
  - apply StepFacts.step_Close in Hstep as [_ ->]. now left.
  - apply StepFacts.step_CloseOne in Hstep as (m & _ & _ & ->). now left.
Qed.

Lemma errors_run s evs s' out :
  run s evs = Some (s', out) ->
  ~ In (Run.Error Run.AssertionError) out ->
  Course.errors out = Course.rejections evs.
Proof.
  revert s out. induction evs as [|ev evs IH]; intros s out Hrun Hno.
  - simpl in Hrun. now injection Hrun as <- <-.
  - apply StepFacts.run_cons in Hrun as (s1 & out1 & out2 & Hs & Hr & ->).
    rewrite errors_app, rejections_cons.
    rewrite (IH _ _ Hr) by (intros H; apply Hno, in_app_iff; auto).
    destruct (errors_step _ _ _ _ Hs) as [-> | He]; [reflexivity|].
    exfalso. apply Hno, in_app_iff. left. apply In_errors. rewrite He. now left.
Qed.

(** The bound of the invariant is the last offset delivered. *)
Lemma Orderly_run_last hi s evs s' out :
  Inv.Orderly hi s ->
  Trace.ascending_from hi (Run.offsetsOf evs) = true ->
  run s evs = Some (s', out) ->
  Inv.Orderly (match last (Run.offsetsOf evs) with Some o => Fin o | None => hi end) s'.
Proof.
  revert hi s out. induction evs as [|ev evs IH]; intros hi s out HO Hasc Hrun.
  - simpl in Hrun. now injection Hrun as <- <-.
  - apply StepFacts.run_cons in Hrun as (s1 & out1 & out2 & Hs & Hr & ->).
    assert (Had : Inv.admissible hi ev /\
                  Trace.ascending_from (Inv.mark hi ev) (Run.offsetsOf evs) = true).
    { destruct ev; simpl in *; auto.
      apply andb_true_iff in Hasc as [H1 H2]. split; auto.
      apply OffsetFacts.leb_gt. now apply negb_true_iff. }
    destruct Had as [Had Hasc'].
    destruct (TidyFacts.Orderly_step JSON_stringify _ _ _ _ _ HO Had Hs) as [HO1 _].
    specialize (IH _ _ _ HO1 Hasc' Hr).
    destruct ev; simpl in *; auto.
    rewrite last_cons. destruct (last (Run.offsetsOf evs)); auto.
Qed.

Lemma offsetsOf_app evs1 evs2 :
  Run.offsetsOf (evs1 ++ evs2) = Run.offsetsOf evs1 ++ Run.offsetsOf evs2.
Proof.
  induction evs1 as [|ev evs1 IH]; simpl; [reflexivity|].
  destruct ev; simpl; now rewrite IH.
Qed.

Lemma changed_is_last s ev s' out o :
  step s ev = Some (s', out) -> In (Run.OffsetChanged o) out ->
  o = WorkManager.lastOffset (Run.manager s').
Proof.
  intros Hstep Hin.
  assert (Hin' : In o (Trace.offsetChanges out)).
  { clear - Hin. induction out as [|e out IH]; [destruct Hin|].
    destruct Hin as [-> | Hin]; [now left|].
    destruct e; simpl; auto. }
  destruct (step_offsetChanges _ _ _ _ _ Hstep) as [[Hnil _] | [Hone _]].
  - rewrite Hnil in Hin'. destruct Hin'.
  - rewrite Hone in Hin'. destruct Hin' as [<- | []]. reflexivity.
Qed.

Lemma get_In (b : Batch.t T) key work :
  List.NoDup (Grouping.keys b) -> In (key, work) b -> Batch.get key b = Some work.
Proof.
  induction b as [|[k value] rest IH]; simpl; [tauto|].
  intros Hnd Hin. apply List.NoDup_cons_iff in Hnd as [Hk Hnd].
  destruct Hin as [[= -> ->] | Hin].
  - now rewrite String.eqb_refl.
  - destruct (String.eqb_spec k key) as [-> | Hne]; [|auto].
    exfalso. apply Hk. change key with (fst (key, work)). now apply List.in_map.
Qed.

Lemma valuesTo_In i key evs v :
  In v (Course.valuesTo JSON_stringify i key evs) ->
  exists id offset, In (Run.Add i id v offset) evs /\ JSON_stringify id = key.
Proof.
  induction evs as [|ev evs IH]; simpl; [tauto|].
  destruct ev as [j id value offset|j|j e| |j];
    try (intros H; destruct (IH H) as (id' & o' & Hin & Hk); exists id', o'; auto).
  destruct (Nat.eqb_spec i j) as [<- | Hne]; simpl.
  - destruct (String.eqb_spec (JSON_stringify id) key) as [Hk | Hk].
    + intros [<- | H]; [exists id, offset; auto|].
      destruct (IH H) as (id' & o' & Hin & Hk'). exists id', o'. auto.
    + intros H. destruct (IH H) as (id' & o' & Hin & Hk'). exists id', o'. auto.
  - intros H. destruct (IH H) as (id' & o' & Hin & Hk'). exists id', o'. auto.
Qed.

(** A value in a batch the sender received was added to that manager
    under a key with the encoding of its group. *)
Lemma sent_origin n evs s out i b key work v :
  run (Run.init n) evs = Some (s, out) ->
  In (Run.Sent i b) out -> In (key, work) b -> In v work ->
  work <> [] /\
  exists id offset, In (Run.Add i id v offset) evs /\ JSON_stringify id = key.
Proof.
  intros Hrun Hin Hkw Hv.
  pose proof (run_sent_index _ _ _ _ _ _ Hrun Hin) as Hi.
  destruct (run_length _ _ _ _ Hrun) as [Hlen _].
  rewrite <- Hlen in Hi. apply lookup_lt_is_Some in Hi as [m Hm].
  destruct (init_changes _ _ _ _ _ _ Hrun Hm) as (lg & _ & Hch).
  destruct (Stocked_changes _ _ _ _ _ _ _ Hch Stocked_new) as [_ HF].
  pose proof (flow_changes _ _ _ _ _ _ _ key Hch Stocked_new) as Hflow.
  apply In_sentBy in Hin.
  rewrite List.Forall_forall in HF. destruct (HF b Hin) as (_ & Hne & Hnd).
  split.
  { rewrite List.Forall_forall in Hne. exact (Hne _ Hkw). }
  apply valuesTo_In. simpl in Hflow. rewrite <- Hflow.
  apply in_app_iff. left. unfold Course.handed.
  apply in_concat. exists work. split; [|exact Hv].
  apply in_map_iff. exists b. split; [|exact Hin].
  unfold Grouping.group. now rewrite (get_In _ _ _ Hnd Hkw).
Qed.

Lemma Keen_new : Course.Keen (T:=T) BatchManager.new.
Proof. intros _ _. reflexivity. Qed.

Lemma Keen_change i m lg ev m' lg' out :
  Change i m lg ev m' lg' out -> Course.Keen m -> Course.Keen m'.
Proof.
  intros Hch HK.
  destruct Hch as [out _ Hout|id value o m' sent _ Hadd|n m1 o _ _ Hpr
                  |n m1 o m3 sent changed _ _ Hpr Hnext|n e _ _|_].
  - exact HK.
  - destruct (ManagerFacts.add_cases JSON_stringify id value o m)
      as [[Hor Heq] | (_ & _ & Heq)]; rewrite Heq in Hadd; injection Hadd as <- <-;
      intros Hcl Hc; simpl in *.
    + destruct Hor; congruence.
    + discriminate.
  - apply ManagerFacts.processed_Some in Hpr as [_ ->]. exact HK.
  - apply ManagerFacts.processed_Some in Hpr as [_ ->].
    destruct (ManagerFacts.next_cases
                (BatchManager.mk (Range.mk (Fin o) (Range.head (BatchManager.range m)))
                   (BatchManager.pending m) (BatchManager.current m) (BatchManager.closed m)))
      as [[Hor Heq] | (_ & He & Heq)]; rewrite Heq in Hnext; injection Hnext as <- <-;
      intros Hcl Hc; simpl in *.
    + destruct Hor; congruence.
    + congruence.
  - exact HK.
  - intros Hcl. discriminate.
Qed.

Lemma Keen_changes i m lg evs m' lg' out :
  Changes i m lg evs m' lg' out -> Course.Keen m -> Course.Keen m'.
Proof.
  induction 1 as [m lg|m lg ev m1 lg1 out1 evs m2 lg2 out2 Hch _ IH]; intros HK; auto.
  apply IH. eapply Keen_change; eauto.
Qed.

(** The send in flight of an open manager fulfils: no error, the other
    managers as they were, and this one at rest or with its next, last batch
    in flight. *)
Lemma pump hi s i m lg :
  Inv.Orderly hi s ->
  WorkManager.work (Run.manager s) !! i = Some m ->
  Run.ledgers s !! i = Some lg ->
  Run.outstanding lg = 1%nat ->
  BatchManager.closed m = false ->
  exists s' out m' lg',
    step s (Run.Fulfil i) = Some (s', out) /\
    Inv.Orderly hi s' /\
    Course.errors out = [] /\
    (forall j, j <> i ->
       WorkManager.work (Run.manager s') !! j = WorkManager.work (Run.manager s) !! j /\
       Run.ledgers s' !! j = Run.ledgers s !! j) /\
    WorkManager.work (Run.manager s') !! i = Some m' /\
    Run.ledgers s' !! i = Some lg' /\
    BatchManager.closed m' = false /\
    ((OffsetBatch.isEmpty (BatchManager.pending m) = true /\ Inv.drained lg') \/
     (OffsetBatch.isEmpty (BatchManager.pending m) = false /\
      Run.outstanding lg' = 1%nat /\
      OffsetBatch.isEmpty (BatchManager.pending m') = true)).
Proof.
  intros HO Hm Hlg Hout Hcl.
  assert (Hi : (i < length (WorkManager.work (Run.manager s)))%nat)
    by (eapply lookup_lt_Some; eauto).
  assert (Hi' : (i < length (Run.ledgers s))%nat) by (eapply lookup_lt_Some; eauto).
  pose proof (Forall2_lookup_lr _ _ _ _ _ _ (Inv.orderly_sane _ _ HO) Hm Hlg) as HSm.
  pose proof (Forall2_lookup_lr _ _ _ _ _ _ (Inv.orderly_tidy _ _ HO) Hm Hlg) as HTm.
  destruct (SaneFacts.Sane_busy _ _ _ HSm Hout) as (_ & Hf & Hc).
  apply ManagerFacts.isEmpty_false in Hc as [c Hc].
  destruct (step s (Run.Fulfil i)) as [[s' out]|] eqn:Hstep.
  2:{ exfalso. simpl in Hstep. rewrite Hm, Hlg in Hstep. simpl in Hstep.
      rewrite Hout in Hstep. unfold BatchManager.processed in Hstep.
      rewrite Hc in Hstep. simpl in Hstep.
      destruct (WorkManager.updateOffset _) as [[w2 changed]|]; [|discriminate].
      destruct (BatchManager.next _); discriminate. }
  destruct (TidyFacts.Orderly_Fulfil JSON_stringify _ _ _ _ _ HO Hstep) as [HO' Hno].
  apply StepFacts.step_Fulfil in Hstep
    as (m0 & lg0 & n & m1 & o & Hm0 & Hlg0 & Hn & Hp & Hcases). cbv zeta in Hcases.
  rewrite Hm in Hm0. rewrite Hlg in Hlg0. injection Hm0 as <-. injection Hlg0 as <-.
  apply ManagerFacts.processed_Some in Hp as [_ ->].
  destruct Hcases as [(_ & _ & ->) | (w2 & changed & m3 & sent & Hu & Hnext & -> & ->)].
  { exfalso. apply Hno. simpl. auto. }
  pose proof (SaneFacts.updateOffset_work _ _ _ Hu) as Hw. simpl in Hw.
  exists (Run.mk (Run.set_work i m3 w2)
            (<[i := Run.launch sent (Run.cleared (Run.stored (Run.settled lg)))]>
               (Run.ledgers s))),
    (Run.WorkComplete i o :: Run.changes changed ++ Run.sends i sent),
    m3, (Run.launch sent (Run.cleared (Run.stored (Run.settled lg)))).
  split; [reflexivity|]. split; [exact HO'|].
  split; [simpl; now rewrite errors_app, errors_changes, errors_sends|].
  simpl. rewrite Hw, list_insert_insert_eq.
  split.
  { intros j Hj. rewrite !list_lookup_insert_ne by congruence. auto. }
  rewrite !list_lookup_insert_eq by assumption.
  split; [reflexivity|]. split; [reflexivity|].
  destruct (ManagerFacts.next_cases
              (BatchManager.mk (Range.mk (Fin o) (Range.head (BatchManager.range m)))
                 (BatchManager.pending m) (BatchManager.current m) (BatchManager.closed m)))
    as [[Hor Heq] | (_ & He & Heq)]; rewrite Heq in Hnext; injection Hnext as <- <-;
    simpl in *.
  - split; [exact Hcl|]. left.
    destruct Hor as [Hor | Hor]; [congruence|]. split; [exact Hor|].
    split; [reflexivity|]. simpl.
    apply (Inv.tidy_pending_none _ _ _ HTm). now apply ManagerFacts.isEmpty_true.
  - split; [reflexivity|]. right. split; [exact He|]. rewrite Hout. split; reflexivity.
Qed.

Lemma run_one s ev s' out :
  step s ev = Some (s', out) -> run s [ev] = Some (s', out).
Proof. intros H. cbn [Run.run]. rewrite H. simpl. now rewrite app_nil_r. Qed.

(** An open manager that has not failed comes to rest after at most two
    fulfilments. *)
Lemma drain_one hi s i m lg :
  Inv.Orderly hi s ->
  WorkManager.work (Run.manager s) !! i = Some m ->
  Run.ledgers s !! i = Some lg ->
  BatchManager.closed m = false ->
  Run.failed lg = false ->
  Course.Keen m ->
  exists settle s' out lg',
    Forall Course.fulfils settle /\
    (length settle <= 2)%nat /\
    run s settle = Some (s', out) /\
    Inv.Orderly hi s' /\
    Course.errors out = [] /\
    (forall j, j <> i ->
       WorkManager.work (Run.manager s') !! j = WorkManager.work (Run.manager s) !! j /\
       Run.ledgers s' !! j = Run.ledgers s !! j) /\
    Run.ledgers s' !! i = Some lg' /\
    Inv.drained lg'.
Proof.
  intros HO Hm Hlg Hcl Hf HK.
  pose proof (Forall2_lookup_lr _ _ _ _ _ _ (Inv.orderly_sane _ _ HO) Hm Hlg) as HSm.
  pose proof (Forall2_lookup_lr _ _ _ _ _ _ (Inv.orderly_tidy _ _ HO) Hm Hlg) as HTm.
  pose proof (Inv.sane_once _ _ HSm) as Honce.
  destruct (Run.outstanding lg) as [|k] eqn:Hout.
  - exists [], s, [], lg. split; [constructor|]. split; [simpl; lia|].
    split; [reflexivity|]. split; [exact HO|]. split; [reflexivity|].
    split; [auto|]. split; [exact Hlg|].
    assert (Hc : OffsetBatch.isEmpty (BatchManager.current m) = true).
    { destruct (OffsetBatch.isEmpty (BatchManager.current m)) eqn:Hc; [reflexivity|].
      destruct (Inv.sane_current _ _ HSm Hc); congruence. }
    split.
    + apply (Inv.tidy_current_none _ _ _ HTm). now apply ManagerFacts.isEmpty_true.
    + apply (Inv.tidy_pending_none _ _ _ HTm). apply ManagerFacts.isEmpty_true. auto.
  - assert (k = 0%nat) as -> by lia.
    destruct (pump _ _ _ _ _ HO Hm Hlg Hout Hcl)
      as (s1 & out1 & m1 & lg1 & Hs1 & HO1 & He1 & Hoth1 & Hm1 & Hlg1 & Hcl1 & Hcase).
    destruct Hcase as [[_ Hd] | (_ & Hout1 & Hp1)].
    + exists [Run.Fulfil i], s1, out1, lg1. split; [repeat constructor|].
      split; [simpl; lia|]. split; [now apply run_one|]. auto 10.
    + destruct (pump _ _ _ _ _ HO1 Hm1 Hlg1 Hout1 Hcl1)
        as (s2 & out2 & m2 & lg2 & Hs2 & HO2 & He2 & Hoth2 & Hm2 & Hlg2 & Hcl2 & Hcase).
      destruct Hcase as [[_ Hd] | (Hp1' & _)]; [|congruence].
      exists [Run.Fulfil i; Run.Fulfil i], s2, (out1 ++ out2), lg2.
      split; [repeat constructor|]. split; [simpl; lia|].
      split.
      { change [Run.Fulfil i; Run.Fulfil i] with ([Run.Fulfil (K:=K) (T:=T) (E:=E) i] ++ [Run.Fulfil i]).
        rewrite StepFacts.run_app_eq, (run_one _ _ _ _ Hs1), (run_one _ _ _ _ Hs2).
        reflexivity. }
      split; [exact HO2|]. split; [now rewrite errors_app, He1, He2|].
      split; [|auto].
      intros j Hj. destruct (Hoth1 j Hj) as [<- <-]. now apply Hoth2.
Qed.

(** The managers come to rest one after the other. *)
Lemma drain_upto hi s k :
  Inv.Orderly hi s ->
  (forall j m, WorkManager.work (Run.manager s) !! j = Some m ->
               BatchManager.closed m = false /\ Course.Keen m) ->
  (forall j lg, Run.ledgers s !! j = Some lg -> Run.failed lg = false) ->
  (k <= length (Run.ledgers s))%nat ->
  exists settle s' out,
    Forall Course.fulfils settle /\
    (length settle <= 2 * k)%nat /\
    run s settle = Some (s', out) /\
    Inv.Orderly hi s' /\
    Course.errors out = [] /\
    (forall j lg, (j < k)%nat -> Run.ledgers s' !! j = Some lg -> Inv.drained lg) /\
    (forall j, (k <= j)%nat ->
       WorkManager.work (Run.manager s') !! j = WorkManager.work (Run.manager s) !! j /\
       Run.ledgers s' !! j = Run.ledgers s !! j).
Proof.
  intros HO Hopen Hsound. induction k as [|k IH]; intros Hk.
  - exists [], s, []. split; [constructor|]. split; [simpl; lia|].
    split; [reflexivity|]. split; [exact HO|]. split; [reflexivity|].
    split; [intros j lg Hj; lia|auto].
  - destruct IH as (settle1 & s1 & out1 & Hf1 & Hl1 & Hr1 & HO1 & He1 & Hd1 & Hoth1); [lia|].
    destruct (Hoth1 k) as [Hwk Hlk]; [lia|].
    assert (Hlen : length (WorkManager.work (Run.manager s)) = length (Run.ledgers s)).
    { eapply Forall2_length. exact (Inv.orderly_sane _ _ HO). }
    destruct (lookup_lt_is_Some_2 (Run.ledgers s) k) as [lg Hlg]; [lia|].
    destruct (lookup_lt_is_Some_2 (WorkManager.work (Run.manager s)) k) as [m Hm]; [lia|].
    destruct (Hopen _ _ Hm) as [Hcl HK].
    rewrite Hm in Hwk. rewrite Hlg in Hlk.
    destruct (drain_one _ _ _ _ _ HO1 Hwk Hlk Hcl (Hsound _ _ Hlg) HK)
      as (settle2 & s2 & out2 & lg2 & Hf2 & Hl2 & Hr2 & HO2 & He2 & Hoth2 & Hlg2 & Hd2).
    exists (settle1 ++ settle2), s2, (out1 ++ out2).
    split; [now apply Forall_app|]. split; [rewrite length_app; lia|].
    split; [rewrite StepFacts.run_app_eq, Hr1, Hr2; reflexivity|].
    split; [exact HO2|]. split; [now rewrite errors_app, He1, He2|].
    split.
    + intros j lg' Hj Hlg'. destruct (decide (j = k)) as [-> | Hne].
      * rewrite Hlg2 in Hlg'. now injection Hlg' as <-.
      * destruct (Hoth2 j Hne) as [_ Heq]. rewrite Heq in Hlg'.
        apply (Hd1 j); [lia|exact Hlg'].
    + intros j Hj. destruct (Hoth2 j) as [-> ->]; [lia|]. apply Hoth1. lia.
Qed.

Lemma failures_none (lgs : list Run.Ledger) j lg :
  Course.failures lgs = 0%nat -> lgs !! j = Some lg -> Run.failed lg = false.
Proof.
  unfold Course.failures. revert j.
  induction lgs as [|x lgs IH]; intros [|j] H Hj; simpl in *; try discriminate.
  - injection Hj as ->. destruct (Run.failed lg); [discriminate|reflexivity].
  - destruct (Run.failed x); [discriminate|]. eauto.
Qed.

End Course.

Section Offsets.
Context {T : Type}.

Lemma scan_snoc acc (ws : list (BatchManager.t T)) m :
  WorkManager.scan acc (ws ++ [m]) =
  (Offset.max (fst (WorkManager.scan acc ws)) (Range.head (BatchManager.range m)),
   Range.union (snd (WorkManager.scan acc ws)) (BatchManager.range m)).
Proof. unfold WorkManager.scan. now rewrite fold_left_app. Qed.

Lemma derived_createBatchedWork (w : WorkManager.t T) :
  WorkManager.derived (WorkManager.createBatchedWork w) = WorkManager.derived w.
Proof.
  unfold WorkManager.derived, WorkManager.createBatchedWork. simpl.
  rewrite scan_snoc.
  destruct (WorkManager.scan (WorkManager.lastOffset w, Range.new) (WorkManager.work w))
    as [maxHead range]. simpl.
  rewrite OffsetFacts.max_neginf. unfold Range.union. simpl.
  destruct (Range.empty range) eqn:He; simpl; [reflexivity|]. now rewrite He.
Qed.

End Offsets.

End CourseFacts.

(** X3.  In every execution the offset of an [OffsetBatch] and its batch
    agree, for [pending] and for [current] of every manager: the batch has no
    group when [isEmpty] says so, and otherwise has groups, none of them
    empty, under distinct keys. *)
Theorem offset_batch_agreement {K T E : Type} (JSON_stringify : K -> string)
    (n : nat) (evs : list (Run.Event K T E)) (s : Run.t T) (out : list (Run.Effect T E))
    (i : nat) (m : BatchManager.t T) (b : OffsetBatch.t T) :
  Run.run JSON_stringify (Run.init n) evs = Some (s, out) ->
  WorkManager.work (Run.manager s) !! i = Some m ->
  b = BatchManager.pending m \/ b = BatchManager.current m ->
  (OffsetBatch.isEmpty b = true <-> OffsetBatch.batch b = []) /\
  Forall (fun kv => snd kv <> []) (OffsetBatch.batch b) /\
  List.NoDup (Grouping.keys (OffsetBatch.batch b)).
Proof.
  intros Hrun Hm Hb.
  destruct (CourseFacts.init_changes JSON_stringify _ _ _ _ _ _ Hrun Hm) as (lg & _ & Hch).
  destruct (CourseFacts.Stocked_changes JSON_stringify _ _ _ _ _ _ _ Hch
              CourseFacts.Stocked_new) as [[Hp Hc] _].
  assert (HP : Course.Packed b) by (destruct Hb as [-> | ->]; assumption).
  destruct HP as [H1 H2 H3 H4]. repeat split; auto.
  - intros He. apply H1. now apply ManagerFacts.isEmpty_true.
  - intros Hnil. destruct (OffsetBatch.isEmpty b) eqn:He; [reflexivity|].
    exfalso. now apply H2.
Qed.

(** X4.  The sender of a manager is never called with an empty batch: every
    batch it receives has at least one group, every group at least one value
    (the [work[0]] that [processMongoBatch] reads exists), and the keys of
    the groups are distinct. *)
Theorem sent_batches_full {K T E : Type} (JSON_stringify : K -> string)
    (n : nat) (evs : list (Run.Event K T E)) (s : Run.t T) (out : list (Run.Effect T E))
    (i : nat) (b : Batch.t T) :
  Run.run JSON_stringify (Run.init n) evs = Some (s, out) ->
  In (Run.Sent i b) out ->
  b <> [] /\
  (forall key work, In (key, work) b -> exists first rest, work = first :: rest) /\
  List.NoDup (Grouping.keys b).
Proof.
  intros Hrun Hin.
  pose proof (CourseFacts.run_sent_index JSON_stringify _ _ _ _ _ _ Hrun Hin) as Hi.
  destruct (CourseFacts.run_length JSON_stringify _ _ _ _ Hrun) as [Hlen _].
  rewrite <- Hlen in Hi. apply lookup_lt_is_Some in Hi as [m Hm].
  destruct (CourseFacts.init_changes JSON_stringify _ _ _ _ _ _ Hrun Hm) as (lg & _ & Hch).
  destruct (CourseFacts.Stocked_changes JSON_stringify _ _ _ _ _ _ _ Hch
              CourseFacts.Stocked_new) as [_ HF].
  apply CourseFacts.In_sentBy in Hin.
  rewrite List.Forall_forall in HF. destruct (HF b Hin) as (H1 & H2 & H3).
  repeat split; auto.
  intros key work Hkw. rewrite List.Forall_forall in H2.
  specialize (H2 _ Hkw). simpl in H2. destruct work as [|first rest]; [congruence|eauto].
Qed.


(** X5.  Every value is handed to the sender at most once and in order: for
    every manager and every encoded key, the values of that key in the
    batches its sender was called with, batch after batch, followed by those
    still in [pending], are the values passed to [add] under that key, in the
    order of the calls.  When [pending] is empty every value added so far has
    been handed to the sender exactly once. *)
Theorem values_handed_once {K T E : Type} (JSON_stringify : K -> string)
    (n : nat) (evs : list (Run.Event K T E)) (s : Run.t T) (out : list (Run.Effect T E))
    (i : nat) (m : BatchManager.t T) (key : string) :
  Run.run JSON_stringify (Run.init n) evs = Some (s, out) ->
  WorkManager.work (Run.manager s) !! i = Some m ->
  Course.handed key (Trace.sentBy i out) ++
    Grouping.group key (OffsetBatch.batch (BatchManager.pending m)) =
  Course.valuesTo JSON_stringify i key evs /\
  (OffsetBatch.isEmpty (BatchManager.pending m) = true ->
   Course.handed key (Trace.sentBy i out) = Course.valuesTo JSON_stringify i key evs).
Proof.
  intros Hrun Hm.
  destruct (CourseFacts.init_changes JSON_stringify _ _ _ _ _ _ Hrun Hm) as (lg & _ & Hch).
  pose proof (CourseFacts.flow_changes JSON_stringify _ _ _ _ _ _ _ key Hch
                CourseFacts.Stocked_new) as Hflow.
  simpl in Hflow. split; [exact Hflow|].
  intros He. rewrite <- Hflow.
  destruct (CourseFacts.Stocked_changes JSON_stringify _ _ _ _ _ _ _ Hch
              CourseFacts.Stocked_new) as [[Hp _] _].
  apply ManagerFacts.isEmpty_true in He.
  rewrite (Course.packed_none _ Hp He). simpl. now rewrite app_nil_r.
Qed.

(** X6.  [workComplete] reports nothing but offsets that were added, in the
    order of the calls: the offsets a manager has emitted [workComplete]
    with, followed by the offset of [pending] when it holds one, form a
    subsequence of the offsets passed to its [add]. *)
Theorem completions_follow_adds {K T E : Type} (JSON_stringify : K -> string)
    (n : nat) (evs : list (Run.Event K T E)) (s : Run.t T) (out : list (Run.Effect T E))
    (i : nat) (m : BatchManager.t T) :
  Run.run JSON_stringify (Run.init n) evs = Some (s, out) ->
  WorkManager.work (Run.manager s) !! i = Some m ->
  sublist (Course.completions i out ++ Course.held (BatchManager.pending m))
          (Trace.offsetsTo i evs) /\
  sublist (Course.completions i out) (Trace.offsetsTo i evs).
Proof.
  intros Hrun Hm.
  assert (Hi : (i < n)%nat).
  { apply lookup_lt_Some in Hm.
    destruct (CourseFacts.run_length JSON_stringify _ _ _ _ Hrun) as [Hl _].
    destruct (CourseFacts.init_length (T:=T) n) as [Hn _]. lia. }
  destruct (CourseFacts.init_lookup (T:=T) n i Hi) as [Hm0 Hlg0].
  destruct (CourseFacts.Reported_run JSON_stringify _ _ _ _ _ _ _ [] [] Hrun
              (SaneFacts.AllSane_init n) Hm0 Hlg0) as (m' & lg' & Hm' & _ & [H1 _]).
  { split; [reflexivity|]. intros H. now exfalso. }
  simpl in H1. rewrite Hm in Hm'. injection Hm' as <-.
  split; [exact H1|]. eapply CourseFacts.sublist_drop; eauto.
Qed.

(** X7.  A manager emits [error] at most once: in every execution the number
    of [error] events equals the number of managers that have failed, and so
    is at most the number of managers. *)
Theorem one_error_per_manager {K T E : Type} (JSON_stringify : K -> string)
    (n : nat) (evs : list (Run.Event K T E)) (s : Run.t T) (out : list (Run.Effect T E)) :
  Run.run JSON_stringify (Run.init n) evs = Some (s, out) ->
  length (Course.errors out) = Course.failures (Run.ledgers s) /\
  (length (Course.errors out) <= n)%nat.
Proof.
  intros Hrun.
  pose proof (CourseFacts.failures_run JSON_stringify _ _ _ _ Hrun
                (SaneFacts.AllSane_init n)) as H.
  assert (H0 : Course.failures (Run.ledgers (Run.init (T:=T) n)) = 0%nat).
  { unfold Course.failures. simpl. clear. induction n; simpl; auto. }
  rewrite H0 in H. simpl in H. split; [now symmetry|].
  rewrite <- H. etransitivity; [apply CourseFacts.failures_le|].
  destruct (CourseFacts.run_length JSON_stringify _ _ _ _ Hrun) as [_ ->].
  now destruct (CourseFacts.init_length (T:=T) n) as [_ ->].
Qed.

(** X8.  When the offsets passed to [add] increase strictly, [assert.ok] in
    [updateOffset] never fails: no [AssertionError] is emitted, and the
    [error] events are the rejections of the senders, in their order.  The
    strictness matters: in [Course.replayed], where the offset 5 comes again
    after it was checkpointed, [updateOffset] throws. *)
Theorem assertion_never_fails {K T E : Type} (JSON_stringify : K -> string)
    (n : nat) (evs : list (Run.Event K T E)) (s : Run.t T) (out : list (Run.Effect T E)) :
  Trace.ascending (Run.offsetsOf evs) = true ->
  Run.run JSON_stringify (Run.init n) evs = Some (s, out) ->
  ~ In (Run.Error Run.AssertionError) out /\
  Course.errors out = Course.rejections evs /\
  Trace.nondescending (Run.offsetsOf Course.replayed) = true /\
  In (Run.Error Run.AssertionError) (Demo.emitted Course.replayed).
Proof.
  intros Hasc Hrun.
  destruct (TidyFacts.Orderly_run JSON_stringify NegInf (Run.init n) evs [] s out
              (TidyFacts.Orderly_init n)) as (hi & _ & _ & Hno); auto.
  { now rewrite app_nil_r. }
  split; [exact Hno|]. split; [eapply CourseFacts.errors_run; eauto|].
  split; [reflexivity|]. vm_compute. tauto.
Qed.

(** X9.  When the offsets passed to [add] increase strictly, the checkpoint
    never runs ahead of the log: [lastOffset], and every offset emitted with
    [offsetChanged], is at most the last offset delivered. *)
Theorem checkpoint_not_ahead {K T E : Type} (JSON_stringify : K -> string)
    (n : nat) (evs : list (Run.Event K T E)) (ev : Run.Event K T E)
    (s s' : Run.t T) (out out' : list (Run.Effect T E)) :
  Trace.ascending (Run.offsetsOf (evs ++ [ev])) = true ->
  Run.run JSON_stringify (Run.init n) evs = Some (s, out) ->
  Run.step JSON_stringify s ev = Some (s', out') ->
  Offset.le (WorkManager.lastOffset (Run.manager s'))
            (Inv.headOf (Run.offsetsOf (evs ++ [ev]))) /\
  (forall o, In (Run.OffsetChanged o) out' ->
             Offset.le o (Inv.headOf (Run.offsetsOf evs))).
Proof.
  intros Hasc Hrun Hstep.
  pose proof (StepFacts.run_step_last _ _ _ _ _ _ _ _ Hrun Hstep) as Hrun'.
  pose proof (CourseFacts.Orderly_run_last JSON_stringify NegInf _ _ _ _
                (TidyFacts.Orderly_init n) Hasc Hrun') as HO.
  pose proof (Inv.orderly_last _ _ HO) as Hlast.
  split; [exact Hlast|].
  intros o Hin. rewrite (CourseFacts.changed_is_last JSON_stringify _ _ _ _ _ Hstep Hin).
  rewrite CourseFacts.offsetsOf_app in Hlast.
  destruct ev as [j id value offset|j|j e| |j]; simpl in Hlast;
    rewrite ?app_nil_r in Hlast; try exact Hlast.
  exfalso.
  apply StepFacts.step_Add in Hstep as (m & lg & m' & sent & _ & _ & _ & _ & ->).
  destruct sent; simpl in Hin; [destruct Hin as [H | []]; discriminate|destruct Hin].
Qed.

(** X10.  [updateOffset] is idempotent: called again with no change of the
    ranges in between, it emits nothing, leaves [lastOffset] as it is, and
    does not throw. *)
Theorem updateOffset_idempotent {T : Type} (w w' : WorkManager.t T)
    (changed : option Offset.t) :
  WorkManager.updateOffset w = Some (w', changed) ->
  WorkManager.updateOffset w' = Some (w', None).
Proof.
  unfold WorkManager.updateOffset.
  destruct (Offset.leb (WorkManager.lastOffset w) (WorkManager.derived w)) eqn:Hle;
    [|discriminate].
  destruct (Offset.eqb (WorkManager.derived w) (WorkManager.lastOffset w)) eqn:Heq; simpl;
    intros [= <- <-].
  - now rewrite Hle, Heq.
  - simpl. rewrite TidyFacts.derived_idem.
    assert (H1 : Offset.leb (WorkManager.derived w) (WorkManager.derived w) = true)
      by (apply OffsetFacts.leb_le, OffsetFacts.le_refl).
    assert (H2 : Offset.eqb (WorkManager.derived w) (WorkManager.derived w) = true)
      by now apply OffsetFacts.eqb_eq.
    now rewrite H1, H2.
Qed.

(** X11.  [createBatchedWork] does not move the checkpoint: the manager it
    adds has an empty range, so the offset [updateOffset] derives is the same
    with and without it, and [updateOffset] emits the same offset, or throws,
    as it would have before. *)
Theorem createBatchedWork_keeps_offset {T : Type} (w : WorkManager.t T) :
  WorkManager.derived (WorkManager.createBatchedWork w) = WorkManager.derived w /\
  WorkManager.lastOffset (WorkManager.createBatchedWork w) = WorkManager.lastOffset w /\
  match WorkManager.updateOffset w, WorkManager.updateOffset (WorkManager.createBatchedWork w) with
  | Some (w1, changed1), Some (w2, changed2) =>
      changed1 = changed2 /\ w2 = WorkManager.createBatchedWork w1
  | None, None => True
  | _, _ => False
  end.
Proof.
  split; [apply CourseFacts.derived_createBatchedWork|]. split; [reflexivity|].
  unfold WorkManager.updateOffset.
  rewrite CourseFacts.derived_createBatchedWork. simpl.
  destruct (Offset.leb _ _); [|exact I].
  destruct (negb _); split; reflexivity.
Qed.

(** ** The lambda as an execution of the system *)
Module HostedFacts.

Section Hosted.
Variable JSON_stringify : ScriptoriumLambda.Key -> string.
Variable JSON_parse : string -> IMongoTarget.t.
Variable stringify : JSON -> string.
Variable safelyParseJSON : string -> option Payload.t.
Variable opCollection : ICollection.
Variable contentCollection : option ICollection.

Local Abbreviation step := (Run.step (E:=Js.Error) JSON_stringify).
Local Abbreviation run := (Run.run (E:=Js.Error) JSON_stringify).
Local Abbreviation react :=
  (ScriptoriumLambda.react JSON_stringify JSON_parse stringify safelyParseJSON
     opCollection contentCollection).
Local Abbreviation exec :=
  (ScriptoriumLambda.exec JSON_stringify JSON_parse stringify safelyParseJSON
     opCollection contentCollection).

Lemma heard_app a b : Hosted.heard (a ++ b) = Hosted.heard a ++ Hosted.heard b.
Proof. apply List.filter_app. Qed.

Lemma heard_listen effs :
  Hosted.heard (List.concat (List.map ScriptoriumLambda.listen effs)) =
  List.concat (List.map ScriptoriumLambda.listen effs).
Proof.
  induction effs as [|e effs IH]; simpl; [reflexivity|].
  rewrite heard_app, IH. now destruct e.
Qed.

Lemma observe_Some r s out :
  ScriptoriumLambda.observe r = Some (s, out) ->
  exists effs, r = Some (s, effs) /\
               out = List.concat (List.map ScriptoriumLambda.listen effs).
Proof.
  destruct r as [[s1 effs]|]; simpl; [|discriminate].
  intros [= <- <-]. eauto.
Qed.

(** An input is no event, when the message does not parse, or one event of
    the system. *)
Lemma react_run s i s' out :
  react s i = Some (s', out) ->
  exists evs effs,
    run s evs = Some (s', effs) /\
    Forall Hosted.keyed evs /\
    Run.offsetsOf evs = Hosted.delivered safelyParseJSON [i] /\
    Hosted.heard out = List.concat (List.map ScriptoriumLambda.listen effs).
Proof.
  assert (Hone : forall ev s' out,
             Hosted.keyed ev ->
             ScriptoriumLambda.observe (step s ev) = Some (s', out) ->
             exists evs effs,
               run s evs = Some (s', effs) /\ Forall Hosted.keyed evs /\
               Run.offsetsOf evs = Run.offsetsOf [ev] /\
               Hosted.heard out = List.concat (List.map ScriptoriumLambda.listen effs)).
  { intros ev s1 out1 Hk Hobs.
    apply observe_Some in Hobs as (effs & Hs & ->).
    exists [ev], effs. cbn [Run.run]. rewrite Hs. simpl. rewrite app_nil_r.
    split; [reflexivity|]. split; [now constructor|]. split; [reflexivity|].
    apply heard_listen. }
  destruct i as [message| | |]; cbn [ScriptoriumLambda.react Hosted.delivered].
  - unfold ScriptoriumLambda.handler.
    destruct (safelyParseJSON (Inbound.value message)) as [payload|].
    + destruct (String.eqb _ _).
      * apply Hone. left. split; [reflexivity|]. eexists. split; reflexivity.
      * apply Hone. right. auto.
    + intros [= <- <-]. exists [], []. simpl. repeat split; auto.
  - unfold ScriptoriumLambda.mongoSettles.
    destruct (WorkManager.work (Run.manager s) !! ScriptoriumLambda.mongoManager) as [m|];
      cbn [mbind option_bind]; [|discriminate].
    destruct (Promise.outcome _); apply Hone; exact I.
  - apply Hone. exact I.
  - apply Hone. exact I.
Qed.

Lemma delivered_cons i inputs :
  Hosted.delivered safelyParseJSON (i :: inputs) =
  Hosted.delivered safelyParseJSON [i] ++ Hosted.delivered safelyParseJSON inputs.
Proof.
  destruct i as [message| | |]; simpl; auto.
  destruct (safelyParseJSON _); reflexivity.
Qed.

Lemma exec_run s inputs s' out :
  exec s inputs = Some (s', out) ->
  exists evs effs,
    run s evs = Some (s', effs) /\
    Forall Hosted.keyed evs /\
    Run.offsetsOf evs = Hosted.delivered safelyParseJSON inputs /\
    Hosted.heard out = List.concat (List.map ScriptoriumLambda.listen effs).
Proof.
  revert s out. induction inputs as [|i inputs IH]; intros s out Hexec.
  - simpl in Hexec. injection Hexec as <- <-. exists [], []. repeat split; auto.
  - cbn [ScriptoriumLambda.exec] in Hexec.
    destruct (react s i) as [[s1 out1]|] eqn:Hr; simpl in Hexec; [|discriminate].
    destruct (exec s1 inputs) as [[s2 out2]|] eqn:He; simpl in Hexec; [|discriminate].
    injection Hexec as <- <-.
    apply react_run in Hr as (evs1 & effs1 & Hr1 & Hk1 & Ho1 & Hh1).
    apply IH in He as (evs2 & effs2 & Hr2 & Hk2 & Ho2 & Hh2).
    exists (evs1 ++ evs2), (effs1 ++ effs2).
    split; [rewrite StepFacts.run_app_eq, Hr1, Hr2; reflexivity|].
    split; [now apply Forall_app|].
    split; [now rewrite CourseFacts.offsetsOf_app, Ho1, Ho2, <- delivered_cons|].
    now rewrite heard_app, Hh1, Hh2, List.map_app, List.concat_app.
Qed.

Lemma checkpoints_heard out : Host.checkpoints (Hosted.heard out) = Host.checkpoints out.
Proof.
  induction out as [|o out IH]; simpl; [reflexivity|].
  destruct o; simpl; now rewrite ?IH.
Qed.

Lemma In_heard i b out :
  In (ScriptoriumLambda.SendFn i b) out -> In (ScriptoriumLambda.SendFn i b) (Hosted.heard out).
Proof. intros H. apply List.filter_In. split; auto. Qed.

Lemma In_listen_Error err restart effs :
  In (ScriptoriumLambda.ContextError err restart)
     (List.concat (List.map ScriptoriumLambda.listen effs)) ->
  restart = true /\ In (Run.Error err) effs.
Proof.
  induction effs as [|e effs IH]; simpl; [tauto|].
  rewrite in_app_iff. intros [H | H]; [|split; [|right]; now apply IH].
  destruct e; simpl in H; try tauto; destruct H as [H | []]; try discriminate.
  injection H as <- <-. auto.
Qed.

Lemma In_heard_Error err restart out :
  In (ScriptoriumLambda.ContextError err restart) out ->
  In (ScriptoriumLambda.ContextError err restart) (Hosted.heard out).
Proof. intros H. apply List.filter_In. split; auto. Qed.

Lemma In_listen_Sent i b effs :
  In (ScriptoriumLambda.SendFn i b) (List.concat (List.map ScriptoriumLambda.listen effs)) ->
  In (Run.Sent i b) effs.
Proof.
  induction effs as [|e effs IH]; simpl; [tauto|].
  rewrite in_app_iff. intros [H | H]; [|auto].
  left. destruct e; simpl in H; try tauto; destruct H as [H | []]; congruence.
Qed.

End Hosted.

End HostedFacts.

(** X12.  The offsets the lambda passes to [context.checkpoint] increase
    strictly, whatever the messages, their offsets and the outcomes of the
    writes: from every state each is greater than [lastOffset] and than the
    one before. *)
Theorem host_checkpoints_increase
    (JSON_stringify : ScriptoriumLambda.Key -> string) (JSON_parse : string -> IMongoTarget.t)
    (stringify : JSON -> string) (safelyParseJSON : string -> option Payload.t)
    (opCollection : ICollection) (contentCollection : option ICollection)
    (s s' : ScriptoriumLambda.State) (inputs : list ScriptoriumLambda.Input)
    (out : list ScriptoriumLambda.Output) :
  ScriptoriumLambda.exec JSON_stringify JSON_parse stringify safelyParseJSON
    opCollection contentCollection s inputs = Some (s', out) ->
  Trace.rising_from (WorkManager.lastOffset (Run.manager s)) (Host.checkpoints out) = true /\
  WorkManager.lastOffset (Run.manager s') =
    match last (Host.checkpoints out) with
    | Some o => o
    | None => WorkManager.lastOffset (Run.manager s)
    end.
Proof.
  intros Hexec.
  apply HostedFacts.exec_run in Hexec as (evs & effs & Hrun & _ & _ & Hh).
  rewrite <- HostedFacts.checkpoints_heard, Hh, checkpoints_listen.
  destruct (run_offsetChanges _ _ _ _ _ Hrun) as (H1 & _ & H2). auto.
Qed.

(** X13.  After [ScriptoriumLambda.close] no sender is called again,
    whatever the lambda is given afterwards: messages are still accepted and
    sends in flight may still settle, but neither [processMongoBatch] nor the
    idle sender is started. *)
Theorem lambda_close_stops_sends
    (JSON_stringify : ScriptoriumLambda.Key -> string) (JSON_parse : string -> IMongoTarget.t)
    (stringify : JSON -> string) (safelyParseJSON : string -> option Payload.t)
    (opCollection : ICollection) (contentCollection : option ICollection)
    (before after : list ScriptoriumLambda.Input)
    (s0 s1 : ScriptoriumLambda.State) (out0 out1 : list ScriptoriumLambda.Output) :
  ScriptoriumLambda.exec JSON_stringify JSON_parse stringify safelyParseJSON
    opCollection contentCollection ScriptoriumLambda.new before = Some (s0, out0) ->
  ScriptoriumLambda.exec JSON_stringify JSON_parse stringify safelyParseJSON
    opCollection contentCollection s0 (ScriptoriumLambda.CloseLambda :: after) =
    Some (s1, out1) ->
  forall i b, ~ In (ScriptoriumLambda.SendFn i b) out1.
Proof.
  intros Hbefore Hafter i b Hin.
  apply HostedFacts.exec_run in Hbefore as (evs0 & effs0 & Hrun0 & _ & _ & _).
  cbn [ScriptoriumLambda.exec ScriptoriumLambda.react] in Hafter.
  unfold ScriptoriumLambda.close in Hafter. simpl in Hafter.
  destruct (ScriptoriumLambda.exec _ _ _ _ _ _ _ after) as [[s2 out2]|] eqn:He;
    simpl in Hafter; [|discriminate].
  injection Hafter as <- <-.
  apply HostedFacts.exec_run in He as (evs & effs & Hrun & _ & _ & Hh).
  apply HostedFacts.In_heard in Hin. rewrite Hh in Hin.
  apply HostedFacts.In_listen_Sent in Hin.
  pose proof (CourseFacts.run_sent_index _ _ _ _ _ _ _ Hrun Hin) as Hi. simpl in Hi.
  rewrite length_map in Hi.
  destruct (lookup_lt_is_Some_2 _ _ Hi) as [m Hm].
  destruct (CourseFacts.run_length _ _ _ _ _ Hrun0) as [Hl1 Hl2].
  destruct (CourseFacts.init_length (T:=ScriptoriumLambda.Work) 2) as [Hn1 Hn2].
  destruct (closed_run JSON_stringify _ _ _ _ i (BatchManager.close m) Hrun) as [Hnone _].
  - simpl. now apply LocalFacts.lookup_close_Some.
  - simpl. unfold ScriptoriumLambda.new in *. lia.
  - reflexivity.
  - apply CourseFacts.In_sentBy in Hin. rewrite Hnone in Hin. destruct Hin.
Qed.

(** X14.  The lambda groups what it writes by document: in every batch
    handed to [processMongoBatch] each group is not empty and holds only
    sequenced messages, none of them null, whose [{documentId, tenantId}]
    encodes to the key of the group, so that with an injective
    [JSON.stringify] one [insertMany] never mixes documents or tenants; the
    batches of the idle sender hold null values under the encoding of the
    null key.  No other sender exists. *)
Theorem groups_by_document
    (JSON_stringify : ScriptoriumLambda.Key -> string) (JSON_parse : string -> IMongoTarget.t)
    (stringify : JSON -> string) (safelyParseJSON : string -> option Payload.t)
    (opCollection : ICollection) (contentCollection : option ICollection)
    (inputs : list ScriptoriumLambda.Input)
    (s : ScriptoriumLambda.State) (out : list ScriptoriumLambda.Output)
    (i : nat) (b : Batch.t ScriptoriumLambda.Work)
    (key : string) (work : list ScriptoriumLambda.Work) :
  ScriptoriumLambda.exec JSON_stringify JSON_parse stringify safelyParseJSON
    opCollection contentCollection ScriptoriumLambda.new inputs = Some (s, out) ->
  In (ScriptoriumLambda.SendFn i b) out ->
  In (key, work) b ->
  work <> [] /\
  (i = ScriptoriumLambda.mongoManager \/ i = ScriptoriumLambda.idleManager) /\
  (i = ScriptoriumLambda.mongoManager ->
   (forall v, In v work ->
      exists message, v = Some message /\ JSON_stringify (Hosted.target message) = key) /\
   List.map Some (omap id work) = work /\
   ((forall k k', JSON_stringify k = JSON_stringify k' -> k = k') ->
    forall p q, In (Some p) work -> In (Some q) work ->
      Payload.documentId p = Payload.documentId q /\
      Payload.tenantId p = Payload.tenantId q)) /\
  (i = ScriptoriumLambda.idleManager ->
   key = JSON_stringify None /\ forall v, In v work -> v = None).
Proof.
  intros Hexec Hin Hkw.
  apply HostedFacts.exec_run in Hexec as (evs & effs & Hrun & Hk & _ & Hh).
  apply HostedFacts.In_heard in Hin. rewrite Hh in Hin.
  apply HostedFacts.In_listen_Sent in Hin.
  assert (Horigin : forall v, In v work ->
            (i = ScriptoriumLambda.mongoManager /\
             exists message, v = Some message /\
                             JSON_stringify (Hosted.target message) = key) \/
            (i = ScriptoriumLambda.idleManager /\ v = None /\ key = JSON_stringify None)).
  { intros v Hv.
    destruct (CourseFacts.sent_origin JSON_stringify _ _ _ _ _ _ _ _ _ Hrun Hin Hkw Hv)
      as (_ & id & offset & Hadd & Hid).
    rewrite List.Forall_forall in Hk. specialize (Hk _ Hadd). simpl in Hk.
    destruct Hk as [(-> & message & -> & ->) | (-> & -> & ->)]; [left|right]; eauto. }
  assert (Hne : work <> []).
  { destruct work as [|v rest]; [|discriminate]. exfalso.
    pose proof (CourseFacts.run_sent_index _ _ _ _ _ _ _ Hrun Hin) as Hi.
    destruct (CourseFacts.run_length _ _ _ _ _ Hrun) as [Hlen _].
    rewrite <- Hlen in Hi. apply lookup_lt_is_Some in Hi as [m Hm].
    destruct (CourseFacts.init_changes _ _ _ _ _ _ _ Hrun Hm) as (lg & _ & Hch).
    destruct (CourseFacts.Stocked_changes _ _ _ _ _ _ _ _ Hch CourseFacts.Stocked_new)
      as [_ HF].
    apply CourseFacts.In_sentBy in Hin.
    rewrite List.Forall_forall in HF. destruct (HF b Hin) as (_ & Hg & _).
    rewrite List.Forall_forall in Hg. now apply (Hg _ Hkw). }
  split; [exact Hne|].
  destruct work as [|v0 rest]; [congruence|].
  split.
  { destruct (Horigin v0) as [[-> _] | [-> _]]; [now left|now left|now right]. }
  split.
  - intros ->.
    assert (Hall : forall v, In v (v0 :: rest) ->
              exists message, v = Some message /\
                              JSON_stringify (Hosted.target message) = key).
    { intros v Hv. destruct (Horigin v Hv) as [[_ H] | [H _]]; [exact H|discriminate]. }
    split; [exact Hall|]. split.
    + clear - Hall. induction (v0 :: rest) as [|v l IH]; [reflexivity|].
      destruct (Hall v) as (message & -> & _); [now left|].
      simpl. f_equal. apply IH. intros v' Hv'. apply Hall. now right.
    + intros Hinj p q Hp Hq.
      destruct (Hall _ Hp) as (p' & [= <-] & Hkp).
      destruct (Hall _ Hq) as (q' & [= <-] & Hkq).
      assert (Heq : Hosted.target p = Hosted.target q) by (apply Hinj; congruence).
      unfold Hosted.target in Heq. injection Heq as H1 H2. auto.
  - intros ->. split.
    + destruct (Horigin v0) as [[H _] | (_ & _ & H)]; [now left|discriminate|exact H].
    + intros v Hv. destruct (Horigin v Hv) as [[H _] | (_ & H & _)]; [discriminate|exact H].
Qed.

(** X15.  The normalisation of [handler] does not change the updates of the
    sequence number: [updateSequenceNumber] issues the same calls, with the
    same arguments, for the messages as normalised and as received; and a
    message that causes an update keeps its contents (the contents are put
    into a string only for the messages without metadata, which cause no
    update). *)
Theorem normalise_keeps_updates (stringify : JSON -> string)
    (contentCollection : option ICollection) (messages : list Payload.t) :
  ScriptoriumLambda.updateSequenceNumber contentCollection
    (List.map (ScriptoriumLambda.normalise stringify) messages) =
  ScriptoriumLambda.updateSequenceNumber contentCollection messages /\
  (forall message,
     ScriptoriumLambda.splits (ScriptoriumLambda.normalise stringify message) =
     ScriptoriumLambda.splits message) /\
  (forall message,
     ScriptoriumLambda.splits message = true ->
     Operation.contents (Payload.operation (ScriptoriumLambda.normalise stringify message)) =
     Operation.contents (Payload.operation message)).
Proof.
  assert (Hs : forall message,
             ScriptoriumLambda.splits (ScriptoriumLambda.normalise stringify message) =
             ScriptoriumLambda.splits message).
  { intros [ty te d [tr md c ci cs sn]]. unfold ScriptoriumLambda.splits,
      ScriptoriumLambda.normalise. simpl. now destruct (negb _). }
  split; [|split; [exact Hs|]].
  - unfold ScriptoriumLambda.updateSequenceNumber.
    destruct contentCollection as [collection|]; [|reflexivity].
    assert (Heq : forall f : Payload.t -> Promise.t Js.Error,
               (forall message, f (ScriptoriumLambda.normalise stringify message) = f message) ->
               List.map f (List.filter ScriptoriumLambda.splits
                             (List.map (ScriptoriumLambda.normalise stringify) messages)) =
               List.map f (List.filter ScriptoriumLambda.splits messages)).
    { intros f Hf. induction messages as [|message rest IH]; simpl; [reflexivity|].
      rewrite Hs. destruct (ScriptoriumLambda.splits message); simpl; [|exact IH].
      now rewrite Hf, IH. }
    rewrite Heq; [reflexivity|].
    intros [ty te d [tr md c ci cs sn]]. unfold ScriptoriumLambda.normalise. simpl.
    now destruct (negb _).
  - intros [ty te d [tr md c ci cs sn]]. unfold ScriptoriumLambda.splits,
      ScriptoriumLambda.normalise. simpl.
    destruct md as [metadata|]; [|discriminate]. simpl.
    destruct (Js.truthy metadata); simpl; [reflexivity|discriminate].
Qed.

(** X16.  Nothing is held back for ever.  When the offsets passed to [add]
    increase strictly, no manager is closed and no [error] was emitted, the
    sends in flight and those they start can all fulfil, at most two for a
    manager; after that every manager is at rest (nothing pending, nothing in
    flight), no [error] was emitted on the way, and [lastOffset] is the
    offset derived from the ranges. *)
Theorem pipelines_come_to_rest {K T E : Type} (JSON_stringify : K -> string)
    (n : nat) (evs : list (Run.Event K T E)) (s : Run.t T) (out : list (Run.Effect T E)) :
  Trace.ascending (Run.offsetsOf evs) = true ->
  Run.run JSON_stringify (Run.init n) evs = Some (s, out) ->
  Course.errors out = [] ->
  (forall j m, WorkManager.work (Run.manager s) !! j = Some m ->
               BatchManager.closed m = false) ->
  exists (settle : list (Run.Event K T E)) (s' : Run.t T) (out' : list (Run.Effect T E)),
    Forall Course.fulfils settle /\
    (length settle <= 2 * n)%nat /\
    Run.run JSON_stringify s settle = Some (s', out') /\
    Forall Inv.drained (Run.ledgers s') /\
    Course.errors out' = [] /\
    WorkManager.lastOffset (Run.manager s') = WorkManager.derived (Run.manager s').
Proof.
  intros Hasc Hrun Hnone Hopen.
  destruct (TidyFacts.Orderly_run JSON_stringify NegInf (Run.init n) evs [] s out
              (TidyFacts.Orderly_init n)) as (hi & HO & _ & _); auto.
  { now rewrite app_nil_r. }
  pose proof (CourseFacts.failures_run JSON_stringify _ _ _ _ Hrun
                (SaneFacts.AllSane_init n)) as Hfail.
  assert (H0 : Course.failures (Run.ledgers (Run.init (T:=T) n)) = 0%nat).
  { unfold Course.failures. simpl. clear. induction n; simpl; auto. }
  rewrite H0, Hnone in Hfail. simpl in Hfail.
  destruct (CourseFacts.run_length JSON_stringify _ _ _ _ Hrun) as [_ Hlen].
  destruct (CourseFacts.init_length (T:=T) n) as [_ Hn]. rewrite Hn in Hlen.
  assert (Hgood : forall j m, WorkManager.work (Run.manager s) !! j = Some m ->
                              BatchManager.closed m = false /\ Course.Keen m).
  { intros j m Hm. split; [eauto|].
    destruct (CourseFacts.init_changes JSON_stringify _ _ _ _ _ _ Hrun Hm) as (lg & _ & Hch).
    eapply CourseFacts.Keen_changes; eauto. apply CourseFacts.Keen_new. }
  assert (Hsound : forall j lg, Run.ledgers s !! j = Some lg -> Run.failed lg = false).
  { intros j lg Hlg. exact (CourseFacts.failures_none _ _ _ Hfail Hlg). }
  assert (Hle : (n <= length (Run.ledgers s))%nat) by lia.
  destruct (CourseFacts.drain_upto (E:=E) JSON_stringify hi s n HO Hgood Hsound Hle)
    as (settle & s' & out' & Hf & Hl & Hr & HO' & He & Hd & _).
  exists settle, s', out'. repeat (split; [assumption|]).
  assert (HD : Forall Inv.drained (Run.ledgers s')).
  { apply Forall_lookup. intros j lg Hlg. apply (Hd j); [|exact Hlg].
    apply lookup_lt_Some in Hlg.
    destruct (CourseFacts.run_length JSON_stringify _ _ _ _ Hr) as [_ Hlen']. lia. }
  split; [exact HD|]. split; [exact He|].
  now apply (Inv.orderly_quiet _ _ HO').
Qed.

(** ** The rejections the lambda reports *)
Module RejectionFacts.

Section Flight.
Context {K T E : Type}.
Variable JSON_stringify : K -> string.
Implicit Types (s : Run.t T) (m : BatchManager.t T) (lg : Run.Ledger).

Local Abbreviation step := (Run.step (E:=E) JSON_stringify).
Local Abbreviation run := (Run.run (E:=E) JSON_stringify).

(** While a send is outstanding, [current] holds a batch the sender was
    called with. *)
Lemma flight_step s ev s' out i m lg (sent0 : list (Batch.t T)) :
  step s ev = Some (s', out) ->
  Inv.AllSane s ->
  WorkManager.work (Run.manager s) !! i = Some m ->
  Run.ledgers s !! i = Some lg ->
  (Run.outstanding lg <> 0%nat ->
   In (OffsetBatch.batch (BatchManager.current m)) sent0) ->
  exists m' lg',
    WorkManager.work (Run.manager s') !! i = Some m' /\
    Run.ledgers s' !! i = Some lg' /\
    (Run.outstanding lg' <> 0%nat ->
     In (OffsetBatch.batch (BatchManager.current m')) (sent0 ++ Trace.sentBy i out)).
Proof.
  intros Hstep HS Hm Hlg HP.
  pose proof (Forall2_lookup_lr _ _ _ _ _ _ HS Hm Hlg) as HSm.
  pose proof (Inv.sane_once _ _ HSm) as Honce.
  destruct (LocalFacts.step_change JSON_stringify _ _ _ _ _ _ _ Hstep Hm Hlg)
    as (m' & lg' & Hm' & Hlg' & Hch).
  exists m', lg'. split; [exact Hm'|]. split; [exact Hlg'|].
  destruct Hch as [out _ Hout|id value o m' sent _ Hadd|n m1 o _ Hn Hpr
                  |n m1 o m3 sent changed _ Hn Hpr Hnext|n e _ Hn|_].
  - rewrite Hout, app_nil_r. exact HP.
  - destruct (ManagerFacts.add_cases JSON_stringify id value o m)
      as [[_ Heq] | (_ & _ & Heq)]; rewrite Heq in Hadd; injection Hadd as <- <-; simpl.
    + rewrite app_nil_r. exact HP.
    + intros _. rewrite Nat.eqb_refl. apply in_app_iff. right. now left.
  - simpl. intros Ho. exfalso. lia.
  - apply ManagerFacts.processed_Some in Hpr as [_ ->].
    destruct (ManagerFacts.next_cases
                (BatchManager.mk (Range.mk (Fin o) (Range.head (BatchManager.range m)))
                   (BatchManager.pending m) (BatchManager.current m) (BatchManager.closed m)))
      as [[_ Heq] | (_ & _ & Heq)]; rewrite Heq in Hnext; injection Hnext as <- <-;
      cbn [Trace.sentBy]; rewrite LocalFacts.sentBy_app, LocalFacts.sentBy_changes; simpl.
    + intros Ho. exfalso. lia.
    + intros _. rewrite Nat.eqb_refl. apply in_app_iff. right. now left.
  - simpl. intros Ho. exfalso. lia.
  - rewrite app_nil_r. exact HP.
Qed.

Lemma flight_run s evs s' out i m lg (sent0 : list (Batch.t T)) :
  run s evs = Some (s', out) ->
  Inv.AllSane s ->
  WorkManager.work (Run.manager s) !! i = Some m ->
  Run.ledgers s !! i = Some lg ->
  (Run.outstanding lg <> 0%nat ->
   In (OffsetBatch.batch (BatchManager.current m)) sent0) ->
  exists m' lg',
    WorkManager.work (Run.manager s') !! i = Some m' /\
    Run.ledgers s' !! i = Some lg' /\
    (Run.outstanding lg' <> 0%nat ->
     In (OffsetBatch.batch (BatchManager.current m')) (sent0 ++ Trace.sentBy i out)).
Proof.
  revert s out m lg sent0.
  induction evs as [|ev evs IH]; intros s out m lg sent0 Hrun HS Hm Hlg HP.
  - simpl in Hrun. injection Hrun as <- <-. exists m, lg. simpl. now rewrite app_nil_r.
  - apply StepFacts.run_cons in Hrun as (s1 & out1 & out2 & Hs & Hr & ->).
    destruct (flight_step _ _ _ _ _ _ _ _ Hs HS Hm Hlg HP) as (m1 & lg1 & Hm1 & Hlg1 & HP1).
    pose proof (SaneFacts.AllSane_step _ _ _ _ _ HS Hs) as HS1.
    destruct (IH _ _ _ _ _ Hr HS1 Hm1 Hlg1 HP1) as (m' & lg' & Hm' & Hlg' & HP').
    exists m', lg'. split; [exact Hm'|]. split; [exact Hlg'|].
    now rewrite LocalFacts.sentBy_app, app_assoc.
Qed.

(** The batch of a send in flight was handed to the sender. *)
Lemma flight_sent n evs s out i m lg :
  run (Run.init n) evs = Some (s, out) ->
  WorkManager.work (Run.manager s) !! i = Some m ->
  Run.ledgers s !! i = Some lg ->
  Run.outstanding lg <> 0%nat ->
  In (Run.Sent i (OffsetBatch.batch (BatchManager.current m))) out.
Proof.
  intros Hrun Hm Hlg Ho.
  assert (Hi : (i < n)%nat).
  { apply lookup_lt_Some in Hm.
    destruct (CourseFacts.run_length JSON_stringify _ _ _ _ Hrun) as [Hl _].
    destruct (CourseFacts.init_length (T:=T) n) as [Hn _]. lia. }
  destruct (CourseFacts.init_lookup (T:=T) n i Hi) as [Hm0 Hlg0].
  destruct (flight_run _ _ _ _ i _ _ [] Hrun (SaneFacts.AllSane_init n) Hm0 Hlg0)
    as (m' & lg' & Hm' & Hlg' & HP).
  { simpl. intros H. now exfalso. }
  rewrite Hm in Hm'. rewrite Hlg in Hlg'. injection Hm' as <-. injection Hlg' as <-.
  apply CourseFacts.In_sentBy. exact (HP Ho).
Qed.

End Flight.

Section Rejections.
Variable JSON_stringify : ScriptoriumLambda.Key -> string.
Variable JSON_parse : string -> IMongoTarget.t.
Variable stringify : JSON -> string.
Variable safelyParseJSON : string -> option Payload.t.
Variable opCollection : ICollection.
Variable contentCollection : option ICollection.

Local Abbreviation step := (Run.step (E:=Js.Error) JSON_stringify).
Local Abbreviation run := (Run.run (E:=Js.Error) JSON_stringify).
Local Abbreviation react :=
  (ScriptoriumLambda.react JSON_stringify JSON_parse stringify safelyParseJSON
     opCollection contentCollection).
Local Abbreviation exec :=
  (ScriptoriumLambda.exec JSON_stringify JSON_parse stringify safelyParseJSON
     opCollection contentCollection).
Local Abbreviation processMongoBatch :=
  (ScriptoriumLambda.processMongoBatch JSON_parse opCollection contentCollection).

Local Abbreviation accounted :=
  (Hosted.accounted JSON_parse opCollection contentCollection).

Lemma accounted_mono sent sent' err :
  (forall b, In b sent -> In b sent') -> accounted sent err -> accounted sent' err.
Proof.
  intros Hsub [H | (e & batch & H1 & H2 & H3)]; [now left|].
  right. exists e, batch. auto.
Qed.

Lemma In_listen_effect err restart effs :
  In (ScriptoriumLambda.ContextError err restart)
     (List.concat (List.map ScriptoriumLambda.listen effs)) ->
  restart = true /\ In (Run.Error err) effs.
Proof. apply HostedFacts.In_listen_Error. Qed.

Lemma react_accounted n evs0 effs0 s i s' out err restart :
  run (Run.init n) evs0 = Some (s, effs0) ->
  react s i = Some (s', out) ->
  In (ScriptoriumLambda.ContextError err restart) out ->
  restart = true /\
  accounted (Trace.sentBy ScriptoriumLambda.mongoManager effs0) err.
Proof.
  intros Hrun0 Hreact Hin.
  assert (Hquiet : forall ev s1 out1,
             (forall e, ev <> Run.Reject ScriptoriumLambda.mongoManager e) ->
             (forall j e, ev = Run.Reject j e -> False) ->
             ScriptoriumLambda.observe (step s ev) = Some (s1, out1) ->
             In (ScriptoriumLambda.ContextError err restart) out1 ->
             restart = true /\ err = Run.AssertionError).
  { intros ev s1 out1 _ Hnr Hobs Hin1.
    apply HostedFacts.observe_Some in Hobs as (effs & Hs & ->).
    apply In_listen_effect in Hin1 as [-> Hin1]. split; [reflexivity|].
    apply CourseFacts.In_errors in Hin1.
    destruct (CourseFacts.errors_step JSON_stringify _ _ _ _ Hs) as [He | He];
      rewrite He in Hin1.
    - destruct ev; simpl in Hin1; try (now destruct Hin1).
      exfalso. eapply Hnr. reflexivity.
    - destruct Hin1 as [<- | []]. reflexivity. }
  destruct i as [message| | |]; cbn [ScriptoriumLambda.react] in Hreact.
  - unfold ScriptoriumLambda.handler in Hreact.
    destruct (safelyParseJSON (Inbound.value message)) as [payload|].
    + destruct (String.eqb _ _);
        (eapply Hquiet in Hreact as [-> ->]; [split; [reflexivity|now left]| | |exact Hin]);
        discriminate.
    + injection Hreact as <- <-. destruct Hin as [H | []]. discriminate.
  - unfold ScriptoriumLambda.mongoSettles in Hreact.
    destruct (WorkManager.work (Run.manager s) !! ScriptoriumLambda.mongoManager) as [m|] eqn:Hm;
      cbn [mbind option_bind] in Hreact; [|discriminate].
    destruct (Promise.outcome _) as [|e] eqn:Hout.
    + eapply Hquiet in Hreact as [-> ->]; [split; [reflexivity|now left]| | |exact Hin];
        discriminate.
    + apply HostedFacts.observe_Some in Hreact as (effs & Hs & ->).
      apply In_listen_effect in Hin as [-> Hin]. split; [reflexivity|].
      apply StepFacts.step_Reject in Hs as (m0 & lg & k & Hm0 & Hlg & Hk & _ & ->).
      destruct Hin as [[= <-] | []].
      rewrite Hm in Hm0. injection Hm0 as <-.
      right. exists e, (OffsetBatch.batch (BatchManager.current m)).
      split; [reflexivity|]. split; [|exact Hout].
      apply CourseFacts.In_sentBy.
      eapply flight_sent; eauto. lia.
  - unfold ScriptoriumLambda.idleSettles in Hreact.
    eapply Hquiet in Hreact as [-> ->]; [split; [reflexivity|now left]| | |exact Hin];
      discriminate.
  - unfold ScriptoriumLambda.close in Hreact.
    eapply Hquiet in Hreact as [-> ->]; [split; [reflexivity|now left]| | |exact Hin];
      discriminate.
Qed.

Lemma In_Sent_listen i b effs :
  In (Run.Sent i b) effs ->
  In (ScriptoriumLambda.SendFn i b) (List.concat (List.map ScriptoriumLambda.listen effs)).
Proof.
  induction effs as [|e effs IH]; simpl; [tauto|].
  intros [-> | H]; apply in_app_iff; [left; now left|right; auto].
Qed.

Lemma In_heard_out o out : In o (Hosted.heard out) -> In o out.
Proof. intros H. now apply List.filter_In in H as [H _]. Qed.

Lemma exec_accounted n evs0 effs0 s inputs s' out err restart :
  run (Run.init n) evs0 = Some (s, effs0) ->
  exec s inputs = Some (s', out) ->
  In (ScriptoriumLambda.ContextError err restart) out ->
  restart = true /\
  (err = Run.AssertionError \/
   exists e batch,
     err = Run.SendRejected e /\
     (In (Run.Sent ScriptoriumLambda.mongoManager batch) effs0 \/
      In (ScriptoriumLambda.SendFn ScriptoriumLambda.mongoManager batch) out) /\
     Promise.outcome (processMongoBatch (ScriptoriumLambda.typed batch)) = Rejected e).
Proof.
  revert s out evs0 effs0.
  induction inputs as [|i inputs IH]; intros s out evs0 effs0 Hrun0 Hexec Hin.
  - simpl in Hexec. injection Hexec as <- <-. destruct Hin.
  - cbn [ScriptoriumLambda.exec] in Hexec.
    destruct (react s i) as [[s1 out1]|] eqn:Hr; simpl in Hexec; [|discriminate].
    destruct (exec s1 inputs) as [[s2 out2]|] eqn:He; simpl in Hexec; [|discriminate].
    injection Hexec as <- <-.
    apply in_app_iff in Hin as [Hin | Hin].
    + destruct (react_accounted _ _ _ _ _ _ _ _ _ Hrun0 Hr Hin) as [-> Hacc].
      split; [reflexivity|].
      destruct Hacc as [H | (e & batch & H1 & H2 & H3)]; [now left|].
      right. exists e, batch. split; [exact H1|]. split; [|exact H3].
      left. now apply CourseFacts.In_sentBy.
    + destruct (HostedFacts.react_run _ _ _ _ _ _ _ _ _ _ Hr)
        as (evs1 & effs1 & Hr1 & _ & _ & Hh1).
      assert (Hrun1 : run (Run.init n) (evs0 ++ evs1) = Some (s1, effs0 ++ effs1))
        by (rewrite StepFacts.run_app_eq, Hrun0, Hr1; reflexivity).
      destruct (IH _ _ _ _ Hrun1 He Hin) as [-> Hacc]. split; [reflexivity|].
      destruct Hacc as [H | (e & batch & H1 & H2 & H3)]; [now left|].
      right. exists e, batch. split; [exact H1|]. split; [|exact H3].
      destruct H2 as [H2 | H2]; [|right; apply in_app_iff; now right].
      apply in_app_iff in H2 as [H2 | H2]; [now left|].
      right. apply in_app_iff. left. apply In_heard_out. rewrite Hh1.
      now apply In_Sent_listen.
Qed.

End Rejections.

End RejectionFacts.

(** X17.  When the offsets of the messages that parse increase strictly,
    the lambda never fails on its own assertion: every call of
    [context.error] carries the reason [processMongoBatch] rejected with on a
    batch that the mongo sender had been called with before, that reason is
    no duplicate-key error but the rejection of one of the groups of the
    batch, and the restart flag is set. *)
Theorem lambda_never_asserts
    (JSON_stringify : ScriptoriumLambda.Key -> string) (JSON_parse : string -> IMongoTarget.t)
    (stringify : JSON -> string) (safelyParseJSON : string -> option Payload.t)
    (opCollection : ICollection) (contentCollection : option ICollection)
    (inputs : list ScriptoriumLambda.Input)
    (s : ScriptoriumLambda.State) (out : list ScriptoriumLambda.Output)
    (err : Run.Failure Js.Error) (restart : bool) :
  Trace.ascending (Hosted.delivered safelyParseJSON inputs) = true ->
  ScriptoriumLambda.exec JSON_stringify JSON_parse stringify safelyParseJSON
    opCollection contentCollection ScriptoriumLambda.new inputs = Some (s, out) ->
  In (ScriptoriumLambda.ContextError err restart) out ->
  restart = true /\
  exists e batch,
    err = Run.SendRejected e /\
    In (ScriptoriumLambda.SendFn ScriptoriumLambda.mongoManager batch) out /\
    Promise.outcome
      (ScriptoriumLambda.processMongoBatch JSON_parse opCollection contentCollection
         (ScriptoriumLambda.typed batch)) = Rejected e /\
    ~ Storage.duplicateKey e /\
    exists key work,
      In (key, work) (ScriptoriumLambda.typed batch) /\
      Promise.outcome
        (ScriptoriumLambda.processMongoCore opCollection contentCollection work) =
        Rejected e.
Proof.
  intros Hasc Hexec Hin.
  destruct (RejectionFacts.exec_accounted JSON_stringify JSON_parse stringify
              safelyParseJSON opCollection contentCollection 2 [] [] _ _ _ _ _ _
              eq_refl Hexec Hin) as [-> Hacc].
  split; [reflexivity|].
  destruct Hacc as [-> | (e & batch & -> & Hsent & Hout)].
  - exfalso.
    apply HostedFacts.exec_run in Hexec as (evs & effs & Hrun & _ & Ho & Hh).
    apply HostedFacts.In_heard_Error in Hin. rewrite Hh in Hin.
    apply HostedFacts.In_listen_Error in Hin as [_ Hin].
    destruct (TidyFacts.Orderly_run JSON_stringify NegInf (Run.init 2) evs [] s effs
                (TidyFacts.Orderly_init 2)) as (hi & _ & _ & Hno); auto.
    rewrite app_nil_r, Ho. exact Hasc.
  - exists e, batch. split; [reflexivity|].
    destruct Hsent as [[] | Hsent]. split; [exact Hsent|]. split; [exact Hout|].
    destruct (batch_rejected JSON_parse opCollection contentCollection _ _ Hout)
      as (key & work & Hkw & Hcore).
    destruct (group_rejected opCollection contentCollection _ _ Hcore) as [Hnd _].
    split; [exact Hnd|]. exists key, work. auto.
Qed.

(** ** The theorems at concrete executions *)

Lemma offset_batch_agreement_witness :
  OffsetBatch.isEmpty (BatchManager.pending Hosted.busy) = true <->
  OffsetBatch.batch (BatchManager.pending Hosted.busy) = [].
Proof.
  pose proof (offset_batch_agreement Demo.encode 2 Demo.mixed (Demo.after Demo.mixed)
                (Demo.emitted Demo.mixed) 0 Hosted.busy (BatchManager.pending Hosted.busy)
                eq_refl eq_refl (or_introl eq_refl)) as H.
  destruct H as [H _]. exact H.
Defined.

Lemma sent_batches_full_witness :
  In (Run.Sent 0 [("D"%string, [10%Z])]) (Demo.emitted Demo.mixed) /\
  [("D"%string, [10%Z])] <> [].
Proof.
  assert (Hin : In (Run.Sent 0 [("D"%string, [10%Z])]) (Demo.emitted Demo.mixed))
    by (left; reflexivity).
  split; [exact Hin|].
  pose proof (sent_batches_full Demo.encode 2 Demo.mixed (Demo.after Demo.mixed)
                (Demo.emitted Demo.mixed) 0 [("D"%string, [10%Z])] eq_refl Hin) as H.
  destruct H as [H _]. exact H.
Defined.

Lemma values_handed_once_witness :
  Course.handed "D" (Trace.sentBy 0 (Demo.emitted Demo.mixed)) ++
    Grouping.group "D" (OffsetBatch.batch (BatchManager.pending Hosted.busy)) =
  Course.valuesTo Demo.encode 0 "D" Demo.mixed.
Proof.
  pose proof (values_handed_once Demo.encode 2 Demo.mixed (Demo.after Demo.mixed)
                (Demo.emitted Demo.mixed) 0 Hosted.busy "D" eq_refl eq_refl) as H.
  destruct H as [H _]. exact H.
Defined.

Lemma completions_follow_adds_witness :
  sublist (Course.completions 1 (Demo.emitted Demo.mixed)) (Trace.offsetsTo 1 Demo.mixed).
Proof.
  pose proof (completions_follow_adds Demo.encode 2 Demo.mixed (Demo.after Demo.mixed)
                (Demo.emitted Demo.mixed) 1
                (BatchManager.mk (Range.mk (Fin 2) (Fin 2)) OffsetBatch.new
                   OffsetBatch.new false)
                eq_refl eq_refl) as H.
  destruct H as [_ H]. exact H.
Defined.

Lemma one_error_per_manager_witness :
  (length (Course.errors (Demo.emitted Demo.rejected)) <= 2)%nat.
Proof.
  pose proof (one_error_per_manager Demo.encode 2 Demo.rejected (Demo.after Demo.rejected)
                (Demo.emitted Demo.rejected) eq_refl) as H.
  destruct H as [_ H]. exact H.
Defined.

Lemma assertion_never_fails_witness :
  Trace.ascending (Run.offsetsOf Demo.mixed) = true /\
  ~ In (Run.Error Run.AssertionError) (Demo.emitted Demo.mixed).
Proof.
  split; [reflexivity|].
  pose proof (assertion_never_fails Demo.encode 2 Demo.mixed (Demo.after Demo.mixed)
                (Demo.emitted Demo.mixed) eq_refl eq_refl) as H.
  destruct H as [H _]. exact H.
Defined.

Lemma checkpoint_not_ahead_witness :
  Trace.ascending (Run.offsetsOf (Demo.mixed ++ [Run.Fulfil 0])) = true /\
  Offset.le (WorkManager.lastOffset (Run.manager (Demo.after (Demo.mixed ++ [Run.Fulfil 0]))))
            (Inv.headOf (Run.offsetsOf (Demo.mixed ++ [Run.Fulfil 0]))).
Proof.
  split; [reflexivity|].
  pose proof (checkpoint_not_ahead Demo.encode 2 Demo.mixed (Run.Fulfil 0)
                (Demo.after Demo.mixed) (Demo.after (Demo.mixed ++ [Run.Fulfil 0]))
                (Demo.emitted Demo.mixed)
                (Demo.effects_from (Demo.after Demo.mixed) [Run.Fulfil 0])
                eq_refl eq_refl eq_refl) as H.
  destruct H as [H _]. exact H.
Defined.

Lemma updateOffset_idempotent_witness :
  WorkManager.updateOffset Hosted.stale =
    Some (WorkManager.mk (WorkManager.work Hosted.stale) (Fin 1), Some (Fin 1)) /\
  WorkManager.updateOffset (WorkManager.mk (WorkManager.work Hosted.stale) (Fin 1)) =
    Some (WorkManager.mk (WorkManager.work Hosted.stale) (Fin 1), None).
Proof.
  split; [reflexivity|].
  exact (updateOffset_idempotent Hosted.stale
           (WorkManager.mk (WorkManager.work Hosted.stale) (Fin 1)) (Some (Fin 1)) eq_refl).
Defined.

Lemma host_checkpoints_increase_witness :
  Trace.rising_from (WorkManager.lastOffset (Run.manager ScriptoriumLambda.new))
    (Host.checkpoints (LambdaDemo.outputs LambdaDemo.scenarioC)) = true.
Proof.
  pose proof (host_checkpoints_increase LambdaDemo.JSON_stringify LambdaDemo.JSON_parse
                LambdaDemo.stringify LambdaDemo.safelyParseJSON LambdaDemo.opCollection
                LambdaDemo.contentCollection ScriptoriumLambda.new
                (LambdaDemo.after LambdaDemo.scenarioC) LambdaDemo.scenarioC
                (LambdaDemo.outputs LambdaDemo.scenarioC) eq_refl) as H.
  destruct H as [H _]. exact H.
Defined.

Lemma lambda_close_stops_sends_witness :
  ~ In (ScriptoriumLambda.SendFn ScriptoriumLambda.mongoManager
          [(LambdaDemo.JSON_stringify (Hosted.target (LambdaDemo.sequenced 5)),
            [Some (ScriptoriumLambda.normalise LambdaDemo.stringify
                     (LambdaDemo.sequenced 5))])])
       (LambdaDemo.outputs
          [ScriptoriumLambda.CloseLambda; LambdaDemo.message 1 "op";
           LambdaDemo.message 2 "heartbeat"]).
Proof.
  exact (lambda_close_stops_sends LambdaDemo.JSON_stringify LambdaDemo.JSON_parse
           LambdaDemo.stringify LambdaDemo.safelyParseJSON LambdaDemo.opCollection
           LambdaDemo.contentCollection []
           [LambdaDemo.message 1 "op"; LambdaDemo.message 2 "heartbeat"]
           ScriptoriumLambda.new
           (LambdaDemo.after
              [ScriptoriumLambda.CloseLambda; LambdaDemo.message 1 "op";
               LambdaDemo.message 2 "heartbeat"])
           []
           (LambdaDemo.outputs
              [ScriptoriumLambda.CloseLambda; LambdaDemo.message 1 "op";
               LambdaDemo.message 2 "heartbeat"])
           eq_refl eq_refl ScriptoriumLambda.mongoManager
           [(LambdaDemo.JSON_stringify (Hosted.target (LambdaDemo.sequenced 5)),
             [Some (ScriptoriumLambda.normalise LambdaDemo.stringify
                      (LambdaDemo.sequenced 5))])]).
Defined.

Lemma groups_by_document_witness :
  In (ScriptoriumLambda.SendFn 0
        [(LambdaDemo.JSON_stringify (Hosted.target (LambdaDemo.sequenced 5)),
          [Some (ScriptoriumLambda.normalise LambdaDemo.stringify (LambdaDemo.sequenced 5))])])
     (LambdaDemo.outputs [LambdaDemo.message 1 "op"]) /\
  [Some (ScriptoriumLambda.normalise LambdaDemo.stringify (LambdaDemo.sequenced 5))] <> [].
Proof.
  assert (Hin : In (ScriptoriumLambda.SendFn 0
                      [(LambdaDemo.JSON_stringify (Hosted.target (LambdaDemo.sequenced 5)),
                        [Some (ScriptoriumLambda.normalise LambdaDemo.stringify
                                 (LambdaDemo.sequenced 5))])])
                   (LambdaDemo.outputs [LambdaDemo.message 1 "op"]))
    by (left; reflexivity).
  split; [exact Hin|].
  pose proof (groups_by_document LambdaDemo.JSON_stringify LambdaDemo.JSON_parse
                LambdaDemo.stringify LambdaDemo.safelyParseJSON LambdaDemo.opCollection
                LambdaDemo.contentCollection [LambdaDemo.message 1 "op"]
                (LambdaDemo.after [LambdaDemo.message 1 "op"])
                (LambdaDemo.outputs [LambdaDemo.message 1 "op"]) 0
                [(LambdaDemo.JSON_stringify (Hosted.target (LambdaDemo.sequenced 5)),
                  [Some (ScriptoriumLambda.normalise LambdaDemo.stringify
                           (LambdaDemo.sequenced 5))])]
                (LambdaDemo.JSON_stringify (Hosted.target (LambdaDemo.sequenced 5)))
                [Some (ScriptoriumLambda.normalise LambdaDemo.stringify
                         (LambdaDemo.sequenced 5))]
                eq_refl Hin (or_introl eq_refl)) as H.
  destruct H as [H _]. exact H.
Defined.

Lemma pipelines_come_to_rest_witness :
  Trace.ascending (Run.offsetsOf Demo.mixed) = true /\
  Course.errors (Demo.emitted Demo.mixed) = [] /\
  exists (settle : list Demo.Event) (s' : Run.t Z) (out' : list Demo.Effect),
    Forall Course.fulfils settle /\
    (length settle <= 2 * 2)%nat /\
    Run.run Demo.encode (Demo.after Demo.mixed) settle = Some (s', out') /\
    Forall Inv.drained (Run.ledgers s') /\
    Course.errors out' = [] /\
    WorkManager.lastOffset (Run.manager s') = WorkManager.derived (Run.manager s').
Proof.
  split; [reflexivity|]. split; [reflexivity|].
  assert (Hopen : forall j m,
             WorkManager.work (Run.manager (Demo.after Demo.mixed)) !! j = Some m ->
             BatchManager.closed m = false).
  { intros [|[|j]] m H; vm_compute in H; try discriminate; injection H as <-; reflexivity. }
  exact (pipelines_come_to_rest Demo.encode 2 Demo.mixed (Demo.after Demo.mixed)
           (Demo.emitted Demo.mixed) eq_refl eq_refl eq_refl Hopen).
Defined.

Lemma lambda_never_asserts_witness :
  In (ScriptoriumLambda.ContextError (Run.SendRejected Hosted.refused) true)
     [ScriptoriumLambda.SendFn 0
        [(LambdaDemo.JSON_stringify (Hosted.target (LambdaDemo.sequenced 5)),
          [Some (ScriptoriumLambda.normalise LambdaDemo.stringify (LambdaDemo.sequenced 5))])];
      ScriptoriumLambda.ContextError (Run.SendRejected Hosted.refused) true] /\
  true = true.
Proof.
  assert (Hin : In (ScriptoriumLambda.ContextError (Run.SendRejected Hosted.refused) true)
     [ScriptoriumLambda.SendFn 0
        [(LambdaDemo.JSON_stringify (Hosted.target (LambdaDemo.sequenced 5)),
          [Some (ScriptoriumLambda.normalise LambdaDemo.stringify (LambdaDemo.sequenced 5))])];
      ScriptoriumLambda.ContextError (Run.SendRejected Hosted.refused) true])
    by (right; left; reflexivity).
  split; [exact Hin|].
  pose proof (lambda_never_asserts LambdaDemo.JSON_stringify LambdaDemo.JSON_parse
                LambdaDemo.stringify LambdaDemo.safelyParseJSON Hosted.refusing None
                [LambdaDemo.message 1 "op"; ScriptoriumLambda.MongoSettles]
                Hosted.halted
                [ScriptoriumLambda.SendFn 0
                   [(LambdaDemo.JSON_stringify (Hosted.target (LambdaDemo.sequenced 5)),
                     [Some (ScriptoriumLambda.normalise LambdaDemo.stringify
                              (LambdaDemo.sequenced 5))])];
                 ScriptoriumLambda.ContextError (Run.SendRejected Hosted.refused) true]
                (Run.SendRejected Hosted.refused) true eq_refl eq_refl Hin) as H.
  destruct H as [H _]. exact H.
Defined.
(** * The system over the second reading of [Range.empty] *)

(** With [Range.empty] for the getter the definitions of [Reading] are
    those of the system above. *)
Lemma reading_step {K T E : Type} (JSON_stringify : K -> string)
    (s : Run.t T) (ev : Run.Event K T E) :
  Reading.step Range.empty JSON_stringify s ev = Run.step JSON_stringify s ev.
Proof. reflexivity. Qed.

Lemma reading_exec
    (JSON_stringify : ScriptoriumLambda.Key -> string) (JSON_parse : string -> IMongoTarget.t)
    (stringify : JSON -> string) (safelyParseJSON : string -> option Payload.t)
    (opCollection : ICollection) (contentCollection : option ICollection)
    (s : ScriptoriumLambda.State) (inputs : list ScriptoriumLambda.Input) :
  Reading.exec Range.empty JSON_stringify JSON_parse stringify safelyParseJSON
    opCollection contentCollection s inputs =
  ScriptoriumLambda.exec JSON_stringify JSON_parse stringify safelyParseJSON
    opCollection contentCollection s inputs.
Proof. reflexivity. Qed.

Module CaughtUpFacts.

Lemma max_assoc a b c :
  Offset.max (Offset.max a b) c = Offset.max a (Offset.max b c).
Proof.
  destruct a as [|x], b as [|y], c as [|z]; unfold Offset.max; simpl; try reflexivity;
    repeat match goal with
           | |- context [(?p <=? ?q)%Z] => destruct (Z.leb_spec p q); simpl
           end;
    try reflexivity; try (f_equal; lia); lia.
Qed.

Lemma max_lub a b c : Offset.le a c -> Offset.le b c -> Offset.le (Offset.max a b) c.
Proof. unfold Offset.max. destruct (Offset.leb a b); auto. Qed.

Lemma max_right a b : Offset.le a b -> Offset.max a b = b.
Proof. intros H. unfold Offset.max. apply OffsetFacts.leb_le in H. now rewrite H. Qed.

Lemma le_pred lo hi o :
  Offset.le lo hi -> Offset.lt hi (Fin o) -> Offset.le lo (Fin (o - 1)).
Proof. destruct lo, hi; simpl; intros; try lia; auto. Qed.

Lemma lt_pred o : Offset.lt (Fin (o - 1)) (Fin o).
Proof. simpl. lia. Qed.

Lemma lt_neq a b : Offset.lt a b -> a <> b.
Proof. intros H ->. now apply OffsetFacts.lt_irrefl in H. Qed.

Lemma caughtUp_true r : Reading.caughtUp r = true <-> Range.tail r = Range.head r.
Proof. unfold Reading.caughtUp. apply OffsetFacts.eqb_eq. Qed.

Lemma caughtUp_false r : Reading.caughtUp r = false <-> Range.tail r <> Range.head r.
Proof. unfold Reading.caughtUp. apply OffsetFacts.eqb_neq. Qed.

Lemma caughtUp_lt r : Offset.lt (Range.tail r) (Range.head r) -> Reading.caughtUp r = false.
Proof. intros H. apply caughtUp_false. now apply lt_neq. Qed.

Lemma proper_lt r :
  Reading.proper r -> Reading.caughtUp r = false -> Offset.lt (Range.tail r) (Range.head r).
Proof. intros Hp H. apply OffsetFacts.le_neq_lt; auto. now apply caughtUp_false. Qed.

Local Abbreviation union := (Reading.union Reading.caughtUp).

Lemma union_proper a b : Reading.proper a -> Reading.proper b -> Reading.proper (union a b).
Proof.
  unfold Reading.union, Reading.proper. intros Ha Hb.
  destruct (Reading.caughtUp a), (Reading.caughtUp b); simpl; auto.
  eapply OffsetFacts.le_trans; [apply OffsetFacts.min_l|].
  eapply OffsetFacts.le_trans; [exact Ha|apply OffsetFacts.max_l].
Qed.

Lemma caught_union_empty a b :
  Reading.proper a -> Reading.proper b ->
  Reading.caughtUp (union a b) = Reading.caughtUp a && Reading.caughtUp b.
Proof.
  unfold Reading.union. intros Ha Hb.
  destruct (Reading.caughtUp a) eqn:Ea, (Reading.caughtUp b) eqn:Eb; simpl; auto.
  apply caughtUp_lt. simpl.
  eapply OffsetFacts.le_lt_trans; [apply OffsetFacts.min_l|].
  eapply OffsetFacts.lt_le_trans; [apply proper_lt; eauto|apply OffsetFacts.max_l].
Qed.

Lemma caught_union_tail_cases a b :
  Reading.caughtUp (union a b) = false ->
  (Reading.caughtUp a = false /\ Range.tail (union a b) = Range.tail a) \/
  (Reading.caughtUp b = false /\ Range.tail (union a b) = Range.tail b).
Proof.
  unfold Reading.union.
  destruct (Reading.caughtUp a) eqn:Ha, (Reading.caughtUp b) eqn:Hb; simpl;
    intros H; try discriminate; auto.
  destruct (OffsetFacts.min_cases (Range.tail a) (Range.tail b)) as [-> | ->]; auto.
Qed.

Lemma caught_union_tail_l a b :
  Reading.caughtUp a = false -> Offset.le (Range.tail (union a b)) (Range.tail a).
Proof.
  unfold Reading.union. intros ->. simpl.
  destruct (Reading.caughtUp b); simpl; [apply OffsetFacts.le_refl|apply OffsetFacts.min_l].
Qed.

Lemma caught_union_tail_r a b :
  Reading.caughtUp b = false -> Offset.le (Range.tail (union a b)) (Range.tail b).
Proof.
  unfold Reading.union. intros ->. rewrite andb_false_r.
  destruct (Reading.caughtUp a); simpl; [apply OffsetFacts.le_refl|apply OffsetFacts.min_r].
Qed.

Section Scan.
Context {T : Type}.
Implicit Types (m : BatchManager.t T) (ws : list (BatchManager.t T)).
Implicit Types (acc : Offset.t * Range.t).

Local Abbreviation scan := (Reading.scan (T:=T) Reading.caughtUp).
Local Abbreviation derived := (Reading.derived (T:=T) Reading.caughtUp).
Local Abbreviation updateOffset := (Reading.updateOffset (T:=T) Reading.caughtUp).
Local Abbreviation Proper := (Forall (fun m : BatchManager.t T => Reading.proper (BatchManager.range m))).

Lemma caught_scan_cons acc m ws :
  scan acc (m :: ws) =
  scan (Offset.max (fst acc) (Range.head (BatchManager.range m)),
        union (snd acc) (BatchManager.range m)) ws.
Proof. reflexivity. Qed.

Lemma caught_scan_empty acc ws :
  Reading.proper (snd acc) -> Proper ws ->
  Reading.caughtUp (snd (scan acc ws)) =
  Reading.caughtUp (snd acc) &&
  forallb (fun m => Reading.caughtUp (BatchManager.range m)) ws.
Proof.
  intros Hacc Hws. revert acc Hacc. induction Hws as [|m ws Hm _ IH]; intros acc Hacc.
  - simpl. now rewrite andb_true_r.
  - rewrite caught_scan_cons, IH by (simpl; now apply union_proper). simpl.
    rewrite caught_union_empty by assumption. now rewrite andb_assoc.
Qed.

Lemma caught_scan_tail_acc acc ws :
  Reading.proper (snd acc) -> Proper ws ->
  Reading.caughtUp (snd acc) = false ->
  Offset.le (Range.tail (snd (scan acc ws))) (Range.tail (snd acc)).
Proof.
  intros Hacc Hws. revert acc Hacc. induction Hws as [|m ws Hm _ IH]; intros acc Hacc He.
  - apply OffsetFacts.le_refl.
  - rewrite caught_scan_cons.
    eapply OffsetFacts.le_trans.
    + apply IH; simpl; [now apply union_proper|].
      rewrite caught_union_empty by assumption. now rewrite He.
    + simpl. now apply caught_union_tail_l.
Qed.

Lemma caught_scan_tail_le acc ws m :
  Reading.proper (snd acc) -> Proper ws ->
  In m ws -> Reading.caughtUp (BatchManager.range m) = false ->
  Offset.le (Range.tail (snd (scan acc ws))) (Range.tail (BatchManager.range m)).
Proof.
  intros Hacc Hws. revert acc Hacc.
  induction Hws as [|m' ws Hm' Hws IH]; intros acc Hacc Hin Hm.
  - destruct Hin.
  - rewrite caught_scan_cons. destruct Hin as [-> | Hin].
    + eapply OffsetFacts.le_trans.
      * apply caught_scan_tail_acc; simpl; [now apply union_proper|exact Hws|].
        rewrite caught_union_empty by assumption. rewrite Hm. apply andb_false_r.
      * simpl. now apply caught_union_tail_r.
    + apply IH; auto. simpl. now apply union_proper.
Qed.

Lemma caught_scan_tail_cases acc ws :
  Reading.caughtUp (snd (scan acc ws)) = false ->
  (Reading.caughtUp (snd acc) = false /\
   Range.tail (snd (scan acc ws)) = Range.tail (snd acc)) \/
  (exists m, In m ws /\ Reading.caughtUp (BatchManager.range m) = false /\
             Range.tail (snd (scan acc ws)) = Range.tail (BatchManager.range m)).
Proof.
  revert acc. induction ws as [|m ws IH]; intros acc H.
  - left. auto.
  - rewrite caught_scan_cons in *. destruct (IH _ H) as [[He Ht] | (m' & Hin & Hm' & Ht)].
    + simpl in He, Ht. rewrite Ht.
      destruct (caught_union_tail_cases _ _ He) as [[Ha ->] | [Hb ->]].
      * left. auto.
      * right. exists m. simpl. auto.
    + right. exists m'. simpl. auto.
Qed.

Lemma scan_fst acc ws :
  fst (scan acc ws) = Offset.max (fst acc) (Reading.maxHead ws).
Proof.
  revert acc. induction ws as [|m ws IH]; intros acc.
  - simpl. now rewrite OffsetFacts.max_neginf.
  - rewrite caught_scan_cons, IH. simpl. apply max_assoc.
Qed.

Lemma caught_derived_unfold (w : WorkManager.t T) :
  derived w =
  let sc := scan (WorkManager.lastOffset w, Range.new) (WorkManager.work w) in
  if Reading.caughtUp (snd sc) then fst sc else Range.tail (snd sc).
Proof. unfold Reading.derived. now destruct (Reading.scan _ _ _). Qed.

Lemma proper_new : Reading.proper Range.new.
Proof. exact I. Qed.

(** The derived offset is the greatest of [lastOffset] and the heads when
    every range is empty, and the least tail of the ranges that are not,
    otherwise. *)
Lemma caught_derived_cases (w : WorkManager.t T) :
  Proper (WorkManager.work w) ->
  (derived w = Offset.max (WorkManager.lastOffset w) (Reading.maxHead (WorkManager.work w)) /\
   forall m, In m (WorkManager.work w) -> Reading.caughtUp (BatchManager.range m) = true) \/
  (exists m, In m (WorkManager.work w) /\
             Reading.caughtUp (BatchManager.range m) = false /\
             derived w = Range.tail (BatchManager.range m)).
Proof.
  intros Hw. rewrite caught_derived_unfold. cbv zeta.
  destruct (Reading.caughtUp (snd (scan _ _))) eqn:He.
  - left. rewrite caught_scan_empty in He by (auto using proper_new). simpl in He.
    split; [apply scan_fst|].
    intros m Hin. rewrite forallb_forall in He. now apply He.
  - right. destruct (caught_scan_tail_cases _ _ He) as [[Hacc _] | (m & Hin & Hm & Ht)].
    + simpl in Hacc. discriminate.
    + exists m. auto.
Qed.

Lemma caught_derived_le_tail (w : WorkManager.t T) m :
  Proper (WorkManager.work w) ->
  In m (WorkManager.work w) -> Reading.caughtUp (BatchManager.range m) = false ->
  Offset.le (derived w) (Range.tail (BatchManager.range m)).
Proof.
  intros Hw Hin Hm. rewrite caught_derived_unfold. cbv zeta.
  destruct (Reading.caughtUp (snd (scan _ _))) eqn:He.
  - rewrite caught_scan_empty in He by (auto using proper_new). simpl in He.
    rewrite forallb_forall in He. rewrite (He m Hin) in Hm. discriminate.
  - apply caught_scan_tail_le; auto using proper_new.
Qed.

Lemma caught_derived_ge (w : WorkManager.t T) lo :
  Proper (WorkManager.work w) ->
  Offset.le lo (WorkManager.lastOffset w) ->
  (forall m, In m (WorkManager.work w) -> Reading.caughtUp (BatchManager.range m) = false ->
             Offset.le lo (Range.tail (BatchManager.range m))) ->
  Offset.le lo (derived w).
Proof.
  intros Hw Hlo H. destruct (caught_derived_cases w Hw) as [[-> _] | (m & Hin & Hm & ->)]; auto.
  eapply OffsetFacts.le_trans; [exact Hlo|apply OffsetFacts.max_l].
Qed.

Lemma caught_updateOffset_Some (w w' : WorkManager.t T) changed :
  updateOffset w = Some (w', changed) ->
  WorkManager.work w' = WorkManager.work w /\
  WorkManager.lastOffset w' = derived w /\
  (changed = None \/ changed = Some (derived w)).
Proof.
  unfold Reading.updateOffset.
  destruct (Offset.leb _ _) eqn:Hle; [|discriminate].
  destruct (Offset.eqb _ _) eqn:Heq; simpl; intros [= <- <-]; simpl; auto.
  apply OffsetFacts.eqb_eq in Heq. auto.
Qed.

Lemma caught_updateOffset_None (w : WorkManager.t T) :
  updateOffset w = None -> Offset.lt (derived w) (WorkManager.lastOffset w).
Proof.
  unfold Reading.updateOffset.
  destruct (Offset.leb _ _) eqn:Hle.
  - destruct (negb _); discriminate.
  - intros _. now apply OffsetFacts.leb_gt.
Qed.

Lemma head_le_maxHead ws j m :
  ws !! j = Some m -> Offset.le (Range.head (BatchManager.range m)) (Reading.maxHead ws).
Proof.
  revert j. induction ws as [|x ws IH]; intros [|j] H; simpl in *; try discriminate.
  - injection H as ->. apply OffsetFacts.max_l.
  - eapply OffsetFacts.le_trans; [eapply IH; eauto|apply OffsetFacts.max_r].
Qed.

Lemma maxHead_le ws hi :
  Forall (fun m => Offset.le (Range.head (BatchManager.range m)) hi) ws ->
  Offset.le (Reading.maxHead ws) hi.
Proof.
  induction 1 as [|m ws Hm _ IH]; simpl; [exact I|]. now apply max_lub.
Qed.

Lemma maxHead_ext ws ws' :
  Forall2 (fun a b => Range.head (BatchManager.range a) = Range.head (BatchManager.range b))
    ws ws' ->
  Reading.maxHead ws = Reading.maxHead ws'.
Proof.
  unfold Reading.maxHead.
  induction 1 as [|a b ws ws' Hab _ IH]; cbn [fold_right List.map]; [reflexivity|].
  now rewrite Hab, IH.
Qed.

Lemma maxHead_new n : Reading.maxHead (replicate n (BatchManager.new (T:=T))) = NegInf.
Proof.
  unfold Reading.maxHead.
  induction n as [|n IH]; cbn [replicate fold_right List.map]; [reflexivity|].
  now rewrite IH.
Qed.

End Scan.

End CaughtUpFacts.

Module SettledFacts.

Section Settled.
Context {K T E : Type}.
Variable JSON_stringify : K -> string.
Implicit Types (s : Run.t T) (m : BatchManager.t T) (lg : Run.Ledger).
Implicit Types (out : list (Run.Effect T E)) (evs : list (Run.Event K T E)).

Local Abbreviation add := (Reading.add (T:=T) Reading.caughtUp JSON_stringify).
Local Abbreviation step := (Reading.step (E:=E) Reading.caughtUp JSON_stringify).
Local Abbreviation run := (Reading.run (E:=E) Reading.caughtUp JSON_stringify).
Local Abbreviation updateOffset := (Reading.updateOffset (T:=T) Reading.caughtUp).
Local Abbreviation derived := (Reading.derived (T:=T) Reading.caughtUp).

(** *** The manager *)

Lemma caught_add_cases id value offset m :
  let r := Reading.grown offset (BatchManager.range m) in
  let p := Inv.filled JSON_stringify id value offset (BatchManager.pending m) in
  ((OffsetBatch.isEmpty (BatchManager.current m) = false \/ BatchManager.closed m = true) /\
   add id value offset m =
   (BatchManager.mk r p (BatchManager.current m) (BatchManager.closed m), None)) \/
  (OffsetBatch.isEmpty (BatchManager.current m) = true /\
   BatchManager.closed m = false /\
   add id value offset m =
   (BatchManager.mk r (BatchManager.current m) p false, Some (OffsetBatch.batch p))).
Proof.
  destruct m as [r p c cl]. unfold Reading.add, BatchManager.requestSend,
    BatchManager.sendPending, Reading.grown, Inv.filled, Range.set_head, Range.set_tail. simpl.
  destruct (OffsetBatch.isEmpty c) eqn:Hc; simpl.
  - destruct cl; simpl.
    + left. split; auto. destruct (Reading.caughtUp r); reflexivity.
    + right. repeat split. destruct (Reading.caughtUp r); reflexivity.
  - left. split; auto. destruct (Reading.caughtUp r); reflexivity.
Qed.

(** [add] in the two readings: the managers differ in the tail only. *)
Lemma add_alike id value offset m m' sent :
  add id value offset m = (m', sent) ->
  exists m0,
    BatchManager.add JSON_stringify id value offset m = (m0, sent) /\
    BatchManager.pending m' = BatchManager.pending m0 /\
    BatchManager.current m' = BatchManager.current m0 /\
    BatchManager.closed m' = BatchManager.closed m0 /\
    Range.head (BatchManager.range m') = Range.head (BatchManager.range m0).
Proof.
  intros Hadd.
  destruct (caught_add_cases id value offset m) as [[Hor Heq] | (Hc & Hcl & Heq)];
    rewrite Heq in Hadd; injection Hadd as <- <-;
    destruct (ManagerFacts.add_cases JSON_stringify id value offset m)
      as [[Hor0 Heq0] | (Hc0 & Hcl0 & Heq0)];
    try (exfalso; destruct Hor; congruence);
    try (exfalso; destruct Hor0; congruence);
    rewrite Heq0; eexists; (split; [reflexivity|]); simpl; auto.
Qed.

Lemma Sane_alike m m0 lg :
  BatchManager.pending m = BatchManager.pending m0 ->
  BatchManager.current m = BatchManager.current m0 ->
  Range.head (BatchManager.range m) = Range.head (BatchManager.range m0) ->
  Inv.Sane m0 lg -> Inv.Sane m lg.
Proof.
  intros Hp Hc Hh [H1 H2 H3 H4 H5 H6 H7].
  split; unfold Range.empty in *; rewrite ?Hp, ?Hc, ?Hh; auto.
Qed.

(** *** Steps *)

Lemma caught_step_Add s i id value offset s' out :
  step s (Run.Add i id value offset) = Some (s', out) ->
  exists m lg m' sent,
    WorkManager.work (Run.manager s) !! i = Some m /\
    Run.ledgers s !! i = Some lg /\
    add id value offset m = (m', sent) /\
    s' = Run.mk (Run.set_work i m' (Run.manager s))
           (<[i := Run.launch sent (Run.noted offset lg)]> (Run.ledgers s)) /\
    out = Run.sends i sent.
Proof.
  simpl. intros H.
  destruct (WorkManager.work (Run.manager s) !! i) as [m|] eqn:Hm; [|discriminate].
  destruct (Run.ledgers s !! i) as [lg|] eqn:Hlg; [|discriminate].
  simpl in H. destruct (Reading.add _ _ _ _ _ _) as [m' sent] eqn:Hadd.
  injection H as <- <-. exists m, lg, m', sent. auto.
Qed.

Lemma caught_step_Fulfil s i s' out :
  step s (Run.Fulfil i) = Some (s', out) ->
  exists m lg n m1 o,
    WorkManager.work (Run.manager s) !! i = Some m /\
    Run.ledgers s !! i = Some lg /\
    Run.outstanding lg = S n /\
    BatchManager.processed m = Some (m1, o) /\
    let lg1 := Run.stored (Run.settled lg) in
    let w1 := Run.set_work i m1 (Run.manager s) in
    ((updateOffset w1 = None /\
      s' = Run.mk w1 (<[i := Run.broken lg1]> (Run.ledgers s)) /\
      out = [Run.WorkComplete i o; Run.Error Run.AssertionError]) \/
     (exists w2 changed m3 sent,
        updateOffset w1 = Some (w2, changed) /\
        BatchManager.next m1 = (m3, sent) /\
        s' = Run.mk (Run.set_work i m3 w2)
               (<[i := Run.launch sent (Run.cleared lg1)]> (Run.ledgers s)) /\
        out = Run.WorkComplete i o :: Run.changes changed ++ Run.sends i sent)).
Proof.
  simpl. intros H.
  destruct (WorkManager.work (Run.manager s) !! i) as [m|] eqn:Hm; [|discriminate].
  destruct (Run.ledgers s !! i) as [lg|] eqn:Hlg; [|discriminate].
  simpl in H. destruct (Run.outstanding lg) as [|n] eqn:Hn; [discriminate|].
  destruct (BatchManager.processed m) as [[m1 o]|] eqn:Hp; [|discriminate].
  simpl in H. exists m, lg, n, m1, o. repeat (split; [reflexivity || assumption|]).
  cbv zeta.
  destruct (Reading.updateOffset _ _) as [[w2 changed]|] eqn:Hu.
  - destruct (BatchManager.next m1) as [m3 sent] eqn:Hnext.
    injection H as <- <-. right. exists w2, changed, m3, sent. auto.
  - injection H as <- <-. left. auto.
Qed.

Lemma caught_step_Reject s i e s' out :
  step s (Run.Reject i e) = Some (s', out) ->
  exists m lg n,
    WorkManager.work (Run.manager s) !! i = Some m /\
    Run.ledgers s !! i = Some lg /\
    Run.outstanding lg = S n /\
    s' = Run.mk (Run.manager s) (<[i := Run.broken (Run.settled lg)]> (Run.ledgers s)) /\
    out = [Run.Error (Run.SendRejected e)].
Proof.
  simpl. intros H.
  destruct (WorkManager.work (Run.manager s) !! i) as [m|] eqn:Hm; [|discriminate].
  destruct (Run.ledgers s !! i) as [lg|] eqn:Hlg; [|discriminate].
  simpl in H. destruct (Run.outstanding lg) as [|n] eqn:Hn; [discriminate|].
  injection H as <- <-. exists m, lg, n. auto.
Qed.

Lemma caught_step_Close s s' out :
  step s Run.Close = Some (s', out) ->
  s' = Run.mk (WorkManager.close (Run.manager s)) (Run.ledgers s) /\ out = [].
Proof. simpl. intros [= <- <-]. auto. Qed.

Lemma caught_step_CloseOne s i s' out :
  step s (Run.CloseOne i) = Some (s', out) ->
  exists m,
    WorkManager.work (Run.manager s) !! i = Some m /\
    s' = Run.mk (Run.set_work i (BatchManager.close m) (Run.manager s)) (Run.ledgers s) /\
    out = [].
Proof.
  simpl. intros H.
  destruct (WorkManager.work (Run.manager s) !! i) as [m|] eqn:Hm; [|discriminate].
  simpl in H. injection H as <- <-. exists m. auto.
Qed.

Lemma caught_run_cons s ev evs s' out :
  run s (ev :: evs) = Some (s', out) ->
  exists s1 out1 out2,
    step s ev = Some (s1, out1) /\ run s1 evs = Some (s', out2) /\ out = out1 ++ out2.
Proof.
  cbn [Reading.run]. intros H.
  destruct (step s ev) as [[s1 out1]|] eqn:Hs; [|discriminate]. cbn [mbind option_bind] in H.
  destruct (run s1 evs) as [[s2 out2]|] eqn:Hr; [|discriminate]. cbn [mbind option_bind] in H.
  injection H as <- <-. exists s1, out1, out2. auto.
Qed.

Lemma caught_run_app_eq s evs1 evs2 :
  run s (evs1 ++ evs2) =
  match run s evs1 with
  | Some (s1, out1) =>
      match run s1 evs2 with
      | Some (s2, out2) => Some (s2, out1 ++ out2)
      | None => None
      end
  | None => None
  end.
Proof.
  revert s. induction evs1 as [|ev evs1 IH]; intros s; cbn [Reading.run app].
  - destruct (run s evs2) as [[s2 out2]|]; reflexivity.
  - destruct (step s ev) as [[s1 out1]|]; cbn [mbind option_bind]; [|reflexivity].
    rewrite IH. destruct (run s1 evs1) as [[s2 out2]|]; cbn [mbind option_bind]; [|reflexivity].
    destruct (run s2 evs2) as [[s3 out3]|]; cbn [mbind option_bind]; [|reflexivity].
    now rewrite app_assoc.
Qed.

Lemma caught_run_one s ev s' out :
  step s ev = Some (s', out) -> run s [ev] = Some (s', out).
Proof. intros H. cbn [Reading.run]. rewrite H. cbn [mbind option_bind]. now rewrite app_nil_r. Qed.

(** *** What holds in every execution *)

Lemma caught_AllSane_step s ev s' out :
  Inv.AllSane s -> step s ev = Some (s', out) -> Inv.AllSane s'.
Proof.
  unfold Inv.AllSane. intros HS Hstep. destruct ev as [i id value offset|i|i e| |i].
  - apply caught_step_Add in Hstep as (m & lg & m' & sent & Hm & Hlg & Hadd & -> & ->). simpl.
    apply Forall2_insert; auto.
    destruct (add_alike _ _ _ _ _ _ Hadd) as (m0 & Hadd0 & Hp & Hc & _ & Hh).
    eapply Sane_alike; eauto.
    eapply SaneFacts.Sane_add; eauto. eapply Forall2_lookup_lr; eauto.
  - apply caught_step_Fulfil in Hstep
      as (m & lg & n & m1 & o & Hm & Hlg & Hn & Hp & Hcases). cbv zeta in Hcases.
    pose proof (Forall2_lookup_lr _ _ _ _ _ _ HS Hm Hlg) as HSm.
    destruct Hcases as [(Hu & -> & ->) | (w2 & changed & m3 & sent & Hu & Hnext & -> & ->)];
      simpl.
    + apply Forall2_insert; auto. eapply SaneFacts.Sane_thrown; eauto.
    + apply CaughtUpFacts.caught_updateOffset_Some in Hu as (Hw & _). rewrite Hw. simpl.
      rewrite list_insert_insert_eq.
      apply Forall2_insert; auto. eapply SaneFacts.Sane_fulfil; eauto.
  - apply caught_step_Reject in Hstep as (m & lg & n & Hm & Hlg & Hn & -> & ->). simpl.
    pose proof (Forall2_lookup_lr _ _ _ _ _ _ HS Hm Hlg) as HSm.
    rewrite <- (list_insert_id _ _ _ Hm) at 1.
    apply Forall2_insert; auto. eapply SaneFacts.Sane_reject; eauto.
  - apply caught_step_Close in Hstep as [-> ->]. simpl.
    apply SaneFacts.Forall2_close; auto. apply SaneFacts.Sane_close.
  - apply caught_step_CloseOne in Hstep as (m & Hm & -> & ->). simpl.
    destruct (Forall2_lookup_l _ _ _ _ _ HS Hm) as (lg & Hlg & HSm).
    rewrite <- (list_insert_id _ _ _ Hlg).
    apply Forall2_insert; auto. now apply SaneFacts.Sane_close.
Qed.

(** *** What holds under strictly increasing offsets *)

Lemma Poised_new hi : Reading.Poised (T:=T) hi BatchManager.new.
Proof. split; simpl; try discriminate; auto. Qed.

Lemma Poised_weaken hi hi' m :
  Offset.le hi hi' -> Reading.Poised hi m -> Reading.Poised hi' m.
Proof.
  intros Hle [H1 H2 H3 H4]. split; auto. eapply OffsetFacts.le_trans; eauto.
Qed.

Lemma Poised_close hi m : Reading.Poised hi m -> Reading.Poised hi (BatchManager.close m).
Proof. intros [H1 H2 H3 H4]. split; auto. Qed.

(** A manager that holds a value has its tail below its head; one at rest
    has its tail at its head. *)
Lemma Poised_busy hi m :
  Reading.Poised hi m ->
  (OffsetBatch.isEmpty (BatchManager.pending m) = false \/
   OffsetBatch.isEmpty (BatchManager.current m) = false) ->
  Offset.lt (Range.tail (BatchManager.range m)) (Range.head (BatchManager.range m)).
Proof.
  intros [H1 H2 H3 H4] Hor.
  destruct (OffsetBatch.offset (BatchManager.pending m)) as [p|] eqn:Hp.
  - destruct (H3 p eq_refl) as [-> Hlt]. exact Hlt.
  - destruct Hor as [Hor | Hor].
    + apply ManagerFacts.isEmpty_false in Hor as [p Hp']. congruence.
    + apply ManagerFacts.isEmpty_false in Hor as [c Hc].
      destruct (H4 c Hc) as (Hlt & Hh & _). rewrite (Hh eq_refl). exact Hlt.
Qed.

Lemma Poised_rest hi m :
  Reading.Poised hi m -> Reading.atRest m ->
  Reading.caughtUp (BatchManager.range m) = true.
Proof.
  intros HP [Hp Hc]. apply CaughtUpFacts.caughtUp_true.
  apply (Reading.poised_rest _ _ HP); now apply ManagerFacts.isEmpty_true.
Qed.

Lemma Poised_caught hi m :
  Reading.Poised hi m -> Reading.caughtUp (BatchManager.range m) = true -> Reading.atRest m.
Proof.
  intros HP Hc. apply CaughtUpFacts.caughtUp_true in Hc.
  split.
  - destruct (OffsetBatch.isEmpty (BatchManager.pending m)) eqn:He; [reflexivity|].
    exfalso. eapply CaughtUpFacts.lt_neq; [|exact Hc]. eapply Poised_busy; eauto.
  - destruct (OffsetBatch.isEmpty (BatchManager.current m)) eqn:He; [reflexivity|].
    exfalso. eapply CaughtUpFacts.lt_neq; [|exact Hc]. eapply Poised_busy; eauto.
Qed.

Lemma Poised_proper hi m : Reading.Poised hi m -> Reading.proper (BatchManager.range m).
Proof.
  intros HP. unfold Reading.proper.
  destruct (Reading.caughtUp (BatchManager.range m)) eqn:Hc.
  - apply CaughtUpFacts.caughtUp_true in Hc. rewrite Hc. apply OffsetFacts.le_refl.
  - apply OffsetFacts.lt_le.
    destruct (OffsetBatch.isEmpty (BatchManager.pending m)) eqn:Hp.
    + destruct (OffsetBatch.isEmpty (BatchManager.current m)) eqn:Hcu.
      * rewrite (Poised_rest hi m HP (conj Hp Hcu)) in Hc. discriminate.
      * eapply Poised_busy; eauto.
    + eapply Poised_busy; eauto.
Qed.

(** The offset of the batch in flight is not above the head. *)
Lemma Poised_current_head hi m c :
  Reading.Poised hi m -> OffsetBatch.offset (BatchManager.current m) = Some c ->
  Offset.le (Fin c) (Range.head (BatchManager.range m)).
Proof.
  intros [H1 H2 H3 H4] Hc. destruct (H4 c Hc) as (_ & Hh & Hlt).
  destruct (OffsetBatch.offset (BatchManager.pending m)) as [p|] eqn:Hp.
  - destruct (H3 p eq_refl) as [-> _]. simpl. specialize (Hlt p eq_refl). lia.
  - rewrite (Hh eq_refl). apply OffsetFacts.le_refl.
Qed.

Lemma Poised_add hi m id value o m' sent :
  Reading.Poised hi m -> Offset.lt hi (Fin o) ->
  add id value o m = (m', sent) ->
  Reading.Poised (Fin o) m' /\ ~ Reading.atRest m' /\
  BatchManager.range m' = Reading.grown o (BatchManager.range m).
Proof.
  intros HP Hlt Hadd.
  pose proof (Poised_proper _ _ HP) as Hpr.
  assert (Htail : Offset.lt (Range.tail (Reading.grown o (BatchManager.range m))) (Fin o)).
  { unfold Reading.grown. simpl. destruct (Reading.caughtUp _); [apply CaughtUpFacts.lt_pred|].
    eapply OffsetFacts.le_lt_trans; [exact Hpr|].
    eapply OffsetFacts.le_lt_trans; [apply (Reading.poised_hi _ _ HP)|exact Hlt]. }
  destruct (caught_add_cases id value o m) as [[Hor Heq] | (Hc & Hcl & Heq)];
    rewrite Heq in Hadd; injection Hadd as <- <-.
  - split; [|split; [intros [Hp _]; discriminate|reflexivity]].
    split; simpl.
    + lia.
    + discriminate.
    + intros p [= <-]. auto.
    + intros c Hc.
      assert (Hbusy : Reading.caughtUp (BatchManager.range m) = false).
      { apply CaughtUpFacts.caughtUp_lt. eapply Poised_busy; eauto.
        right. apply ManagerFacts.isEmpty_false. eauto. }
      rewrite Hbusy. split; [apply (Reading.poised_current _ _ HP c Hc)|].
      split; [discriminate|]. intros p [= <-].
      pose proof (Poised_current_head _ _ _ HP Hc) as Hle.
      pose proof (OffsetFacts.le_lt_trans _ _ _ Hle
                    (OffsetFacts.le_lt_trans _ _ _ (Reading.poised_hi _ _ HP) Hlt)) as H.
      exact H.
  - split; [|split; [intros [_ Hc']; discriminate|reflexivity]].
    apply ManagerFacts.isEmpty_true in Hc.
    split; simpl.
    + lia.
    + discriminate.
    + intros p Hp. congruence.
    + intros c [= <-]. split; [exact Htail|]. split; [reflexivity|]. intros p Hp. congruence.
Qed.

Lemma Poised_fulfil hi m c m1 m3 sent :
  Reading.Poised hi m ->
  BatchManager.processed m = Some (m1, c) ->
  BatchManager.next m1 = (m3, sent) ->
  Reading.Poised hi m3 /\
  BatchManager.range m3 = BatchManager.range m1 /\
  BatchManager.range m1 = Range.mk (Fin c) (Range.head (BatchManager.range m)) /\
  Offset.lt (Range.tail (BatchManager.range m)) (Fin c) /\
  Reading.proper (BatchManager.range m1) /\
  (Reading.atRest m3 -> Reading.caughtUp (BatchManager.range m1) = true).
Proof.
  intros HP Hp Hnext.
  apply ManagerFacts.processed_Some in Hp as [Hc ->].
  destruct (Reading.poised_current _ _ HP c Hc) as (Hlt & Hh & Hcp).
  pose proof (Poised_current_head _ _ _ HP Hc) as Hle.
  destruct (ManagerFacts.next_cases
              (BatchManager.mk (Range.mk (Fin c) (Range.head (BatchManager.range m)))
                 (BatchManager.pending m) (BatchManager.current m) (BatchManager.closed m)))
    as [[Hor Heq] | (Hcl & He & Heq)]; rewrite Heq in Hnext; injection Hnext as <- <-;
    cbn [BatchManager.range BatchManager.pending BatchManager.current BatchManager.closed] in *.
  - split; [|repeat split; auto].
    + split; simpl.
      * apply (Reading.poised_hi _ _ HP).
      * intros Hp _. symmetry. now apply Hh.
      * intros p Hp. destruct (Reading.poised_pending _ _ HP p Hp) as [Hhd _].
        split; [exact Hhd|]. exact (Hcp p Hp).
      * discriminate.
    + intros [Hp _]. cbn [BatchManager.pending] in Hp.
      apply ManagerFacts.isEmpty_true in Hp.
      apply CaughtUpFacts.caughtUp_true. simpl. symmetry. now apply Hh.
  - apply ManagerFacts.isEmpty_false in He as [p Hp].
    destruct (Reading.poised_pending _ _ HP p Hp) as [Hhd _].
    split; [|repeat split; auto].
    + split; simpl.
      * apply (Reading.poised_hi _ _ HP).
      * intros _ Hc'. congruence.
      * discriminate.
      * intros c' Hc'. rewrite Hp in Hc'. injection Hc' as <-.
        split; [exact (Hcp p Hp)|]. split; [intros _; exact Hhd|discriminate].
    + intros [_ Hc']. cbn [BatchManager.current] in Hc'.
      apply ManagerFacts.isEmpty_true in Hc'. congruence.
Qed.

Lemma maxHead_insert (ws : list (BatchManager.t T)) i m m' :
  ws !! i = Some m ->
  Range.head (BatchManager.range m') = Range.head (BatchManager.range m) ->
  Reading.maxHead (<[i := m']> ws) = Reading.maxHead ws.
Proof.
  intros Hm Hh. apply CaughtUpFacts.maxHead_ext.
  rewrite <- (list_insert_id _ _ _ Hm) at 2.
  apply Forall2_insert; [|exact Hh].
  apply Forall_Forall2_diag, Forall_forall. reflexivity.
Qed.

Lemma maxHead_close (ws : list (BatchManager.t T)) :
  Reading.maxHead (List.map BatchManager.close ws) = Reading.maxHead ws.
Proof.
  apply CaughtUpFacts.maxHead_ext.
  induction ws as [|m ws IH]; simpl; constructor; auto.
Qed.

Lemma Settled_last hi s :
  Reading.Settled hi s -> Offset.le (WorkManager.lastOffset (Run.manager s)) hi.
Proof.
  intros HO. eapply OffsetFacts.le_trans; [apply (Reading.settled_below _ _ HO)|].
  apply CaughtUpFacts.maxHead_le.
  eapply Forall_impl; [apply (Reading.settled_poised _ _ HO)|].
  intros m HP. apply (Reading.poised_hi _ _ HP).
Qed.

Lemma Settled_Add hi s i id value o s' out :
  Reading.Settled hi s -> Offset.lt hi (Fin o) ->
  step s (Run.Add i id value o) = Some (s', out) ->
  Reading.Settled (Fin o) s'.
Proof.
  intros HO Hlt Hstep.
  pose proof (caught_AllSane_step _ _ _ _ (Reading.settled_sane _ _ HO) Hstep) as HS'.
  pose proof (Settled_last _ _ HO) as Hlast.
  apply caught_step_Add in Hstep as (m & lg & m' & sent & Hm & Hlg & Hadd & -> & ->).
  destruct HO as [HS HP Hlo Hbelow Hrest].
  pose proof (Forall_lookup_1 _ _ _ _ HP Hm) as HPm.
  destruct (Poised_add _ _ _ _ _ _ _ HPm Hlt Hadd) as (HPm' & Hbusy & Hrange).
  assert (Hi : (i < length (WorkManager.work (Run.manager s)))%nat)
    by (eapply lookup_lt_Some; eauto).
  split; simpl; auto.
  - apply Forall_insert; [|exact HPm'].
    eapply Forall_impl; [exact HP|]. intros x Hx.
    eapply Poised_weaken; [|exact Hx]. now apply OffsetFacts.lt_le.
  - intros j m0 Hj Hne.
    apply TidyFacts.lookup_insert_cases in Hj as [[-> ->] | [Hji Hj]]; [|eauto].
    rewrite Hrange in *. unfold Reading.grown in *. cbn [Range.tail] in *.
    destruct (Reading.caughtUp (BatchManager.range m)) eqn:He; [|eauto].
    eapply CaughtUpFacts.le_pred; eauto.
  - eapply OffsetFacts.le_trans;
      [|eapply CaughtUpFacts.head_le_maxHead; apply list_lookup_insert_eq; exact Hi].
    rewrite Hrange. cbn [Reading.grown Range.head].
    apply OffsetFacts.lt_le. eapply OffsetFacts.le_lt_trans; eauto.
  - intros Hall. exfalso. apply Hbusy.
    eapply Forall_lookup_1; [exact Hall|]. apply list_lookup_insert_eq. exact Hi.
Qed.

Lemma Settled_Fulfil hi s i s' out :
  Reading.Settled hi s ->
  step s (Run.Fulfil i) = Some (s', out) ->
  Reading.Settled hi s' /\ Course.errors out = [].
Proof.
  intros HO Hstep.
  pose proof (caught_AllSane_step _ _ _ _ (Reading.settled_sane _ _ HO) Hstep) as HS'.
  apply caught_step_Fulfil in Hstep
    as (m & lg & n & m1 & o & Hm & Hlg & Hn & Hp & Hcases). cbv zeta in Hcases.
  destruct HO as [HS HP Hlo Hbelow Hrest].
  pose proof (Forall_lookup_1 _ _ _ _ HP Hm) as HPm.
  pose proof (Forall2_lookup_lr _ _ _ _ _ _ HS Hm Hlg) as HSm.
  destruct (SaneFacts.Sane_busy _ _ _ HSm Hn) as (-> & Hf & Hc).
  assert (Hi : (i < length (WorkManager.work (Run.manager s)))%nat)
    by (eapply lookup_lt_Some; eauto).
  assert (Hbusy : Reading.caughtUp (BatchManager.range m) = false).
  { apply CaughtUpFacts.caughtUp_lt. eapply Poised_busy; eauto. }
  set (w1 := Run.set_work i m1 (Run.manager s)) in *.
  assert (Hm1in : WorkManager.work w1 !! i = Some m1).
  { unfold w1. simpl. apply list_lookup_insert_eq. exact Hi. }
  assert (Hother : forall j, j <> i ->
             WorkManager.work w1 !! j = WorkManager.work (Run.manager s) !! j).
  { intros j Hj. unfold w1. simpl. apply list_lookup_insert_ne. intros Heq. apply Hj. now symmetry. }
  destruct (Poised_fulfil _ _ _ _ _ _ HPm Hp (surjective_pairing (BatchManager.next m1)))
    as (_ & _ & Hr1 & Hold & Hpr1 & _).
  assert (Hhead1 : Range.head (BatchManager.range m1) = Range.head (BatchManager.range m)).
  { rewrite Hr1. reflexivity. }
  assert (Hproper : Forall (fun x : BatchManager.t T => Reading.proper (BatchManager.range x))
                      (WorkManager.work w1)).
  { unfold w1. simpl. apply Forall_insert; [|exact Hpr1].
    eapply Forall_impl; [exact HP|]. intros x Hx. eapply Poised_proper; eauto. }
  assert (Hmax1 : Reading.maxHead (WorkManager.work w1) =
                  Reading.maxHead (WorkManager.work (Run.manager s))).
  { unfold w1. simpl. eapply maxHead_insert; eauto. }
  assert (Hge : Offset.le (WorkManager.lastOffset w1) (derived w1)).
  { apply CaughtUpFacts.caught_derived_ge; [exact Hproper|apply OffsetFacts.le_refl|].
    intros m0 Hin0 Hne0. apply list_elem_of_In, list_elem_of_lookup in Hin0 as [j Hj].
    destruct (decide (j = i)) as [-> | Hji].
    - rewrite Hm1in in Hj. injection Hj as <-. rewrite Hr1. cbn [Range.tail].
      eapply OffsetFacts.le_trans; [eapply Hlo; eauto|]. now apply OffsetFacts.lt_le.
    - rewrite (Hother j Hji) in Hj. eapply Hlo; eauto. }
  assert (Hle : Offset.le (derived w1) (Reading.maxHead (WorkManager.work w1))).
  { destruct (CaughtUpFacts.caught_derived_cases w1 Hproper) as [[-> _] | (m0 & Hin0 & Hne0 & ->)].
    - apply CaughtUpFacts.max_lub; [|apply OffsetFacts.le_refl].
      rewrite Hmax1. exact Hbelow.
    - apply list_elem_of_In, list_elem_of_lookup in Hin0 as [j Hj].
      eapply OffsetFacts.le_trans; [|eapply CaughtUpFacts.head_le_maxHead; exact Hj].
      eapply Forall_lookup_1 in Hproper; [|exact Hj]. exact Hproper. }
  destruct Hcases as [(Hu & -> & ->) | (w2 & changed & m3 & sent & Hu & Hnext & -> & ->)].
  - exfalso. apply CaughtUpFacts.caught_updateOffset_None in Hu.
    exact (OffsetFacts.le_not_lt _ _ Hge Hu).
  - apply CaughtUpFacts.caught_updateOffset_Some in Hu as (Hw & Hl2 & Hch).
    destruct (Poised_fulfil _ _ _ _ _ _ HPm Hp Hnext) as (HPm3 & Hr3 & _ & _ & _ & Hrest3).
    assert (Hwork : WorkManager.work (Run.set_work i m3 w2) =
                    <[i := m3]> (WorkManager.work (Run.manager s))).
    { simpl. rewrite Hw. unfold w1. simpl. apply list_insert_insert_eq. }
    assert (Hmax3 : Reading.maxHead (<[i := m3]> (WorkManager.work (Run.manager s))) =
                    Reading.maxHead (WorkManager.work w1)).
    { rewrite Hmax1. eapply maxHead_insert; eauto. rewrite Hr3. exact Hhead1. }
    split.
    + split; cbn [Run.manager Run.ledgers]; auto.
      * rewrite Hwork. apply Forall_insert; auto.
      * rewrite Hwork. intros j m0 Hj Hne0.
        cbn [Run.set_work WorkManager.lastOffset]. rewrite Hl2.
        apply TidyFacts.lookup_insert_cases in Hj as [[-> ->] | [Hji Hj]].
        -- rewrite Hr3 in *. apply (CaughtUpFacts.caught_derived_le_tail w1 m1); auto.
           eapply TidyFacts.lookup_In; eauto.
        -- apply (CaughtUpFacts.caught_derived_le_tail w1 m0); auto.
           eapply TidyFacts.lookup_In. rewrite (Hother j Hji). exact Hj.
      * rewrite Hwork, Hmax3. cbn [Run.set_work WorkManager.lastOffset]. rewrite Hl2. exact Hle.
      * rewrite Hwork, Hmax3. cbn [Run.set_work WorkManager.lastOffset]. rewrite Hl2.
        intros Hall.
        destruct (CaughtUpFacts.caught_derived_cases w1 Hproper)
          as [[-> _] | (m0 & Hin0 & Hne0 & _)].
        -- apply CaughtUpFacts.max_right. rewrite Hmax1. exact Hbelow.
        -- exfalso. apply list_elem_of_In, list_elem_of_lookup in Hin0 as [j Hj].
           destruct (decide (j = i)) as [-> | Hji].
           ++ rewrite Hm1in in Hj. injection Hj as <-.
              rewrite Hrest3 in Hne0; [discriminate|].
              eapply Forall_lookup_1; [exact Hall|]. apply list_lookup_insert_eq. exact Hi.
           ++ rewrite (Hother j Hji) in Hj.
              rewrite (Poised_rest hi m0) in Hne0; [discriminate| |].
              ** eapply Forall_lookup_1; eauto.
              ** apply (Forall_lookup_1 _ _ j _ Hall).
                 rewrite list_lookup_insert_ne by (intros Heq; apply Hji; now symmetry).
                 exact Hj.
    + simpl. rewrite CourseFacts.errors_app, CourseFacts.errors_changes,
        CourseFacts.errors_sends. reflexivity.
Qed.

Lemma Settled_Reject hi s i e s' out :
  Reading.Settled hi s ->
  step s (Run.Reject i e) = Some (s', out) ->
  Reading.Settled hi s'.
Proof.
  intros HO Hstep.
  pose proof (caught_AllSane_step _ _ _ _ (Reading.settled_sane _ _ HO) Hstep) as HS'.
  apply caught_step_Reject in Hstep as (m & lg & n & Hm & Hlg & Hn & -> & ->).
  destruct HO as [HS HP Hlo Hbelow Hrest]. split; simpl; auto.
Qed.

Lemma atRest_close m : Reading.atRest (BatchManager.close m) <-> Reading.atRest m.
Proof. reflexivity. Qed.

Lemma Settled_Close hi s s' out :
  Reading.Settled hi s ->
  step s Run.Close = Some (s', out) ->
  Reading.Settled hi s'.
Proof.
  intros HO Hstep.
  pose proof (caught_AllSane_step _ _ _ _ (Reading.settled_sane _ _ HO) Hstep) as HS'.
  apply caught_step_Close in Hstep as [-> ->].
  destruct HO as [HS HP Hlo Hbelow Hrest].
  split; simpl; auto.
  - apply List.Forall_map. eapply Forall_impl; [exact HP|]. intros x. apply Poised_close.
  - intros j m0 Hj Hne. apply TidyFacts.lookup_close in Hj as (m & Hj & ->).
    simpl in *. eapply Hlo; eauto.
  - now rewrite maxHead_close.
  - rewrite maxHead_close. intros Hall. apply Hrest.
    apply (proj1 (List.Forall_map _ _ _)) in Hall. eapply Forall_impl; [exact Hall|].
    intros x Hx. now apply atRest_close.
Qed.

Lemma Settled_CloseOne hi s i s' out :
  Reading.Settled hi s ->
  step s (Run.CloseOne i) = Some (s', out) ->
  Reading.Settled hi s'.
Proof.
  intros HO Hstep.
  pose proof (caught_AllSane_step _ _ _ _ (Reading.settled_sane _ _ HO) Hstep) as HS'.
  apply caught_step_CloseOne in Hstep as (m & Hm & -> & ->).
  destruct HO as [HS HP Hlo Hbelow Hrest].
  assert (Hi : (i < length (WorkManager.work (Run.manager s)))%nat)
    by (eapply lookup_lt_Some; eauto).
  split; simpl; auto.
  - apply Forall_insert; auto. apply Poised_close. eapply Forall_lookup_1; eauto.
  - intros j m0 Hj Hne.
    apply TidyFacts.lookup_insert_cases in Hj as [[-> ->] | [Hji Hj]]; simpl in *;
      eapply Hlo; eauto.
  - erewrite maxHead_insert; eauto.
  - erewrite maxHead_insert; eauto. intros Hall. apply Hrest.
    apply Forall_lookup. intros j x Hj. destruct (decide (j = i)) as [-> | Hji].
    + rewrite Hm in Hj. injection Hj as <-. apply (proj1 (atRest_close m)).
      apply (Forall_lookup_1 _ _ i _ Hall). apply list_lookup_insert_eq. exact Hi.
    + apply (Forall_lookup_1 _ _ j _ Hall).
      rewrite list_lookup_insert_ne by (intros Heq; apply Hji; now symmetry). exact Hj.
Qed.

Lemma Settled_step hi s ev s' out :
  Reading.Settled hi s -> Inv.admissible hi ev ->
  step s ev = Some (s', out) ->
  Reading.Settled (Inv.mark hi ev) s' /\
  (Course.fulfils ev -> Course.errors out = []).
Proof.
  intros HO Had Hstep.
  destruct ev as [i id value offset|i|i e| |i]; cbn [Inv.admissible Inv.mark] in *.
  - split; [eapply Settled_Add; eauto|intros []].
  - destruct (Settled_Fulfil _ _ _ _ _ HO Hstep). auto.
  - split; [eapply Settled_Reject; eauto|intros []].
  - split; [eapply Settled_Close; eauto|intros []].
  - split; [eapply Settled_CloseOne; eauto|intros []].
Qed.

Lemma Settled_init n : Reading.Settled NegInf (Run.init (T:=T) n).
Proof.
  pose proof (SaneFacts.init_work (T:=T) n) as Hwork.
  pose proof (SaneFacts.init_last (T:=T) n) as Hlast.
  split.
  - apply SaneFacts.AllSane_init.
  - rewrite Hwork. apply Forall_forall. intros x Hx.
    apply elem_of_replicate in Hx as [-> _]. apply Poised_new.
  - intros j m Hj Hne. rewrite Hwork in Hj. apply lookup_replicate in Hj as [-> _].
    discriminate.
  - rewrite Hlast. exact I.
  - intros _. rewrite Hlast, Hwork. symmetry. apply CaughtUpFacts.maxHead_new.
Qed.

(** Along an execution whose offsets increase strictly the invariant
    holds. *)
Lemma Settled_run hi s evs rest s' out :
  Reading.Settled hi s ->
  Trace.ascending_from hi (Run.offsetsOf (evs ++ rest)) = true ->
  run s evs = Some (s', out) ->
  exists hi', Reading.Settled hi' s' /\
              Trace.ascending_from hi' (Run.offsetsOf rest) = true.
Proof.
  revert hi s out. induction evs as [|ev evs IH]; intros hi s out HO Hasc Hrun.
  - cbn [Reading.run] in Hrun. injection Hrun as <- <-. exists hi. auto.
  - apply caught_run_cons in Hrun as (s1 & out1 & out2 & Hs & Hr & ->).
    assert (Had : Inv.admissible hi ev /\
                  Trace.ascending_from (Inv.mark hi ev) (Run.offsetsOf (evs ++ rest)) = true).
    { destruct ev; simpl in *; auto.
      apply andb_true_iff in Hasc as [H1 H2]. split; auto.
      apply OffsetFacts.leb_gt. now apply negb_true_iff. }
    destruct Had as [Had Hasc'].
    destruct (Settled_step _ _ _ _ _ HO Had Hs) as [HO1 _].
    exact (IH _ _ _ HO1 Hasc' Hr).
Qed.

(** *** The sends in flight fulfil *)

Lemma Keen_step s ev s' out :
  Forall Course.Keen (WorkManager.work (Run.manager s)) ->
  step s ev = Some (s', out) ->
  Forall Course.Keen (WorkManager.work (Run.manager s')).
Proof.
  intros HK Hstep. destruct ev as [i id value offset|i|i e| |i].
  - apply caught_step_Add in Hstep as (m & lg & m' & sent & Hm & Hlg & Hadd & -> & ->). simpl.
    apply Forall_insert; [exact HK|].
    destruct (caught_add_cases id value offset m) as [[Hor Heq] | (_ & _ & Heq)];
      rewrite Heq in Hadd; injection Hadd as <- <-; intros Hcl Hc; simpl in *.
    + destruct Hor; congruence.
    + discriminate.
  - apply caught_step_Fulfil in Hstep
      as (m & lg & n & m1 & o & Hm & Hlg & Hn & Hp & Hcases). cbv zeta in Hcases.
    pose proof (Forall_lookup_1 _ _ _ _ HK Hm) as HKm.
    apply ManagerFacts.processed_Some in Hp as [_ ->].
    destruct Hcases as [(Hu & -> & ->) | (w2 & changed & m3 & sent & Hu & Hnext & -> & ->)];
      simpl.
    + apply Forall_insert; [exact HK|]. exact HKm.
    + apply CaughtUpFacts.caught_updateOffset_Some in Hu as (Hw & _). rewrite Hw. simpl.
      rewrite list_insert_insert_eq. apply Forall_insert; [exact HK|].
      destruct (ManagerFacts.next_cases
                  (BatchManager.mk (Range.mk (Fin o) (Range.head (BatchManager.range m)))
                     (BatchManager.pending m) (BatchManager.current m)
                     (BatchManager.closed m)))
        as [[Hor Heq] | (_ & He & Heq)]; rewrite Heq in Hnext; injection Hnext as <- <-;
        intros Hcl Hc; simpl in *.
      * destruct Hor; congruence.
      * congruence.
  - apply caught_step_Reject in Hstep as (m & lg & n & Hm & Hlg & Hn & -> & ->). exact HK.
  - apply caught_step_Close in Hstep as [-> ->]. simpl.
    apply List.Forall_map. apply Forall_forall. intros x _ Hcl. discriminate.
  - apply caught_step_CloseOne in Hstep as (m & Hm & -> & ->). simpl.
    apply Forall_insert; [exact HK|]. intros Hcl. discriminate.
Qed.

Lemma Keen_run s evs s' out :
  Forall Course.Keen (WorkManager.work (Run.manager s)) ->
  run s evs = Some (s', out) ->
  Forall Course.Keen (WorkManager.work (Run.manager s')).
Proof.
  revert s out. induction evs as [|ev evs IH]; intros s out HK Hrun.
  - cbn [Reading.run] in Hrun. injection Hrun as <- <-. exact HK.
  - apply caught_run_cons in Hrun as (s1 & out1 & out2 & Hs & Hr & ->).
    eapply IH; [|exact Hr]. eapply Keen_step; eauto.
Qed.

Lemma Keen_init n : Forall Course.Keen (WorkManager.work (Run.manager (Run.init (T:=T) n))).
Proof.
  rewrite SaneFacts.init_work. apply Forall_forall. intros x Hx.
  apply elem_of_replicate in Hx as [-> _]. intros _ _. reflexivity.
Qed.

(** The send in flight of an open manager fulfils: no error, the other
    managers as they were, and this one at rest or with its next, last batch
    in flight. *)
Lemma caught_pump hi s i m lg :
  Reading.Settled hi s ->
  WorkManager.work (Run.manager s) !! i = Some m ->
  Run.ledgers s !! i = Some lg ->
  Run.outstanding lg = 1%nat ->
  BatchManager.closed m = false ->
  exists s' out m' lg',
    step s (Run.Fulfil i) = Some (s', out) /\
    Reading.Settled hi s' /\
    Course.errors out = [] /\
    (forall j, j <> i ->
       WorkManager.work (Run.manager s') !! j = WorkManager.work (Run.manager s) !! j /\
       Run.ledgers s' !! j = Run.ledgers s !! j) /\
    WorkManager.work (Run.manager s') !! i = Some m' /\
    Run.ledgers s' !! i = Some lg' /\
    BatchManager.closed m' = false /\
    ((OffsetBatch.isEmpty (BatchManager.pending m) = true /\ Reading.atRest m') \/
     (OffsetBatch.isEmpty (BatchManager.pending m) = false /\
      Run.outstanding lg' = 1%nat /\
      OffsetBatch.isEmpty (BatchManager.pending m') = true)).
Proof.
  intros HO Hm Hlg Hout Hcl.
  assert (Hi : (i < length (WorkManager.work (Run.manager s)))%nat)
    by (eapply lookup_lt_Some; eauto).
  assert (Hi' : (i < length (Run.ledgers s))%nat) by (eapply lookup_lt_Some; eauto).
  pose proof (Forall2_lookup_lr _ _ _ _ _ _ (Reading.settled_sane _ _ HO) Hm Hlg) as HSm.
  destruct (SaneFacts.Sane_busy _ _ _ HSm Hout) as (_ & Hf & Hc).
  apply ManagerFacts.isEmpty_false in Hc as [c Hc].
  destruct (step s (Run.Fulfil i)) as [[s' out]|] eqn:Hstep.
  2:{ exfalso. cbn [Reading.step] in Hstep. rewrite Hm, Hlg in Hstep.
      cbn [mbind option_bind] in Hstep.
      rewrite Hout in Hstep. unfold BatchManager.processed in Hstep.
      rewrite Hc in Hstep. cbn [mbind option_bind] in Hstep.
      destruct (Reading.updateOffset _ _) as [[w2 changed]|]; [|discriminate].
      destruct (BatchManager.next _); discriminate. }
  destruct (Settled_Fulfil _ _ _ _ _ HO Hstep) as [HO' Hno].
  apply caught_step_Fulfil in Hstep
    as (m0 & lg0 & n & m1 & o & Hm0 & Hlg0 & Hn & Hp & Hcases). cbv zeta in Hcases.
  rewrite Hm in Hm0. rewrite Hlg in Hlg0. injection Hm0 as <-. injection Hlg0 as <-.
  apply ManagerFacts.processed_Some in Hp as [_ ->].
  destruct Hcases as [(_ & _ & ->) | (w2 & changed & m3 & sent & Hu & Hnext & -> & ->)].
  { discriminate. }
  apply CaughtUpFacts.caught_updateOffset_Some in Hu as (Hw & _). simpl in Hw.
  exists (Run.mk (Run.set_work i m3 w2)
            (<[i := Run.launch sent (Run.cleared (Run.stored (Run.settled lg)))]>
               (Run.ledgers s))),
    (Run.WorkComplete i o :: Run.changes changed ++ Run.sends i sent),
    m3, (Run.launch sent (Run.cleared (Run.stored (Run.settled lg)))).
  split; [reflexivity|]. split; [exact HO'|]. split; [exact Hno|].
  simpl. rewrite Hw, list_insert_insert_eq.
  split.
  { intros j Hj. rewrite !list_lookup_insert_ne by congruence. auto. }
  rewrite !list_lookup_insert_eq by assumption.
  split; [reflexivity|]. split; [reflexivity|].
  destruct (ManagerFacts.next_cases
              (BatchManager.mk (Range.mk (Fin o) (Range.head (BatchManager.range m)))
                 (BatchManager.pending m) (BatchManager.current m) (BatchManager.closed m)))
    as [[Hor Heq] | (_ & He & Heq)]; rewrite Heq in Hnext; injection Hnext as <- <-;
    simpl in *.
  - split; [exact Hcl|]. left.
    destruct Hor as [Hor | Hor]; [congruence|]. split; [exact Hor|].
    split; [exact Hor|reflexivity].
  - split; [reflexivity|]. right. split; [exact He|]. rewrite Hout. split; reflexivity.
Qed.

(** An open manager that has not failed comes to rest after at most two
    fulfilments. *)
Lemma caught_drain_one hi s i m lg :
  Reading.Settled hi s ->
  WorkManager.work (Run.manager s) !! i = Some m ->
  Run.ledgers s !! i = Some lg ->
  BatchManager.closed m = false ->
  Run.failed lg = false ->
  Course.Keen m ->
  exists settle s' out m',
    Forall Course.fulfils settle /\
    (length settle <= 2)%nat /\
    run s settle = Some (s', out) /\
    Reading.Settled hi s' /\
    Course.errors out = [] /\
    (forall j, j <> i ->
       WorkManager.work (Run.manager s') !! j = WorkManager.work (Run.manager s) !! j /\
       Run.ledgers s' !! j = Run.ledgers s !! j) /\
    WorkManager.work (Run.manager s') !! i = Some m' /\
    Reading.atRest m'.
Proof.
  intros HO Hm Hlg Hcl Hf HK.
  pose proof (Forall2_lookup_lr _ _ _ _ _ _ (Reading.settled_sane _ _ HO) Hm Hlg) as HSm.
  pose proof (Inv.sane_once _ _ HSm) as Honce.
  destruct (Run.outstanding lg) as [|k] eqn:Hout.
  - exists [], s, [], m. split; [constructor|]. split; [simpl; lia|].
    split; [reflexivity|]. split; [exact HO|]. split; [reflexivity|].
    split; [auto|]. split; [exact Hm|].
    assert (Hc : OffsetBatch.isEmpty (BatchManager.current m) = true).
    { destruct (OffsetBatch.isEmpty (BatchManager.current m)) eqn:Hc; [reflexivity|].
      destruct (Inv.sane_current _ _ HSm Hc); congruence. }
    split; auto.
  - assert (k = 0%nat) as -> by lia.
    destruct (caught_pump _ _ _ _ _ HO Hm Hlg Hout Hcl)
      as (s1 & out1 & m1 & lg1 & Hs1 & HO1 & He1 & Hoth1 & Hm1 & Hlg1 & Hcl1 & Hcase).
    destruct Hcase as [[_ Hd] | (_ & Hout1 & Hp1)].
    + exists [Run.Fulfil i], s1, out1, m1. split; [repeat constructor|].
      split; [simpl; lia|]. split; [now apply caught_run_one|]. auto 10.
    + destruct (caught_pump _ _ _ _ _ HO1 Hm1 Hlg1 Hout1 Hcl1)
        as (s2 & out2 & m2 & lg2 & Hs2 & HO2 & He2 & Hoth2 & Hm2 & Hlg2 & Hcl2 & Hcase).
      destruct Hcase as [[_ Hd] | (Hp1' & _)]; [|congruence].
      exists [Run.Fulfil i; Run.Fulfil i], s2, (out1 ++ out2), m2.
      split; [repeat constructor|]. split; [simpl; lia|].
      split.
      { change [Run.Fulfil i; Run.Fulfil i]
          with ([Run.Fulfil (K:=K) (T:=T) (E:=E) i] ++ [Run.Fulfil i]).
        rewrite caught_run_app_eq, (caught_run_one _ _ _ _ Hs1), (caught_run_one _ _ _ _ Hs2).
        reflexivity. }
      split; [exact HO2|]. split; [now rewrite CourseFacts.errors_app, He1, He2|].
      split; [|auto].
      intros j Hj. destruct (Hoth1 j Hj) as [<- <-]. now apply Hoth2.
Qed.

(** The managers come to rest one after the other. *)
Lemma caught_drain_upto hi s k :
  Reading.Settled hi s ->
  (forall j m, WorkManager.work (Run.manager s) !! j = Some m ->
               BatchManager.closed m = false /\ Course.Keen m) ->
  (forall j lg, Run.ledgers s !! j = Some lg -> Run.failed lg = false) ->
  (k <= length (WorkManager.work (Run.manager s)))%nat ->
  exists settle s' out,
    Forall Course.fulfils settle /\
    (length settle <= 2 * k)%nat /\
    run s settle = Some (s', out) /\
    Reading.Settled hi s' /\
    Course.errors out = [] /\
    (forall j m, (j < k)%nat -> WorkManager.work (Run.manager s') !! j = Some m ->
                 Reading.atRest m) /\
    (forall j, (k <= j)%nat ->
       WorkManager.work (Run.manager s') !! j = WorkManager.work (Run.manager s) !! j /\
       Run.ledgers s' !! j = Run.ledgers s !! j) /\
    length (WorkManager.work (Run.manager s')) = length (WorkManager.work (Run.manager s)).
Proof.
  intros HO Hopen Hsound. induction k as [|k IH]; intros Hk.
  - exists [], s, []. split; [constructor|]. split; [simpl; lia|].
    split; [reflexivity|]. split; [exact HO|]. split; [reflexivity|].
    split; [intros j lg Hj; lia|auto].
  - destruct IH as (settle1 & s1 & out1 & Hf1 & Hl1 & Hr1 & HO1 & He1 & Hd1 & Hoth1 & Hlen1);
      [lia|].
    destruct (Hoth1 k) as [Hwk Hlk]; [lia|].
    assert (Hlen : length (WorkManager.work (Run.manager s)) = length (Run.ledgers s)).
    { eapply Forall2_length. exact (Reading.settled_sane _ _ HO). }
    destruct (lookup_lt_is_Some_2 (Run.ledgers s) k) as [lg Hlg]; [lia|].
    destruct (lookup_lt_is_Some_2 (WorkManager.work (Run.manager s)) k) as [m Hm]; [lia|].
    destruct (Hopen _ _ Hm) as [Hcl HK].
    rewrite Hm in Hwk. rewrite Hlg in Hlk.
    destruct (caught_drain_one _ _ _ _ _ HO1 Hwk Hlk Hcl (Hsound _ _ Hlg) HK)
      as (settle2 & s2 & out2 & m2 & Hf2 & Hl2 & Hr2 & HO2 & He2 & Hoth2 & Hm2 & Hd2).
    exists (settle1 ++ settle2), s2, (out1 ++ out2).
    split; [now apply Forall_app|]. split; [rewrite length_app; lia|].
    split; [rewrite caught_run_app_eq, Hr1, Hr2; reflexivity|].
    split; [exact HO2|]. split; [now rewrite CourseFacts.errors_app, He1, He2|].
    split; [|split].
    + intros j m' Hj Hm'. destruct (decide (j = k)) as [-> | Hne].
      * rewrite Hm2 in Hm'. now injection Hm' as <-.
      * destruct (Hoth2 j Hne) as [Heq _]. rewrite Heq in Hm'.
        apply (Hd1 j); [lia|exact Hm'].
    + intros j Hj. destruct (Hoth2 j) as [-> ->]; [lia|]. apply Hoth1. lia.
    + rewrite <- Hlen1.
      assert (Hk1 : (k < length (WorkManager.work (Run.manager s1)))%nat)
        by (eapply lookup_lt_Some; exact Hwk).
      assert (Hk2 : (k < length (WorkManager.work (Run.manager s2)))%nat)
        by (eapply lookup_lt_Some; exact Hm2).
      apply Nat.le_antisymm.
      * destruct (Nat.le_gt_cases (length (WorkManager.work (Run.manager s2)))
                    (length (WorkManager.work (Run.manager s1)))) as [Hle | Hgt]; [exact Hle|].
        exfalso.
        destruct (lookup_lt_is_Some_2 (WorkManager.work (Run.manager s2))
                    (length (WorkManager.work (Run.manager s1)))) as [x Hx]; [lia|].
        destruct (Hoth2 (length (WorkManager.work (Run.manager s1)))) as [Heq _]; [lia|].
        rewrite Heq in Hx. apply lookup_lt_Some in Hx. lia.
      * destruct (Nat.le_gt_cases (length (WorkManager.work (Run.manager s1)))
                    (length (WorkManager.work (Run.manager s2)))) as [Hle | Hgt]; [exact Hle|].
        exfalso.
        destruct (lookup_lt_is_Some_2 (WorkManager.work (Run.manager s1))
                    (length (WorkManager.work (Run.manager s2)))) as [x Hx]; [lia|].
        destruct (Hoth2 (length (WorkManager.work (Run.manager s2)))) as [Heq _]; [lia|].
        rewrite <- Heq in Hx. apply lookup_lt_Some in Hx. lia.
Qed.

(** Fulfilments leave the heads as they are. *)
Lemma fulfils_heads s settle s' out :
  Forall Course.fulfils settle ->
  run s settle = Some (s', out) ->
  Reading.maxHead (WorkManager.work (Run.manager s')) =
  Reading.maxHead (WorkManager.work (Run.manager s)).
Proof.
  intros Hf. revert s out. induction Hf as [|ev settle Hev _ IH]; intros s out Hrun.
  - cbn [Reading.run] in Hrun. now injection Hrun as <- <-.
  - apply caught_run_cons in Hrun as (s1 & out1 & out2 & Hs & Hr & ->).
    rewrite (IH _ _ Hr). destruct ev as [i id value offset|i|i e| |i]; try destruct Hev.
    apply caught_step_Fulfil in Hs
      as (m & lg & n & m1 & o & Hm & Hlg & Hn & Hp & Hcases). cbv zeta in Hcases.
    apply ManagerFacts.processed_Some in Hp as [_ Hm1].
    destruct Hcases as [(Hu & -> & ->) | (w2 & changed & m3 & sent & Hu & Hnext & -> & ->)];
      simpl.
    + eapply maxHead_insert; eauto. rewrite Hm1. reflexivity.
    + apply CaughtUpFacts.caught_updateOffset_Some in Hu as (Hw & _). rewrite Hw. simpl.
      rewrite list_insert_insert_eq. eapply maxHead_insert; eauto.
      rewrite (TidyFacts.next_range _ _ _ Hnext), Hm1. reflexivity.
Qed.

End Settled.

End SettledFacts.

Section HostingReading.
Variable JSON_stringify : ScriptoriumLambda.Key -> string.
Variable JSON_parse : string -> IMongoTarget.t.
Variable stringify : JSON -> string.
Variable safelyParseJSON : string -> option Payload.t.
Variable opCollection : ICollection.
Variable contentCollection : option ICollection.

Local Abbreviation step := (Reading.step (E:=Js.Error) Reading.caughtUp JSON_stringify).
Local Abbreviation run := (Reading.run (E:=Js.Error) Reading.caughtUp JSON_stringify).
Local Abbreviation react :=
  (Reading.react Reading.caughtUp JSON_stringify JSON_parse stringify safelyParseJSON
     opCollection contentCollection).
Local Abbreviation exec :=
  (Reading.exec Reading.caughtUp JSON_stringify JSON_parse stringify safelyParseJSON
     opCollection contentCollection).
Local Abbreviation processMongoBatch :=
  (ScriptoriumLambda.processMongoBatch JSON_parse opCollection contentCollection).
Local Abbreviation treated :=
  (Reading.treated JSON_stringify JSON_parse stringify safelyParseJSON
     opCollection contentCollection).

Lemma reading_exec_observe inputs evs s :
  Forall2 treated inputs evs ->
  exec s inputs = ScriptoriumLambda.observe (run s evs).
Proof.
  intros H. revert s. induction H as [|i ev inputs evs Hi _ IH]; intros s.
  - reflexivity.
  - cbn [Reading.exec Reading.run]. rewrite (Hi s).
    unfold ScriptoriumLambda.observe at 1.
    destruct (step s ev) as [[s1 out1]|]; cbn [mbind option_bind]; [|reflexivity].
    rewrite IH. unfold ScriptoriumLambda.observe.
    destruct (run s1 evs) as [[s2 out2]|]; cbn [mbind option_bind]; [|reflexivity].
    now rewrite List.map_app, List.concat_app.
Qed.

Lemma reading_treated_sequenced message payload :
  safelyParseJSON (Inbound.value message) = Some payload ->
  Payload.type payload = ScriptoriumLambda.SequencedOperationType ->
  treated (ScriptoriumLambda.Handle message) (Host.sequencedAdd stringify message payload).
Proof.
  intros Hp Ht s. cbn [Reading.react]. unfold Reading.handler.
  rewrite Hp, Ht, String.eqb_refl. reflexivity.
Qed.

Lemma reading_treated_other message payload :
  safelyParseJSON (Inbound.value message) = Some payload ->
  String.eqb (Payload.type payload) ScriptoriumLambda.SequencedOperationType = false ->
  treated (ScriptoriumLambda.Handle message) (Host.idleAdd message).
Proof.
  intros Hp Ht s. cbn [Reading.react]. unfold Reading.handler.
  rewrite Hp, Ht. reflexivity.
Qed.

Lemma reading_treated_idle :
  treated ScriptoriumLambda.IdleSettles (Run.Fulfil ScriptoriumLambda.idleManager).
Proof. intros s. reflexivity. Qed.

Lemma reading_treated_mongo :
  (forall batch, Promise.outcome (processMongoBatch batch) = Fulfilled) ->
  treated ScriptoriumLambda.MongoSettles (Run.Fulfil ScriptoriumLambda.mongoManager).
Proof.
  intros H s. cbn [Reading.react]. unfold Reading.mongoSettles.
  destruct (WorkManager.work (Run.manager s) !! ScriptoriumLambda.mongoManager) as [m|] eqn:Hm.
  - cbn [mbind option_bind]. now rewrite H.
  - cbn [mbind option_bind]. cbn [Reading.step].
    unfold ScriptoriumLambda.mongoManager in *. now rewrite Hm.
Qed.

End HostingReading.

(** In the state after [Reading.stalled] no settlement is due and [close]
    changes nothing, whatever [Range.empty] is: the state stays as it is
    until a message arrives. *)
Lemma stalled_step (empty : Range.t -> bool) (ev : Demo.Event) s' out :
  Run.offsetsOf [ev] = [] ->
  Reading.step empty Demo.encode Reading.stalledState ev = Some (s', out) ->
  s' = Reading.stalledState.
Proof.
  intros Hoff Hstep. destruct ev as [i id value offset|i|i e| |i].
  - discriminate.
  - destruct i as [|[|i]]; discriminate.
  - destruct i as [|[|i]]; discriminate.
  - injection Hstep as <- _. reflexivity.
  - destruct i as [|[|i]]; try discriminate; injection Hstep as <- _; reflexivity.
Qed.

Lemma stalled_run (empty : Range.t -> bool) (settle : list Demo.Event) s' out :
  Run.offsetsOf settle = [] ->
  Reading.run empty Demo.encode Reading.stalledState settle = Some (s', out) ->
  s' = Reading.stalledState.
Proof.
  revert out. induction settle as [|ev settle IH]; intros out Hoff Hrun.
  - cbn [Reading.run] in Hrun. now injection Hrun as <- _.
  - assert (Hev : Run.offsetsOf [ev] = [] /\ Run.offsetsOf settle = []).
    { destruct ev; simpl in *; auto. discriminate. }
    destruct Hev as [Hev Hrest].
    cbn [Reading.run] in Hrun.
    destruct (Reading.step empty Demo.encode Reading.stalledState ev) as [[s1 out1]|] eqn:Hs;
      [|discriminate].
    cbn [mbind option_bind] in Hrun.
    rewrite (stalled_step _ _ _ _ Hev Hs) in Hrun.
    destruct (Reading.run empty Demo.encode Reading.stalledState settle) as [[s2 out2]|] eqn:Hr;
      [|discriminate].
    cbn [mbind option_bind] in Hrun. injection Hrun as <- _.
    eapply IH; eauto.
Qed.

(** Under the first reading of [Range.empty] (true when [head] is the
    sentinel) the same run ends at 3: the range of the mongo manager stays
    [3, 3], is never empty again and keeps the union's tail at 3.  The two
    readings differ on Scenario C. *)
Lemma scenarioC_under_sentinel :
  exists s out,
    LambdaDemo.exec ScriptoriumLambda.new LambdaDemo.scenarioC = Some (s, out) /\
    Host.checkpoints out = [Fin 0; Fin 1; Fin 3] /\
    WorkManager.lastOffset (Run.manager s) = Fin 3.
Proof.
  exists (LambdaDemo.after LambdaDemo.scenarioC), (LambdaDemo.outputs LambdaDemo.scenarioC).
  split; [vm_compute; reflexivity|]. split; vm_compute; reflexivity.
Qed.



